(** * Backward pass of the tile-based Gaussian rasterizer (backward.cu)

    A shallow embedding of the four device routines of
    [cuda_rasterizer/backward.cu] and of the two host entry points that
    launch them, followed by the properties established about them.

    The kernels compute on [float].  The embedding is written once, over an
    interface [FloatArith] listing the operations the code applies to
    [float] values, and is then run on two implementations of it:
    - [binary32]: IEEE 754 single precision, round to nearest even, built on
      the Standard Library's [SpecFloat];
    - [Qc]: exact rational arithmetic, used where a property speaks of the
      real-number value of an expression.
    Properties stated over the interface hold for both. *)

From Stdlib Require Import ZArith List Bool Lia Ring.
From Stdlib Require Import QArith Qcanon Lqa.
From Stdlib Require Import Floats.SpecFloat.
Import ListNotations.

Close Scope Qc_scope.
Close Scope Q_scope.
Set Implicit Arguments.

(** ** Arithmetic on [float] *)

(** The operations of the source on [float]: the four arithmetic operators,
    unary minus, the library calls [sqrt], [fabs], [min] and [max], the
    comparisons, and the conversion of an integer to [float]. *)
Class FloatArith (F : Type) : Type := {
  fzero : F;
  fone : F;
  fadd : F -> F -> F;
  fsub : F -> F -> F;
  fmul : F -> F -> F;
  fdiv : F -> F -> F;
  fneg : F -> F;
  fsqrt : F -> F;
  fabs : F -> F;
  fmin : F -> F -> F;
  fmax : F -> F -> F;
  flt : F -> F -> bool;
  fle : F -> F -> bool;
  feq : F -> F -> bool;
  of_Z : Z -> F
}.

Declare Scope float_scope.
Delimit Scope float_scope with F.
Infix "+" := fadd : float_scope.
Infix "-" := fsub : float_scope.
Infix "*" := fmul : float_scope.
Infix "/" := fdiv : float_scope.
Notation "- x" := (fneg x) : float_scope.
Notation "x <? y" := (flt x y) : float_scope.
Notation "x <=? y" := (fle x y) : float_scope.
Notation "x >? y" := (flt y x) : float_scope.
Notation "x >=? y" := (fle y x) : float_scope.

(** A decimal literal of the source, [n / d] rounded once: [0.99f] is
    [lit 99 100].  Numerator and denominator are exact in every arithmetic
    used here, so the quotient is the correctly rounded literal. *)
Definition lit {F} `{FloatArith F} (n d : Z) : F := (of_Z n / of_Z d)%F.

(** Raw device buffers: a pointer is read and written by index. *)
Definition buf (A : Type) : Type := Z -> A.

Definition upd {A} (b : buf A) (i : Z) (v : A) : buf A :=
  fun j => if Z.eqb j i then v else b j.

Lemma upd_same {A} (b : buf A) i v : upd b i v i = v.
Proof. unfold upd. now rewrite Z.eqb_refl. Qed.

Lemma upd_other {A} (b : buf A) i j v : j <> i -> upd b i v j = b j.
Proof. unfold upd. intros H. apply Z.eqb_neq in H. now rewrite H. Qed.

(** ** The vector and matrix types of glm and CUDA *)

Record vec2 (F : Type) := mk2 { x2 : F; y2 : F }.
Record vec3 (F : Type) := mk3 { x3 : F; y3 : F; z3 : F }.
Record vec4 (F : Type) := mk4 { x4 : F; y4 : F; z4 : F; w4 : F }.

(** [glm::mat3] is stored by columns and [m[c][r]] is row [r] of column
    [c]; the nine-scalar constructor fills column after column. *)
Record mat3 (F : Type) := mkm { col0 : vec3 F; col1 : vec3 F; col2 : vec3 F }.

Arguments mk2 {F}. Arguments mk3 {F}. Arguments mk4 {F}. Arguments mkm {F}.

Module Glm.
Section Ops.
Context {F : Type} `{FloatArith F}.
Local Open Scope float_scope.

Definition mat3_of (a b c d e f g h i : F) : mat3 F :=
    mkm (mk3 a b c) (mk3 d e f) (mk3 g h i).

Definition col (m : mat3 F) (c : nat) : vec3 F :=
    match c with O => col0 m | S O => col1 m | _ => col2 m end.

Definition comp (v : vec3 F) (r : nat) : F :=
    match r with O => x3 v | S O => y3 v | _ => z3 v end.

(** [m[c][r]] *)
Definition at_ (m : mat3 F) (c r : nat) : F := comp (col m c) r.

Definition vadd (a b : vec3 F) : vec3 F :=
    mk3 (x3 a + x3 b) (y3 a + y3 b) (z3 a + z3 b).
Definition vsub (a b : vec3 F) : vec3 F :=
    mk3 (x3 a - x3 b) (y3 a - y3 b) (z3 a - z3 b).
(** [s * v] *)
Definition smulv (s : F) (v : vec3 F) : vec3 F :=
    mk3 (s * x3 v) (s * y3 v) (s * z3 v).
(** [v * s], also [v *= s] *)
Definition vmuls (v : vec3 F) (s : F) : vec3 F :=
    mk3 (x3 v * s) (y3 v * s) (z3 v * s).
(** [v / s] *)
Definition vdivs (v : vec3 F) (s : F) : vec3 F :=
    mk3 (x3 v / s) (y3 v / s) (z3 v / s).
Definition dot (a b : vec3 F) : F :=
    x3 a * x3 b + y3 a * y3 b + z3 a * z3 b.
Definition length (v : vec3 F) : F := fsqrt (dot v v).

Definition transpose (m : mat3 F) : mat3 F :=
    mat3_of (at_ m 0 0) (at_ m 1 0) (at_ m 2 0)
            (at_ m 0 1) (at_ m 1 1) (at_ m 2 1)
            (at_ m 0 2) (at_ m 1 2) (at_ m 2 2).

(** [m1 * m2]: entry [c][r] is row [r] of [m1] against column [c] of
      [m2], summed left to right. *)
Definition mmul (m1 m2 : mat3 F) : mat3 F :=
    let e (c r : nat) := at_ m1 0 r * at_ m2 c 0 + at_ m1 1 r * at_ m2 c 1
                         + at_ m1 2 r * at_ m2 c 2 in
    mat3_of (e 0 0) (e 0 1) (e 0 2) (e 1 0) (e 1 1) (e 1 2)
            (e 2 0) (e 2 1) (e 2 2).

(** [s * m] *)
Definition smulm (s : F) (m : mat3 F) : mat3 F :=
    mkm (vmuls (col0 m) s) (vmuls (col1 m) s) (vmuls (col2 m) s).
End Ops.
End Glm.

(** ** computeCov3D: scale and rotation gradients *)

Section Cov3D.
Context {F : Type} `{FloatArith F}.
Local Open Scope float_scope.
Import Glm.

(** The rotation matrix the routine rebuilds from the quaternion
      [(r, x, y, z)], which it does not normalize. *)
Definition quat_to_R (r x y z : F) : mat3 F :=
    mat3_of
      (fone - of_Z 2 * (y * y + z * z)) (of_Z 2 * (x * y - r * z)) (of_Z 2 * (x * z + r * y))
      (of_Z 2 * (x * y + r * z)) (fone - of_Z 2 * (x * x + z * z)) (of_Z 2 * (y * z - r * x))
      (of_Z 2 * (x * z - r * y)) (of_Z 2 * (y * z + r * x)) (fone - of_Z 2 * (x * x + y * y)).

Definition computeCov3D (idx : Z) (scale : vec3 F) (mod_ : F) (rot : vec4 F)
      (dL_dcov3Ds : buf F) (dL_dscales : buf (vec3 F)) (dL_drots : buf (vec4 F))
      : buf (vec3 F) * buf (vec4 F) :=
    let q := rot in
    let r := x4 q in
    let x := y4 q in
    let y := z4 q in
    let z := w4 q in
    let R := quat_to_R r x y z in
    let s := smulv mod_ scale in
    let S := mat3_of (x3 s) fzero fzero fzero (y3 s) fzero fzero fzero (z3 s) in
    let M := mmul S R in
    let dL_dcov3D k := dL_dcov3Ds (6 * idx + k)%Z in
    let dL_dSigma := mat3_of
      (dL_dcov3D 0%Z) (lit 1 2 * dL_dcov3D 1%Z) (lit 1 2 * dL_dcov3D 2%Z)
      (lit 1 2 * dL_dcov3D 1%Z) (dL_dcov3D 3%Z) (lit 1 2 * dL_dcov3D 4%Z)
      (lit 1 2 * dL_dcov3D 2%Z) (lit 1 2 * dL_dcov3D 4%Z) (dL_dcov3D 5%Z) in
    let dL_dM := mmul (smulm (of_Z 2) M) dL_dSigma in
    let Rt := transpose R in
    let dL_dMt := transpose dL_dM in
    let dL_dscale :=
      mk3 (dot (col Rt 0) (col dL_dMt 0))
          (dot (col Rt 1) (col dL_dMt 1))
          (dot (col Rt 2) (col dL_dMt 2)) in
    let dL_dMt := mkm (vmuls (col dL_dMt 0) (x3 s))
                      (vmuls (col dL_dMt 1) (y3 s))
                      (vmuls (col dL_dMt 2) (z3 s)) in
    let m (c r : nat) := at_ dL_dMt c r in
    let dL_dq := mk4
      (of_Z 2 * z * (m 0 1 - m 1 0) + of_Z 2 * y * (m 2 0 - m 0 2)
         + of_Z 2 * x * (m 1 2 - m 2 1))
      (of_Z 2 * y * (m 1 0 + m 0 1) + of_Z 2 * z * (m 2 0 + m 0 2)
         + of_Z 2 * r * (m 1 2 - m 2 1) - of_Z 4 * x * (m 2 2 + m 1 1))
      (of_Z 2 * x * (m 1 0 + m 0 1) + of_Z 2 * r * (m 2 0 - m 0 2)
         + of_Z 2 * z * (m 1 2 + m 2 1) - of_Z 4 * y * (m 2 2 + m 0 0))
      (of_Z 2 * r * (m 0 1 - m 1 0) + of_Z 2 * x * (m 2 0 + m 0 2)
         + of_Z 2 * y * (m 1 2 + m 2 1) - of_Z 4 * z * (m 1 1 + m 0 0)) in
    (upd dL_dscales idx dL_dscale, upd dL_drots idx dL_dq).

(** The gradient with respect to [M = S * R] that the routine forms
      ([dL_dM] in the source), as a function of its inputs. *)
Definition cov3D_dL_dM (idx : Z) (scale : vec3 F) (mod_ : F) (rot : vec4 F)
      (dL_dcov3Ds : buf F) : mat3 F :=
    let R := quat_to_R (x4 rot) (y4 rot) (z4 rot) (w4 rot) in
    let s := smulv mod_ scale in
    let S := mat3_of (x3 s) fzero fzero fzero (y3 s) fzero fzero fzero (z3 s) in
    let M := mmul S R in
    let dL_dcov3D k := dL_dcov3Ds (6 * idx + k)%Z in
    let dL_dSigma := mat3_of
      (dL_dcov3D 0%Z) (lit 1 2 * dL_dcov3D 1%Z) (lit 1 2 * dL_dcov3D 2%Z)
      (lit 1 2 * dL_dcov3D 1%Z) (dL_dcov3D 3%Z) (lit 1 2 * dL_dcov3D 4%Z)
      (lit 1 2 * dL_dcov3D 2%Z) (lit 1 2 * dL_dcov3D 4%Z) (dL_dcov3D 5%Z) in
    mmul (smulm (of_Z 2) M) dL_dSigma.

(** Since [M[c][r] = s_r * R[c][r]], the gradient with respect to [R] is
      the M-gradient with row [r] weighted by the scale component [s_r]. *)
Definition scale_weighted (s : vec3 F) (dL_dM : mat3 F) : mat3 F :=
    let e (c r : nat) := at_ dL_dM c r * comp s r in
    mat3_of (e 0 0) (e 0 1) (e 0 2) (e 1 0) (e 1 1) (e 1 2)
            (e 2 0) (e 2 1) (e 2 2).

(** Entrywise partial derivatives of [quat_to_R] in the four quaternion
      components. *)
Definition dR_dr (r x y z : F) : mat3 F :=
    mat3_of fzero (- (of_Z 2 * z)) (of_Z 2 * y)
            (of_Z 2 * z) fzero (- (of_Z 2 * x))
            (- (of_Z 2 * y)) (of_Z 2 * x) fzero.
Definition dR_dx (r x y z : F) : mat3 F :=
    mat3_of fzero (of_Z 2 * y) (of_Z 2 * z)
            (of_Z 2 * y) (- (of_Z 4 * x)) (- (of_Z 2 * r))
            (of_Z 2 * z) (of_Z 2 * r) (- (of_Z 4 * x)).
Definition dR_dy (r x y z : F) : mat3 F :=
    mat3_of (- (of_Z 4 * y)) (of_Z 2 * x) (of_Z 2 * r)
            (of_Z 2 * x) fzero (of_Z 2 * z)
            (- (of_Z 2 * r)) (of_Z 2 * z) (- (of_Z 4 * y)).
Definition dR_dz (r x y z : F) : mat3 F :=
    mat3_of (- (of_Z 4 * z)) (- (of_Z 2 * r)) (of_Z 2 * x)
            (of_Z 2 * r) (- (of_Z 4 * z)) (of_Z 2 * y)
            (of_Z 2 * x) (of_Z 2 * y) fzero.

(** Sum over the nine entries of the entrywise product. *)
Definition frobenius (a b : mat3 F) : F :=
    let e (c r : nat) := at_ a c r * at_ b c r in
    e 0 0 + e 0 1 + e 0 2 + e 1 0 + e 1 1 + e 1 2 + e 2 0 + e 2 1 + e 2 2.

Definition madd (a b : mat3 F) : mat3 F :=
    mkm (vadd (col0 a) (col0 b)) (vadd (col1 a) (col1 b)) (vadd (col2 a) (col2 b)).
End Cov3D.

Section Cov3DViews.
Context {F : Type} `{FloatArith F}.
Local Open Scope float_scope.
Import Glm.

(** What [computeCov3D] writes, from the gradient [dL_dM] that it has
    formed (lines 363-390). *)
Definition cov3D_gradients (idx : Z) (scale : vec3 F) (mod_ : F) (rot : vec4 F)
    (dL_dM : mat3 F) (dL_dscales : buf (vec3 F)) (dL_drots : buf (vec4 F))
    : buf (vec3 F) * buf (vec4 F) :=
  let r := x4 rot in
  let x := y4 rot in
  let y := z4 rot in
  let z := w4 rot in
  let R := quat_to_R r x y z in
  let s := smulv mod_ scale in
  let Rt := transpose R in
  let dL_dMt := transpose dL_dM in
  let dL_dscale :=
    mk3 (dot (col Rt 0) (col dL_dMt 0))
        (dot (col Rt 1) (col dL_dMt 1))
        (dot (col Rt 2) (col dL_dMt 2)) in
  let dL_dMt := mkm (vmuls (col dL_dMt 0) (x3 s))
                    (vmuls (col dL_dMt 1) (y3 s))
                    (vmuls (col dL_dMt 2) (z3 s)) in
  let m (c r : nat) := at_ dL_dMt c r in
  let dL_dq := mk4
    (of_Z 2 * z * (m 0 1 - m 1 0) + of_Z 2 * y * (m 2 0 - m 0 2)
       + of_Z 2 * x * (m 1 2 - m 2 1))
    (of_Z 2 * y * (m 1 0 + m 0 1) + of_Z 2 * z * (m 2 0 + m 0 2)
       + of_Z 2 * r * (m 1 2 - m 2 1) - of_Z 4 * x * (m 2 2 + m 1 1))
    (of_Z 2 * x * (m 1 0 + m 0 1) + of_Z 2 * r * (m 2 0 - m 0 2)
       + of_Z 2 * z * (m 1 2 + m 2 1) - of_Z 4 * y * (m 2 2 + m 0 0))
    (of_Z 2 * r * (m 0 1 - m 1 0) + of_Z 2 * x * (m 2 0 + m 0 2)
       + of_Z 2 * y * (m 1 2 + m 2 1) - of_Z 4 * z * (m 1 1 + m 0 0)) in
  (upd dL_dscales idx dL_dscale, upd dL_drots idx dL_dq).
End Cov3DViews.

(** ** Exact arithmetic *)

(** The laws of real-number arithmetic that the algebraic properties below
    rely on: a commutative ring in which integer literals denote
    themselves and are compared as integers are, and in which dividing is
    multiplying by the reciprocal. *)
Class ExactArith (F : Type) `{FloatArith F} : Prop := {
  exact_ring : ring_theory fzero fone fadd fmul fsub fneg (@eq F);
  of_Z_0 : of_Z 0 = fzero;
  of_Z_1 : of_Z 1 = fone;
  of_Z_add : forall a b : Z, of_Z (a + b) = (of_Z a + of_Z b)%F;
  of_Z_mul : forall a b : Z, of_Z (a * b) = (of_Z a * of_Z b)%F;
  of_Z_le : forall a b : Z, fle (of_Z a) (of_Z b) = (a <=? b)%Z;
  exact_div : forall x y : F, (x / y)%F = (x * (fone / y))%F
}.

Arguments ExactArith F {_}.

Section ExactFacts.
Context {F : Type} `{ExactArith F}.
Local Open Scope float_scope.

Add Ring exact_arith_ring : exact_ring.

Lemma of_Z_2 : of_Z 2 = fone + fone.
Proof. change 2%Z with (1 + 1)%Z. now rewrite of_Z_add, of_Z_1. Qed.

Lemma of_Z_4 : of_Z 4 = (fone + fone) * (fone + fone).
Proof. change 4%Z with (2 * 2)%Z. now rewrite of_Z_mul, of_Z_2. Qed.
End ExactFacts.

(** ** The two arithmetics *)

(** *** Exact rationals *)

Definition Qc_of_Z (z : Z) : Qc := Q2Qc (inject_Z z).

Definition Qc_ltb (a b : Qc) : bool :=
  match Qccompare a b with Lt => true | _ => false end.

Definition Qc_leb (a b : Qc) : bool :=
  match Qccompare a b with Gt => false | _ => true end.

Definition Qc_eqb (a b : Qc) : bool :=
  match Qccompare a b with Eq => true | _ => false end.

(** Square root on rationals: exact on the square of a rational, and
    otherwise the root truncated to six decimal digits. *)
Definition Qc_sqrt (q : Qc) : Qc :=
  let n := Qnum q in
  let d := Zpos (Qden q) in
  Q2Qc (Qmake (Z.sqrt (n * d * 10 ^ 12)) (Z.to_pos (d * 10 ^ 6))).

#[export] Instance Qc_arith : FloatArith Qc := {|
  fzero := Q2Qc 0;
  fone := Q2Qc 1;
  fadd := Qcplus;
  fsub := Qcminus;
  fmul := Qcmult;
  fdiv := Qcdiv;
  fneg := Qcopp;
  fsqrt := Qc_sqrt;
  fabs := fun x => if Qc_ltb x (Q2Qc 0) then Qcopp x else x;
  fmin := fun a b => if Qc_ltb b a then b else a;
  fmax := fun a b => if Qc_ltb a b then b else a;
  flt := Qc_ltb;
  fle := Qc_leb;
  feq := Qc_eqb;
  of_Z := Qc_of_Z
|}.

(** *** IEEE 754 single precision *)

Module B32.
Definition prec : Z := 24.
Definition emax : Z := 128.
Definition of_Z (z : Z) : spec_float := binary_normalize prec emax z 0 false.
Definition is_nan (x : spec_float) : bool :=
  match x with S754_nan => true | _ => false end.
(** [fminf] and [fmaxf] return the other operand when one is a NaN. *)
Definition min (a b : spec_float) : spec_float :=
  if is_nan a then b else if is_nan b then a else if SFltb b a then b else a.
Definition max (a b : spec_float) : spec_float :=
  if is_nan a then b else if is_nan b then a else if SFltb a b then b else a.
End B32.

#[export] Instance binary32 : FloatArith spec_float := {|
  fzero := S754_zero false;
  fone := B32.of_Z 1;
  fadd := SFadd B32.prec B32.emax;
  fsub := SFsub B32.prec B32.emax;
  fmul := SFmul B32.prec B32.emax;
  fdiv := SFdiv B32.prec B32.emax;
  fneg := SFopp;
  fsqrt := SFsqrt B32.prec B32.emax;
  fabs := SFabs;
  fmin := B32.min;
  fmax := B32.max;
  flt := SFltb;
  fle := SFleb;
  feq := SFeqb;
  of_Z := B32.of_Z
|}.

Lemma Qc_of_Z_compare (a b : Z) : Qccompare (Qc_of_Z a) (Qc_of_Z b) = Z.compare a b.
Proof.
  unfold Qccompare, Qc_of_Z, Q2Qc, this.
  rewrite !Qred_correct.
  unfold Qcompare, inject_Z, Qnum, Qden.
  now rewrite !Z.mul_1_r.
Qed.

Lemma Qc_exact : ExactArith Qc.
Proof.
  split.
  - exact Qcrt.
  - reflexivity.
  - reflexivity.
  - intros a b. apply Qc_is_canon. cbn -[Qred inject_Z].
    rewrite !Qred_correct. now rewrite inject_Z_plus.
  - intros a b. apply Qc_is_canon. cbn -[Qred inject_Z].
    rewrite !Qred_correct. now rewrite inject_Z_mult.
  - intros a b. cbn. unfold Qc_leb. rewrite Qc_of_Z_compare.
    unfold Z.leb. now destruct (a ?= b)%Z.
  - intros x y. cbn. unfold Qcdiv. now rewrite Qcmult_1_l.
Qed.

(** ** Declarations of auxiliary.h and config.h *)

(** backward.cu includes [auxiliary.h] (and through it [config.h]) for its
    block dimensions, channel count, spherical-harmonics constants and
    small point and vector helpers.  They are taken as parameters: every
    property below holds for whatever the header defines. *)
Class Config : Type := {
  NUM_CHANNELS_3DGS : nat;
  BLOCK_X : Z;
  BLOCK_Y : Z;
  BLOCK_SIZE : Z
}.

Class Auxiliary (F : Type) : Type := {
  SH_C0 : F;
  SH_C1 : F;
  SH_C2 : nat -> F;
  SH_C3 : nat -> F;
  transformPoint4x3 : vec3 F -> buf F -> vec3 F;
  transformPoint4x4 : vec3 F -> buf F -> vec4 F;
  transformVec4x3Transpose : vec3 F -> buf F -> vec3 F;
  dnormvdv : vec3 F -> vec3 F -> vec3 F
}.

(** ** computeColorFromSH: spherical harmonics to RGB, backward *)

Section ColorFromSH.
Context {F : Type} `{FloatArith F} `{Auxiliary F}.
Local Open Scope float_scope.
Import Glm.

Local Infix "+v" := vadd (at level 50, left associativity).
Local Infix "*." := smulv (at level 40, left associativity).
Local Infix ".*" := vmuls (at level 40, left associativity).

(** Lines 25-138: everything but the last statement of the routine.  It
    writes [dL_ddc] and [dL_dshs], seen as arrays of [glm::vec3] as the
    source casts them, and yields [dL_dmean], the gradient that the view
    direction passes to the mean. *)
Definition computeColorFromSH_body (idx : Z) (deg : Z) (max_coeffs : Z)
    (means : buf (vec3 F)) (campos : vec3 F) (dc : buf (vec3 F))
    (shs : buf (vec3 F)) (clamped : buf bool) (dL_dcolor : buf (vec3 F))
    (dL_ddc : buf (vec3 F)) (dL_dshs : buf (vec3 F))
    : vec3 F * buf (vec3 F) * buf (vec3 F) :=
  let pos := means idx in
  let dir_orig := vsub pos campos in
  let dir := vdivs dir_orig (length dir_orig) in
  let sh (k : Z) := shs (idx * max_coeffs + k)%Z in
  let dL_dRGB := dL_dcolor idx in
  let dL_dRGB :=
    mk3 (x3 dL_dRGB * (if clamped (3 * idx + 0)%Z then of_Z 0 else of_Z 1))
        (y3 dL_dRGB * (if clamped (3 * idx + 1)%Z then of_Z 0 else of_Z 1))
        (z3 dL_dRGB * (if clamped (3 * idx + 2)%Z then of_Z 0 else of_Z 1)) in
  let zero3 := mk3 (of_Z 0) (of_Z 0) (of_Z 0) in
  let x := x3 dir in
  let y := y3 dir in
  let z := z3 dir in
  let wr (b : buf (vec3 F)) (k : Z) (v : vec3 F) := upd b (idx * max_coeffs + k)%Z v in
  let dRGBdsh0 := SH_C0 in
  let dL_ddc := upd dL_ddc idx (dRGBdsh0 *. dL_dRGB) in
  let '(dL_dshs, dRGBdx, dRGBdy, dRGBdz) :=
    if (deg >? 0)%Z then
      let dRGBdsh1 := - SH_C1 * y in
      let dRGBdsh2 := SH_C1 * z in
      let dRGBdsh3 := - SH_C1 * x in
      let dL_dshs := wr dL_dshs 0%Z (dRGBdsh1 *. dL_dRGB) in
      let dL_dshs := wr dL_dshs 1%Z (dRGBdsh2 *. dL_dRGB) in
      let dL_dshs := wr dL_dshs 2%Z (dRGBdsh3 *. dL_dRGB) in
      let dRGBdx := - SH_C1 *. sh 2%Z in
      let dRGBdy := - SH_C1 *. sh 0%Z in
      let dRGBdz := SH_C1 *. sh 1%Z in
      if (deg >? 1)%Z then
        let xx := x * x in
        let yy := y * y in
        let zz := z * z in
        let xy := x * y in
        let yz := y * z in
        let xz := x * z in
        let dRGBdsh4 := SH_C2 0 * xy in
        let dRGBdsh5 := SH_C2 1 * yz in
        let dRGBdsh6 := SH_C2 2 * (of_Z 2 * zz - xx - yy) in
        let dRGBdsh7 := SH_C2 3 * xz in
        let dRGBdsh8 := SH_C2 4 * (xx - yy) in
        let dL_dshs := wr dL_dshs 3%Z (dRGBdsh4 *. dL_dRGB) in
        let dL_dshs := wr dL_dshs 4%Z (dRGBdsh5 *. dL_dRGB) in
        let dL_dshs := wr dL_dshs 5%Z (dRGBdsh6 *. dL_dRGB) in
        let dL_dshs := wr dL_dshs 6%Z (dRGBdsh7 *. dL_dRGB) in
        let dL_dshs := wr dL_dshs 7%Z (dRGBdsh8 *. dL_dRGB) in
        let dRGBdx := dRGBdx +v
          (SH_C2 0 * y *. sh 3%Z +v SH_C2 2 * of_Z 2 * - x *. sh 5%Z
           +v SH_C2 3 * z *. sh 6%Z +v SH_C2 4 * of_Z 2 * x *. sh 7%Z) in
        let dRGBdy := dRGBdy +v
          (SH_C2 0 * x *. sh 3%Z +v SH_C2 1 * z *. sh 4%Z
           +v SH_C2 2 * of_Z 2 * - y *. sh 5%Z +v SH_C2 4 * of_Z 2 * - y *. sh 7%Z) in
        let dRGBdz := dRGBdz +v
          (SH_C2 1 * y *. sh 4%Z +v SH_C2 2 * of_Z 2 * of_Z 2 * z *. sh 5%Z
           +v SH_C2 3 * x *. sh 6%Z) in
        if (deg >? 2)%Z then
          let dRGBdsh9 := SH_C3 0 * y * (of_Z 3 * xx - yy) in
          let dRGBdsh10 := SH_C3 1 * xy * z in
          let dRGBdsh11 := SH_C3 2 * y * (of_Z 4 * zz - xx - yy) in
          let dRGBdsh12 := SH_C3 3 * z * (of_Z 2 * zz - of_Z 3 * xx - of_Z 3 * yy) in
          let dRGBdsh13 := SH_C3 4 * x * (of_Z 4 * zz - xx - yy) in
          let dRGBdsh14 := SH_C3 5 * z * (xx - yy) in
          let dRGBdsh15 := SH_C3 6 * x * (xx - of_Z 3 * yy) in
          let dL_dshs := wr dL_dshs 8%Z (dRGBdsh9 *. dL_dRGB) in
          let dL_dshs := wr dL_dshs 9%Z (dRGBdsh10 *. dL_dRGB) in
          let dL_dshs := wr dL_dshs 10%Z (dRGBdsh11 *. dL_dRGB) in
          let dL_dshs := wr dL_dshs 11%Z (dRGBdsh12 *. dL_dRGB) in
          let dL_dshs := wr dL_dshs 12%Z (dRGBdsh13 *. dL_dRGB) in
          let dL_dshs := wr dL_dshs 13%Z (dRGBdsh14 *. dL_dRGB) in
          let dL_dshs := wr dL_dshs 14%Z (dRGBdsh15 *. dL_dRGB) in
          let dRGBdx := dRGBdx +v
            (SH_C3 0 *. sh 8%Z .* of_Z 3 .* of_Z 2 .* xy
             +v SH_C3 1 *. sh 9%Z .* yz
             +v SH_C3 2 *. sh 10%Z .* - of_Z 2 .* xy
             +v SH_C3 3 *. sh 11%Z .* - of_Z 3 .* of_Z 2 .* xz
             +v SH_C3 4 *. sh 12%Z .* (- of_Z 3 * xx + of_Z 4 * zz - yy)
             +v SH_C3 5 *. sh 13%Z .* of_Z 2 .* xz
             +v SH_C3 6 *. sh 14%Z .* of_Z 3 .* (xx - yy)) in
          let dRGBdy := dRGBdy +v
            (SH_C3 0 *. sh 8%Z .* of_Z 3 .* (xx - yy)
             +v SH_C3 1 *. sh 9%Z .* xz
             +v SH_C3 2 *. sh 10%Z .* (- of_Z 3 * yy + of_Z 4 * zz - xx)
             +v SH_C3 3 *. sh 11%Z .* - of_Z 3 .* of_Z 2 .* yz
             +v SH_C3 4 *. sh 12%Z .* - of_Z 2 .* xy
             +v SH_C3 5 *. sh 13%Z .* - of_Z 2 .* yz
             +v SH_C3 6 *. sh 14%Z .* - of_Z 3 .* of_Z 2 .* xy) in
          let dRGBdz := dRGBdz +v
            (SH_C3 1 *. sh 9%Z .* xy
             +v SH_C3 2 *. sh 10%Z .* of_Z 4 .* of_Z 2 .* yz
             +v SH_C3 3 *. sh 11%Z .* of_Z 3 .* (of_Z 2 * zz - xx - yy)
             +v SH_C3 4 *. sh 12%Z .* of_Z 4 .* of_Z 2 .* xz
             +v SH_C3 5 *. sh 13%Z .* (xx - yy)) in
          (dL_dshs, dRGBdx, dRGBdy, dRGBdz)
        else (dL_dshs, dRGBdx, dRGBdy, dRGBdz)
      else (dL_dshs, dRGBdx, dRGBdy, dRGBdz)
    else (dL_dshs, zero3, zero3, zero3) in
  let dL_ddir := mk3 (dot dRGBdx dL_dRGB) (dot dRGBdy dL_dRGB) (dot dRGBdz dL_dRGB) in
  let dL_dmean := dnormvdv dir_orig dL_ddir in
  (dL_dmean, dL_ddc, dL_dshs).

(** The routine: the body, then line 143, which adds [dL_dmean] to the
    entry of the primitive in [dL_dmeans]. *)
Definition computeColorFromSH (idx : Z) (deg : Z) (max_coeffs : Z)
    (means : buf (vec3 F)) (campos : vec3 F) (dc : buf (vec3 F))
    (shs : buf (vec3 F)) (clamped : buf bool) (dL_dcolor : buf (vec3 F))
    (dL_dmeans : buf (vec3 F)) (dL_ddc : buf (vec3 F)) (dL_dshs : buf (vec3 F))
    : buf (vec3 F) * buf (vec3 F) * buf (vec3 F) :=
  let '(dL_dmean, dL_ddc, dL_dshs) :=
    computeColorFromSH_body idx deg max_coeffs means campos dc shs clamped
                            dL_dcolor dL_ddc dL_dshs in
  let dL_dmeans := upd dL_dmeans idx (dL_dmeans idx +v dL_dmean) in
  (dL_dmeans, dL_ddc, dL_dshs).
End ColorFromSH.

(** The number of coefficients per primitive that [computeColorFromSH]
    writes in [dL_dshs], by the degree (lines 50-137). *)
Definition SH_coefficients_written (deg : Z) : Z :=
  if (deg >? 2)%Z then 15 else if (deg >? 1)%Z then 8 else if (deg >? 0)%Z then 3 else 0.

(** ** computeCov2DCUDA: 2D covariance and conic, backward *)

(** The rank of a thread in its grid is an [unsigned long long], and the
    tests [idx >= P] of lines 165 and 420 compare it with the [int] [P]
    converted to that type, which makes a negative [P] wrap around. *)
Definition int_to_rank (z : Z) : Z := if (z <? 0)%Z then (z + 2 ^ 64)%Z else z.

Section Cov2D.
Context {F : Type} `{FloatArith F} `{Auxiliary F}.
Local Open Scope float_scope.
Import Glm.

Definition sq (x : F) : F := x * x.

(** The written buffers of the kernel. *)
Record Cov2DOut : Type := mkCov2DOut {
  c2_dL_dopacity : buf F;
  c2_dL_dmeans : buf (vec3 F);
  c2_dL_dcov : buf F
}.

(** The values one thread holds once both [antialiasing] blocks have run:
    the regularized covariance entries, the opacity gradient it stores (if
    any), [d_inside_root], and the three covariance-entry gradients before
    the conic terms are added. *)
Record Cov2DAA : Type := mkCov2DAA {
  aa_c_xx : F;
  aa_c_xy : F;
  aa_c_yy : F;
  aa_dL_dopacity : buf F;
  aa_d_inside_root : F;
  aa_dL_dc_xx : F;
  aa_dL_dc_xy : F;
  aa_dL_dc_yy : F
}.

Definition h_var : F := lit 3 10.

(** Lines 210-248: the regularization of the 2D covariance [c_xx, c_xy,
    c_yy] and, under [antialiasing], the rescaling of the opacity gradient
    and the gradient of the scaling factor. *)
Definition cov2D_antialiasing (idx : Z) (antialiasing : bool)
    (c_xx c_xy c_yy : F) (opacities : buf F) (dL_dopacity : buf F) : Cov2DAA :=
  let d_inside_root := of_Z 0 in
  let '(c_xx, c_yy, dL_dopacity, d_inside_root) :=
    if antialiasing then
      let det_cov := c_xx * c_yy - c_xy * c_xy in
      let c_xx := c_xx + h_var in
      let c_yy := c_yy + h_var in
      let det_cov_plus_h_cov := c_xx * c_yy - c_xy * c_xy in
      let h_convolution_scaling :=
        fsqrt (fmax (lit 25 1000000) (det_cov / det_cov_plus_h_cov)) in
      let dL_dopacity_v := dL_dopacity idx in
      let d_h_convolution_scaling := dL_dopacity_v * opacities idx in
      let dL_dopacity := upd dL_dopacity idx (dL_dopacity_v * h_convolution_scaling) in
      let d_inside_root :=
        if (det_cov / det_cov_plus_h_cov) <=? lit 25 1000000 then of_Z 0
        else d_h_convolution_scaling / (of_Z 2 * h_convolution_scaling) in
      (c_xx, c_yy, dL_dopacity, d_inside_root)
    else
      let c_xx := c_xx + h_var in
      let c_yy := c_yy + h_var in
      (c_xx, c_yy, dL_dopacity, d_inside_root) in
  let dL_dc_xx := of_Z 0 in
  let dL_dc_xy := of_Z 0 in
  let dL_dc_yy := of_Z 0 in
  let '(dL_dc_xx, dL_dc_yy, dL_dc_xy) :=
    if antialiasing then
      let x := c_xx in
      let y := c_yy in
      let z := c_xy in
      let w := h_var in
      let denom_f := d_inside_root / sq (w * w + w * (x + y) + x * y - z * z) in
      let dL_dx := w * (w * y + y * y + z * z) * denom_f in
      let dL_dy := w * (w * x + x * x + z * z) * denom_f in
      let dL_dz := - of_Z 2 * w * z * (w + x + y) * denom_f in
      (dL_dx, dL_dy, dL_dz)
    else (dL_dc_xx, dL_dc_yy, dL_dc_xy) in
  mkCov2DAA c_xx c_xy c_yy dL_dopacity d_inside_root dL_dc_xx dL_dc_xy dL_dc_yy.

(** [denom] and [denom2inv] of lines 250-251. *)
Definition cov2D_denom (c_xx c_xy c_yy : F) : F := c_xx * c_yy - c_xy * c_xy.

Definition cov2D_denom2inv (denom : F) : F :=
  fone / ((denom * denom) + lit 1 10000000).

(** The projected covariance the thread recomputes: the clamped camera-space
    mean [t], the gradient masks, [W], [Vrk], [T] and [cov2D]. *)
Record Cov2DFwd : Type := mkCov2DFwd {
  fw_t : vec3 F;
  fw_x_grad_mul : F;
  fw_y_grad_mul : F;
  fw_W : mat3 F;
  fw_Vrk : mat3 F;
  fw_T : mat3 F;
  fw_cov2D : mat3 F
}.

Definition cov2D_forward (idx : Z) (means : buf (vec3 F)) (cov3Ds : buf F)
    (h_x h_y tan_fovx tan_fovy : F) (view_matrix : buf F) : Cov2DFwd :=
  let cov3D (k : Z) := cov3Ds (6 * idx + k)%Z in
  let mean := means idx in
  let t := transformPoint4x3 mean view_matrix in
  let limx := lit 13 10 * tan_fovx in
  let limy := lit 13 10 * tan_fovy in
  let txtz := x3 t / z3 t in
  let tytz := y3 t / z3 t in
  let t := mk3 (fmin limx (fmax (- limx) txtz) * z3 t) (y3 t) (z3 t) in
  let t := mk3 (x3 t) (fmin limy (fmax (- limy) tytz) * z3 t) (z3 t) in
  let x_grad_mul :=
    if (txtz <? - limx) || (txtz >? limx) then of_Z 0 else of_Z 1 in
  let y_grad_mul :=
    if (tytz <? - limy) || (tytz >? limy) then of_Z 0 else of_Z 1 in
  let J := mat3_of
    (h_x / z3 t) (of_Z 0) (- (h_x * x3 t) / (z3 t * z3 t))
    (of_Z 0) (h_y / z3 t) (- (h_y * y3 t) / (z3 t * z3 t))
    (of_Z 0) (of_Z 0) (of_Z 0) in
  let W := mat3_of
    (view_matrix 0%Z) (view_matrix 4%Z) (view_matrix 8%Z)
    (view_matrix 1%Z) (view_matrix 5%Z) (view_matrix 9%Z)
    (view_matrix 2%Z) (view_matrix 6%Z) (view_matrix 10%Z) in
  let Vrk := mat3_of
    (cov3D 0%Z) (cov3D 1%Z) (cov3D 2%Z)
    (cov3D 1%Z) (cov3D 3%Z) (cov3D 4%Z)
    (cov3D 2%Z) (cov3D 4%Z) (cov3D 5%Z) in
  let T := mmul W J in
  let cov2D := mmul (mmul (transpose T) (transpose Vrk)) T in
  mkCov2DFwd t x_grad_mul y_grad_mul W Vrk T cov2D.

(** Lines 284-318: from the gradients of the three covariance entries to
    the gradient of the mean, through [T], [J] and the camera-space mean
    [t], with the inverse-depth term. *)
Definition cov2D_dL_dmean (fw : Cov2DFwd) (h_x h_y : F)
    (dL_dc_xx dL_dc_xy dL_dc_yy : F) (dL_dinvdepth : buf F) (idx : Z)
    (view_matrix : buf F) : vec3 F :=
  let t := fw_t fw in
  let x_grad_mul := fw_x_grad_mul fw in
  let y_grad_mul := fw_y_grad_mul fw in
  let W := fw_W fw in
  let Vrk := fw_Vrk fw in
  let T := fw_T fw in
  let V (c r : nat) := at_ Vrk c r in
  let dL_dT00 :=
    of_Z 2 * (at_ T 0 0 * V 0 0 + at_ T 0 1 * V 0 1 + at_ T 0 2 * V 0 2) * dL_dc_xx
    + (at_ T 1 0 * V 0 0 + at_ T 1 1 * V 0 1 + at_ T 1 2 * V 0 2) * dL_dc_xy in
  let dL_dT01 :=
    of_Z 2 * (at_ T 0 0 * V 1 0 + at_ T 0 1 * V 1 1 + at_ T 0 2 * V 1 2) * dL_dc_xx
    + (at_ T 1 0 * V 1 0 + at_ T 1 1 * V 1 1 + at_ T 1 2 * V 1 2) * dL_dc_xy in
  let dL_dT02 :=
    of_Z 2 * (at_ T 0 0 * V 2 0 + at_ T 0 1 * V 2 1 + at_ T 0 2 * V 2 2) * dL_dc_xx
    + (at_ T 1 0 * V 2 0 + at_ T 1 1 * V 2 1 + at_ T 1 2 * V 2 2) * dL_dc_xy in
  let dL_dT10 :=
    of_Z 2 * (at_ T 1 0 * V 0 0 + at_ T 1 1 * V 0 1 + at_ T 1 2 * V 0 2) * dL_dc_yy
    + (at_ T 0 0 * V 0 0 + at_ T 0 1 * V 0 1 + at_ T 0 2 * V 0 2) * dL_dc_xy in
  let dL_dT11 :=
    of_Z 2 * (at_ T 1 0 * V 1 0 + at_ T 1 1 * V 1 1 + at_ T 1 2 * V 1 2) * dL_dc_yy
    + (at_ T 0 0 * V 1 0 + at_ T 0 1 * V 1 1 + at_ T 0 2 * V 1 2) * dL_dc_xy in
  let dL_dT12 :=
    of_Z 2 * (at_ T 1 0 * V 2 0 + at_ T 1 1 * V 2 1 + at_ T 1 2 * V 2 2) * dL_dc_yy
    + (at_ T 0 0 * V 2 0 + at_ T 0 1 * V 2 1 + at_ T 0 2 * V 2 2) * dL_dc_xy in
  let dL_dJ00 := at_ W 0 0 * dL_dT00 + at_ W 0 1 * dL_dT01 + at_ W 0 2 * dL_dT02 in
  let dL_dJ02 := at_ W 2 0 * dL_dT00 + at_ W 2 1 * dL_dT01 + at_ W 2 2 * dL_dT02 in
  let dL_dJ11 := at_ W 1 0 * dL_dT10 + at_ W 1 1 * dL_dT11 + at_ W 1 2 * dL_dT12 in
  let dL_dJ12 := at_ W 2 0 * dL_dT10 + at_ W 2 1 * dL_dT11 + at_ W 2 2 * dL_dT12 in
  let tz := fone / z3 t in
  let tz2 := tz * tz in
  let tz3 := tz2 * tz in
  let dL_dtx := x_grad_mul * - h_x * tz2 * dL_dJ02 in
  let dL_dty := y_grad_mul * - h_y * tz2 * dL_dJ12 in
  let dL_dtz :=
    - h_x * tz2 * dL_dJ00 - h_y * tz2 * dL_dJ11
    + (of_Z 2 * h_x * x3 t) * tz3 * dL_dJ02
    + (of_Z 2 * h_y * y3 t) * tz3 * dL_dJ12
    - dL_dinvdepth idx * tz2 in
  transformVec4x3Transpose (mk3 dL_dtx dL_dty dL_dtz) view_matrix.

(** One thread of the kernel. *)
Definition computeCov2DCUDA (idx : Z) (P : Z)
    (means : buf (vec3 F)) (radii : buf Z) (cov3Ds : buf F)
    (h_x h_y tan_fovx tan_fovy : F) (view_matrix : buf F)
    (opacities : buf F) (dL_dconics : buf F) (dL_dopacity : buf F)
    (dL_dinvdepth : buf F) (dL_dmeans : buf (vec3 F)) (dL_dcov : buf F)
    (antialiasing : bool) : Cov2DOut :=
  if (idx >=? int_to_rank P)%Z || negb (radii idx >? 0)%Z then
    mkCov2DOut dL_dopacity dL_dmeans dL_dcov
  else
  let dL_dconic :=
    mk3 (dL_dconics (4 * idx)%Z) (dL_dconics (4 * idx + 1)%Z)
        (dL_dconics (4 * idx + 3)%Z) in
  let fw := cov2D_forward idx means cov3Ds h_x h_y tan_fovx tan_fovy view_matrix in
  let t := fw_t fw in
  let x_grad_mul := fw_x_grad_mul fw in
  let y_grad_mul := fw_y_grad_mul fw in
  let W := fw_W fw in
  let Vrk := fw_Vrk fw in
  let T := fw_T fw in
  let cov2D := fw_cov2D fw in
  let c_xx := at_ cov2D 0 0 in
  let c_xy := at_ cov2D 0 1 in
  let c_yy := at_ cov2D 1 1 in
  let aa := cov2D_antialiasing idx antialiasing c_xx c_xy c_yy opacities dL_dopacity in
  let c_xx := aa_c_xx aa in
  let c_yy := aa_c_yy aa in
  let dL_dopacity := aa_dL_dopacity aa in
  let dL_dc_xx := aa_dL_dc_xx aa in
  let dL_dc_xy := aa_dL_dc_xy aa in
  let dL_dc_yy := aa_dL_dc_yy aa in
  let denom := cov2D_denom c_xx c_xy c_yy in
  let denom2inv := cov2D_denom2inv denom in
  let '(dL_dc_xx, dL_dc_yy, dL_dc_xy, dL_dcov) :=
    if negb (feq denom2inv (of_Z 0)) then
      let dL_dc_xx := dL_dc_xx + denom2inv *
        (- c_yy * c_yy * x3 dL_dconic + of_Z 2 * c_xy * c_yy * y3 dL_dconic
         + (denom - c_xx * c_yy) * z3 dL_dconic) in
      let dL_dc_yy := dL_dc_yy + denom2inv *
        (- c_xx * c_xx * z3 dL_dconic + of_Z 2 * c_xx * c_xy * y3 dL_dconic
         + (denom - c_xx * c_yy) * x3 dL_dconic) in
      let dL_dc_xy := dL_dc_xy + denom2inv * of_Z 2 *
        (c_xy * c_yy * x3 dL_dconic - (denom + of_Z 2 * c_xy * c_xy) * y3 dL_dconic
         + c_xx * c_xy * z3 dL_dconic) in
      let dL_dcov := upd dL_dcov (6 * idx + 0)%Z
        (at_ T 0 0 * at_ T 0 0 * dL_dc_xx + at_ T 0 0 * at_ T 1 0 * dL_dc_xy
         + at_ T 1 0 * at_ T 1 0 * dL_dc_yy) in
      let dL_dcov := upd dL_dcov (6 * idx + 3)%Z
        (at_ T 0 1 * at_ T 0 1 * dL_dc_xx + at_ T 0 1 * at_ T 1 1 * dL_dc_xy
         + at_ T 1 1 * at_ T 1 1 * dL_dc_yy) in
      let dL_dcov := upd dL_dcov (6 * idx + 5)%Z
        (at_ T 0 2 * at_ T 0 2 * dL_dc_xx + at_ T 0 2 * at_ T 1 2 * dL_dc_xy
         + at_ T 1 2 * at_ T 1 2 * dL_dc_yy) in
      let dL_dcov := upd dL_dcov (6 * idx + 1)%Z
        (of_Z 2 * at_ T 0 0 * at_ T 0 1 * dL_dc_xx
         + (at_ T 0 0 * at_ T 1 1 + at_ T 0 1 * at_ T 1 0) * dL_dc_xy
         + of_Z 2 * at_ T 1 0 * at_ T 1 1 * dL_dc_yy) in
      let dL_dcov := upd dL_dcov (6 * idx + 2)%Z
        (of_Z 2 * at_ T 0 0 * at_ T 0 2 * dL_dc_xx
         + (at_ T 0 0 * at_ T 1 2 + at_ T 0 2 * at_ T 1 0) * dL_dc_xy
         + of_Z 2 * at_ T 1 0 * at_ T 1 2 * dL_dc_yy) in
      let dL_dcov := upd dL_dcov (6 * idx + 4)%Z
        (of_Z 2 * at_ T 0 2 * at_ T 0 1 * dL_dc_xx
         + (at_ T 0 1 * at_ T 1 2 + at_ T 0 2 * at_ T 1 1) * dL_dc_xy
         + of_Z 2 * at_ T 1 1 * at_ T 1 2 * dL_dc_yy) in
      (dL_dc_xx, dL_dc_yy, dL_dc_xy, dL_dcov)
    else
      let dL_dcov :=
        fold_left (fun b i => upd b (6 * idx + Z.of_nat i)%Z (of_Z 0))
                  (seq 0 6) dL_dcov in
      (dL_dc_xx, dL_dc_yy, dL_dc_xy, dL_dcov) in
  let dL_dmean :=
    cov2D_dL_dmean fw h_x h_y dL_dc_xx dL_dc_xy dL_dc_yy dL_dinvdepth idx view_matrix in
  let dL_dmeans := upd dL_dmeans idx dL_dmean in
  mkCov2DOut dL_dopacity dL_dmeans dL_dcov.
End Cov2D.

Arguments Cov2DOut F : clear implicits.
Arguments Cov2DAA F : clear implicits.
Arguments Cov2DFwd F : clear implicits.

(** ** preprocessCUDA and BACKWARD::preprocess *)

Section Preprocess.
Context {F : Type} `{FloatArith F} `{Auxiliary F}.
Local Open Scope float_scope.
Import Glm.

(** The gradient buffers the two preprocessing kernels write. *)
Record Grads : Type := mkGrads {
  g_dL_dopacity : buf F;
  g_dL_dmean3D : buf (vec3 F);
  g_dL_dcov3D : buf F;
  g_dL_ddc : buf (vec3 F);
  g_dL_dsh : buf (vec3 F);
  g_dL_dscale : buf (vec3 F);
  g_dL_drot : buf (vec4 F)
}.

(** The read-only arguments of [BACKWARD::preprocess].  A pointer that the
    code tests against null ([shs], [scales]) is an [option]. *)
Record PreIn : Type := mkPreIn {
  p_P : Z;
  p_D : Z;
  p_M : Z;
  p_means3D : buf (vec3 F);
  p_radii : buf Z;
  p_dc : buf (vec3 F);
  p_shs : option (buf (vec3 F));
  p_clamped : buf bool;
  p_opacities : buf F;
  p_scales : option (buf (vec3 F));
  p_rotations : buf (vec4 F);
  p_scale_modifier : F;
  p_cov3Ds : buf F;
  p_viewmatrix : buf F;
  p_projmatrix : buf F;
  p_focal_x : F;
  p_focal_y : F;
  p_tan_fovx : F;
  p_tan_fovy : F;
  p_campos : vec3 F;
  p_dL_dmean2D : buf (vec4 F);
  p_dL_dconic : buf F;
  p_dL_dinvdepth : buf F;
  p_dL_dcolor : buf (vec3 F);
  p_antialiasing : bool
}.

(** The mean gradient that [preprocessCUDA] derives from the screen-space
    mean gradient (lines 423-436). *)
Definition preprocess_dL_dmean (idx : Z) (means : buf (vec3 F)) (proj : buf F)
    (dL_dmean2D : buf (vec4 F)) : vec3 F :=
  let m := means idx in
  let m_hom := transformPoint4x4 m proj in
  let m_w := fone / (w4 m_hom + lit 1 10000000) in
  let mul1 := (proj 0%Z * x3 m + proj 4%Z * y3 m + proj 8%Z * z3 m + proj 12%Z)
              * m_w * m_w in
  let mul2 := (proj 1%Z * x3 m + proj 5%Z * y3 m + proj 9%Z * z3 m + proj 13%Z)
              * m_w * m_w in
  mk3 ((proj 0%Z * m_w - proj 3%Z * mul1) * x4 (dL_dmean2D idx)
       + (proj 1%Z * m_w - proj 3%Z * mul2) * y4 (dL_dmean2D idx))
      ((proj 4%Z * m_w - proj 7%Z * mul1) * x4 (dL_dmean2D idx)
       + (proj 5%Z * m_w - proj 7%Z * mul2) * y4 (dL_dmean2D idx))
      ((proj 8%Z * m_w - proj 11%Z * mul1) * x4 (dL_dmean2D idx)
       + (proj 9%Z * m_w - proj 11%Z * mul2) * y4 (dL_dmean2D idx)).

(** One thread of [preprocessCUDA]. *)
Definition preprocessCUDA (idx : Z) (a : PreIn) (g : Grads) : Grads :=
  if (idx >=? int_to_rank (p_P a))%Z || negb (p_radii a idx >? 0)%Z then g
  else
  let dL_dmean := preprocess_dL_dmean idx (p_means3D a) (p_projmatrix a) (p_dL_dmean2D a) in
  let dL_dmeans := upd (g_dL_dmean3D g) idx (vadd (g_dL_dmean3D g idx) dL_dmean) in
  let '(dL_dmeans, dL_ddc, dL_dsh) :=
    match p_shs a with
    | Some shs =>
        computeColorFromSH idx (p_D a) (p_M a) (p_means3D a) (p_campos a) (p_dc a)
          shs (p_clamped a) (p_dL_dcolor a) dL_dmeans (g_dL_ddc g) (g_dL_dsh g)
    | None => (dL_dmeans, g_dL_ddc g, g_dL_dsh g)
    end in
  let '(dL_dscale, dL_drot) :=
    match p_scales a with
    | Some scales =>
        computeCov3D idx (scales idx) (p_scale_modifier a) (p_rotations a idx)
          (g_dL_dcov3D g) (g_dL_dscale g) (g_dL_drot g)
    | None => (g_dL_dscale g, g_dL_drot g)
    end in
  mkGrads (g_dL_dopacity g) dL_dmeans (g_dL_dcov3D g) dL_ddc dL_dsh dL_dscale dL_drot.

(** One thread of [computeCov2DCUDA] on the same state. *)
Definition cov2D_thread (idx : Z) (a : PreIn) (g : Grads) : Grads :=
  let o := computeCov2DCUDA idx (p_P a) (p_means3D a) (p_radii a) (p_cov3Ds a)
             (p_focal_x a) (p_focal_y a) (p_tan_fovx a) (p_tan_fovy a)
             (p_viewmatrix a) (p_opacities a) (p_dL_dconic a) (g_dL_dopacity g)
             (p_dL_dinvdepth a) (g_dL_dmean3D g) (g_dL_dcov3D g) (p_antialiasing a) in
  mkGrads (c2_dL_dopacity o) (c2_dL_dmeans o) (c2_dL_dcov o)
          (g_dL_ddc g) (g_dL_dsh g) (g_dL_dscale g) (g_dL_drot g).

(** A launch [<<<(P + 255) / 256, 256>>>]: the threads of all blocks, each
    reading and writing the entries of its own index only, run one after
    the other. *)
Definition launch_1d {S : Type} (P : Z) (thread : Z -> S -> S) (s : S) : S :=
  fold_left (fun s i => thread (Z.of_nat i) s)
            (seq 0 (Z.to_nat ((P + 255) / 256 * 256))) s.

(** [BACKWARD::preprocess] *)
Definition preprocess (a : PreIn) (g : Grads) : Grads :=
  let g := launch_1d (p_P a) (fun idx => cov2D_thread idx a) g in
  launch_1d (p_P a) (fun idx => preprocessCUDA idx a) g.
End Preprocess.

Arguments Grads F : clear implicits.
Arguments PreIn F : clear implicits.

Section PreInVariants.
Context {F : Type}.

(** The same input of [BACKWARD::preprocess] with another screen-space
    mean gradient buffer. *)
Definition with_dL_dmean2D (a : PreIn F) (dL_dmean2D : buf (vec4 F)) : PreIn F :=
  mkPreIn (p_P a) (p_D a) (p_M a) (p_means3D a) (p_radii a) (p_dc a) (p_shs a)
    (p_clamped a) (p_opacities a) (p_scales a) (p_rotations a) (p_scale_modifier a)
    (p_cov3Ds a) (p_viewmatrix a) (p_projmatrix a) (p_focal_x a) (p_focal_y a)
    (p_tan_fovx a) (p_tan_fovy a) (p_campos a) dL_dmean2D (p_dL_dconic a)
    (p_dL_dinvdepth a) (p_dL_dcolor a) (p_antialiasing a).
End PreInVariants.

(** ** PerGaussianRenderCUDA: compositing, backward *)

(** Conversions to [uint32_t] and to [int]. *)
Definition u32 (z : Z) : Z := z mod 2 ^ 32.
Definition i32 (z : Z) : Z := (z + 2 ^ 31) mod 2 ^ 32 - 2 ^ 31.

(** The library call [exp] on [float]. *)
Class FloatExp (F : Type) : Type := { fexp : F -> F }.

(** A fixed-size register array ([float ar[C]]). *)
Definition set_reg {A} (f : nat -> A) (i : nat) (v : A) : nat -> A :=
  fun j => if Nat.eqb j i then v else f j.

(** The gradient buffers of the kernel, by the component an [atomicAdd]
    addresses: [Mean2D_x] to [Mean2D_w] are the four floats of a
    [dL_dmean2D] entry, and so on. *)
Inductive GradBuf : Type :=
| Mean2D_x | Mean2D_y | Mean2D_z | Mean2D_w
| Conic2D_x | Conic2D_y | Conic2D_w
| Opacity | Colors | InvDepths.

Definition GradBuf_eqb (a b : GradBuf) : bool :=
  match a, b with
  | Mean2D_x, Mean2D_x | Mean2D_y, Mean2D_y | Mean2D_z, Mean2D_z
  | Mean2D_w, Mean2D_w | Conic2D_x, Conic2D_x | Conic2D_y, Conic2D_y
  | Conic2D_w, Conic2D_w | Opacity, Opacity | Colors, Colors
  | InvDepths, InvDepths => true
  | _, _ => false
  end.

(** One [atomicAdd(&buffer[index].component, value)]. *)
Record AtomicAdd (F : Type) : Type := mkAdd {
  add_buf : GradBuf;
  add_index : Z;
  add_value : F
}.
Arguments mkAdd {F}.

Section Render.
Context {F : Type} `{FloatArith F} `{FloatExp F} `{Config}.
Local Open Scope float_scope.

(** The read-only arguments of the kernel. *)
Record RenderIn : Type := mkRenderIn {
  r_ranges : buf (Z * Z);
  r_point_list : buf Z;
  r_W : Z;
  r_H : Z;
  r_B : Z;
  r_per_tile_bucket_offset : buf Z;
  r_bucket_to_tile : buf Z;
  r_sampled_T : buf F;
  r_sampled_ar : buf F;
  r_sampled_ard : buf F;
  r_bg_color : buf F;
  r_points_xy_image : buf (vec2 F);
  r_conic_opacity : buf (vec4 F);
  r_colors : buf F;
  r_depths : buf F;
  r_final_Ts : buf F;
  r_n_contrib : buf Z;
  r_max_contrib : buf Z;
  r_pixel_colors : buf F;
  r_pixel_invDepths : buf F;
  r_dL_dpixels : buf F;
  r_dL_invdepths : buf F
}.

(** The registers a lane hands to the next lane at every step. *)
Record Regs : Type := mkRegs {
  T : F;
  T_final : F;
  last_contributor : F;
  ar : nat -> F;
  ard : F;
  dL_dpixel : nat -> F;
  dL_invdepth : F
}.

(** The gradient accumulation registers of a lane. *)
Record Acc : Type := mkAcc {
  Register_dL_dmean2D_x : F;
  Register_dL_dmean2D_y : F;
  Register_dL_dconic2D_x : F;
  Register_dL_dconic2D_y : F;
  Register_dL_dconic2D_w : F;
  Register_dL_dopacity : F;
  Register_dL_dcolors : nat -> F;
  Register_dL_dinvdepths : F
}.

Definition Acc_zero : Acc :=
  mkAcc (of_Z 0) (of_Z 0) (of_Z 0) (of_Z 0) (of_Z 0) (of_Z 0)
        (fun _ => of_Z 0) (of_Z 0).

(** What a lane computes before the loop: its bucket, its primitive and
    the primitive's properties, which are loaded for a valid primitive
    (lines 513-520) and keep their initial zeros otherwise. *)
Record Lane : Type := mkLane {
  tile_id : Z;
  num_splats_in_tile : Z;
  bucket_idx_in_tile : Z;
  splat_idx_in_tile : Z;
  splat_idx_global : Z;
  valid_splat : bool;
  gaussian_idx : Z;
  xy : vec2 F;
  con_o : vec4 F;
  c : nat -> F;
  invd : F
}.

Definition C : nat := NUM_CHANNELS_3DGS.

Definition lane_setup (a : RenderIn) (global_bucket_idx : Z) (thread_rank : Z) : Lane :=
  let tile_id := r_bucket_to_tile a global_bucket_idx in
  let range := r_ranges a tile_id in
  let num_splats_in_tile := i32 (u32 (snd range - fst range)) in
  let bbm := if (tile_id =? 0)%Z then 0%Z
             else r_per_tile_bucket_offset a (u32 (tile_id - 1)) in
  let bucket_idx_in_tile := i32 (u32 (global_bucket_idx - bbm)) in
  let splat_idx_in_tile := i32 (bucket_idx_in_tile * 32 + thread_rank) in
  let splat_idx_global := i32 (u32 (fst range + splat_idx_in_tile)) in
  let valid_splat := (splat_idx_in_tile <? num_splats_in_tile)%Z in
  let gaussian_idx :=
    if valid_splat then i32 (r_point_list a splat_idx_global) else 0%Z in
  let xy :=
    if valid_splat then r_points_xy_image a gaussian_idx
    else mk2 (of_Z 0) (of_Z 0) in
  let con_o :=
    if valid_splat then r_conic_opacity a gaussian_idx
    else mk4 (of_Z 0) (of_Z 0) (of_Z 0) (of_Z 0) in
  let c :=
    if valid_splat then
      fold_left
        (fun c ch =>
           set_reg c ch (r_colors a (u32 (gaussian_idx * Z.of_nat C + Z.of_nat ch))))
        (seq 0 C) (fun _ : nat => of_Z 0)
    else fun _ : nat => of_Z 0 in
  let invd :=
    if valid_splat then fone / r_depths a gaussian_idx else of_Z 0 in
  mkLane tile_id num_splats_in_tile bucket_idx_in_tile splat_idx_in_tile
         splat_idx_global valid_splat gaussian_idx xy con_o c invd.

(** Line 503: the whole warp returns when its first primitive is at or
    past the tile's maximum contributor count. *)
Definition bucket_useless (a : RenderIn) (l : Lane) : bool :=
  (u32 (bucket_idx_in_tile l * 32) >=? r_max_contrib a (tile_id l))%Z.

(** The pixel a lane deals with at pixel index [idx] of its tile. *)
Record Pixel : Type := mkPixel {
  pix_x : Z;
  pix_y : Z;
  pix_id : Z;
  valid_pixel : bool
}.

(** Line 533: the number of tile columns of the image, the divisor of the
    integer divisions of line 534. *)
Definition horizontal_blocks (a : RenderIn) : Z :=
  u32 (Z.quot (r_W a + BLOCK_X - 1) BLOCK_X).

Definition pixel_of (a : RenderIn) (tile_id : Z) (idx : Z) : Pixel :=
  let horizontal_blocks := horizontal_blocks a in
  let tile_x := (tile_id mod horizontal_blocks)%Z in
  let tile_y := (tile_id / horizontal_blocks)%Z in
  let pix_min_x := u32 (tile_x * BLOCK_X) in
  let pix_min_y := u32 (tile_y * BLOCK_Y) in
  let pix_x := u32 (pix_min_x + Z.rem idx BLOCK_X) in
  let pix_y := u32 (pix_min_y + Z.quot idx BLOCK_X) in
  let pix_id := u32 (r_W a * pix_y + pix_x) in
  mkPixel pix_x pix_y pix_id
          ((pix_x <? u32 (r_W a))%Z && (pix_y <? u32 (r_H a))%Z).

(** Lines 573-584: lane 0 reads the stored state of its bucket for the
    pixel. *)
Definition load_state (a : RenderIn) (global_bucket_idx : Z) (idx : Z)
    (px : Pixel) (r : Regs) : Regs :=
  let T := r_sampled_T a (u32 (global_bucket_idx * BLOCK_SIZE + idx)) in
  let ar := fold_left
    (fun ar ch => set_reg ar ch
       (- r_pixel_colors a (u32 (Z.of_nat ch * r_H a * r_W a + pix_id px))
        + r_sampled_ar a (u32 (global_bucket_idx * BLOCK_SIZE * Z.of_nat C
                               + Z.of_nat ch * BLOCK_SIZE + idx))))
    (seq 0 C) (ar r) in
  let ard := - r_pixel_invDepths a (pix_id px)
             + r_sampled_ard a (u32 (global_bucket_idx * BLOCK_SIZE + idx)) in
  let T_final := r_final_Ts a (pix_id px) in
  let last_contributor := of_Z (r_n_contrib a (pix_id px)) in
  let dL_dpixel := fold_left
    (fun dL_dpixel ch => set_reg dL_dpixel ch
       (r_dL_dpixels a (u32 (Z.of_nat ch * r_H a * r_W a + pix_id px))))
    (seq 0 C) (dL_dpixel r) in
  let dL_invdepth := r_dL_invdepths a (pix_id px) in
  mkRegs T T_final last_contributor ar ard dL_dpixel dL_invdepth.

(** Lines 592-598: the blending values of one primitive at one pixel. *)
Record Blend : Type := mkBlend {
  b_d : vec2 F;
  b_power : F;
  b_G : F;
  b_alpha : F
}.

Definition blend (l : Lane) (px : Pixel) : Blend :=
  let pixf := mk2 (of_Z (pix_x px)) (of_Z (pix_y px)) in
  let d := mk2 (x2 (xy l) - x2 pixf) (y2 (xy l) - y2 pixf) in
  let power :=
    - lit 1 2 * (x4 (con_o l) * x2 d * x2 d + z4 (con_o l) * y2 d * y2 d)
    - y4 (con_o l) * x2 d * y2 d in
  let G := fexp power in
  let alpha := fmin (lit 99 100) (w4 (con_o l) * G) in
  mkBlend d power G alpha.

(** Lines 604-611: the body of the loop over the channels, on [ar],
    [Register_dL_dcolors], [dL_dalpha] and [bg_dot_dpixel]. *)
Definition channel_step (a : RenderIn) (l : Lane) (r : Regs) (alpha weight : F)
    (st : (nat -> F) * (nat -> F) * F * F) (ch : nat)
    : (nat -> F) * (nat -> F) * F * F :=
  let '(ar, Register_dL_dcolors, dL_dalpha, bg_dot_dpixel) := st in
  let ar := set_reg ar ch (ar ch + weight * c l ch) in
  let dL_dchannel := dL_dpixel r ch in
  let Register_dL_dcolors :=
    set_reg Register_dL_dcolors ch (Register_dL_dcolors ch + weight * dL_dchannel) in
  let dL_dalpha := dL_dalpha
    + ((c l ch * T r) - (fone / (fone - alpha)) * (- ar ch)) * dL_dchannel in
  let bg_dot_dpixel := bg_dot_dpixel + r_bg_color a (Z.of_nat ch) * dL_dpixel r ch in
  (ar, Register_dL_dcolors, dL_dalpha, bg_dot_dpixel).

(** Lines 599-639: the update of the lane's registers once none of the
    [continue] tests has fired. *)
Definition composite (a : RenderIn) (l : Lane) (b : Blend) (r : Regs) (acc : Acc)
    : Regs * Acc :=
  let d := b_d b in
  let G := b_G b in
  let alpha := b_alpha b in
  let ddelx_dx := lit 1 2 * of_Z (r_W a) in
  let ddely_dy := lit 1 2 * of_Z (r_H a) in
  let weight := alpha * T r in
  let bg_dot_dpixel := of_Z 0 in
  let dL_dalpha := of_Z 0 in
  let '(ar, Register_dL_dcolors, dL_dalpha, bg_dot_dpixel) :=
    fold_left (channel_step a l r alpha weight) (seq 0 C)
              (ar r, Register_dL_dcolors acc, dL_dalpha, bg_dot_dpixel) in
  let ard := ard r + weight * invd l in
  let Register_dL_dinvdepths := Register_dL_dinvdepths acc + weight * dL_invdepth r in
  let dL_dalpha := dL_dalpha
    + ((invd l * T r) - (fone / (fone - alpha)) * (- ard)) * dL_invdepth r in
  let dL_dalpha := dL_dalpha + (- T_final r / (fone - alpha)) * bg_dot_dpixel in
  let T' := T r * (fone - alpha) in
  let dL_dG := w4 (con_o l) * dL_dalpha in
  let gdx := G * x2 d in
  let gdy := G * y2 d in
  let dG_ddelx := - gdx * x4 (con_o l) - gdy * y4 (con_o l) in
  let dG_ddely := - gdy * z4 (con_o l) - gdx * y4 (con_o l) in
  let tmp_x := dL_dG * dG_ddelx * ddelx_dx in
  let Register_dL_dmean2D_x := Register_dL_dmean2D_x acc + tmp_x in
  let tmp_y := dL_dG * dG_ddely * ddely_dy in
  let Register_dL_dmean2D_y := Register_dL_dmean2D_y acc + tmp_y in
  let Register_dL_dconic2D_x :=
    Register_dL_dconic2D_x acc + - lit 1 2 * gdx * x2 d * dL_dG in
  let Register_dL_dconic2D_y :=
    Register_dL_dconic2D_y acc + - lit 1 2 * gdx * y2 d * dL_dG in
  let Register_dL_dconic2D_w :=
    Register_dL_dconic2D_w acc + - lit 1 2 * gdy * y2 d * dL_dG in
  let Register_dL_dopacity := Register_dL_dopacity acc + G * dL_dalpha in
  (mkRegs T' (T_final r) (last_contributor r) ar ard (dL_dpixel r) (dL_invdepth r),
   mkAcc Register_dL_dmean2D_x Register_dL_dmean2D_y Register_dL_dconic2D_x
         Register_dL_dconic2D_y Register_dL_dconic2D_w Register_dL_dopacity
         Register_dL_dcolors Register_dL_dinvdepths).

(** Lines 587-640: the "do work" block of one lane at one step, for the
    pixel [px] of index [idx]. *)
Definition do_work (a : RenderIn) (l : Lane) (idx : Z) (px : Pixel)
    (r : Regs) (acc : Acc) : Regs * Acc :=
  if valid_splat l && valid_pixel px && (0 <=? idx)%Z && (idx <? BLOCK_SIZE)%Z then
    if (u32 (r_W a) <=? pix_x px)%Z || (u32 (r_H a) <=? pix_y px)%Z then (r, acc)
    else if of_Z (splat_idx_in_tile l) >=? last_contributor r then (r, acc)
    else
      let b := blend l px in
      if b_power b >? of_Z 0 then (r, acc)
      else if b_alpha b <? lit 1 255 then (r, acc)
      else composite a l b r acc
  else (r, acc).

(** One step [i] of the loop for the lane of rank [thread_rank], after the
    shuffle has put [r] into its registers. *)
Definition lane_step (a : RenderIn) (global_bucket_idx : Z) (i : Z)
    (thread_rank : Z) (l : Lane) (r : Regs) (acc : Acc) : Regs * Acc :=
  let idx := (i - thread_rank)%Z in
  let px := pixel_of a (tile_id l) idx in
  let r :=
    if valid_splat l && valid_pixel px && (thread_rank =? 0)%Z
       && (idx <? BLOCK_SIZE)%Z
    then load_state a global_bucket_idx idx px r
    else r in
  do_work a l idx px r acc.

(** [shfl_up(v, 1)] over the lanes of a warp: every lane but the first
    receives the value of the lane below it, the first keeps its own. *)
Definition shfl_up {A} (w : list A) : list A :=
  match w with
  | [] => []
  | v :: _ => v :: removelast w
  end.

(** The state of a warp: for each of its 32 lanes, the shuffled registers
    and the accumulation registers. *)
Definition Warp : Type := list (Regs * Acc).

Definition warp_step (a : RenderIn) (global_bucket_idx : Z) (w : Warp) (i : nat)
    : Warp :=
  let shuffled := shfl_up (map fst w) in
  map (fun '(k, (r, acc)) =>
         let thread_rank := Z.of_nat k in
         lane_step a global_bucket_idx (Z.of_nat i) thread_rank
                   (lane_setup a global_bucket_idx thread_rank) r acc)
      (combine (seq 0 32) (combine shuffled (map snd w))).

(** The loop of lines 549-641.  The shuffled registers are not initialized
    by the source: [garbage] is what each lane finds in them. *)
Definition warp_loop (a : RenderIn) (global_bucket_idx : Z) (garbage : nat -> Regs)
    : Warp :=
  fold_left (warp_step a global_bucket_idx)
            (seq 0 (Z.to_nat (BLOCK_SIZE + 31)))
            (map (fun k => (garbage k, Acc_zero)) (seq 0 32)).

(** Lines 644-659: the atomic additions of one lane. *)
Definition flush (l : Lane) (acc : Acc) : list (AtomicAdd F) :=
  if valid_splat l then
    [ mkAdd Mean2D_x (gaussian_idx l) (Register_dL_dmean2D_x acc);
      mkAdd Mean2D_y (gaussian_idx l) (Register_dL_dmean2D_y acc);
      mkAdd Mean2D_z (gaussian_idx l) (fabs (Register_dL_dmean2D_x acc));
      mkAdd Mean2D_w (gaussian_idx l) (fabs (Register_dL_dmean2D_y acc));
      mkAdd Conic2D_x (gaussian_idx l) (Register_dL_dconic2D_x acc);
      mkAdd Conic2D_y (gaussian_idx l) (Register_dL_dconic2D_y acc);
      mkAdd Conic2D_w (gaussian_idx l) (Register_dL_dconic2D_w acc);
      mkAdd Opacity (gaussian_idx l) (Register_dL_dopacity acc) ]
    ++ map (fun ch => mkAdd Colors
                        (u32 (gaussian_idx l * Z.of_nat C + Z.of_nat ch))
                        (Register_dL_dcolors acc ch))
           (seq 0 C)
    ++ [ mkAdd InvDepths (gaussian_idx l) (Register_dL_dinvdepths acc) ]
  else [].

(** The kernel for one warp, that is one bucket: the atomic additions it
    performs, lane after lane. *)
Definition PerGaussianRenderCUDA (a : RenderIn) (global_bucket_idx : Z)
    (garbage : nat -> Regs) : list (AtomicAdd F) :=
  let valid_bucket := (global_bucket_idx <? u32 (r_B a))%Z in
  if negb valid_bucket then []
  else if bucket_useless a (lane_setup a global_bucket_idx 0) then []
  else
    let w := warp_loop a global_bucket_idx garbage in
    flat_map (fun '(k, (_, acc)) =>
                flush (lane_setup a global_bucket_idx (Z.of_nat k)) acc)
             (combine (seq 0 32) w).

(** The gradient buffers of the kernel. *)
Record RenderOut : Type := mkRenderOut {
  o_dL_dmean2D : buf (vec4 F);
  o_dL_dconic2D : buf (vec4 F);
  o_dL_dopacity : buf F;
  o_dL_dcolors : buf F;
  o_dL_dinvdepths : buf F
}.

Definition atomicAdd (o : RenderOut) (e : AtomicAdd F) : RenderOut :=
  let i := add_index e in
  let v := add_value e in
  let m := o_dL_dmean2D o i in
  let q := o_dL_dconic2D o i in
  match add_buf e with
  | Mean2D_x => mkRenderOut (upd (o_dL_dmean2D o) i (mk4 (x4 m + v) (y4 m) (z4 m) (w4 m)))
                  (o_dL_dconic2D o) (o_dL_dopacity o) (o_dL_dcolors o) (o_dL_dinvdepths o)
  | Mean2D_y => mkRenderOut (upd (o_dL_dmean2D o) i (mk4 (x4 m) (y4 m + v) (z4 m) (w4 m)))
                  (o_dL_dconic2D o) (o_dL_dopacity o) (o_dL_dcolors o) (o_dL_dinvdepths o)
  | Mean2D_z => mkRenderOut (upd (o_dL_dmean2D o) i (mk4 (x4 m) (y4 m) (z4 m + v) (w4 m)))
                  (o_dL_dconic2D o) (o_dL_dopacity o) (o_dL_dcolors o) (o_dL_dinvdepths o)
  | Mean2D_w => mkRenderOut (upd (o_dL_dmean2D o) i (mk4 (x4 m) (y4 m) (z4 m) (w4 m + v)))
                  (o_dL_dconic2D o) (o_dL_dopacity o) (o_dL_dcolors o) (o_dL_dinvdepths o)
  | Conic2D_x => mkRenderOut (o_dL_dmean2D o)
                  (upd (o_dL_dconic2D o) i (mk4 (x4 q + v) (y4 q) (z4 q) (w4 q)))
                  (o_dL_dopacity o) (o_dL_dcolors o) (o_dL_dinvdepths o)
  | Conic2D_y => mkRenderOut (o_dL_dmean2D o)
                  (upd (o_dL_dconic2D o) i (mk4 (x4 q) (y4 q + v) (z4 q) (w4 q)))
                  (o_dL_dopacity o) (o_dL_dcolors o) (o_dL_dinvdepths o)
  | Conic2D_w => mkRenderOut (o_dL_dmean2D o)
                  (upd (o_dL_dconic2D o) i (mk4 (x4 q) (y4 q) (z4 q) (w4 q + v)))
                  (o_dL_dopacity o) (o_dL_dcolors o) (o_dL_dinvdepths o)
  | Opacity => mkRenderOut (o_dL_dmean2D o) (o_dL_dconic2D o)
                  (upd (o_dL_dopacity o) i (o_dL_dopacity o i + v))
                  (o_dL_dcolors o) (o_dL_dinvdepths o)
  | Colors => mkRenderOut (o_dL_dmean2D o) (o_dL_dconic2D o) (o_dL_dopacity o)
                  (upd (o_dL_dcolors o) i (o_dL_dcolors o i + v)) (o_dL_dinvdepths o)
  | InvDepths => mkRenderOut (o_dL_dmean2D o) (o_dL_dconic2D o) (o_dL_dopacity o)
                  (o_dL_dcolors o) (upd (o_dL_dinvdepths o) i (o_dL_dinvdepths o i + v))
  end.

(** The float that an [atomicAdd] on the component [b] at index [i]
    addresses. *)
Definition entry (o : RenderOut) (b : GradBuf) (i : Z) : F :=
  match b with
  | Mean2D_x => x4 (o_dL_dmean2D o i)
  | Mean2D_y => y4 (o_dL_dmean2D o i)
  | Mean2D_z => z4 (o_dL_dmean2D o i)
  | Mean2D_w => w4 (o_dL_dmean2D o i)
  | Conic2D_x => x4 (o_dL_dconic2D o i)
  | Conic2D_y => y4 (o_dL_dconic2D o i)
  | Conic2D_w => w4 (o_dL_dconic2D o i)
  | Opacity => o_dL_dopacity o i
  | Colors => o_dL_dcolors o i
  | InvDepths => o_dL_dinvdepths o i
  end.

(** What a list of atomic additions adds to that float. *)
Definition hits (e : AtomicAdd F) (b : GradBuf) (i : Z) : bool :=
  GradBuf_eqb (add_buf e) b && (add_index e =? i)%Z.

Definition added_to (adds : list (AtomicAdd F)) (b : GradBuf) (i : Z) : F :=
  fold_left (fun s e => s + (if hits e b i then add_value e else of_Z 0))
            adds (of_Z 0).

(** [BACKWARD::render]: a grid of [((B * 32) + 31) / 32] blocks of one warp
    each; the atomic additions of the warps are applied bucket after
    bucket. *)
Definition render (a : RenderIn) (garbage : Z -> nat -> Regs) (o : RenderOut)
    : RenderOut :=
  fold_left
    (fun o gb =>
       fold_left atomicAdd
         (PerGaussianRenderCUDA a (Z.of_nat gb) (garbage (Z.of_nat gb))) o)
    (seq 0 (Z.to_nat (Z.quot (r_B a * 32 + 31) 32))) o.
End Render.

Arguments RenderIn F : clear implicits.
Arguments Regs F : clear implicits.
Arguments Acc F : clear implicits.
Arguments Lane F : clear implicits.
Arguments Blend F : clear implicits.
Arguments Warp F : clear implicits.
Arguments RenderOut F : clear implicits.

(** ** Running the kernels *)

(** *** The helpers of the header, as the rasterizer usually has them

    Used to run the kernels on concrete inputs only: the matrix helpers
    apply a column-major 4x4 matrix, [dnormvdv] is the backward rule of
    vector normalization. *)

Section Header.
Context {F : Type} `{FloatArith F}.
Local Open Scope float_scope.

Definition std_transformPoint4x3 (p : vec3 F) (matrix : buf F) : vec3 F :=
  mk3 (matrix 0%Z * x3 p + matrix 4%Z * y3 p + matrix 8%Z * z3 p + matrix 12%Z)
      (matrix 1%Z * x3 p + matrix 5%Z * y3 p + matrix 9%Z * z3 p + matrix 13%Z)
      (matrix 2%Z * x3 p + matrix 6%Z * y3 p + matrix 10%Z * z3 p + matrix 14%Z).

Definition std_transformPoint4x4 (p : vec3 F) (matrix : buf F) : vec4 F :=
  mk4 (matrix 0%Z * x3 p + matrix 4%Z * y3 p + matrix 8%Z * z3 p + matrix 12%Z)
      (matrix 1%Z * x3 p + matrix 5%Z * y3 p + matrix 9%Z * z3 p + matrix 13%Z)
      (matrix 2%Z * x3 p + matrix 6%Z * y3 p + matrix 10%Z * z3 p + matrix 14%Z)
      (matrix 3%Z * x3 p + matrix 7%Z * y3 p + matrix 11%Z * z3 p + matrix 15%Z).

Definition std_transformVec4x3Transpose (p : vec3 F) (matrix : buf F) : vec3 F :=
  mk3 (matrix 0%Z * x3 p + matrix 1%Z * y3 p + matrix 2%Z * z3 p)
      (matrix 4%Z * x3 p + matrix 5%Z * y3 p + matrix 6%Z * z3 p)
      (matrix 8%Z * x3 p + matrix 9%Z * y3 p + matrix 10%Z * z3 p).

Definition std_dnormvdv (v dv : vec3 F) : vec3 F :=
  let sum2 := x3 v * x3 v + y3 v * y3 v + z3 v * z3 v in
  let invsum32 := fone / fsqrt (sum2 * sum2 * sum2) in
  mk3 (((sum2 - x3 v * x3 v) * x3 dv - y3 v * x3 v * y3 dv - z3 v * x3 v * z3 dv)
       * invsum32)
      ((- x3 v * y3 v * x3 dv + (sum2 - y3 v * y3 v) * y3 dv - z3 v * y3 v * z3 dv)
       * invsum32)
      ((- x3 v * z3 v * x3 dv - y3 v * z3 v * y3 dv + (sum2 - z3 v * z3 v) * z3 dv)
       * invsum32).

Definition std_auxiliary (sh_c0 sh_c1 : F) (sh_c2 sh_c3 : nat -> F) : Auxiliary F := {|
  SH_C0 := sh_c0;
  SH_C1 := sh_c1;
  SH_C2 := sh_c2;
  SH_C3 := sh_c3;
  transformPoint4x3 := std_transformPoint4x3;
  transformPoint4x4 := std_transformPoint4x4;
  transformVec4x3Transpose := std_transformVec4x3Transpose;
  dnormvdv := std_dnormvdv
|}.
End Header.

(** 16 x 16 pixel blocks and three colour channels. *)
#[export] Instance std_config : Config := {|
  NUM_CHANNELS_3DGS := 3;
  BLOCK_X := 16;
  BLOCK_Y := 16;
  BLOCK_SIZE := 16 * 16
|}.

Definition dec (n : Z) (digits : Z) : Qc := Q2Qc (Qmake n (Z.to_pos (10 ^ digits))).

#[export] Instance Qc_auxiliary : Auxiliary Qc :=
  std_auxiliary
    (dec 28209479177387814 17) (dec 4886025119029199 16)
    (fun k => nth k [dec 10925484305920792 16; dec (-10925484305920792) 16;
                     dec 31539156525252005 17; dec (-10925484305920792) 16;
                     dec 5462742152960396 16] (Q2Qc 0))
    (fun k => nth k [dec (-5900435899266435) 16; dec 2890611442640554 15;
                     dec (-4570457994644658) 16; dec 3731763325901154 16;
                     dec (-4570457994644658) 16; dec 1445305721320277 15;
                     dec (-5900435899266435) 16] (Q2Qc 0)).

#[export] Instance binary32_auxiliary : Auxiliary spec_float :=
  std_auxiliary
    (S754_finite false 9465531 (-25)) (S754_finite false 16394780 (-25))
    (fun k => nth k [S754_finite false 9164961 (-23); S754_finite true 9164961 (-23);
                     S754_finite false 10582785 (-25); S754_finite true 9164961 (-23);
                     S754_finite false 9164961 (-24)] (S754_zero false))
    (fun k => nth k [S754_finite true 9899289 (-24); S754_finite false 12124103 (-22);
                     S754_finite true 15335912 (-25); S754_finite false 12521720 (-25);
                     S754_finite true 15335912 (-25); S754_finite false 12124103 (-23);
                     S754_finite true 9899289 (-24)] (S754_zero false)).

(** The exponential on rationals, to about ten decimal digits: fixed-point
    arithmetic with twelve digits, the argument halved six times, sixteen
    terms of the series, six squarings, and the reciprocal for a negative
    argument. *)
Definition Qc_exp (x : Qc) : Qc :=
  let s := (10 ^ 12)%Z in
  let n := Qnum x in
  let xi := (Z.abs n * s / Zpos (Qden x) / 64)%Z in
  let sum :=
    fst (fold_left
           (fun '(sum, term) k =>
              let term := (term * xi / (s * Z.of_nat k))%Z in
              ((sum + term)%Z, term))
           (seq 1 16) (s, s)) in
  let e := fold_left (fun v _ => (v * v / s)%Z) (seq 0 6) sum in
  let r := if (n <? 0)%Z then (s * s / e)%Z else e in
  Q2Qc (Qmake r (Z.to_pos s)).

#[export] Instance Qc_fexp : FloatExp Qc := {| fexp := Qc_exp |}.

(** *** Watching the denominators

    An arithmetic that computes as [F] does and remembers, in every value,
    whether a division by a denominator equal to zero took part in
    computing it. *)

Record Watched (F : Type) : Type := mkWatched {
  value : F;
  div_by_zero : bool
}.
Arguments mkWatched {F}.

Section Watch.
Context {F : Type} `{FloatArith F}.

Definition clean (x : F) : Watched F := mkWatched x false.

Definition watch1 (f : F -> F) (x : Watched F) : Watched F :=
  mkWatched (f (value x)) (div_by_zero x).

Definition watch2 (f : F -> F -> F) (x y : Watched F) : Watched F :=
  mkWatched (f (value x) (value y)) (div_by_zero x || div_by_zero y).

Definition watch_div (x y : Watched F) : Watched F :=
  mkWatched (fdiv (value x) (value y))
            (div_by_zero x || div_by_zero y || feq (value y) (of_Z 0)).

#[export] Instance Watched_arith : FloatArith (Watched F) := {|
  fzero := clean fzero;
  fone := clean fone;
  fadd := watch2 fadd;
  fsub := watch2 fsub;
  fmul := watch2 fmul;
  fdiv := watch_div;
  fneg := watch1 fneg;
  fsqrt := watch1 fsqrt;
  fabs := watch1 fabs;
  fmin := watch2 fmin;
  fmax := watch2 fmax;
  flt := fun x y => flt (value x) (value y);
  fle := fun x y => fle (value x) (value y);
  feq := fun x y => feq (value x) (value y);
  of_Z := fun z => clean (of_Z z)
|}.

#[export] Instance Watched_fexp `{FloatExp F} : FloatExp (Watched F) :=
  {| fexp := watch1 fexp |}.
End Watch.

(** ** The forward pass and a sequential reference

    The forward rasterization pass is not among the sources at hand, and
    neither is a reference implementation of the backward pass.  Both are
    modelled here from the specification, on the buffers and with the
    per-sample blending values ([blend]) of the kernel. *)

Section Reference.
Context {F : Type} `{FloatArith F} `{FloatExp F} `{Config}.
Local Open Scope float_scope.
Variable a : RenderIn F.

(** Modelled from the spec: the primitive at place [j] of the depth-sorted
    range of a tile (the forward pass and its bucket structure are not in
    the sources), with its screen-space mean, conic and opacity, colour and
    inverse depth, read from the buffers where the kernel reads them. *)
Definition splat_at (tile : Z) (j : nat) : Lane F :=
  let range := r_ranges a tile in
  let g := i32 (r_point_list a (fst range + Z.of_nat j)%Z) in
  mkLane tile (snd range - fst range)%Z (Z.of_nat j / 32)%Z (Z.of_nat j)
         (fst range + Z.of_nat j)%Z true g
         (r_points_xy_image a g) (r_conic_opacity a g)
         (fun ch => r_colors a (u32 (g * Z.of_nat C + Z.of_nat ch)%Z))
         (fone / r_depths a g).

(** Modelled from the spec: the visibility tests of the forward pass, which
    the backward pass mirrors: a sample is composited unless its exponent
    is positive or its alpha is below 1/255. *)
Definition contributes (l : Lane F) (px : Pixel) : bool :=
  negb (b_power (blend l px) >? of_Z 0) && negb (b_alpha (blend l px) <? lit 1 255).

(** The running state of front-to-back compositing at a pixel:
    transmittance, accumulated colour, accumulated inverse depth. *)
Record Composited : Type := mkComposited {
  f_T : F;
  f_C : nat -> F;
  f_D : F
}.

(** Modelled from the spec: alpha compositing of one more primitive, each
    contribution weighted by its alpha and by the transmittance of what was
    composited before it. *)
Definition forward_step (px : Pixel) (st : Composited) (l : Lane F) : Composited :=
  if contributes l px then
    let alpha := b_alpha (blend l px) in
    let weight := alpha * f_T st in
    mkComposited (f_T st * (fone - alpha))
                 (fun ch => f_C st ch + weight * c l ch)
                 (f_D st + weight * invd l)
  else st.

(** Modelled from the spec: the state of the forward pass at a pixel once
    the first [m] primitives of the tile have been gone through. *)
Definition forward_upto (tile : Z) (px : Pixel) (m : nat) : Composited :=
  fold_left (forward_step px) (map (splat_at tile) (seq 0 m))
            (mkComposited fone (fun _ => of_Z 0) (of_Z 0)).

(** Modelled from the spec: what it means for the buffers that the kernel
    reads for the bucket [global_bucket_idx] to come from a front-to-back
    forward pass.  At every valid pixel of the tile, with [n] its recorded
    contributor count: [n] is at most the tile's maximum contributor count
    and the size of the tile's range; the final transmittance, colour and
    inverse depth are the state after the first [n] primitives; and, when
    the bucket starts before [n], its checkpoint is the state at the first
    primitive of the bucket. *)
Definition forward_consistent (global_bucket_idx : Z) : Prop :=
  let l0 := lane_setup a global_bucket_idx 0 in
  let tile := tile_id l0 in
  forall idx : nat, (Z.of_nat idx < BLOCK_SIZE)%Z ->
  let px := pixel_of a tile (Z.of_nat idx) in
  valid_pixel px = true ->
  let n := r_n_contrib a (pix_id px) in
  let final := forward_upto tile px (Z.to_nat n) in
  let start := forward_upto tile px (Z.to_nat (bucket_idx_in_tile l0 * 32)%Z) in
  (0 <= n)%Z /\ (n <= r_max_contrib a tile)%Z /\ (n <= num_splats_in_tile l0)%Z /\
  r_final_Ts a (pix_id px) = f_T final /\
  (forall ch, (ch < C)%nat ->
     r_pixel_colors a (u32 (Z.of_nat ch * r_H a * r_W a + pix_id px)%Z) = f_C final ch) /\
  r_pixel_invDepths a (pix_id px) = f_D final /\
  ((bucket_idx_in_tile l0 * 32 < n)%Z ->
   r_sampled_T a (u32 (global_bucket_idx * BLOCK_SIZE + Z.of_nat idx)%Z) = f_T start /\
   (forall ch, (ch < C)%nat ->
      r_sampled_ar a (u32 (global_bucket_idx * BLOCK_SIZE * Z.of_nat C
                           + Z.of_nat ch * BLOCK_SIZE + Z.of_nat idx)%Z) = f_C start ch) /\
   r_sampled_ard a (u32 (global_bucket_idx * BLOCK_SIZE + Z.of_nat idx)%Z) = f_D start).

(** Modelled from the spec, section 4.5: the gradient of the loss at one
    pixel with respect to the alpha of one composited primitive, from the
    transmittance [T] before the sample, the colour [behind_C] and inverse
    depth [behind_D] composited behind it, and the final transmittance.  It
    sums (a) a colour term, (b) an inverse-depth term and (c) a boundary
    term from the background colour weighted by the final transmittance,
    the last one only if the sample is the [last] contributing sample of
    the pixel. *)
Definition spec_sample_dL_dalpha (l : Lane F) (px : Pixel) (T : F)
    (behind_C : nat -> F) (behind_D : F) (T_final : F) (last : bool) : F :=
  let alpha := b_alpha (blend l px) in
  let dL_dchannel (ch : nat) :=
    r_dL_dpixels a (u32 (Z.of_nat ch * r_H a * r_W a + pix_id px)%Z) in
  let dL_dinvdepth := r_dL_invdepths a (pix_id px) in
  let boundary :=
    T_final / (fone - alpha)
    * fold_left (fun s ch => s + r_bg_color a (Z.of_nat ch) * dL_dchannel ch)
                (seq 0 C) (of_Z 0) in
  fold_left (fun s ch => s + (c l ch * T - behind_C ch / (fone - alpha)) * dL_dchannel ch)
            (seq 0 C) (of_Z 0)
  + (invd l * T - behind_D / (fone - alpha)) * dL_dinvdepth
  - (if last then boundary else of_Z 0).

(** The same gradient with the boundary term at every composited sample,
    as line 619 of the kernel has it and section 4.5 does not: the final
    transmittance is a product over all the samples of the pixel, and the
    background reaches the pixel through it, whichever sample the alpha
    belongs to. *)
Definition sample_dL_dalpha (l : Lane F) (px : Pixel) (T : F)
    (behind_C : nat -> F) (behind_D : F) (T_final : F) : F :=
  let alpha := b_alpha (blend l px) in
  let dL_dchannel (ch : nat) :=
    r_dL_dpixels a (u32 (Z.of_nat ch * r_H a * r_W a + pix_id px)%Z) in
  let dL_dinvdepth := r_dL_invdepths a (pix_id px) in
  fold_left (fun s ch => s + (c l ch * T - behind_C ch / (fone - alpha)) * dL_dchannel ch)
            (seq 0 C) (of_Z 0)
  + (invd l * T - behind_D / (fone - alpha)) * dL_dinvdepth
  - T_final / (fone - alpha)
    * fold_left (fun s ch => s + r_bg_color a (Z.of_nat ch) * dL_dchannel ch)
                (seq 0 C) (of_Z 0).

(** Modelled from the spec: the gradient that one pixel gives to one
    composited primitive, from the alpha gradient [dL_dalpha] of the
    sample.  Mean, conic and opacity gradients follow from the alpha
    gradient by the chain rule through the footprint; colour and inverse
    depth receive the pixel's gradient with the weight of the sample. *)
Definition gradient_through_alpha (l : Lane F) (px : Pixel) (T : F) (dL_dalpha : F)
    : Acc F :=
  let b := blend l px in
  let alpha := b_alpha b in
  let G := b_G b in
  let dx := x2 (b_d b) in
  let dy := y2 (b_d b) in
  let weight := alpha * T in
  let dL_dchannel (ch : nat) :=
    r_dL_dpixels a (u32 (Z.of_nat ch * r_H a * r_W a + pix_id px)%Z) in
  let dL_dinvdepth := r_dL_invdepths a (pix_id px) in
  let dL_dG := w4 (con_o l) * dL_dalpha in
  let dG_ddelx := - (G * dx * x4 (con_o l) + G * dy * y4 (con_o l)) in
  let dG_ddely := - (G * dy * z4 (con_o l) + G * dx * y4 (con_o l)) in
  mkAcc (dL_dG * dG_ddelx * (of_Z (r_W a) / of_Z 2))
        (dL_dG * dG_ddely * (of_Z (r_H a) / of_Z 2))
        (- (G * dx * dx * dL_dG) / of_Z 2)
        (- (G * dx * dy * dL_dG) / of_Z 2)
        (- (G * dy * dy * dL_dG) / of_Z 2)
        (G * dL_dalpha)
        (fun ch => weight * dL_dchannel ch)
        (weight * dL_dinvdepth).

Definition sample_gradient (l : Lane F) (px : Pixel) (T : F)
    (behind_C : nat -> F) (behind_D : F) (T_final : F) : Acc F :=
  gradient_through_alpha l px T (sample_dL_dalpha l px T behind_C behind_D T_final).

Definition spec_sample_gradient (l : Lane F) (px : Pixel) (T : F)
    (behind_C : nat -> F) (behind_D : F) (T_final : F) (last : bool) : Acc F :=
  gradient_through_alpha l px T
    (spec_sample_dL_dalpha l px T behind_C behind_D T_final last).

(** Modelled from the spec: reverse compositing at one pixel.  Going down
    the primitives in order gives each its transmittance; coming back up
    from the last one gives each the colour and inverse depth composited
    behind it and the final transmittance, hence its gradient.  The
    result is the final transmittance, what the primitives composite
    together, and their gradients, in order.  Every composited sample
    has the boundary term in its alpha gradient. *)
Fixpoint reference_pixel (px : Pixel) (T : F) (splats : list (Lane F))
    : F * (nat -> F) * F * list (Acc F) :=
  match splats with
  | [] => (T, fun _ => of_Z 0, of_Z 0, [])
  | l :: rest =>
      if contributes l px then
        let alpha := b_alpha (blend l px) in
        let '(T_final, behind_C, behind_D, grads) :=
          reference_pixel px (T * (fone - alpha)) rest in
        (T_final,
         fun ch => alpha * T * c l ch + behind_C ch,
         alpha * T * invd l + behind_D,
         sample_gradient l px T behind_C behind_D T_final :: grads)
      else
        let '(T_final, behind_C, behind_D, grads) := reference_pixel px T rest in
        (T_final, behind_C, behind_D, Acc_zero :: grads)
  end.

(** Modelled from the spec: the same reverse compositing with the
    boundary term as section 4.5 words it, for the last contributing
    sample of the pixel only, that is for the composited sample that no
    composited sample follows. *)
Fixpoint spec_reference_pixel (px : Pixel) (T : F) (splats : list (Lane F))
    : F * (nat -> F) * F * list (Acc F) :=
  match splats with
  | [] => (T, fun _ => of_Z 0, of_Z 0, [])
  | l :: rest =>
      if contributes l px then
        let alpha := b_alpha (blend l px) in
        let last := forallb (fun s => negb (contributes s px)) rest in
        let '(T_final, behind_C, behind_D, grads) :=
          spec_reference_pixel px (T * (fone - alpha)) rest in
        (T_final,
         fun ch => alpha * T * c l ch + behind_C ch,
         alpha * T * invd l + behind_D,
         spec_sample_gradient l px T behind_C behind_D T_final last :: grads)
      else
        let '(T_final, behind_C, behind_D, grads) := spec_reference_pixel px T rest in
        (T_final, behind_C, behind_D, Acc_zero :: grads)
  end.

(** The gradient that the pixel of index [idx] of a tile gives to the
    primitive at place [j] of the tile: the pixel goes through its
    contributing primitives, the first [n_contrib] of the tile. *)
Definition reference_gradient (tile : Z) (idx : nat) (j : nat) : Acc F :=
  let px := pixel_of a tile (Z.of_nat idx) in
  if valid_pixel px then
    nth j (snd (reference_pixel px fone
                  (map (splat_at tile)
                       (seq 0 (Z.to_nat (r_n_contrib a (pix_id px)))))))
        Acc_zero
  else Acc_zero.

Definition acc_add (x y : Acc F) : Acc F :=
  mkAcc (Register_dL_dmean2D_x x + Register_dL_dmean2D_x y)
        (Register_dL_dmean2D_y x + Register_dL_dmean2D_y y)
        (Register_dL_dconic2D_x x + Register_dL_dconic2D_x y)
        (Register_dL_dconic2D_y x + Register_dL_dconic2D_y y)
        (Register_dL_dconic2D_w x + Register_dL_dconic2D_w y)
        (Register_dL_dopacity x + Register_dL_dopacity y)
        (fun ch => Register_dL_dcolors x ch + Register_dL_dcolors y ch)
        (Register_dL_dinvdepths x + Register_dL_dinvdepths y).

(** The gradient of the primitive at place [j] of a tile: the sum over the
    pixels of the tile, in the order of their indices. *)
Definition reference_total (tile : Z) (j : nat) : Acc F :=
  fold_left (fun acc idx => acc_add acc (reference_gradient tile idx j))
            (seq 0 (Z.to_nat BLOCK_SIZE)) Acc_zero.

Definition spec_reference_gradient (tile : Z) (idx : nat) (j : nat) : Acc F :=
  let px := pixel_of a tile (Z.of_nat idx) in
  if valid_pixel px then
    nth j (snd (spec_reference_pixel px fone
                  (map (splat_at tile)
                       (seq 0 (Z.to_nat (r_n_contrib a (pix_id px)))))))
        Acc_zero
  else Acc_zero.

Definition spec_reference_total (tile : Z) (j : nat) : Acc F :=
  fold_left (fun acc idx => acc_add acc (spec_reference_gradient tile idx j))
            (seq 0 (Z.to_nat BLOCK_SIZE)) Acc_zero.

(** Modelled from the spec: the gradient buffers are dense and indexed by
    primitive, the colour gradients by primitive and channel.  Of the
    gradient [t] of the primitive [g], entry [i] of the component [b]
    receives its share; the two auxiliary channels of the screen-space
    mean receive the magnitudes of the two mean gradients. *)
Definition gradient_entry (g : Z) (t : Acc F) (b : GradBuf) (i : Z) : F :=
  let at_index (index : Z) (v : F) := if (i =? index)%Z then v else of_Z 0 in
  match b with
  | Mean2D_x => at_index g (Register_dL_dmean2D_x t)
  | Mean2D_y => at_index g (Register_dL_dmean2D_y t)
  | Mean2D_z => at_index g (fabs (Register_dL_dmean2D_x t))
  | Mean2D_w => at_index g (fabs (Register_dL_dmean2D_y t))
  | Conic2D_x => at_index g (Register_dL_dconic2D_x t)
  | Conic2D_y => at_index g (Register_dL_dconic2D_y t)
  | Conic2D_w => at_index g (Register_dL_dconic2D_w t)
  | Opacity => at_index g (Register_dL_dopacity t)
  | Colors =>
      fold_left (fun s ch =>
                   s + at_index (u32 (g * Z.of_nat C + Z.of_nat ch)%Z)
                                (Register_dL_dcolors t ch))
                (seq 0 C) (of_Z 0)
  | InvDepths => at_index g (Register_dL_dinvdepths t)
  end.

(** Modelled from the spec: the tile of a bucket, from the bucket-to-tile
    mapping, and the place in the tile's range of the first of its 32
    primitives, from the per-tile bucket offsets, which count the buckets
    of a tile and of the tiles before it. *)
Definition bucket_tile (global_bucket_idx : Z) : Z :=
  r_bucket_to_tile a global_bucket_idx.

Definition bucket_first_place (global_bucket_idx : Z) : Z :=
  let tile := bucket_tile global_bucket_idx in
  let buckets_before :=
    if (tile =? 0)%Z then 0%Z else r_per_tile_bucket_offset a (tile - 1)%Z in
  ((global_bucket_idx - buckets_before) * 32)%Z.

(** What the primitives of a bucket receive together in entry [i] of the
    component [b], when [total tile j] is the gradient of the primitive at
    place [j] of a tile: the sum over the 32 places of the bucket that lie
    within the tile's range. *)
Definition bucket_gradient (total : Z -> nat -> Acc F) (global_bucket_idx : Z)
    (b : GradBuf) (i : Z) : F :=
  let tile := bucket_tile global_bucket_idx in
  let range := r_ranges a tile in
  fold_left
    (fun s k =>
       let j := (Z.to_nat (bucket_first_place global_bucket_idx) + k)%nat in
       s + (if (Z.of_nat j <? snd range - fst range)%Z
            then gradient_entry (gaussian_idx (splat_at tile j)) (total tile j) b i
            else of_Z 0))
    (seq 0 32) (of_Z 0).

Definition reference_bucket : Z -> GradBuf -> Z -> F := bucket_gradient reference_total.

Definition spec_reference_bucket : Z -> GradBuf -> Z -> F :=
  bucket_gradient spec_reference_total.

(** Two sets of accumulation registers hold the same gradients. *)
Definition acc_eq (x y : Acc F) : Prop :=
  Register_dL_dmean2D_x x = Register_dL_dmean2D_x y /\
  Register_dL_dmean2D_y x = Register_dL_dmean2D_y y /\
  Register_dL_dconic2D_x x = Register_dL_dconic2D_x y /\
  Register_dL_dconic2D_y x = Register_dL_dconic2D_y y /\
  Register_dL_dconic2D_w x = Register_dL_dconic2D_w y /\
  Register_dL_dopacity x = Register_dL_dopacity y /\
  (forall ch, (ch < C)%nat -> Register_dL_dcolors x ch = Register_dL_dcolors y ch) /\
  Register_dL_dinvdepths x = Register_dL_dinvdepths y.
End Reference.

Arguments Composited F : clear implicits.

(** ** The kernel against the reference: what the statements need *)

Section RefinementDefs.
Context {F : Type} `{FloatArith F} `{FloatExp F} `{Config}.
Local Open Scope float_scope.

(** The index arithmetic of the bucket stays within [int]: the places of
    the bucket and the bounds of the tile's range are non-negative and below
    [2^31]. *)
Definition bucket_well_formed (a : RenderIn F) (global_bucket_idx : Z) : Prop :=
  let l0 := lane_setup a global_bucket_idx 0 in
  let range := r_ranges a (tile_id l0) in
  (0 <= bucket_idx_in_tile l0 * 32)%Z /\
  (bucket_idx_in_tile l0 * 32 + 31 < 2 ^ 31)%Z /\
  (0 <= fst range <= snd range)%Z /\ (snd range < 2 ^ 31)%Z.

(** The tile of the bucket is a [uint32_t], and the rank of the bucket
    among the buckets of its tile fits an [int]. *)
Definition bucket_index_exact (a : RenderIn F) (global_bucket_idx : Z) : Prop :=
  (0 <= bucket_tile a global_bucket_idx < 2 ^ 32)%Z /\
  (0 <= bucket_first_place a global_bucket_idx)%Z /\
  (bucket_first_place a global_bucket_idx + 31 < 2 ^ 31)%Z.

(** The place in the tile's range of the primitive of lane [k]. *)
Definition place_of (a : RenderIn F) (global_bucket_idx : Z) (k : nat) : nat :=
  Z.to_nat (bucket_idx_in_tile (lane_setup a global_bucket_idx 0) * 32) + k.

(** The transmittance left by a list of primitives at a pixel. *)
Definition transmittance_after (px : Pixel) (T : F) (splats : list (Lane F)) : F :=
  fold_left (fun T l => if contributes l px then T * (fone - b_alpha (blend l px)) else T)
            splats T.

(** The gradient of the loss with respect to [alpha] that [composite]
    arrives at (line 620), from the registers it starts with. *)
Definition composite_dL_dalpha (a : RenderIn F) (l : Lane F) (b : Blend F)
    (r : Regs F) : F :=
  let alpha := b_alpha b in
  let weight := alpha * T r in
  fold_left
    (fun s ch => s + ((c l ch * T r)
                      - (fone / (fone - alpha)) * (- (ar r ch + weight * c l ch)))
                     * dL_dpixel r ch)
    (seq 0 C) (of_Z 0)
  + ((invd l * T r) - (fone / (fone - alpha)) * (- (ard r + weight * invd l)))
    * dL_invdepth r
  + (- T_final r / (fone - alpha))
    * fold_left (fun s ch => s + r_bg_color a (Z.of_nat ch) * dL_dpixel r ch)
                (seq 0 C) (of_Z 0).

(** The registers [r] that reach a lane for the pixel [px] hold the state
    of the forward pass after [m] primitives of the tile, less the final
    state where the kernel keeps differences. *)
Definition regs_match (a : RenderIn F) (tile : Z) (px : Pixel) (r : Regs F) (m : nat)
    : Prop :=
  let cur := forward_upto a tile px m in
  let final := forward_upto a tile px (Z.to_nat (r_n_contrib a (pix_id px))) in
  T r = f_T cur /\
  (forall ch, (ch < C)%nat -> ar r ch = f_C cur ch - f_C final ch) /\
  ard r = f_D cur - f_D final /\
  T_final r = f_T final /\
  last_contributor r = of_Z (r_n_contrib a (pix_id px)) /\
  (forall ch, (ch < C)%nat ->
     dL_dpixel r ch = r_dL_dpixels a (u32 (Z.of_nat ch * r_H a * r_W a + pix_id px)%Z)) /\
  dL_invdepth r = r_dL_invdepths a (pix_id px).

(** [forward_consistent], as a test on the buffers. *)
Definition forward_consistentb (a : RenderIn F) (global_bucket_idx : Z) : bool :=
  let l0 := lane_setup a global_bucket_idx 0 in
  let tile := tile_id l0 in
  forallb
    (fun idx : nat =>
       let px := pixel_of a tile (Z.of_nat idx) in
       if valid_pixel px then
        let n := r_n_contrib a (pix_id px) in
        let final := forward_upto a tile px (Z.to_nat n) in
        (0 <=? n)%Z && (n <=? r_max_contrib a tile)%Z && (n <=? num_splats_in_tile l0)%Z
        && feq (r_final_Ts a (pix_id px)) (f_T final)
        && forallb
             (fun ch =>
                feq (r_pixel_colors a (u32 (Z.of_nat ch * r_H a * r_W a + pix_id px)%Z))
                    (f_C final ch))
             (seq 0 C)
        && feq (r_pixel_invDepths a (pix_id px)) (f_D final)
        && (if (bucket_idx_in_tile l0 * 32 <? n)%Z then
              let start :=
                forward_upto a tile px (Z.to_nat (bucket_idx_in_tile l0 * 32)%Z) in
                feq (r_sampled_T a (u32 (global_bucket_idx * BLOCK_SIZE + Z.of_nat idx)%Z))
                    (f_T start)
                && forallb
                     (fun ch =>
                        feq (r_sampled_ar a
                               (u32 (global_bucket_idx * BLOCK_SIZE * Z.of_nat C
                                     + Z.of_nat ch * BLOCK_SIZE + Z.of_nat idx)%Z))
                            (f_C start ch))
                     (seq 0 C)
                && feq (r_sampled_ard a
                          (u32 (global_bucket_idx * BLOCK_SIZE + Z.of_nat idx)%Z))
                       (f_D start)
            else true)
       else true)
    (seq 0 (Z.to_nat BLOCK_SIZE)).
End RefinementDefs.


(** ** The kernel's registers, up to what it reads *)

Section RegsEquiv.
Context {F : Type} `{FloatArith F} `{Config}.

(** Two sets of shuffled registers agree on what the kernel reads: the
    scalars, and the entries of the two arrays below the channel count. *)
Definition regs_equiv (r r' : Regs F) : Prop :=
  T r = T r' /\ T_final r = T_final r' /\ last_contributor r = last_contributor r' /\
  (forall ch, (ch < C)%nat -> ar r ch = ar r' ch) /\
  ard r = ard r' /\
  (forall ch, (ch < C)%nat -> dL_dpixel r ch = dL_dpixel r' ch) /\
  dL_invdepth r = dL_invdepth r'.
End RegsEquiv.

(** ** Views of the kernels used in the statements *)

Section Cov2DViews.
Context {F : Type} `{FloatArith F} `{Auxiliary F}.
Local Open Scope float_scope.
Import Glm.

(** The regularized 2D covariance of a primitive and the gradients that the
    anti-aliasing blocks leave, as the thread of [idx] computes them. *)
Definition cov2D_regularized (idx : Z) (means : buf (vec3 F)) (cov3Ds : buf F)
    (h_x h_y tan_fovx tan_fovy : F) (view_matrix : buf F)
    (opacities : buf F) (dL_dopacity : buf F) (antialiasing : bool) : Cov2DAA F :=
  let fw := cov2D_forward idx means cov3Ds h_x h_y tan_fovx tan_fovy view_matrix in
  cov2D_antialiasing idx antialiasing
    (at_ (fw_cov2D fw) 0 0) (at_ (fw_cov2D fw) 0 1) (at_ (fw_cov2D fw) 1 1)
    opacities dL_dopacity.

(** Its determinant: [denom] at line 250. *)
Definition cov2D_regularized_det (aa : Cov2DAA F) : F :=
  cov2D_denom (aa_c_xx aa) (aa_c_xy aa) (aa_c_yy aa).

End Cov2DViews.

(** ** Worked inputs *)

Section WorkedCov2D.
Context {F : Type} `{FloatArith F} `{Auxiliary F}.

(** The 4x4 identity, column-major. *)
Definition identity4 : buf F :=
  fun i => if ((i =? 0) || (i =? 5) || (i =? 10) || (i =? 15))%Z then of_Z 1 else of_Z 0.

(** One primitive on the optical axis at distance 1 from a camera with
    identity view matrix and unit focal lengths, its 3D covariance given by
    its symmetric entries [xx], [xy], [yy] (the others zero), with the
    gradient 1 on the first conic entry and on the opacity. *)
Definition on_axis_cov3D (xx xy yy : F) : buf F :=
  fun i => if (i =? 0)%Z then xx else if (i =? 1)%Z then xy
           else if (i =? 3)%Z then yy else of_Z 0.

Definition on_axis_regularized (xx xy yy : F) (antialiasing : bool) : Cov2DAA F :=
  cov2D_regularized 0 (fun _ => mk3 (of_Z 0) (of_Z 0) (of_Z 1))
    (on_axis_cov3D xx xy yy) (of_Z 1) (of_Z 1) (of_Z 1) (of_Z 1) identity4
    (fun _ => of_Z 1) (fun _ => of_Z 1) antialiasing.

Definition on_axis_cov2D (xx xy yy : F) (antialiasing : bool) : Cov2DOut F :=
  computeCov2DCUDA 0 1 (fun _ => mk3 (of_Z 0) (of_Z 0) (of_Z 1)) (fun _ => 1%Z)
    (on_axis_cov3D xx xy yy) (of_Z 1) (of_Z 1) (of_Z 1) (of_Z 1) identity4
    (fun _ => of_Z 1) (fun i => if (i =? 0)%Z then of_Z 1 else of_Z 0)
    (fun _ => of_Z 1) (fun _ => of_Z 0)
    (fun _ => mk3 (of_Z 0) (of_Z 0) (of_Z 0)) (fun _ => of_Z 7) antialiasing.
End WorkedCov2D.

(** A scene for the compositing kernel, in exact arithmetic: an image of
    4 x 4 pixels, one tile whose sorted range has 34 places and therefore
    two buckets.  Place 0 holds primitive 0; places 1 to 31 hold primitive
    3, which has opacity zero; places 32 and 33, the second bucket, hold
    primitives 1 and 2. *)
Module Scene.
Definition q (n d : Z) : Qc := Q2Qc (Qmake n (Z.to_pos d)).

Definition geometry : RenderIn Qc := {|
  r_ranges := fun _ => (0, 34)%Z;
  r_point_list := fun i => if (i =? 0)%Z then 0%Z else if (i =? 32)%Z then 1%Z
                           else if (i =? 33)%Z then 2%Z else 3%Z;
  r_W := 4;
  r_H := 4;
  r_B := 2;
  r_per_tile_bucket_offset := fun _ => 2%Z;
  r_bucket_to_tile := fun _ => 0%Z;
  r_sampled_T := fun _ => q 0 1;
  r_sampled_ar := fun _ => q 0 1;
  r_sampled_ard := fun _ => q 0 1;
  r_bg_color := fun ch => q (1 + ch) 10;
  r_points_xy_image := fun g =>
    if (g =? 0)%Z then mk2 (q 1 1) (q 1 1)
    else if (g =? 1)%Z then mk2 (q 2 1) (q 2 1)
    else if (g =? 2)%Z then mk2 (q 3 1) (q 1 1)
    else mk2 (q 0 1) (q 0 1);
  r_conic_opacity := fun g =>
    if (g =? 0)%Z then mk4 (q 1 2) (q 0 1) (q 1 2) (q 4 5)
    else if (g =? 1)%Z then mk4 (q 2 1) (q 0 1) (q 2 1) (q 9 10)
    else if (g =? 2)%Z then mk4 (q 1 1) (q 1 4) (q 1 1) (q 1 2)
    else mk4 (q 0 1) (q 0 1) (q 0 1) (q 0 1);
  r_colors := fun i => q (1 + (i * 5) mod 7) 8;
  r_depths := fun g => q (2 + g) 1;
  r_final_Ts := fun _ => q 0 1;
  r_n_contrib := fun _ => 0%Z;
  r_max_contrib := fun _ => 34%Z;
  r_pixel_colors := fun _ => q 0 1;
  r_pixel_invDepths := fun _ => q 0 1;
  r_dL_dpixels := fun i => q (1 + i mod 5) 4;
  r_dL_invdepths := fun i => q (i mod 3) 2
|}.

(** The pixel with a given [pix_id], through its index in the tile. *)
Definition pixel_with_id (pix_id : Z) : Pixel :=
  pixel_of geometry 0 (pix_id / 4 * 16 + pix_id mod 4).

(** The contributor count of the forward pass at a pixel: one more than
    the last place whose primitive passes the visibility tests. *)
Definition n_contrib (pix_id : Z) : Z :=
  let px := pixel_with_id pix_id in
  if contributes (splat_at geometry 0 33) px then 34
  else if contributes (splat_at geometry 0 32) px then 33
  else if contributes (splat_at geometry 0 0) px then 1
  else 0.

(** A state of the forward pass, as the buffers store it: transmittance,
    the three colour channels, inverse depth. *)
Definition stored (st : Composited Qc) : Q * list Q * Q :=
  (this (f_T st), map (fun ch => this (f_C st ch)) (seq 0 3), this (f_D st)).

(** What the forward pass leaves for the sixteen pixels of the image: the
    contributor counts, the final states, and the states at the first
    place of the second bucket. *)
Definition n_contrib_table : list Z :=
  Eval vm_compute in map (fun i => n_contrib (Z.of_nat i)) (seq 0 16).

Definition final_table : list (Q * list Q * Q) :=
  Eval vm_compute in
    map (fun i => stored (forward_upto geometry 0 (pixel_with_id (Z.of_nat i))
                            (Z.to_nat (n_contrib (Z.of_nat i)))))
        (seq 0 16).

Definition checkpoint_table : list (Q * list Q * Q) :=
  Eval vm_compute in
    map (fun i => stored (forward_upto geometry 0 (pixel_with_id (Z.of_nat i)) 32))
        (seq 0 16).

Definition initial : Q * list Q * Q := (1%Q, [0%Q; 0%Q; 0%Q], 0%Q).

Definition final_at (pix_id : Z) : Q * list Q * Q :=
  nth (Z.to_nat pix_id) final_table initial.

(** The checkpoint of a bucket at the pixel of index [idx] of the tile. *)
Definition checkpoint_at (bucket : Z) (idx : Z) : Q * list Q * Q :=
  if (bucket =? 0)%Z then initial
  else if ((idx mod 16 <? 4) && (idx / 16 <? 4))%Z
       then nth (Z.to_nat (idx / 16 * 4 + idx mod 16)) checkpoint_table initial
       else initial.

(** The scene with the buffers that the forward pass leaves. *)
Definition scene : RenderIn Qc := {|
  r_ranges := r_ranges geometry;
  r_point_list := r_point_list geometry;
  r_W := r_W geometry;
  r_H := r_H geometry;
  r_B := r_B geometry;
  r_per_tile_bucket_offset := r_per_tile_bucket_offset geometry;
  r_bucket_to_tile := r_bucket_to_tile geometry;
  r_sampled_T := fun i => Q2Qc (fst (fst (checkpoint_at (i / 256) (i mod 256))));
  r_sampled_ar := fun i =>
    Q2Qc (nth (Z.to_nat (i mod 768 / 256))
              (snd (fst (checkpoint_at (i / 768) (i mod 256)))) 0%Q);
  r_sampled_ard := fun i => Q2Qc (snd (checkpoint_at (i / 256) (i mod 256)));
  r_bg_color := r_bg_color geometry;
  r_points_xy_image := r_points_xy_image geometry;
  r_conic_opacity := r_conic_opacity geometry;
  r_colors := r_colors geometry;
  r_depths := r_depths geometry;
  r_final_Ts := fun i => Q2Qc (fst (fst (final_at i)));
  r_n_contrib := fun i => nth (Z.to_nat i) n_contrib_table 0%Z;
  r_max_contrib := r_max_contrib geometry;
  r_pixel_colors := fun i =>
    Q2Qc (nth (Z.to_nat (i / 16)) (snd (fst (final_at (i mod 16)))) 0%Q);
  r_pixel_invDepths := fun i => Q2Qc (snd (final_at i));
  r_dL_dpixels := r_dL_dpixels geometry;
  r_dL_invdepths := r_dL_invdepths geometry
|}.

(** Gradient buffers that hold zero everywhere. *)
Definition no_gradients : RenderOut Qc :=
  mkRenderOut (fun _ => mk4 (q 0 1) (q 0 1) (q 0 1) (q 0 1))
              (fun _ => mk4 (q 0 1) (q 0 1) (q 0 1) (q 0 1))
              (fun _ => q 0 1) (fun _ => q 0 1) (fun _ => q 0 1).

(** What the lanes find in their registers before the loop. *)
Definition garbage : nat -> Regs Qc :=
  fun k => mkRegs (q 7 1) (q 7 1) (q 7 1) (fun _ => q 7 1) (q 7 1) (fun _ => q 7 1) (q 7 1).
End Scene.

(** Variants of an input: other maximum contributor counts, other conics
    and opacities, other depths. *)
Section Variants.
Context {F : Type}.

Definition with_max_contrib (a : RenderIn F) (max_contrib : buf Z) : RenderIn F :=
  mkRenderIn (r_ranges a) (r_point_list a) (r_W a) (r_H a) (r_B a)
    (r_per_tile_bucket_offset a) (r_bucket_to_tile a)
    (r_sampled_T a) (r_sampled_ar a) (r_sampled_ard a) (r_bg_color a)
    (r_points_xy_image a) (r_conic_opacity a) (r_colors a) (r_depths a)
    (r_final_Ts a) (r_n_contrib a) max_contrib
    (r_pixel_colors a) (r_pixel_invDepths a) (r_dL_dpixels a) (r_dL_invdepths a).

Definition with_conic_opacity (a : RenderIn F) (conic_opacity : buf (vec4 F))
    : RenderIn F :=
  mkRenderIn (r_ranges a) (r_point_list a) (r_W a) (r_H a) (r_B a)
    (r_per_tile_bucket_offset a) (r_bucket_to_tile a)
    (r_sampled_T a) (r_sampled_ar a) (r_sampled_ard a) (r_bg_color a)
    (r_points_xy_image a) conic_opacity (r_colors a) (r_depths a)
    (r_final_Ts a) (r_n_contrib a) (r_max_contrib a)
    (r_pixel_colors a) (r_pixel_invDepths a) (r_dL_dpixels a) (r_dL_invdepths a).

(** The same input in the arithmetic that watches the denominators, with
    other depths. *)
Context `{FloatArith F}.

Definition clean2 (v : vec2 F) : vec2 (Watched F) := mk2 (clean (x2 v)) (clean (y2 v)).

Definition clean4 (v : vec4 F) : vec4 (Watched F) :=
  mk4 (clean (x4 v)) (clean (y4 v)) (clean (z4 v)) (clean (w4 v)).

Definition watched_with_depths (a : RenderIn F) (depths : buf F) : RenderIn (Watched F) :=
  mkRenderIn (r_ranges a) (r_point_list a) (r_W a) (r_H a) (r_B a)
    (r_per_tile_bucket_offset a) (r_bucket_to_tile a)
    (fun i => clean (r_sampled_T a i)) (fun i => clean (r_sampled_ar a i))
    (fun i => clean (r_sampled_ard a i)) (fun i => clean (r_bg_color a i))
    (fun i => clean2 (r_points_xy_image a i)) (fun i => clean4 (r_conic_opacity a i))
    (fun i => clean (r_colors a i)) (fun i => clean (depths i))
    (fun i => clean (r_final_Ts a i)) (r_n_contrib a) (r_max_contrib a)
    (fun i => clean (r_pixel_colors a i)) (fun i => clean (r_pixel_invDepths a i))
    (fun i => clean (r_dL_dpixels a i)) (fun i => clean (r_dL_invdepths a i)).
End Variants.

Section WatchedInputs.
Context {F : Type} `{FloatArith F}.

Definition clean3 (v : vec3 F) : vec3 (Watched F) :=
  mk3 (clean (x3 v)) (clean (y3 v)) (clean (z3 v)).

Definition clean_regs (r : Regs F) : Regs (Watched F) :=
  mkRegs (clean (T r)) (clean (T_final r)) (clean (last_contributor r))
         (fun ch => clean (ar r ch)) (clean (ard r))
         (fun ch => clean (dL_dpixel r ch)) (clean (dL_invdepth r)).

(** The input of the compositing kernel in the arithmetic that watches the
    denominators. *)
Definition watched (a : RenderIn F) : RenderIn (Watched F) :=
  watched_with_depths a (r_depths a).
End WatchedInputs.

Section WatchedAuxiliary.
Context {F : Type} `{FloatArith F} `{Auxiliary F}.

Definition clean_buf (b : buf F) : buf (Watched F) := fun i => clean (b i).

Definition clean3_buf (b : buf (vec3 F)) : buf (vec3 (Watched F)) :=
  fun i => clean3 (b i).

Definition value3 (v : vec3 (Watched F)) : vec3 F :=
  mk3 (value (x3 v)) (value (y3 v)) (value (z3 v)).

Definition value_buf (b : buf (Watched F)) : buf F := fun i => value (b i).

Definition div_by_zero3 (v : vec3 (Watched F)) : bool :=
  div_by_zero (x3 v) || div_by_zero (y3 v) || div_by_zero (z3 v).

(** A 4x4 matrix is an array of sixteen floats. *)
Definition div_by_zero_matrix (m : buf (Watched F)) : bool :=
  existsb (fun i => div_by_zero (m (Z.of_nat i))) (seq 0 16).

Definition watched3 (d : bool) (v : vec3 F) : vec3 (Watched F) :=
  mk3 (mkWatched (x3 v) d) (mkWatched (y3 v) d) (mkWatched (z3 v) d).

Definition watched4 (d : bool) (v : vec4 F) : vec4 (Watched F) :=
  mk4 (mkWatched (x4 v) d) (mkWatched (y4 v) d) (mkWatched (z4 v) d)
      (mkWatched (w4 v) d).

(** The helpers of the header in the arithmetic that watches the
    denominators.  The header is not among the sources and the divisions
    inside a helper are not watched: a division by zero took part in the
    result of a helper when it took part in one of its arguments. *)
#[export] Instance Watched_auxiliary : Auxiliary (Watched F) := {|
  SH_C0 := clean SH_C0;
  SH_C1 := clean SH_C1;
  SH_C2 := fun k => clean (SH_C2 k);
  SH_C3 := fun k => clean (SH_C3 k);
  transformPoint4x3 := fun p matrix =>
    watched3 (div_by_zero3 p || div_by_zero_matrix matrix)
             (transformPoint4x3 (value3 p) (value_buf matrix));
  transformPoint4x4 := fun p matrix =>
    watched4 (div_by_zero3 p || div_by_zero_matrix matrix)
             (transformPoint4x4 (value3 p) (value_buf matrix));
  transformVec4x3Transpose := fun p matrix =>
    watched3 (div_by_zero3 p || div_by_zero_matrix matrix)
             (transformVec4x3Transpose (value3 p) (value_buf matrix));
  dnormvdv := fun v dv =>
    watched3 (div_by_zero3 v || div_by_zero3 dv) (dnormvdv (value3 v) (value3 dv))
|}.
End WatchedAuxiliary.

Section Cov2DViews2.
Context {F : Type} `{FloatArith F} `{Auxiliary F}.
Local Open Scope float_scope.

(** The denominator of [denom_f] at line 241, from the regularized
    covariance. *)
Definition cov2D_scaling_denominator (aa : Cov2DAA F) : F :=
  let x := aa_c_xx aa in
  let y := aa_c_yy aa in
  let z := aa_c_xy aa in
  let w := h_var in
  sq (w * w + w * (x + y) + x * y - z * z).
End Cov2DViews2.


Section WatchedPreprocess.
Context {F : Type} `{FloatArith F}.

Definition clean4_buf (b : buf (vec4 F)) : buf (vec4 (Watched F)) :=
  fun i => clean4 (b i).

(** The input and the gradient buffers of [BACKWARD::preprocess] in the
    arithmetic that watches the denominators. *)
Definition watched_pre (a : PreIn F) : PreIn (Watched F) :=
  mkPreIn (p_P a) (p_D a) (p_M a) (clean3_buf (p_means3D a)) (p_radii a)
    (clean3_buf (p_dc a)) (option_map clean3_buf (p_shs a)) (p_clamped a)
    (clean_buf (p_opacities a)) (option_map clean3_buf (p_scales a))
    (clean4_buf (p_rotations a)) (clean (p_scale_modifier a))
    (clean_buf (p_cov3Ds a)) (clean_buf (p_viewmatrix a)) (clean_buf (p_projmatrix a))
    (clean (p_focal_x a)) (clean (p_focal_y a)) (clean (p_tan_fovx a))
    (clean (p_tan_fovy a)) (clean3 (p_campos a)) (clean4_buf (p_dL_dmean2D a))
    (clean_buf (p_dL_dconic a)) (clean_buf (p_dL_dinvdepth a))
    (clean3_buf (p_dL_dcolor a)) (p_antialiasing a).

Definition watched_grads (g : Grads F) : Grads (Watched F) :=
  mkGrads (clean_buf (g_dL_dopacity g)) (clean3_buf (g_dL_dmean3D g))
    (clean_buf (g_dL_dcov3D g)) (clean3_buf (g_dL_ddc g)) (clean3_buf (g_dL_dsh g))
    (clean3_buf (g_dL_dscale g)) (clean4_buf (g_dL_drot g)).
End WatchedPreprocess.

Module SceneVariants.
Import Scene.

(** The scene with a maximum contributor count of 10: no pixel reaches the
    second bucket. *)
Definition few_contributors : RenderIn Qc := with_max_contrib scene (fun _ => 10%Z).

(** The scene's geometry with, for every primitive, the conic
    [(1, -3/2, 1)], which is not positive definite, and opacity 1. *)
Definition indefinite : RenderIn Qc :=
  with_conic_opacity geometry (fun _ => mk4 (q 1 1) (q (-3) 2) (q 1 1) (q 1 1)).

(** The scene's geometry with every depth zero. *)
Definition zero_depth : RenderIn (Watched Qc) :=
  watched_with_depths geometry (fun _ => q 0 1).

(** Registers of a lane at the start of a pixel that has two
    contributors. *)
Definition fresh : Regs Qc :=
  mkRegs (q 1 1) (q 1 2) (q 2 1) (fun _ => q 0 1) (q 0 1) (fun _ => q 1 1) (q 1 1).
End SceneVariants.

(** An input of [BACKWARD::preprocess] in exact arithmetic: one primitive
    on the optical axis at distance 1, with identity view and projection
    matrices, colours from spherical harmonics of degree 0. *)
Module PreScene.
Import Scene.

Definition input : PreIn Qc := {|
  p_P := 1;
  p_D := 0;
  p_M := 1;
  p_means3D := fun _ => mk3 (q 0 1) (q 0 1) (q 1 1);
  p_radii := fun _ => 3%Z;
  p_dc := fun _ => mk3 (q 1 2) (q 1 3) (q 1 4);
  p_shs := Some (fun _ => mk3 (q 0 1) (q 0 1) (q 0 1));
  p_clamped := fun _ => false;
  p_opacities := fun _ => q 1 2;
  p_scales := None;
  p_rotations := fun _ => mk4 (q 1 1) (q 0 1) (q 0 1) (q 0 1);
  p_scale_modifier := q 1 1;
  p_cov3Ds := on_axis_cov3D (q 2 1) (q 1 2) (q 1 1);
  p_viewmatrix := identity4;
  p_projmatrix := identity4;
  p_focal_x := q 1 1;
  p_focal_y := q 1 1;
  p_tan_fovx := q 1 1;
  p_tan_fovy := q 1 1;
  p_campos := mk3 (q 0 1) (q 0 1) (q 0 1);
  p_dL_dmean2D := fun _ => mk4 (q 1 1) (q 2 1) (q 0 1) (q 0 1);
  p_dL_dconic := fun i => q (1 + i) 3;
  p_dL_dinvdepth := fun _ => q 1 5;
  p_dL_dcolor := fun _ => mk3 (q 1 1) (q 1 1) (q 1 1);
  p_antialiasing := false
|}.

Definition grads (v : Qc) : Grads Qc := {|
  g_dL_dopacity := fun _ => q 1 1;
  g_dL_dmean3D := fun _ => mk3 v v v;
  g_dL_dcov3D := fun _ => v;
  g_dL_ddc := fun _ => mk3 v v v;
  g_dL_dsh := fun _ => mk3 v v v;
  g_dL_dscale := fun _ => mk3 v v v;
  g_dL_drot := fun _ => mk4 v v v v
|}.
End PreScene.

(** * Properties *)

Unset Implicit Arguments.

(** ** Covariance3DBackward: the quaternion gradient *)

Section Cov3DFacts.
Context {F : Type} `{ExactArith F}.
Local Open Scope float_scope.
Import Glm.

Add Ring cov3d_ring : exact_ring.

(** The matrices [dR_dr] to [dR_dz] are the partial derivatives of
    [quat_to_R]: the map is a polynomial of degree two in the quaternion,
    and moving one component by [e] changes it by [e] times the matrix,
    plus [e * e] times a constant matrix. *)
Lemma quat_to_R_step_r (r x y z e : F) :
  quat_to_R (r + e) x y z = madd (quat_to_R r x y z) (smulm e (dR_dr r x y z)).
Proof.
  unfold quat_to_R, madd, smulm, dR_dr, mat3_of, vadd, vmuls; cbn.
  f_equal; f_equal; ring.
Qed.

Lemma quat_to_R_step_x (r x y z e : F) :
  quat_to_R r (x + e) y z =
  madd (madd (quat_to_R r x y z) (smulm e (dR_dx r x y z)))
       (smulm (e * e) (mat3_of fzero fzero fzero
                               fzero (- of_Z 2) fzero
                               fzero fzero (- of_Z 2))).
Proof.
  unfold quat_to_R, madd, smulm, dR_dx, mat3_of, vadd, vmuls; cbn.
  rewrite of_Z_4, of_Z_2. f_equal; f_equal; ring.
Qed.

Lemma quat_to_R_step_y (r x y z e : F) :
  quat_to_R r x (y + e) z =
  madd (madd (quat_to_R r x y z) (smulm e (dR_dy r x y z)))
       (smulm (e * e) (mat3_of (- of_Z 2) fzero fzero
                               fzero fzero fzero
                               fzero fzero (- of_Z 2))).
Proof.
  unfold quat_to_R, madd, smulm, dR_dy, mat3_of, vadd, vmuls; cbn.
  rewrite of_Z_4, of_Z_2. f_equal; f_equal; ring.
Qed.

Lemma quat_to_R_step_z (r x y z e : F) :
  quat_to_R r x y (z + e) =
  madd (madd (quat_to_R r x y z) (smulm e (dR_dz r x y z)))
       (smulm (e * e) (mat3_of (- of_Z 2) fzero fzero
                               fzero (- of_Z 2) fzero
                               fzero fzero fzero)).
Proof.
  unfold quat_to_R, madd, smulm, dR_dz, mat3_of, vadd, vmuls; cbn.
  rewrite of_Z_4, of_Z_2. f_equal; f_equal; ring.
Qed.

(** C9.  In exact arithmetic, the four components that [computeCov3D]
    writes to [dL_drots[idx]] are the Jacobian of the quaternion to
    rotation map applied to the scale-weighted M-gradient: component by
    component, the sum over the nine entries of the partial derivative of
    [R] times the gradient with respect to that entry.  The value is
    stored as it is, with no renormalization and no projection. *)
Theorem computeCov3D_rot_is_jacobian
    (idx : Z) (scale : vec3 F) (mod_ : F) (rot : vec4 F)
    (dL_dcov3Ds : buf F) (dL_dscales : buf (vec3 F)) (dL_drots : buf (vec4 F)) :
  let G := scale_weighted (smulv mod_ scale)
                          (cov3D_dL_dM idx scale mod_ rot dL_dcov3Ds) in
  let r := x4 rot in
  let x := y4 rot in
  let y := z4 rot in
  let z := w4 rot in
  snd (computeCov3D idx scale mod_ rot dL_dcov3Ds dL_dscales dL_drots) idx =
  mk4 (frobenius (dR_dr r x y z) G) (frobenius (dR_dx r x y z) G)
      (frobenius (dR_dy r x y z) G) (frobenius (dR_dz r x y z) G).
Proof.
  intros G r x y z. unfold computeCov3D. cbn [snd]. rewrite upd_same.
  subst G r x y z.
  unfold frobenius, scale_weighted, cov3D_dL_dM, dR_dr, dR_dx, dR_dy, dR_dz.
  set (dL_dM := mmul _ _).
  destruct dL_dM as [[a0 a1 a2] [b0 b1 b2] [c0 c1 c2]].
  unfold transpose, mat3_of, at_, col, comp, vmuls, smulv; cbn.
  f_equal; ring.
Qed.
End Cov3DFacts.

(** ** TileRenderBackward: the warp as a pipeline *)

Section Pipeline.
Context {F : Type} `{FloatArith F} `{FloatExp F} `{Config}.
Variable a : RenderIn F.
Variable global_bucket_idx : Z.
Variable garbage : nat -> Regs F.

(** The lane of rank [k] of the warp. *)
Definition lane_of (k : nat) : Lane F := lane_setup a global_bucket_idx (Z.of_nat k).

(** The warp after [n] steps of the loop. *)
Definition warp_after (n : nat) : Warp F :=
  fold_left (warp_step a global_bucket_idx) (seq 0 n)
            (map (fun k => (garbage k, Acc_zero)) (seq 0 32)).

Definition lane_after (n k : nat) : Regs F * Acc F :=
  nth k (warp_after n) (garbage 0, Acc_zero).

(** The registers of lane [k] at step [n], once the shuffle and the load
    of lane 0 are done and before the lane does its work. *)
Definition regs_in (n k : nat) : Regs F :=
  let idx := (Z.of_nat n - Z.of_nat k)%Z in
  let l := lane_of k in
  let px := pixel_of a (tile_id l) idx in
  let r := fst (lane_after n (k - 1)) in
  if valid_splat l && valid_pixel px && (Z.of_nat k =? 0)%Z && (idx <? BLOCK_SIZE)%Z
  then load_state a global_bucket_idx idx px r
  else r.

Lemma removelast_cons_length {A} (v : A) (w : list A) :
  length (removelast (v :: w)) = length w.
Proof.
  revert v. induction w as [|v' w IH]; intros v; [reflexivity|].
  change (removelast (v :: v' :: w)) with (v :: removelast (v' :: w)).
  cbn [length]. now rewrite IH.
Qed.

Lemma shfl_up_length {A} (w : list A) : length (shfl_up w) = length w.
Proof.
  destruct w as [|v w]; [reflexivity|].
  unfold shfl_up. cbn [length]. now rewrite removelast_cons_length.
Qed.

Lemma removelast_nth {A} (w : list A) (k : nat) (d : A) :
  S k < length w -> nth k (removelast w) d = nth k w d.
Proof.
  revert k. induction w as [|v w IH]; intros k Hk; [inversion Hk|].
  destruct w as [|v' w]; [cbn in Hk; lia|].
  destruct k as [|k]; [reflexivity|].
  cbn [removelast nth]. cbn [removelast] in IH. apply IH. cbn in *. lia.
Qed.

Lemma shfl_up_nth {A} (w : list A) (k : nat) (d : A) :
  k < length w -> nth k (shfl_up w) d = nth (k - 1) w d.
Proof.
  destruct w as [|v w]; [intros Hk; inversion Hk|]. intros Hk.
  destruct k as [|k]; [reflexivity|].
  unfold shfl_up. cbn [nth]. rewrite removelast_nth by (cbn in *; lia).
  now replace (S k - 1) with k by lia.
Qed.

Lemma warp_step_length (w : Warp F) (i : nat) :
  length w = 32 -> length (warp_step a global_bucket_idx w i) = 32.
Proof.
  intros Hw. unfold warp_step.
  rewrite length_map, !length_combine, shfl_up_length, !length_map, Hw.
  reflexivity.
Qed.

Lemma warp_after_length (n : nat) : length (warp_after n) = 32.
Proof.
  unfold warp_after. induction n as [|n IH].
  - cbn [seq fold_left]. rewrite length_map. reflexivity.
  - rewrite seq_S, fold_left_app. cbn [fold_left]. now apply warp_step_length.
Qed.

Lemma warp_after_S (n : nat) :
  warp_after (S n) = warp_step a global_bucket_idx (warp_after n) n.
Proof. unfold warp_after. now rewrite seq_S, fold_left_app. Qed.

Lemma warp_step_nth (w : Warp F) (i k : nat) (d : Regs F * Acc F) :
  length w = 32 -> k < 32 ->
  nth k (warp_step a global_bucket_idx w i) d =
  lane_step a global_bucket_idx (Z.of_nat i) (Z.of_nat k) (lane_of k)
            (fst (nth (k - 1) w d)) (snd (nth k w d)).
Proof.
  intros Hw Hk. unfold warp_step.
  set (f := fun '(k, (r, acc)) => _).
  rewrite (nth_indep _ d (f (0, (fst d, snd d)))).
  2: { rewrite length_map, !length_combine, shfl_up_length, !length_map, Hw.
       exact Hk. }
  rewrite map_nth, !combine_nth.
  2: { now rewrite shfl_up_length, !length_map. }
  2: { now rewrite length_combine, shfl_up_length, !length_map, Hw. }
  rewrite seq_nth by exact Hk.
  rewrite shfl_up_nth by (now rewrite length_map, Hw).
  cbn [f Nat.add]. unfold lane_of.
  rewrite !map_nth. reflexivity.
Qed.

(** Each step of the loop, lane by lane. *)
Lemma lane_after_S (n k : nat) :
  k < 32 ->
  lane_after (S n) k =
  do_work a (lane_of k) (Z.of_nat n - Z.of_nat k)
          (pixel_of a (tile_id (lane_of k)) (Z.of_nat n - Z.of_nat k))
          (regs_in n k) (snd (lane_after n k)).
Proof.
  intros Hk. unfold lane_after at 1. rewrite warp_after_S.
  rewrite warp_step_nth by (auto using warp_after_length).
  unfold lane_step, regs_in, lane_after. reflexivity.
Qed.

(** The registers handed to the next lane do not depend on the
    accumulation registers. *)
Lemma channel_fold_regs (l : Lane F) (r : Regs F) (alpha weight : F)
    (chs : list nat) (ar dc dc' : nat -> F) (da bg : F) :
  let s := fold_left (channel_step a l r alpha weight) chs (ar, dc, da, bg) in
  let s' := fold_left (channel_step a l r alpha weight) chs (ar, dc', da, bg) in
  fst (fst (fst s)) = fst (fst (fst s')) /\ snd (fst s) = snd (fst s') /\ snd s = snd s'.
Proof.
  revert ar dc dc' da bg. induction chs as [|ch chs IH]; intros ar dc dc' da bg.
  - cbn. auto.
  - cbn [fold_left]. unfold channel_step at 2 4. apply IH.
Qed.

Lemma composite_regs (l : Lane F) (b : Blend F) (r : Regs F) (acc acc' : Acc F) :
  fst (composite a l b r acc) = fst (composite a l b r acc').
Proof.
  unfold composite.
  pose proof (channel_fold_regs l r (b_alpha b) (fmul (b_alpha b) (T r)) (seq 0 C)
                (ar r) (Register_dL_dcolors acc) (Register_dL_dcolors acc')
                (of_Z 0) (of_Z 0)) as Hf.
  cbv zeta in Hf.
  destruct (fold_left _ _ (ar r, Register_dL_dcolors acc, _, _)) as [[[ar1 dc1] da1] bg1].
  destruct (fold_left _ _ (ar r, Register_dL_dcolors acc', _, _)) as [[[ar2 dc2] da2] bg2].
  cbn in Hf. destruct Hf as (-> & -> & ->). reflexivity.
Qed.

Lemma do_work_regs (l : Lane F) (idx : Z) (px : Pixel) (r : Regs F) (acc acc' : Acc F) :
  fst (do_work a l idx px r acc) = fst (do_work a l idx px r acc').
Proof.
  unfold do_work.
  repeat match goal with |- context [if ?b then _ else _] => destruct b end;
    try reflexivity.
  apply composite_regs.
Qed.

(** The pixel of index [idx] in the tile of the warp. *)
Definition pixel_at (idx : nat) : Pixel :=
  pixel_of a (tile_id (lane_of 0)) (Z.of_nat idx).

(** The registers that reach lane [k] for the pixel of index [idx]: what
    lane 0 holds for this pixel, passed through the work of the lanes
    [0] to [k - 1] on the same pixel, one after the other. *)
Fixpoint chain_regs (idx : nat) (k : nat) : Regs F :=
  match k with
  | O => regs_in idx 0
  | S k' =>
      fst (do_work a (lane_of k') (Z.of_nat idx)
                   (pixel_of a (tile_id (lane_of k')) (Z.of_nat idx))
                   (chain_regs idx k') Acc_zero)
  end.

Lemma regs_in_chain (idx k : nat) :
  k < 32 -> regs_in (idx + k) k = chain_regs idx k.
Proof.
  induction k as [|k IH]; intros Hk.
  - rewrite Nat.add_0_r. cbn [chain_regs]. reflexivity.
  - cbn [chain_regs]. rewrite <- IH by lia.
    unfold regs_in at 1.
    replace (Z.of_nat (S k) =? 0)%Z with false by (symmetry; apply Z.eqb_neq; lia).
    rewrite !andb_false_r. cbn [andb].
    replace (S k - 1) with k by lia.
    replace (idx + S k) with (S (idx + k)) by lia.
    rewrite lane_after_S by lia. cbn [fst].
    replace (Z.of_nat (idx + k) - Z.of_nat k)%Z with (Z.of_nat idx) by lia.
    apply do_work_regs.
Qed.

(** The work of lane [k] on the pixel of index [idx]. *)
Definition acc_step (k : nat) (acc : Acc F) (idx : nat) : Acc F :=
  snd (do_work a (lane_of k) (Z.of_nat idx)
               (pixel_of a (tile_id (lane_of k)) (Z.of_nat idx))
               (chain_regs idx k) acc).

Lemma do_work_out_of_range (l : Lane F) (idx : Z) (px : Pixel) (r : Regs F) (acc : Acc F) :
  (idx < 0 \/ BLOCK_SIZE <= idx)%Z -> do_work a l idx px r acc = (r, acc).
Proof.
  intros Hidx. unfold do_work.
  destruct Hidx as [Hlo|Hhi].
  - apply Z.leb_gt in Hlo. rewrite Hlo. now rewrite !andb_false_r.
  - apply Z.ltb_ge in Hhi. rewrite Hhi. now rewrite !andb_false_r.
Qed.

Lemma lane_acc_after (n k : nat) :
  k < 32 ->
  snd (lane_after n k) =
  fold_left (acc_step k) (seq 0 (Nat.min (n - k) (Z.to_nat BLOCK_SIZE))) Acc_zero.
Proof.
  intros Hk. induction n as [|n IH].
  - cbn [Nat.sub Nat.min seq fold_left]. unfold lane_after, warp_after.
    cbn [seq fold_left].
    change (garbage 0, Acc_zero) with ((fun k : nat => (garbage k, @Acc_zero F _)) 0).
    rewrite map_nth. reflexivity.
  - rewrite lane_after_S by exact Hk.
    destruct (Nat.lt_ge_cases n k) as [Hlt|Hge].
    + rewrite do_work_out_of_range by lia. cbn [snd]. rewrite IH.
      now replace (S n - k) with 0 by lia; replace (n - k) with 0 by lia.
    + destruct (Nat.lt_ge_cases (n - k) (Z.to_nat BLOCK_SIZE)) as [Hin|Hout].
      * replace (Nat.min (S n - k) (Z.to_nat BLOCK_SIZE)) with (S (n - k)) by lia.
        rewrite seq_S, fold_left_app. cbn [fold_left Nat.add].
        replace (Nat.min (n - k) (Z.to_nat BLOCK_SIZE)) with (n - k) in IH by lia.
        rewrite <- IH. unfold acc_step.
        rewrite <- (regs_in_chain (n - k) k Hk).
        replace (n - k + k) with n by lia.
        now replace (Z.of_nat (n - k)) with (Z.of_nat n - Z.of_nat k)%Z by lia.
      * rewrite do_work_out_of_range by lia. cbn [snd]. rewrite IH.
        now replace (Nat.min (S n - k) (Z.to_nat BLOCK_SIZE))
          with (Nat.min (n - k) (Z.to_nat BLOCK_SIZE)) by lia.
Qed.

(** The accumulation registers of lane [k] at the end of the loop: the
    lane has gone through the pixel indices of its tile in increasing
    order, working on each with the registers that came down the chain. *)
Lemma lane_acc_final (k : nat) :
  k < 32 ->
  snd (nth k (warp_loop a global_bucket_idx garbage) (garbage 0, Acc_zero)) =
  fold_left (acc_step k) (seq 0 (Z.to_nat BLOCK_SIZE)) Acc_zero.
Proof.
  intros Hk.
  change (warp_loop a global_bucket_idx garbage)
    with (warp_after (Z.to_nat (BLOCK_SIZE + 31))).
  fold (lane_after (Z.to_nat (BLOCK_SIZE + 31)) k).
  rewrite lane_acc_after by exact Hk.
  f_equal. f_equal. lia.
Qed.

Lemma flat_map_ext_in {A B} (f g : A -> list B) (l : list A) :
  (forall x, In x l -> f x = g x) -> flat_map f l = flat_map g l.
Proof.
  induction l as [|x l IH]; intros Hfg; [reflexivity|].
  cbn [flat_map]. rewrite Hfg by (now left). f_equal.
  apply IH. intros y Hy. apply Hfg. now right.
Qed.

Lemma combine_seq_nth {A} (w : list A) (d : A) (s : nat) :
  combine (seq s (length w)) w = map (fun k => (s + k, nth k w d)) (seq 0 (length w)).
Proof.
  revert s. induction w as [|v w IH]; intros s; [reflexivity|].
  cbn [length seq combine map nth]. rewrite Nat.add_0_r. f_equal.
  rewrite IH, <- seq_shift, map_map. apply map_ext. intros k.
  now rewrite Nat.add_succ_r.
Qed.

(** The kernel, lane by lane: when the bucket is valid and not skipped,
    every lane flushes the registers it has accumulated over the pixels of
    the tile. *)
Lemma kernel_by_lanes :
  PerGaussianRenderCUDA a global_bucket_idx garbage =
  if negb (global_bucket_idx <? u32 (r_B a))%Z then []
  else if bucket_useless a (lane_of 0) then []
  else flat_map
         (fun k => flush (lane_of k)
                     (fold_left (acc_step k) (seq 0 (Z.to_nat BLOCK_SIZE)) Acc_zero))
         (seq 0 32).
Proof.
  unfold PerGaussianRenderCUDA.
  destruct (negb (global_bucket_idx <? u32 (r_B a))%Z); [reflexivity|].
  unfold lane_of at 1. cbn [Z.of_nat].
  destruct (bucket_useless a (lane_setup a global_bucket_idx 0)); [reflexivity|].
  pose proof (warp_after_length (Z.to_nat (BLOCK_SIZE + 31))) as Hlen.
  change (warp_after (Z.to_nat (BLOCK_SIZE + 31)))
    with (warp_loop a global_bucket_idx garbage) in Hlen.
  rewrite <- Hlen at 1.
  rewrite (combine_seq_nth _ (garbage 0, Acc_zero)), Hlen.
  rewrite flat_map_concat_map, map_map, <- flat_map_concat_map.
  apply flat_map_ext_in. intros k Hin. apply in_seq in Hin.
  rewrite <- lane_acc_final by lia.
  cbn [Nat.add]. unfold lane_of.
  now destruct (nth k _ _).
Qed.
End Pipeline.

(** ** TileRenderBackward: early exit and the auxiliary channels *)

Lemma u32_small (z : Z) : (0 <= z < 2 ^ 32)%Z -> u32 z = z.
Proof. intros Hz. unfold u32. now apply Z.mod_small. Qed.

Lemma i32_small (z : Z) : (- 2 ^ 31 <= z < 2 ^ 31)%Z -> i32 z = z.
Proof. intros Hz. unfold i32. rewrite Z.mod_small; lia. Qed.

Section RenderFacts.
Context {F : Type} `{FloatArith F} `{FloatExp F} `{Config}.

(** C3.  A bucket whose first primitive index in its tile, the bucket
    index in the tile times 32, exceeds the tile's maximum contributor
    count performs no atomic addition: the kernel returns for the whole
    warp, and every gradient buffer is left as it was. *)
Theorem useless_bucket_adds_nothing
    (a : RenderIn F) (global_bucket_idx : Z) (garbage : nat -> Regs F) :
  let l := lane_setup a global_bucket_idx 0 in
  (0 <= bucket_idx_in_tile l * 32 < 2 ^ 31)%Z ->
  (r_max_contrib a (tile_id l) < bucket_idx_in_tile l * 32)%Z ->
  PerGaussianRenderCUDA a global_bucket_idx garbage = [] /\
  forall o : RenderOut F,
    fold_left atomicAdd (PerGaussianRenderCUDA a global_bucket_idx garbage) o = o.
Proof.
  intros l Hrange Hmax.
  assert (Hnil : PerGaussianRenderCUDA a global_bucket_idx garbage = []).
  { unfold PerGaussianRenderCUDA.
    destruct (negb (global_bucket_idx <? u32 (r_B a))%Z); [reflexivity|].
    fold l. unfold bucket_useless. rewrite u32_small by lia.
    replace (bucket_idx_in_tile l * 32 >=? r_max_contrib a (tile_id l))%Z with true.
    - reflexivity.
    - symmetry. apply Z.geb_le. lia. }
  split; [exact Hnil|]. intros o. now rewrite Hnil.
Qed.

(** The only addition of [flush] into the third component of [dL_dmean2D]
    is its third one, and it adds the magnitude of what the first one adds
    to the first component; likewise for the fourth and the second. *)
Lemma flush_Mean2D_z (l : Lane F) (acc : Acc F) (m : nat) (e : AtomicAdd F) :
  nth_error (flush l acc) m = Some e -> add_buf e = Mean2D_z ->
  m = 2 /\
  nth_error (flush l acc) 0 =
    Some (mkAdd Mean2D_x (gaussian_idx l) (Register_dL_dmean2D_x acc)) /\
  e = mkAdd Mean2D_z (gaussian_idx l) (fabs (Register_dL_dmean2D_x acc)).
Proof.
  unfold flush. destruct (valid_splat l); [|now destruct m].
  do 8 (destruct m as [|m]; [cbn; intros [= <-]; cbn; try discriminate; auto|]).
  cbn [app nth_error]. intros Hn Hb. apply nth_error_In in Hn.
  apply in_app_or in Hn. destruct Hn as [Hn|[<-|[]]]; [|discriminate].
  apply in_map_iff in Hn. destruct Hn as (ch & <- & _). discriminate.
Qed.

Lemma flush_Mean2D_w (l : Lane F) (acc : Acc F) (m : nat) (e : AtomicAdd F) :
  nth_error (flush l acc) m = Some e -> add_buf e = Mean2D_w ->
  m = 3 /\
  nth_error (flush l acc) 1 =
    Some (mkAdd Mean2D_y (gaussian_idx l) (Register_dL_dmean2D_y acc)) /\
  e = mkAdd Mean2D_w (gaussian_idx l) (fabs (Register_dL_dmean2D_y acc)).
Proof.
  unfold flush. destruct (valid_splat l); [|now destruct m].
  do 8 (destruct m as [|m]; [cbn; intros [= <-]; cbn; try discriminate; auto|]).
  cbn [app nth_error]. intros Hn Hb. apply nth_error_In in Hn.
  apply in_app_or in Hn. destruct Hn as [Hn|[<-|[]]]; [|discriminate].
  apply in_map_iff in Hn. destruct Hn as (ch & <- & _). discriminate.
Qed.
End RenderFacts.

(** Where an element of a concatenation of blocks comes from. *)
Lemma nth_error_flat_map {A B} (g : A -> list B) (ls : list A) (n : nat) (e : B) :
  nth_error (flat_map g ls) n = Some e ->
  exists k off m,
    In k ls /\ n = off + m /\ nth_error (g k) m = Some e /\
    forall m', m' < length (g k) ->
      nth_error (flat_map g ls) (off + m') = nth_error (g k) m'.
Proof.
  revert n. induction ls as [|k ls IH]; intros n Hn.
  - now destruct n.
  - cbn [flat_map] in *. destruct (Nat.lt_ge_cases n (length (g k))) as [Hlt|Hge].
    + rewrite nth_error_app1 in Hn by exact Hlt.
      exists k, 0, n. repeat split; auto; [now left|].
      intros m' Hm'. now rewrite nth_error_app1.
    + rewrite nth_error_app2 in Hn by exact Hge.
      destruct (IH _ Hn) as (k' & off & m & Hin & Hoff & Hm & Hblock).
      exists k', (length (g k) + off), m. repeat split; auto; [now right|lia|].
      intros m' Hm'. rewrite nth_error_app2 by lia.
      replace (length (g k) + off + m' - length (g k)) with (off + m') by lia.
      now apply Hblock.
Qed.

Section AuxChannels.
Context {F : Type} `{FloatArith F} `{FloatExp F} `{Config}.

(** What lane [k] has accumulated when the loop ends. *)
Definition lane_total (a : RenderIn F) (global_bucket_idx : Z)
    (garbage : nat -> Regs F) (k : nat) : Acc F :=
  fold_left (acc_step a global_bucket_idx garbage k)
            (seq 0 (Z.to_nat BLOCK_SIZE)) Acc_zero.

(** C10.  Every atomic addition of the kernel into the third (fourth)
    component of a [dL_dmean2D] entry comes two places after an addition
    by the same lane into the first (second) component of the same entry,
    and adds the magnitude of the value added there, which is the signed
    sum the lane accumulated over the whole loop.  In an arithmetic where
    magnitudes are not negative, these additions are not negative. *)
Theorem aux_channels_add_magnitudes
    (a : RenderIn F) (global_bucket_idx : Z) (garbage : nat -> Regs F)
    (fabs_nonneg : forall x : F, fle (of_Z 0) (fabs x) = true)
    (n : nat) (e : AtomicAdd F) :
  let adds := PerGaussianRenderCUDA a global_bucket_idx garbage in
  nth_error adds n = Some e ->
  (add_buf e = Mean2D_z ->
   exists k e', k < 32 /\ 2 <= n /\ nth_error adds (n - 2) = Some e' /\
     add_buf e' = Mean2D_x /\ add_index e' = add_index e /\
     add_value e' = Register_dL_dmean2D_x (lane_total a global_bucket_idx garbage k) /\
     add_value e = fabs (add_value e') /\
     fle (of_Z 0) (add_value e) = true) /\
  (add_buf e = Mean2D_w ->
   exists k e', k < 32 /\ 2 <= n /\ nth_error adds (n - 2) = Some e' /\
     add_buf e' = Mean2D_y /\ add_index e' = add_index e /\
     add_value e' = Register_dL_dmean2D_y (lane_total a global_bucket_idx garbage k) /\
     add_value e = fabs (add_value e') /\
     fle (of_Z 0) (add_value e) = true).
Proof.
  intros adds Hn. subst adds. rewrite kernel_by_lanes in *.
  destruct (negb (global_bucket_idx <? u32 (r_B a))%Z); [now destruct n|].
  destruct (bucket_useless a (lane_of a global_bucket_idx 0)); [now destruct n|].
  destruct (nth_error_flat_map _ _ _ _ Hn) as (k & off & m & Hin & -> & Hm & Hblock).
  apply in_seq in Hin. fold (lane_total a global_bucket_idx garbage k) in *.
  split; intros Hb.
  - destruct (flush_Mean2D_z _ _ _ _ Hm Hb) as (-> & Hfirst & ->).
    exists k, (mkAdd Mean2D_x (gaussian_idx (lane_of a global_bucket_idx k))
                 (Register_dL_dmean2D_x (lane_total a global_bucket_idx garbage k))).
    repeat split; try lia; try apply fabs_nonneg.
    replace (off + 2 - 2) with (off + 0) by lia.
    rewrite Hblock; [exact Hfirst|]. apply nth_error_Some. rewrite Hfirst. discriminate.
  - destruct (flush_Mean2D_w _ _ _ _ Hm Hb) as (-> & Hsecond & ->).
    exists k, (mkAdd Mean2D_y (gaussian_idx (lane_of a global_bucket_idx k))
                 (Register_dL_dmean2D_y (lane_total a global_bucket_idx garbage k))).
    repeat split; try lia; try apply fabs_nonneg.
    replace (off + 3 - 2) with (off + 1) by lia.
    rewrite Hblock; [exact Hsecond|]. apply nth_error_Some. rewrite Hsecond. discriminate.
Qed.
End AuxChannels.

(** ** TileRenderBackward: one sample *)

Section Sample.
Context {F : Type} `{FloatArith F} `{FloatExp F} `{Config}.
Local Open Scope float_scope.
Variable a : RenderIn F.

(** The loop over the channels, channel by channel. *)
Lemma channel_fold_ar (l : Lane F) (r : Regs F) (alpha weight : F)
    (chs : list nat) (ar0 dc : nat -> F) (da bg : F) (j : nat) :
  NoDup chs ->
  fst (fst (fst (fold_left (channel_step a l r alpha weight) chs (ar0, dc, da, bg)))) j =
  if existsb (Nat.eqb j) chs then ar0 j + weight * c l j else ar0 j.
Proof.
  revert ar0 dc da bg. induction chs as [|ch chs IH]; intros ar0 dc da bg Hnd.
  - reflexivity.
  - inversion Hnd as [|? ? Hnotin Hnd']; subst.
    cbn [fold_left existsb]. unfold channel_step at 2. rewrite IH by exact Hnd'.
    unfold set_reg. destruct (Nat.eqb j ch) eqn:Ejc.
    + apply Nat.eqb_eq in Ejc. subst j. cbn [orb].
      destruct (existsb (Nat.eqb ch) chs) eqn:Eex; [|reflexivity].
      exfalso. apply Hnotin. apply existsb_exists in Eex.
      destruct Eex as (x & Hx & Heq). apply Nat.eqb_eq in Heq. now subst.
    + cbn [orb]. reflexivity.
Qed.

Lemma channel_fold_dc (l : Lane F) (r : Regs F) (alpha weight : F)
    (chs : list nat) (ar0 dc : nat -> F) (da bg : F) (j : nat) :
  NoDup chs ->
  snd (fst (fst (fold_left (channel_step a l r alpha weight) chs (ar0, dc, da, bg)))) j =
  if existsb (Nat.eqb j) chs then dc j + weight * dL_dpixel r j else dc j.
Proof.
  revert ar0 dc da bg. induction chs as [|ch chs IH]; intros ar0 dc da bg Hnd.
  - reflexivity.
  - inversion Hnd as [|? ? Hnotin Hnd']; subst.
    cbn [fold_left existsb]. unfold channel_step at 2. rewrite IH by exact Hnd'.
    unfold set_reg. destruct (Nat.eqb j ch) eqn:Ejc.
    + apply Nat.eqb_eq in Ejc. subst j. cbn [orb].
      destruct (existsb (Nat.eqb ch) chs) eqn:Eex; [|reflexivity].
      exfalso. apply Hnotin. apply existsb_exists in Eex.
      destruct Eex as (x & Hx & Heq). apply Nat.eqb_eq in Heq. now subst.
    + cbn [orb]. reflexivity.
Qed.

Lemma channel_fold_da (l : Lane F) (r : Regs F) (alpha weight : F)
    (chs : list nat) (ar0 dc : nat -> F) (da bg : F) :
  NoDup chs ->
  snd (fst (fold_left (channel_step a l r alpha weight) chs (ar0, dc, da, bg))) =
  fold_left
    (fun s ch => s + ((c l ch * T r)
                      - (fone / (fone - alpha)) * (- (ar0 ch + weight * c l ch)))
                     * dL_dpixel r ch)
    chs da.
Proof.
  revert ar0 dc da bg. induction chs as [|ch chs IH]; intros ar0 dc da bg Hnd.
  - reflexivity.
  - inversion Hnd as [|? ? Hnotin Hnd']; subst.
    cbn [fold_left]. unfold channel_step at 2. rewrite IH by exact Hnd'.
    unfold set_reg at 2. rewrite Nat.eqb_refl.
    set (s0 := da + _). clearbody s0. clear IH.
    revert s0. induction chs as [|x chs IH]; intros s0; [reflexivity|].
    cbn [fold_left]. inversion Hnd' as [|? ? Hx Hnd'']; subst.
    rewrite IH.
    + unfold set_reg. destruct (Nat.eqb x ch) eqn:Exc; [|reflexivity].
      apply Nat.eqb_eq in Exc. subst x. exfalso. apply Hnotin. now left.
    + constructor; [|exact Hnd'']. intros Hin. apply Hnotin. now right.
    + intros Hin. apply Hnotin. now right.
    + exact Hnd''.
Qed.

Lemma channel_fold_bg (l : Lane F) (r : Regs F) (alpha weight : F)
    (chs : list nat) (ar0 dc : nat -> F) (da bg : F) :
  snd (fold_left (channel_step a l r alpha weight) chs (ar0, dc, da, bg)) =
  fold_left (fun s ch => s + r_bg_color a (Z.of_nat ch) * dL_dpixel r ch) chs bg.
Proof.
  revert ar0 dc da bg. induction chs as [|ch chs IH]; intros ar0 dc da bg.
  - reflexivity.
  - cbn [fold_left]. unfold channel_step at 2. now rewrite IH.
Qed.

Lemma existsb_seq (j n : nat) : existsb (Nat.eqb j) (seq 0 n) = (j <? n)%nat.
Proof.
  destruct (j <? n)%nat eqn:E.
  - apply Nat.ltb_lt in E. apply existsb_exists. exists j. split.
    + apply in_seq. lia.
    + apply Nat.eqb_refl.
  - apply Nat.ltb_ge in E. destruct (existsb _ _) eqn:Ex; [|reflexivity].
    apply existsb_exists in Ex. destruct Ex as (x & Hx & Heq).
    apply Nat.eqb_eq in Heq. subst. apply in_seq in Hx. lia.
Qed.

(** What [composite] leaves in the registers. *)
Lemma composite_T (l : Lane F) (b : Blend F) (r : Regs F) (acc : Acc F) :
  T (fst (composite a l b r acc)) = T r * (fone - b_alpha b).
Proof.
  unfold composite. now destruct (fold_left _ _ _) as [[[ar1 dc1] da1] bg1].
Qed.

Lemma composite_ard (l : Lane F) (b : Blend F) (r : Regs F) (acc : Acc F) :
  ard (fst (composite a l b r acc)) = ard r + b_alpha b * T r * invd l.
Proof.
  unfold composite. now destruct (fold_left _ _ _) as [[[ar1 dc1] da1] bg1].
Qed.

Lemma composite_ar (l : Lane F) (b : Blend F) (r : Regs F) (acc : Acc F) (ch : nat) :
  ar (fst (composite a l b r acc)) ch =
  if (ch <? C)%nat then ar r ch + b_alpha b * T r * c l ch else ar r ch.
Proof.
  unfold composite.
  pose proof (channel_fold_ar l r (b_alpha b) (b_alpha b * T r) (seq 0 C) (ar r)
                (Register_dL_dcolors acc) (of_Z 0) (of_Z 0) ch (seq_NoDup C 0)) as Har.
  destruct (fold_left _ _ _) as [[[ar1 dc1] da1] bg1]. cbn in Har |- *.
  now rewrite Har, existsb_seq.
Qed.

Lemma composite_kept (l : Lane F) (b : Blend F) (r : Regs F) (acc : Acc F) :
  let r' := fst (composite a l b r acc) in
  T_final r' = T_final r /\ last_contributor r' = last_contributor r /\
  dL_dpixel r' = dL_dpixel r /\ dL_invdepth r' = dL_invdepth r.
Proof.
  unfold composite. now destruct (fold_left _ _ _) as [[[ar1 dc1] da1] bg1].
Qed.

Lemma composite_colors (l : Lane F) (b : Blend F) (r : Regs F) (acc : Acc F) (ch : nat) :
  Register_dL_dcolors (snd (composite a l b r acc)) ch =
  if (ch <? C)%nat
  then Register_dL_dcolors acc ch + b_alpha b * T r * dL_dpixel r ch
  else Register_dL_dcolors acc ch.
Proof.
  unfold composite.
  pose proof (channel_fold_dc l r (b_alpha b) (b_alpha b * T r) (seq 0 C) (ar r)
                (Register_dL_dcolors acc) (of_Z 0) (of_Z 0) ch (seq_NoDup C 0)) as Hdc.
  destruct (fold_left _ _ _) as [[[ar1 dc1] da1] bg1]. cbn in Hdc |- *.
  now rewrite Hdc, existsb_seq.
Qed.

Lemma composite_invdepths (l : Lane F) (b : Blend F) (r : Regs F) (acc : Acc F) :
  Register_dL_dinvdepths (snd (composite a l b r acc)) =
  Register_dL_dinvdepths acc + b_alpha b * T r * dL_invdepth r.
Proof.
  unfold composite. now destruct (fold_left _ _ _) as [[[ar1 dc1] da1] bg1].
Qed.

Lemma do_work_kept (l : Lane F) (idx : Z) (px : Pixel) (r : Regs F) (acc : Acc F) :
  let r' := fst (do_work a l idx px r acc) in
  T_final r' = T_final r /\ last_contributor r' = last_contributor r /\
  dL_dpixel r' = dL_dpixel r /\ dL_invdepth r' = dL_invdepth r.
Proof.
  unfold do_work.
  repeat match goal with |- context [if ?b then _ else _] => destruct b end;
    cbn [fst]; auto.
  apply composite_kept.
Qed.

(** A valid pixel passes the test of line 588. *)
Lemma valid_pixel_inside (tile : Z) (idx : Z) :
  let px := pixel_of a tile idx in
  valid_pixel px = true ->
  (u32 (r_W a) <=? pix_x px)%Z || (u32 (r_H a) <=? pix_y px)%Z = false.
Proof.
  intros px Hv. unfold px, pixel_of in *. cbn [valid_pixel pix_x pix_y] in *.
  apply andb_true_iff in Hv. destruct Hv as [Hx Hy].
  apply Z.ltb_lt in Hx, Hy. apply orb_false_iff. split; apply Z.leb_gt; lia.
Qed.
End Sample.

Section SampleRule.
Context {F : Type} `{FloatArith F} `{FloatExp F} `{Config}.
Local Open Scope float_scope.
Variable a : RenderIn F.

(** C2, as the code has it.  For a valid primitive at a valid pixel of the
    tile that is not past the pixel's last contributor, the step computes
    the footprint [G = exp(power)], where [power] is minus one half of the
    quadratic form of the pixel offset against the conic, and
    [alpha = min(0.99, opacity * G)].  The sample is skipped when [power]
    is positive or [alpha] is below 1/255; otherwise it is composited with
    the weight [alpha * T]. *)
Theorem sample_rule (l : Lane F) (idx : Z) (r : Regs F) (acc : Acc F) :
  let px := pixel_of a (tile_id l) idx in
  let b := blend l px in
  let d := b_d b in
  valid_splat l = true -> valid_pixel px = true ->
  (0 <= idx < BLOCK_SIZE)%Z ->
  (of_Z (splat_idx_in_tile l) >=? last_contributor r) = false ->
  (d = mk2 (x2 (xy l) - of_Z (pix_x px)) (y2 (xy l) - of_Z (pix_y px)) /\
   b_power b = - lit 1 2 * (x4 (con_o l) * x2 d * x2 d + z4 (con_o l) * y2 d * y2 d)
               - y4 (con_o l) * x2 d * y2 d /\
   b_G b = fexp (b_power b) /\
   b_alpha b = fmin (lit 99 100) (w4 (con_o l) * b_G b)) /\
  ((b_power b >? of_Z 0) = true \/ (b_alpha b <? lit 1 255) = true ->
   do_work a l idx px r acc = (r, acc)) /\
  ((b_power b >? of_Z 0) = false -> (b_alpha b <? lit 1 255) = false ->
   let weight := b_alpha b * T r in
   let r' := fst (do_work a l idx px r acc) in
   let acc' := snd (do_work a l idx px r acc) in
   do_work a l idx px r acc = composite a l b r acc /\
   T r' = T r * (fone - b_alpha b) /\
   ard r' = ard r + weight * invd l /\
   Register_dL_dinvdepths acc' = Register_dL_dinvdepths acc + weight * dL_invdepth r /\
   forall ch, (ch < C)%nat ->
     ar r' ch = ar r ch + weight * c l ch /\
     Register_dL_dcolors acc' ch =
       Register_dL_dcolors acc ch + weight * dL_dpixel r ch).
Proof.
  intros px b d Hs Hp [Hlo Hhi] Hlast.
  assert (Hdo : do_work a l idx px r acc =
                if b_power b >? of_Z 0 then (r, acc)
                else if b_alpha b <? lit 1 255 then (r, acc)
                else composite a l b r acc).
  { unfold do_work. fold px. rewrite Hs, Hp.
    apply Z.leb_le in Hlo. apply Z.ltb_lt in Hhi. rewrite Hlo, Hhi. cbn [andb].
    unfold px. rewrite valid_pixel_inside by exact Hp. fold px.
    rewrite Hlast. reflexivity. }
  split; [repeat split|split].
  - intros [Hpow|Halpha]; rewrite Hdo.
    + now rewrite Hpow.
    + rewrite Halpha. now destruct (b_power b >? of_Z 0).
  - intros Hpow Halpha weight r' acc'. subst r' acc'.
    rewrite Hdo, Hpow, Halpha.
    split; [reflexivity|]. split; [apply composite_T|].
    split; [apply composite_ard|]. split; [apply composite_invdepths|].
    intros ch Hch. apply Nat.ltb_lt in Hch.
    rewrite composite_ar, composite_colors, Hch. auto.
Qed.
End SampleRule.

(** ** TileRenderBackward: past the last contributor *)

Section LaneFacts.
Context {F : Type} `{FloatArith F} `{FloatExp F} `{Config}.
Variable a : RenderIn F.
Variable global_bucket_idx : Z.

Lemma lane_tile_id (k : Z) :
  tile_id (lane_setup a global_bucket_idx k) = r_bucket_to_tile a global_bucket_idx.
Proof. reflexivity. Qed.

Lemma lane_splat_idx (k : Z) :
  splat_idx_in_tile (lane_setup a global_bucket_idx k) =
  i32 (bucket_idx_in_tile (lane_setup a global_bucket_idx 0) * 32 + k).
Proof. reflexivity. Qed.

Lemma lane_valid_splat (k : Z) :
  valid_splat (lane_setup a global_bucket_idx k) =
  (splat_idx_in_tile (lane_setup a global_bucket_idx k)
   <? num_splats_in_tile (lane_setup a global_bucket_idx 0))%Z.
Proof. reflexivity. Qed.

(** Without overflow of [int], the primitive index in the tile grows with
    the rank of the lane, and a valid lane has only valid lanes below. *)
Lemma lane_splat_idx_no_overflow (k : nat) :
  let b := bucket_idx_in_tile (lane_setup a global_bucket_idx 0) in
  (- 2 ^ 31 <= b * 32)%Z -> (b * 32 + 31 < 2 ^ 31)%Z -> k < 32 ->
  splat_idx_in_tile (lane_of a global_bucket_idx k) = (b * 32 + Z.of_nat k)%Z.
Proof.
  intros b Hlo Hhi Hk. unfold lane_of. rewrite lane_splat_idx. fold b.
  apply i32_small. lia.
Qed.

Lemma lane_valid_below (k : nat) :
  let b := bucket_idx_in_tile (lane_setup a global_bucket_idx 0) in
  (- 2 ^ 31 <= b * 32)%Z -> (b * 32 + 31 < 2 ^ 31)%Z -> k < 32 ->
  valid_splat (lane_of a global_bucket_idx k) = true ->
  valid_splat (lane_of a global_bucket_idx 0) = true.
Proof.
  intros b Hlo Hhi Hk Hv. unfold lane_of in *. rewrite lane_valid_splat in *.
  apply Z.ltb_lt in Hv. apply Z.ltb_lt.
  rewrite lane_splat_idx in *. fold b in Hv |- *.
  rewrite i32_small in Hv by lia. rewrite i32_small by lia. lia.
Qed.
End LaneFacts.

Section LastContributor.
Context {F : Type} `{FloatArith F} `{FloatExp F} `{Config}.
Variable a : RenderIn F.
Variable global_bucket_idx : Z.
Variable garbage : nat -> Regs F.

Lemma chain_regs_kept (idx k : nat) :
  let r := chain_regs a global_bucket_idx garbage idx k in
  let r0 := regs_in a global_bucket_idx garbage idx 0 in
  T_final r = T_final r0 /\ last_contributor r = last_contributor r0 /\
  dL_dpixel r = dL_dpixel r0 /\ dL_invdepth r = dL_invdepth r0.
Proof.
  induction k as [|k IH]; [cbn; auto|].
  cbn [chain_regs]. cbv zeta in IH |- *.
  destruct IH as (<- & <- & <- & <-). apply do_work_kept.
Qed.

(** What lane 0 holds for a pixel it has loaded. *)
Lemma regs_in_loaded (idx : nat) :
  let px := pixel_of a (tile_id (lane_of a global_bucket_idx 0)) (Z.of_nat idx) in
  valid_splat (lane_of a global_bucket_idx 0) = true ->
  valid_pixel px = true -> (Z.of_nat idx < BLOCK_SIZE)%Z ->
  regs_in a global_bucket_idx garbage idx 0 =
  load_state a global_bucket_idx (Z.of_nat idx) px
             (fst (lane_after a global_bucket_idx garbage idx 0)).
Proof.
  intros px Hs Hp Hidx. unfold regs_in. cbn [Z.of_nat Nat.sub].
  rewrite Z.sub_0_r. fold px. rewrite Hs, Hp. apply Z.ltb_lt in Hidx.
  rewrite Hidx. reflexivity.
Qed.

(** The work of a lane on a pixel at whose last contributor count the
    primitive of the lane is not: nothing is accumulated. *)
Lemma beyond_last_contributor
    (of_Z_monotone : forall x y : Z, (x <= y)%Z -> fle (of_Z x) (of_Z y) = true)
    (k idx : nat) (acc : Acc F) :
  let b := bucket_idx_in_tile (lane_setup a global_bucket_idx 0) in
  let l := lane_of a global_bucket_idx k in
  let px := pixel_of a (tile_id l) (Z.of_nat idx) in
  (- 2 ^ 31 <= b * 32)%Z -> (b * 32 + 31 < 2 ^ 31)%Z -> k < 32 ->
  (r_n_contrib a (pix_id px) <= splat_idx_in_tile l)%Z ->
  acc_step a global_bucket_idx garbage k acc idx = acc.
Proof.
  intros b l px Hlo Hhi Hk Hn. unfold acc_step. fold l. fold px.
  unfold do_work.
  destruct (valid_splat l && valid_pixel px && (0 <=? Z.of_nat idx)%Z
            && (Z.of_nat idx <? BLOCK_SIZE)%Z) eqn:Hguard; [|reflexivity].
  apply andb_true_iff in Hguard. destruct Hguard as [Hguard Hidx].
  apply andb_true_iff in Hguard. destruct Hguard as [Hguard _].
  apply andb_true_iff in Hguard. destruct Hguard as [Hs Hp].
  unfold px. rewrite valid_pixel_inside by exact Hp. fold px.
  destruct (chain_regs_kept idx k) as (_ & -> & _).
  assert (Htile : tile_id l = tile_id (lane_of a global_bucket_idx 0)).
  { unfold l, lane_of. now rewrite !lane_tile_id. }
  rewrite regs_in_loaded.
  - cbn [load_state last_contributor]. rewrite <- Htile. fold px.
    now rewrite of_Z_monotone.
  - now apply (lane_valid_below a global_bucket_idx k).
  - now rewrite <- Htile.
  - now apply Z.ltb_lt.
Qed.
End LastContributor.

(** ** CovarianceBackward *)

(** A rank below [P] is below [P] converted, and for a [P] that is not
    negative the conversion changes nothing. *)
Lemma int_to_rank_above (idx P : Z) : (idx < P)%Z -> (idx < int_to_rank P)%Z.
Proof. unfold int_to_rank. destruct (Z.ltb_spec P 0); lia. Qed.


Section Cov2DFacts.
Context {F : Type} `{FloatArith F} `{Auxiliary F}.
Local Open Scope float_scope.
Import Glm.

Lemma cov2D_antialiasing_c_xy (idx : Z) (antialiasing : bool) (c_xx c_xy c_yy : F)
    (opacities dL_dopacity : buf F) :
  aa_c_xy (cov2D_antialiasing idx antialiasing c_xx c_xy c_yy opacities dL_dopacity)
  = c_xy.
Proof. now destruct antialiasing. Qed.

Lemma fold_upd_zero (b : buf F) (base : Z) (n : nat) (j : Z) :
  fold_left (fun b i => upd b (base + Z.of_nat i)%Z (of_Z 0)) (seq 0 n) b j =
  if ((base <=? j) && (j <? base + Z.of_nat n))%Z then of_Z 0 else b j.
Proof.
  induction n as [|n IH].
  - cbn [seq fold_left]. replace ((base <=? j) && (j <? base + Z.of_nat 0))%Z with false.
    + reflexivity.
    + symmetry. apply andb_false_iff.
      destruct (Z.leb_spec base j); [right; apply Z.ltb_ge; lia|now left].
  - rewrite seq_S, fold_left_app. cbn [fold_left Nat.add].
    unfold upd at 1. destruct (Z.eqb_spec j (base + Z.of_nat n)) as [->|Hne].
    + replace ((base <=? base + Z.of_nat n) && (base + Z.of_nat n <? base + Z.of_nat (S n)))%Z
        with true; [reflexivity|].
      symmetry. apply andb_true_iff. split; [apply Z.leb_le|apply Z.ltb_lt]; lia.
    + rewrite IH.
      replace ((base <=? j) && (j <? base + Z.of_nat (S n)))%Z
        with ((base <=? j) && (j <? base + Z.of_nat n))%Z; [reflexivity|].
      f_equal. destruct (Z.ltb_spec j (base + Z.of_nat n));
        symmetry; [apply Z.ltb_lt|apply Z.ltb_ge]; lia.
Qed.

(** C6, as the code has it.  The reciprocal that turns conic gradients into
    covariance gradients has 1e-7 added to its denominator, the square of
    the determinant of the regularized covariance.  The six 3D covariance
    gradient entries of a primitive that is not culled are all written as
    zero when this reciprocal is itself zero. *)
Theorem cov2D_zero_when_reciprocal_is_zero
    (idx P : Z) (means : buf (vec3 F)) (radii : buf Z) (cov3Ds : buf F)
    (h_x h_y tan_fovx tan_fovy : F) (view_matrix : buf F)
    (opacities dL_dconics dL_dopacity dL_dinvdepth : buf F)
    (dL_dmeans : buf (vec3 F)) (dL_dcov : buf F) (antialiasing : bool) :
  let aa := cov2D_regularized idx means cov3Ds h_x h_y tan_fovx tan_fovy
              view_matrix opacities dL_dopacity antialiasing in
  let denom := cov2D_regularized_det aa in
  let denom2inv := cov2D_denom2inv denom in
  let out := computeCov2DCUDA idx P means radii cov3Ds h_x h_y tan_fovx tan_fovy
               view_matrix opacities dL_dconics dL_dopacity dL_dinvdepth
               dL_dmeans dL_dcov antialiasing in
  (idx < P)%Z -> (radii idx > 0)%Z ->
  denom2inv = fone / (denom * denom + lit 1 10000000) /\
  (feq denom2inv (of_Z 0) = true ->
   forall k : Z, (0 <= k < 6)%Z -> c2_dL_dcov out (6 * idx + k)%Z = of_Z 0).
Proof.
  intros aa denom denom2inv out HP Hr. split; [reflexivity|].
  intros Hz k Hk. subst out. unfold computeCov2DCUDA.
  replace ((idx >=? int_to_rank P)%Z || negb (radii idx >? 0)%Z) with false.
  2: { symmetry. apply orb_false_iff. split.
       - rewrite Z.geb_leb. apply Z.leb_gt. now apply int_to_rank_above.
       - apply negb_false_iff. rewrite Z.gtb_ltb. apply Z.ltb_lt. lia. }
  subst denom2inv denom aa.
  unfold cov2D_regularized, cov2D_regularized_det in Hz.
  rewrite cov2D_antialiasing_c_xy in Hz.
  cbv zeta in Hz |- *. rewrite Hz. cbn [negb c2_dL_dcov].
  rewrite fold_upd_zero.
  replace ((6 * idx <=? 6 * idx + k) && (6 * idx + k <? 6 * idx + Z.of_nat 6))%Z with true.
  - reflexivity.
  - symmetry. apply andb_true_iff. split; [apply Z.leb_le|apply Z.ltb_lt]; lia.
Qed.

(** The gradient that the second anti-aliasing block gives to the entry
    [c_xx]: the formula of the source, read at the covariance to which the
    first block has already added [h_var]. *)
Lemma cov2D_antialiasing_dL_dc_xx (idx : Z) (c_xx c_xy c_yy : F)
    (opacities dL_dopacity : buf F) :
  let aa := cov2D_antialiasing idx true c_xx c_xy c_yy opacities dL_dopacity in
  let x := c_xx + h_var in
  let y := c_yy + h_var in
  let z := c_xy in
  let w := h_var in
  aa_dL_dc_xx aa =
  w * (w * y + y * y + z * z)
  * (aa_d_inside_root aa / sq (w * w + w * (x + y) + x * y - z * z)).
Proof. reflexivity. Qed.

(** Without anti-aliasing the covariance gets [h_var] on its diagonal and
    the opacity gradients are not touched; with it, the opacity gradient of
    the primitive is multiplied by the scaling factor, and the gradient of
    the factor is zero in the clamped range. *)
Lemma cov2D_antialiasing_structure (idx : Z) (c_xx c_xy c_yy : F)
    (opacities dL_dopacity : buf F) :
  let off := cov2D_antialiasing idx false c_xx c_xy c_yy opacities dL_dopacity in
  let on := cov2D_antialiasing idx true c_xx c_xy c_yy opacities dL_dopacity in
  let ratio := (c_xx * c_yy - c_xy * c_xy)
               / ((c_xx + h_var) * (c_yy + h_var) - c_xy * c_xy) in
  (aa_c_xx off = c_xx + h_var /\ aa_c_xy off = c_xy /\ aa_c_yy off = c_yy + h_var /\
   aa_dL_dopacity off = dL_dopacity /\
   aa_dL_dc_xx off = of_Z 0 /\ aa_dL_dc_xy off = of_Z 0 /\ aa_dL_dc_yy off = of_Z 0) /\
  (aa_c_xx on = c_xx + h_var /\ aa_c_xy on = c_xy /\ aa_c_yy on = c_yy + h_var /\
   aa_dL_dopacity on idx = dL_dopacity idx * fsqrt (fmax (lit 25 1000000) ratio) /\
   (forall j, j <> idx -> aa_dL_dopacity on j = dL_dopacity j) /\
   ((ratio <=? lit 25 1000000) = true -> aa_d_inside_root on = of_Z 0)).
Proof.
  intros off on ratio. split; [repeat split|].
  subst on. unfold cov2D_antialiasing. cbn.
  repeat split.
  - apply upd_same.
  - intros j Hj. now apply upd_other.
  - fold ratio. now intros ->.
Qed.
End Cov2DFacts.

(** ** The 3D mean gradient across the preprocessing kernels *)

Section MeanGradient.
Context {F : Type} `{FloatArith F} `{Auxiliary F}.
Local Open Scope float_scope.
Import Glm.

Definition zero3 : vec3 F := mk3 (of_Z 0) (of_Z 0) (of_Z 0).

(** The component that CovarianceBackward assigns: the projection- and
    inverse-depth-induced gradient.  It reads the opacity gradient of the
    primitive when anti-aliasing is on, and no other gradient buffer. *)
Definition cov2D_mean_part (idx : Z) (a : PreIn F) (dL_dopacity : buf F) : vec3 F :=
  c2_dL_dmeans
    (computeCov2DCUDA idx (p_P a) (p_means3D a) (p_radii a) (p_cov3Ds a)
       (p_focal_x a) (p_focal_y a) (p_tan_fovx a) (p_tan_fovy a) (p_viewmatrix a)
       (p_opacities a) (p_dL_dconic a) dL_dopacity (p_dL_dinvdepth a)
       (fun _ => zero3) (fun _ => of_Z 0) (p_antialiasing a)) idx.

(** The component that SphericalHarmonicsBackward adds. *)
Definition SH_mean_part (idx : Z) (a : PreIn F) (shs : buf (vec3 F)) : vec3 F :=
  fst (fst (computeColorFromSH_body idx (p_D a) (p_M a) (p_means3D a) (p_campos a)
              (p_dc a) shs (p_clamped a) (p_dL_dcolor a)
              (fun _ => zero3) (fun _ => zero3))).

Lemma not_culled (idx P : Z) (radii : buf Z) :
  (idx < P)%Z -> (radii idx > 0)%Z ->
  (idx >=? int_to_rank P)%Z || negb (radii idx >? 0)%Z = false.
Proof.
  intros HP Hr. apply orb_false_iff. split.
  - rewrite Z.geb_leb. apply Z.leb_gt. now apply int_to_rank_above.
  - apply negb_false_iff. rewrite Z.gtb_ltb. apply Z.ltb_lt. lia.
Qed.

Lemma cov2D_antialiasing_scalars (idx : Z) (antialiasing : bool) (c_xx c_xy c_yy : F)
    (opacities d d' : buf F) :
  d idx = d' idx ->
  let aa := cov2D_antialiasing idx antialiasing c_xx c_xy c_yy opacities d in
  let aa' := cov2D_antialiasing idx antialiasing c_xx c_xy c_yy opacities d' in
  aa_c_xx aa = aa_c_xx aa' /\ aa_c_yy aa = aa_c_yy aa' /\
  aa_dL_dc_xx aa = aa_dL_dc_xx aa' /\ aa_dL_dc_xy aa = aa_dL_dc_xy aa' /\
  aa_dL_dc_yy aa = aa_dL_dc_yy aa'.
Proof.
  intros Hd. destruct antialiasing; cbn; [rewrite Hd|]; repeat split.
Qed.

Lemma cov2D_mean_written (idx P : Z) (means : buf (vec3 F)) (radii : buf Z)
    (cov3Ds : buf F) (h_x h_y tan_fovx tan_fovy : F) (view_matrix : buf F)
    (opacities dL_dconics d d' dL_dinvdepth : buf F)
    (m m' : buf (vec3 F)) (v v' : buf F) (antialiasing : bool) :
  (idx < P)%Z -> (radii idx > 0)%Z -> d idx = d' idx ->
  c2_dL_dmeans (computeCov2DCUDA idx P means radii cov3Ds h_x h_y tan_fovx tan_fovy
                  view_matrix opacities dL_dconics d dL_dinvdepth m v antialiasing) idx =
  c2_dL_dmeans (computeCov2DCUDA idx P means radii cov3Ds h_x h_y tan_fovx tan_fovy
                  view_matrix opacities dL_dconics d' dL_dinvdepth m' v' antialiasing) idx.
Proof.
  intros HP Hr Hd. unfold computeCov2DCUDA. rewrite not_culled by assumption.
  cbv zeta.
  set (fw := cov2D_forward _ _ _ _ _ _ _ _).
  destruct (cov2D_antialiasing_scalars idx antialiasing
              (at_ (fw_cov2D fw) 0 0) (at_ (fw_cov2D fw) 0 1) (at_ (fw_cov2D fw) 1 1)
              opacities d d' Hd) as (Exx & Eyy & Edxx & Edxy & Edyy).
  cbv zeta in Exx, Eyy, Edxx, Edxy, Edyy.
  rewrite <- Exx, <- Eyy, <- Edxx, <- Edxy, <- Edyy.
  destruct (negb (feq _ _)); cbn [c2_dL_dmeans]; now rewrite !upd_same.
Qed.

Lemma cov2D_other_thread (j idx : Z) (a : PreIn F) (g : Grads F) :
  j <> idx ->
  g_dL_dmean3D (cov2D_thread j a g) idx = g_dL_dmean3D g idx /\
  g_dL_dopacity (cov2D_thread j a g) idx = g_dL_dopacity g idx.
Proof.
  intros Hne. unfold cov2D_thread, computeCov2DCUDA.
  destruct (_ || _); [cbn; auto|].
  cbv zeta. destruct (negb (feq _ _)); cbn [c2_dL_dmeans c2_dL_dopacity g_dL_dmean3D
    g_dL_dopacity]; (split; [apply upd_other; congruence|]);
    unfold cov2D_antialiasing; destruct (p_antialiasing a); cbn;
    try reflexivity; apply upd_other; congruence.
Qed.

Lemma cov2D_launch_mean (a : PreIn F) (g : Grads F) (idx : Z) (n : nat) :
  (0 <= idx < p_P a)%Z -> (p_radii a idx > 0)%Z ->
  let g' := fold_left (fun s i => cov2D_thread (Z.of_nat i) a s) (seq 0 n) g in
  g_dL_dopacity g' idx
    = (if (idx <? Z.of_nat n)%Z then g_dL_dopacity g' idx else g_dL_dopacity g idx) /\
  g_dL_dmean3D g' idx
    = (if (idx <? Z.of_nat n)%Z then cov2D_mean_part idx a (g_dL_dopacity g)
       else g_dL_dmean3D g idx).
Proof.
  intros Hidx Hr. induction n as [|n IH].
  - cbn [seq fold_left]. replace (idx <? Z.of_nat 0)%Z with false; [auto|].
    symmetry. apply Z.ltb_ge. lia.
  - rewrite seq_S, fold_left_app. cbn [fold_left Nat.add].
    cbv zeta in IH. set (gn := fold_left _ (seq 0 n) g) in *.
    destruct IH as [IHo IHm]. cbv zeta.
    destruct (Z.eq_dec (Z.of_nat n) idx) as [Heq|Hne].
    + replace (idx <? Z.of_nat (S n))%Z with true by (symmetry; apply Z.ltb_lt; lia).
      split; [reflexivity|].
      replace (idx <? Z.of_nat n)%Z with false in IHo by (symmetry; apply Z.ltb_ge; lia).
      rewrite Heq. unfold cov2D_thread, cov2D_mean_part. cbn [g_dL_dmean3D].
      apply cov2D_mean_written; [lia|lia|exact IHo].
    + destruct (cov2D_other_thread (Z.of_nat n) idx a gn Hne) as [Em Eo].
      rewrite Em, Eo.
      replace (idx <? Z.of_nat (S n))%Z with (idx <? Z.of_nat n)%Z.
      * split; [|exact IHm]. destruct (idx <? Z.of_nat n)%Z; [reflexivity|exact IHo].
      * destruct (Z.ltb_spec idx (Z.of_nat n)); symmetry;
          [apply Z.ltb_lt|apply Z.ltb_ge]; lia.
Qed.

Lemma launch_covers (P idx : Z) :
  (0 <= idx < P)%Z -> (idx <? Z.of_nat (Z.to_nat ((P + 255) / 256 * 256)))%Z = true.
Proof.
  intros Hidx. apply Z.ltb_lt.
  assert (P <= (P + 255) / 256 * 256)%Z.
  { pose proof (Z.div_mod (P + 255) 256 ltac:(lia)).
    pose proof (Z.mod_pos_bound (P + 255) 256 ltac:(lia)). lia. }
  rewrite Z2Nat.id; lia.
Qed.

Lemma SH_body_mean (idx deg max_coeffs : Z) (means : buf (vec3 F)) (campos : vec3 F)
    (dc shs : buf (vec3 F)) (clamped : buf bool) (dL_dcolor : buf (vec3 F))
    (b1 b2 b1' b2' : buf (vec3 F)) :
  fst (fst (computeColorFromSH_body idx deg max_coeffs means campos dc shs clamped
              dL_dcolor b1 b2)) =
  fst (fst (computeColorFromSH_body idx deg max_coeffs means campos dc shs clamped
              dL_dcolor b1' b2')).
Proof.
  unfold computeColorFromSH_body.
  destruct (deg >? 0)%Z; [destruct (deg >? 1)%Z; [destruct (deg >? 2)%Z|]|];
    reflexivity.
Qed.

Lemma preprocess_thread_mean (idx : Z) (a : PreIn F) (g : Grads F) :
  (idx < p_P a)%Z -> (p_radii a idx > 0)%Z ->
  let pre := preprocess_dL_dmean idx (p_means3D a) (p_projmatrix a) (p_dL_dmean2D a) in
  g_dL_dmean3D (preprocessCUDA idx a g) idx =
  match p_shs a with
  | Some shs => vadd (vadd (g_dL_dmean3D g idx) pre) (SH_mean_part idx a shs)
  | None => vadd (g_dL_dmean3D g idx) pre
  end.
Proof.
  intros HP Hr pre. unfold preprocessCUDA. rewrite not_culled by assumption.
  fold pre. destruct (p_shs a) as [shs|].
  - unfold computeColorFromSH, SH_mean_part.
    rewrite (SH_body_mean idx (p_D a) (p_M a) (p_means3D a) (p_campos a) (p_dc a) shs
               (p_clamped a) (p_dL_dcolor a) (fun _ => zero3) (fun _ => zero3)
               (g_dL_ddc g) (g_dL_dsh g)).
    destruct (computeColorFromSH_body _ _ _ _ _ _ _ _ _ _ _) as [[dm ddc] dsh].
    destruct (p_scales a); [destruct (computeCov3D _ _ _ _ _ _ _)|];
      cbn [g_dL_dmean3D fst]; now rewrite !upd_same.
  - destruct (p_scales a); [destruct (computeCov3D _ _ _ _ _ _ _)|];
      cbn [g_dL_dmean3D]; now rewrite upd_same.
Qed.

Lemma preprocess_other_thread (j idx : Z) (a : PreIn F) (g : Grads F) :
  j <> idx -> g_dL_dmean3D (preprocessCUDA j a g) idx = g_dL_dmean3D g idx.
Proof.
  intros Hne. unfold preprocessCUDA. destruct (_ || _); [reflexivity|].
  destruct (p_shs a) as [shs|].
  - unfold computeColorFromSH.
    destruct (computeColorFromSH_body _ _ _ _ _ _ _ _ _ _ _) as [[dm ddc] dsh].
    destruct (p_scales a); [destruct (computeCov3D _ _ _ _ _ _ _)|];
      cbn [g_dL_dmean3D]; rewrite !upd_other by congruence; reflexivity.
  - destruct (p_scales a); [destruct (computeCov3D _ _ _ _ _ _ _)|];
      cbn [g_dL_dmean3D]; rewrite !upd_other by congruence; reflexivity.
Qed.

Lemma preprocess_launch_mean (a : PreIn F) (g : Grads F) (idx : Z) (n : nat) :
  (0 <= idx < p_P a)%Z -> (p_radii a idx > 0)%Z ->
  let pre := preprocess_dL_dmean idx (p_means3D a) (p_projmatrix a) (p_dL_dmean2D a) in
  g_dL_dmean3D (fold_left (fun s i => preprocessCUDA (Z.of_nat i) a s) (seq 0 n) g) idx =
  if (idx <? Z.of_nat n)%Z then
    match p_shs a with
    | Some shs => vadd (vadd (g_dL_dmean3D g idx) pre) (SH_mean_part idx a shs)
    | None => vadd (g_dL_dmean3D g idx) pre
    end
  else g_dL_dmean3D g idx.
Proof.
  intros Hidx Hr pre. induction n as [|n IH].
  - cbn [seq fold_left]. replace (idx <? Z.of_nat 0)%Z with false; [auto|].
    symmetry. apply Z.ltb_ge. lia.
  - rewrite seq_S, fold_left_app. cbn [fold_left Nat.add].
    set (gn := fold_left _ (seq 0 n) g) in *.
    destruct (Z.eq_dec (Z.of_nat n) idx) as [Heq|Hne].
    + replace (idx <? Z.of_nat (S n))%Z with true by (symmetry; apply Z.ltb_lt; lia).
      replace (idx <? Z.of_nat n)%Z with false in IH by (symmetry; apply Z.ltb_ge; lia).
      rewrite Heq, preprocess_thread_mean by lia. fold pre. now rewrite IH.
    + rewrite preprocess_other_thread by exact Hne. rewrite IH.
      replace (idx <? Z.of_nat (S n))%Z with (idx <? Z.of_nat n)%Z; [reflexivity|].
      destruct (Z.ltb_spec idx (Z.of_nat n)); symmetry;
        [apply Z.ltb_lt|apply Z.ltb_ge]; lia.
Qed.

(** C7.  For a primitive that is not culled, the entry of the 3D mean
    gradient buffer after [BACKWARD::preprocess] is the component that
    CovarianceBackward assigns (overwriting the entry), plus the component
    that PreprocessBackward adds, plus, when the colours come from
    spherical harmonics, the component that SphericalHarmonicsBackward
    adds.  None of them reads the buffer, so the entry does not depend on
    what the buffer held before. *)
Theorem mean_gradient_overwritten_then_accumulated
    (a : PreIn F) (g g' : Grads F) (idx : Z) :
  (0 <= idx < p_P a)%Z -> (p_radii a idx > 0)%Z ->
  let cov := cov2D_mean_part idx a (g_dL_dopacity g) in
  let pre := preprocess_dL_dmean idx (p_means3D a) (p_projmatrix a) (p_dL_dmean2D a) in
  (g_dL_dmean3D (preprocess a g) idx =
     match p_shs a with
     | Some shs => vadd (vadd cov pre) (SH_mean_part idx a shs)
     | None => vadd cov pre
     end) /\
  (g_dL_dopacity g' idx = g_dL_dopacity g idx ->
   g_dL_dmean3D (preprocess a g') idx = g_dL_dmean3D (preprocess a g) idx).
Proof.
  intros Hidx Hr cov pre.
  assert (Hsum : forall g0 : Grads F,
    g_dL_dmean3D (preprocess a g0) idx =
    match p_shs a with
    | Some shs => vadd (vadd (cov2D_mean_part idx a (g_dL_dopacity g0)) pre)
                       (SH_mean_part idx a shs)
    | None => vadd (cov2D_mean_part idx a (g_dL_dopacity g0)) pre
    end).
  { intros g0. unfold preprocess, launch_1d.
    rewrite preprocess_launch_mean by assumption. fold pre.
    rewrite launch_covers by exact Hidx.
    destruct (cov2D_launch_mean a g0 idx (Z.to_nat ((p_P a + 255) / 256 * 256))
                Hidx Hr) as [_ Hm].
    cbv zeta in Hm. rewrite Hm, launch_covers by exact Hidx. reflexivity. }
  split; [apply Hsum|]. intros Ho. rewrite !Hsum.
  assert (Hcov : cov2D_mean_part idx a (g_dL_dopacity g')
                 = cov2D_mean_part idx a (g_dL_dopacity g)).
  { unfold cov2D_mean_part. apply cov2D_mean_written; [lia|lia|exact Ho]. }
  now rewrite Hcov.
Qed.
End MeanGradient.

(** ** TileRenderBackward against sequential reverse compositing *)

(** Two folds over the same list whose steps preserve a relation. *)
Lemma fold_left_related {A B} (R : A -> A -> Prop) (f g : A -> B -> A) (l : list B)
    (x y : A) :
  (forall b, In b l -> forall x y, R x y -> R (f x b) (g y b)) ->
  R x y -> R (fold_left f l x) (fold_left g l y).
Proof.
  revert x y. induction l as [|b l IH]; intros x y Hstep Hxy; [exact Hxy|].
  cbn [fold_left]. apply IH.
  - intros b' Hin. apply Hstep. now right.
  - apply Hstep; [now left|exact Hxy].
Qed.


Section ReferenceFacts.
Context {F : Type} `{ExactArith F} `{FloatExp F} `{Config}.
Local Open Scope float_scope.
Variable a : RenderIn F.

Add Ring reference_ring : exact_ring.

Lemma forward_upto_S (tile : Z) (px : Pixel) (m : nat) :
  forward_upto a tile px (S m)
  = forward_step px (forward_upto a tile px m) (splat_at a tile m).
Proof. unfold forward_upto. rewrite seq_S, map_app, fold_left_app. reflexivity. Qed.

Lemma forward_upto_split (tile : Z) (px : Pixel) (m n : nat) :
  m <= n ->
  forward_upto a tile px n
  = fold_left (forward_step px) (map (splat_at a tile) (seq m (n - m)%nat))
              (forward_upto a tile px m).
Proof.
  intros Hmn. unfold forward_upto.
  replace n with (m + (n - m))%nat at 1 by lia.
  rewrite seq_app, map_app, fold_left_app. reflexivity.
Qed.

Lemma forward_T (px : Pixel) (splats : list (Lane F)) (st : Composited F) :
  f_T (fold_left (forward_step px) splats st) = transmittance_after px (f_T st) splats.
Proof.
  revert st. induction splats as [|l rest IH]; intros st; [reflexivity|].
  cbn [fold_left]. rewrite IH. unfold transmittance_after. cbn [fold_left].
  f_equal. unfold forward_step. destruct (contributes l px); reflexivity.
Qed.

Lemma forward_upto_T (tile : Z) (px : Pixel) (m : nat) :
  f_T (forward_upto a tile px m)
  = transmittance_after px fone (map (splat_at a tile) (seq 0 m)).
Proof. unfold forward_upto. now rewrite forward_T. Qed.

(** What reverse compositing returns beside the gradients: the final
    transmittance and what the primitives composite together. *)
Lemma reference_pixel_totals (px : Pixel) (splats : list (Lane F)) (st : Composited F) :
  let rp := reference_pixel a px (f_T st) splats in
  let fin := fold_left (forward_step px) splats st in
  fst (fst (fst rp)) = f_T fin /\
  (forall ch, f_C fin ch = f_C st ch + snd (fst (fst rp)) ch) /\
  f_D fin = f_D st + snd (fst rp) /\
  length (snd rp) = length splats.
Proof.
  revert st. induction splats as [|l rest IH]; intros st.
  - cbn. repeat split; intros; rewrite of_Z_0; ring.
  - cbn [reference_pixel fold_left]. unfold forward_step at 2 4 6.
    destruct (contributes l px) eqn:E.
    + specialize (IH (mkComposited (f_T st * (fone - b_alpha (blend l px)))
                        (fun ch => f_C st ch + b_alpha (blend l px) * f_T st * c l ch)
                        (f_D st + b_alpha (blend l px) * f_T st * invd l))).
      cbn [f_T f_C f_D] in IH. cbv zeta in IH |- *.
      destruct (reference_pixel a px (f_T st * (fone - b_alpha (blend l px))) rest)
        as [[[Tf Bc] Bd] grads].
      cbn [fst snd length] in IH |- *.
      destruct IH as (HT & HC & HD & Hlen).
      repeat split.
      * exact HT.
      * intros ch. rewrite HC. ring.
      * rewrite HD. ring.
      * now rewrite Hlen.
    + specialize (IH st). cbv zeta in IH |- *.
      destruct (reference_pixel a px (f_T st) rest) as [[[Tf Bc] Bd] grads].
      cbn [fst snd length] in IH |- *.
      destruct IH as (HT & HC & HD & Hlen).
      repeat split; auto.
Qed.

Lemma reference_pixel_length (px : Pixel) (splats : list (Lane F)) (T : F) :
  length (snd (reference_pixel a px T splats)) = length splats.
Proof.
  apply (reference_pixel_totals px splats (mkComposited T (fun _ => of_Z 0) (of_Z 0))).
Qed.

(** The gradient of the [i]-th primitive: from the transmittance that the
    primitives before it leave, and from what reverse compositing returns
    for the primitives behind it. *)
Lemma reference_pixel_nth (px : Pixel) (splats : list (Lane F)) (T : F) (i : nat)
    (d : Lane F) :
  i < length splats ->
  let l := nth i splats d in
  let rp := reference_pixel a px (transmittance_after px T (firstn (S i) splats))
                            (skipn (S i) splats) in
  nth i (snd (reference_pixel a px T splats)) Acc_zero =
  if contributes l px
  then sample_gradient a l px (transmittance_after px T (firstn i splats))
                       (snd (fst (fst rp))) (snd (fst rp)) (fst (fst (fst rp)))
  else Acc_zero.
Proof.
  revert T i. induction splats as [|l rest IH]; intros T i Hi; [inversion Hi|].
  destruct i as [|i].
  - cbn [nth firstn skipn]. unfold transmittance_after. cbn [fold_left reference_pixel].
    destruct (contributes l px).
    + destruct (reference_pixel a px (T * (fone - b_alpha (blend l px))) rest)
        as [[[Tf Bc] Bd] grads]. reflexivity.
    + destruct (reference_pixel a px T rest) as [[[Tf Bc] Bd] grads]. reflexivity.
  - cbn [length] in Hi. cbn [nth firstn skipn].
    unfold transmittance_after. cbn [fold_left]. fold (transmittance_after px).
    cbn [reference_pixel].
    destruct (contributes l px).
    + specialize (IH (T * (fone - b_alpha (blend l px))) i ltac:(lia)).
      cbv zeta in IH.
      destruct (reference_pixel a px (T * (fone - b_alpha (blend l px))) rest)
        as [[[Tf Bc] Bd] grads].
      cbn [snd nth] in IH |- *. exact IH.
    + specialize (IH T i ltac:(lia)). cbv zeta in IH.
      destruct (reference_pixel a px T rest) as [[[Tf Bc] Bd] grads].
      cbn [snd nth] in IH |- *. exact IH.
Qed.

Lemma firstn_seq_le (i s n : nat) : i <= n -> firstn i (seq s n) = seq s i.
Proof.
  revert s n. induction i as [|i IH]; intros s n Hi; [reflexivity|].
  destruct n as [|n]; [lia|]. cbn [seq firstn]. f_equal. apply IH. lia.
Qed.

Lemma fold_sum_ext (f g : nat -> F) (chs : list nat) (s0 : F) :
  (forall ch, In ch chs -> f ch = g ch) ->
  fold_left (fun s ch => s + f ch) chs s0 = fold_left (fun s ch => s + g ch) chs s0.
Proof.
  revert s0. induction chs as [|ch chs IH]; intros s0 Hfg; [reflexivity|].
  cbn [fold_left]. rewrite (Hfg ch) by (now left). apply IH.
  intros ch' Hin. apply Hfg. now right.
Qed.

Lemma sample_dL_dalpha_ext (l : Lane F) (px : Pixel) (T : F)
    (bc bc' : nat -> F) (bd bd' : F) (Tf : F) :
  (forall ch, bc ch = bc' ch) -> bd = bd' ->
  sample_dL_dalpha a l px T bc bd Tf = sample_dL_dalpha a l px T bc' bd' Tf.
Proof.
  intros Hbc ->. unfold sample_dL_dalpha. cbv beta zeta.
  rewrite (fold_sum_ext
             (fun ch => (c l ch * T - bc ch / (fone - b_alpha (blend l px)))
                        * r_dL_dpixels a (u32 (Z.of_nat ch * r_H a * r_W a + pix_id px)))
             (fun ch => (c l ch * T - bc' ch / (fone - b_alpha (blend l px)))
                        * r_dL_dpixels a (u32 (Z.of_nat ch * r_H a * r_W a + pix_id px)))).
  - reflexivity.
  - intros ch _. now rewrite Hbc.
Qed.

Lemma sample_gradient_ext (l : Lane F) (px : Pixel) (T : F)
    (bc bc' : nat -> F) (bd bd' : F) (Tf : F) :
  (forall ch, bc ch = bc' ch) -> bd = bd' ->
  sample_gradient a l px T bc bd Tf = sample_gradient a l px T bc' bd' Tf.
Proof.
  intros Hbc Hbd. unfold sample_gradient.
  now rewrite (sample_dL_dalpha_ext l px T bc bc' bd bd' Tf Hbc Hbd).
Qed.

(** The reference gradient of a place before the contributor count of the
    pixel, from the states of the forward pass. *)
Lemma reference_gradient_at (tile : Z) (idx j : nat) :
  let px := pixel_of a tile (Z.of_nat idx) in
  let n := Z.to_nat (r_n_contrib a (pix_id px)) in
  let l := splat_at a tile j in
  let final := forward_upto a tile px n in
  let next := forward_upto a tile px (S j) in
  valid_pixel px = true -> j < n ->
  reference_gradient a tile idx j =
  if contributes l px
  then sample_gradient a l px (f_T (forward_upto a tile px j))
                       (fun ch => f_C final ch - f_C next ch)
                       (f_D final - f_D next) (f_T final)
  else Acc_zero.
Proof.
  intros px n l final next Hv Hj.
  unfold reference_gradient. fold px. rewrite Hv. fold n.
  rewrite (reference_pixel_nth px (map (splat_at a tile) (seq 0 n)) fone j
             (splat_at a tile 0))
    by (rewrite length_map, length_seq; exact Hj).
  rewrite (map_nth (splat_at a tile)), seq_nth by exact Hj. cbn [Nat.add]. fold l.
  destruct (contributes l px); [|reflexivity].
  rewrite !firstn_map, skipn_map, !firstn_seq_le, skipn_seq by lia. cbn [Nat.add].
  rewrite <- !forward_upto_T.
  pose proof (reference_pixel_totals px (map (splat_at a tile) (seq (S j) (n - S j)%nat))
                (forward_upto a tile px (S j))) as Htot.
  cbv zeta in Htot. rewrite <- forward_upto_split in Htot by lia.
  fold final in Htot. fold next in Htot.
  destruct Htot as (HT & HC & HD & _).
  fold next. fold final. rewrite HT. apply sample_gradient_ext.
  - intros ch. rewrite HC. ring.
  - rewrite HD. ring.
Qed.

Lemma reference_gradient_beyond (tile : Z) (idx j : nat) :
  let px := pixel_of a tile (Z.of_nat idx) in
  Z.to_nat (r_n_contrib a (pix_id px)) <= j ->
  reference_gradient a tile idx j = Acc_zero.
Proof.
  intros px Hj. unfold reference_gradient. fold px.
  destruct (valid_pixel px); [|reflexivity].
  apply nth_overflow. now rewrite reference_pixel_length, length_map, length_seq.
Qed.
End ReferenceFacts.
Section Refinement.
Context {F : Type} `{ExactArith F} `{FloatExp F} `{Config}.
Local Open Scope float_scope.
Variable a : RenderIn F.
Variable global_bucket_idx : Z.
Variable garbage : nat -> Regs F.

Add Ring refinement_ring : exact_ring.

Let l0 := lane_setup a global_bucket_idx 0.
Let tile := tile_id l0.
Let b0 := bucket_idx_in_tile l0.

Hypothesis Hwf : bucket_well_formed a global_bucket_idx.

Lemma fold_set_reg {A} (f : nat -> A) (n : nat) (c0 : nat -> A) (j : nat) :
  fold_left (fun c ch => set_reg c ch (f ch)) (seq 0 n) c0 j =
  if (j <? n)%nat then f j else c0 j.
Proof.
  clear Hwf b0 tile l0.
  induction n as [|n IH].
  - reflexivity.
  - rewrite seq_S, fold_left_app. cbn [fold_left Nat.add]. unfold set_reg at 1.
    destruct (Nat.eqb j n) eqn:E.
    + apply Nat.eqb_eq in E. subst j.
      replace (n <? S n)%nat with true by (symmetry; apply Nat.ltb_lt; lia).
      reflexivity.
    + rewrite IH. apply Nat.eqb_neq in E.
      destruct (j <? n)%nat eqn:E1.
      * apply Nat.ltb_lt in E1.
        replace (j <? S n)%nat with true by (symmetry; apply Nat.ltb_lt; lia).
        reflexivity.
      * apply Nat.ltb_ge in E1.
        replace (j <? S n)%nat with false by (symmetry; apply Nat.ltb_ge; lia).
        reflexivity.
Qed.

Lemma num_splats_in_range :
  num_splats_in_tile l0 = (snd (r_ranges a tile) - fst (r_ranges a tile))%Z.
Proof.
  destruct Hwf as (_ & _ & Hr & Hs). fold l0 in Hr, Hs. fold tile in Hr, Hs.
  unfold l0 at 1, lane_setup. cbn [num_splats_in_tile].
  change (r_bucket_to_tile a global_bucket_idx) with tile.
  rewrite u32_small by lia. apply i32_small. lia.
Qed.

Lemma lane_place (k : nat) :
  k < 32 ->
  splat_idx_in_tile (lane_of a global_bucket_idx k)
  = Z.of_nat (place_of a global_bucket_idx k).
Proof.
  intros Hk. destruct Hwf as (Hlo & Hhi & _). fold l0 in Hlo, Hhi. fold b0 in Hlo, Hhi.
  rewrite (lane_splat_idx_no_overflow a global_bucket_idx k) by (fold l0; fold b0; lia).
  unfold place_of. fold l0. fold b0. lia.
Qed.

(** A valid lane holds the primitive at its place of the tile's range. *)
Lemma lane_is_splat (k : nat) :
  let l := lane_of a global_bucket_idx k in
  let s := splat_at a tile (place_of a global_bucket_idx k) in
  k < 32 -> valid_splat l = true ->
  xy l = xy s /\ con_o l = con_o s /\ invd l = invd s /\
  (forall ch, (ch < C)%nat -> c l ch = c s ch) /\
  (Z.of_nat (place_of a global_bucket_idx k)
   < snd (r_ranges a tile) - fst (r_ranges a tile))%Z.
Proof.
  intros l s Hk Hv.
  pose proof (lane_place k Hk) as Hplace. fold l in Hplace.
  pose proof num_splats_in_range as Hnum.
  destruct Hwf as (Hlo & Hhi & Hr & Hs). fold l0 in Hr, Hs. fold tile in Hr, Hs.
  assert (Hlt : (Z.of_nat (place_of a global_bucket_idx k)
                 < snd (r_ranges a tile) - fst (r_ranges a tile))%Z).
  { unfold l, lane_of in Hv. rewrite lane_valid_splat in Hv. apply Z.ltb_lt in Hv.
    fold (lane_of a global_bucket_idx k) in Hv. fold l in Hv. fold l0 in Hv.
    rewrite Hplace, Hnum in Hv. exact Hv. }
  assert (Hg : gaussian_idx l = gaussian_idx s).
  { assert (Hgi : gaussian_idx l =
                  if valid_splat l
                  then i32 (r_point_list a
                              (i32 (u32 (fst (r_ranges a tile) + splat_idx_in_tile l))))
                  else 0%Z) by reflexivity.
    rewrite Hgi, Hv, Hplace. unfold s, splat_at. cbn [gaussian_idx]. f_equal. f_equal.
    rewrite u32_small by lia. apply i32_small. lia. }
  assert (Hfields :
    xy l = r_points_xy_image a (gaussian_idx l) /\
    con_o l = r_conic_opacity a (gaussian_idx l) /\
    invd l = fone / r_depths a (gaussian_idx l) /\
    c l = fold_left
        (fun c ch =>
           set_reg c ch (r_colors a (u32 (gaussian_idx l * Z.of_nat C + Z.of_nat ch))))
        (seq 0 C) (fun _ : nat => of_Z 0)).
  { unfold l, lane_of, lane_setup in Hv |- *.
    cbn [valid_splat gaussian_idx xy con_o invd c] in Hv |- *.
    rewrite Hv. repeat split; reflexivity. }
  destruct Hfields as (Hxy & Hcon & Hinvd & Hc).
  rewrite Hxy, Hcon, Hinvd, Hc, Hg.
  repeat split; try reflexivity; [|exact Hlt].
  intros ch Hch.
  rewrite (fold_set_reg (fun ch => r_colors a (u32 (gaussian_idx s * Z.of_nat C + Z.of_nat ch)))).
  apply Nat.ltb_lt in Hch. rewrite Hch. reflexivity.
Qed.

Lemma blend_ext (l s : Lane F) (px : Pixel) :
  xy l = xy s -> con_o l = con_o s -> blend l px = blend s px.
Proof. intros Hxy Hcon. unfold blend. now rewrite Hxy, Hcon. Qed.

Lemma contributes_ext (l s : Lane F) (px : Pixel) :
  xy l = xy s -> con_o l = con_o s -> contributes l px = contributes s px.
Proof. intros Hxy Hcon. unfold contributes. now rewrite (blend_ext l s px Hxy Hcon). Qed.



Hypothesis Hfc : forward_consistent a global_bucket_idx.

Lemma do_work_sample (l : Lane F) (idx : Z) (r : Regs F) (acc : Acc F) :
  let px := pixel_of a (tile_id l) idx in
  valid_splat l = true -> valid_pixel px = true -> (0 <= idx < BLOCK_SIZE)%Z ->
  (of_Z (splat_idx_in_tile l) >=? last_contributor r) = false ->
  do_work a l idx px r acc =
  if b_power (blend l px) >? of_Z 0 then (r, acc)
  else if b_alpha (blend l px) <? lit 1 255 then (r, acc)
  else composite a l (blend l px) r acc.
Proof.
  intros px Hs Hp [Hlo Hhi] Hlast.
  unfold do_work. fold px. rewrite Hs, Hp.
  apply Z.leb_le in Hlo. apply Z.ltb_lt in Hhi. rewrite Hlo, Hhi. cbn [andb].
  unfold px. rewrite valid_pixel_inside by exact Hp. fold px.
  rewrite Hlast. reflexivity.
Qed.

Lemma do_work_invalid_pixel (l : Lane F) (idx : Z) (px : Pixel) (r : Regs F)
    (acc : Acc F) :
  valid_pixel px = false -> do_work a l idx px r acc = (r, acc).
Proof.
  intros Hp. unfold do_work. rewrite Hp. now rewrite andb_false_r.
Qed.

(** The scalar accumulation registers after [composite]. *)
Lemma composite_scalars (l : Lane F) (b : Blend F) (r : Regs F) (acc : Acc F) :
  let da := composite_dL_dalpha a l b r in
  let dL_dG := w4 (con_o l) * da in
  let gdx := b_G b * x2 (b_d b) in
  let gdy := b_G b * y2 (b_d b) in
  let acc' := snd (composite a l b r acc) in
  Register_dL_dmean2D_x acc' =
    Register_dL_dmean2D_x acc
    + dL_dG * (- gdx * x4 (con_o l) - gdy * y4 (con_o l)) * (lit 1 2 * of_Z (r_W a)) /\
  Register_dL_dmean2D_y acc' =
    Register_dL_dmean2D_y acc
    + dL_dG * (- gdy * z4 (con_o l) - gdx * y4 (con_o l)) * (lit 1 2 * of_Z (r_H a)) /\
  Register_dL_dconic2D_x acc' =
    Register_dL_dconic2D_x acc + - lit 1 2 * gdx * x2 (b_d b) * dL_dG /\
  Register_dL_dconic2D_y acc' =
    Register_dL_dconic2D_y acc + - lit 1 2 * gdx * y2 (b_d b) * dL_dG /\
  Register_dL_dconic2D_w acc' =
    Register_dL_dconic2D_w acc + - lit 1 2 * gdy * y2 (b_d b) * dL_dG /\
  Register_dL_dopacity acc' = Register_dL_dopacity acc + b_G b * da.
Proof.
  unfold composite_dL_dalpha, composite.
  pose proof (channel_fold_da a l r (b_alpha b) (b_alpha b * T r) (seq 0 C) (ar r)
                (Register_dL_dcolors acc) (of_Z 0) (of_Z 0) (seq_NoDup C 0)) as Hda.
  pose proof (channel_fold_bg a l r (b_alpha b) (b_alpha b * T r) (seq 0 C) (ar r)
                (Register_dL_dcolors acc) (of_Z 0) (of_Z 0)) as Hbg.
  destruct (fold_left _ _ (ar r, Register_dL_dcolors acc, _, _)) as [[[ar1 dc1] da1] bg1].
  cbn [fst snd] in Hda, Hbg. subst da1 bg1.
  cbn. repeat split; reflexivity.
Qed.

Lemma lane_tile (k : nat) : tile_id (lane_of a global_bucket_idx k) = tile.
Proof. reflexivity. Qed.

(** A lane whose place is before the contributor count of some valid pixel
    holds a valid primitive. *)
Lemma lane_valid_before (k idx : nat) :
  let px := pixel_of a tile (Z.of_nat idx) in
  k < 32 -> (Z.of_nat idx < BLOCK_SIZE)%Z -> valid_pixel px = true ->
  (Z.of_nat (place_of a global_bucket_idx k) < r_n_contrib a (pix_id px))%Z ->
  valid_splat (lane_of a global_bucket_idx k) = true.
Proof.
  intros px Hk Hidx Hp Hlt.
  destruct (Hfc idx Hidx Hp) as (_ & _ & Hnum & _).
  unfold lane_of. rewrite lane_valid_splat. apply Z.ltb_lt.
  fold (lane_of a global_bucket_idx k). rewrite lane_place by exact Hk.
  fold l0. fold l0 in Hnum. fold tile in Hnum. fold px in Hnum. lia.
Qed.

(** What lane 0 loads for a pixel whose contributors reach the bucket. *)
Lemma load_matches (idx : nat) :
  let px := pixel_of a tile (Z.of_nat idx) in
  (Z.of_nat idx < BLOCK_SIZE)%Z -> valid_pixel px = true ->
  (b0 * 32 < r_n_contrib a (pix_id px))%Z ->
  regs_match a tile px (regs_in a global_bucket_idx garbage idx 0)
             (place_of a global_bucket_idx 0).
Proof.
  intros px Hidx Hp Hlt.
  assert (Hplace0 : Z.of_nat (place_of a global_bucket_idx 0) = (b0 * 32)%Z).
  { destruct Hwf as (Hlo & _). fold l0 in Hlo. fold b0 in Hlo.
    unfold place_of. fold l0. fold b0. lia. }
  assert (Hs : valid_splat (lane_of a global_bucket_idx 0) = true).
  { apply (lane_valid_before 0 idx); try assumption; [lia|].
    fold px. rewrite Hplace0. exact Hlt. }
  rewrite regs_in_loaded by assumption.
  assert (Hm : place_of a global_bucket_idx 0 = Z.to_nat (b0 * 32)) by lia.
  rewrite Hm. clear Hm Hplace0 Hs.
  pose proof (Hfc idx Hidx Hp) as Hc. cbv zeta in Hc.
  subst px. unfold tile, b0, l0 in *.
  change (tile_id (lane_of a global_bucket_idx 0))
    with (tile_id (lane_setup a global_bucket_idx 0)).
  destruct Hc as (Hn0 & _ & _ & HTf & HCf & HDf & Hstart).
  destruct (Hstart Hlt) as (HT & HC & HD).
  unfold regs_match, load_state. cbn [T ar ard T_final last_contributor dL_dpixel dL_invdepth].
  repeat split.
  - exact HT.
  - intros ch Hch.
    match goal with
    | |- fold_left (fun c ch => set_reg c ch (@?f ch)) _ _ _ = _ =>
        rewrite (fold_set_reg f)
    end.
    pose proof Hch as Hch'. apply Nat.ltb_lt in Hch'. rewrite Hch'.
    rewrite HCf, HC by exact Hch. ring.
  - rewrite HDf, HD. ring.
  - exact HTf.
  - intros ch Hch.
    match goal with
    | |- fold_left (fun c ch => set_reg c ch (@?f ch)) _ _ _ = _ =>
        rewrite (fold_set_reg f)
    end.
    apply Nat.ltb_lt in Hch. now rewrite Hch.
Qed.

(** The last-contributor test of a lane whose registers match. *)
Lemma last_contributor_test (k : nat) (px : Pixel) (r : Regs F) (m : nat) :
  k < 32 -> regs_match a tile px r m ->
  (of_Z (splat_idx_in_tile (lane_of a global_bucket_idx k)) >=? last_contributor r)
  = (r_n_contrib a (pix_id px) <=? Z.of_nat (place_of a global_bucket_idx k))%Z.
Proof.
  intros Hk (_ & _ & _ & _ & Hlast & _).
  now rewrite Hlast, lane_place, of_Z_le.
Qed.

(** The work of a lane on registers that match the forward state at its
    place leaves registers that match the forward state one place on. *)
Lemma step_matches (k idx : nat) (r : Regs F) (acc : Acc F) :
  let px := pixel_of a tile (Z.of_nat idx) in
  let m := place_of a global_bucket_idx k in
  k < 32 -> (Z.of_nat idx < BLOCK_SIZE)%Z -> valid_pixel px = true ->
  (Z.of_nat m < r_n_contrib a (pix_id px))%Z ->
  regs_match a tile px r m ->
  regs_match a tile px
    (fst (do_work a (lane_of a global_bucket_idx k) (Z.of_nat idx) px r acc)) (S m).
Proof.
  intros px m Hk Hidx Hp Hlt Hr.
  pose proof (lane_valid_before k idx Hk Hidx Hp Hlt) as Hs.
  pose proof (last_contributor_test k px r m Hk Hr) as Hlast.
  fold m in Hlast.
  replace (r_n_contrib a (pix_id px) <=? Z.of_nat m)%Z with false in Hlast
    by (symmetry; apply Z.leb_gt; exact Hlt).
  pose proof (do_work_sample (lane_of a global_bucket_idx k) (Z.of_nat idx) r acc) as Hdo.
  cbv zeta in Hdo. rewrite lane_tile in Hdo. fold px in Hdo.
  rewrite Hdo by (try assumption; lia). clear Hdo.
  destruct (lane_is_splat k Hk Hs) as (Hxy & Hcon & Hinvd & Hc & _). fold m in Hxy, Hcon, Hinvd, Hc.
  rewrite (blend_ext _ _ px Hxy Hcon).
  set (s := splat_at a tile m) in *.
  unfold regs_match. rewrite forward_upto_S. fold s.
  unfold forward_step, contributes.
  destruct Hr as (HT & HC & HD & HTf & HL & HdL & HdI).
  destruct (b_power (blend s px) >? of_Z 0); cbn [negb andb fst];
    [repeat split; assumption|].
  destruct (b_alpha (blend s px) <? lit 1 255); cbn [negb andb fst];
    [repeat split; assumption|].
  destruct (composite_kept a (lane_of a global_bucket_idx k) (blend s px) r acc)
    as (KTf & KL & KdL & KdI).
  cbn [f_T f_C f_D].
  repeat split.
  - rewrite composite_T, HT. reflexivity.
  - intros ch Hch. rewrite composite_ar. pose proof Hch as Hch'.
    apply Nat.ltb_lt in Hch'. rewrite Hch', HC, HT, Hc by exact Hch. ring.
  - rewrite composite_ard, HD, HT, Hinvd. ring.
  - rewrite KTf. exact HTf.
  - rewrite KL. exact HL.
  - intros ch Hch. rewrite KdL. now apply HdL.
  - rewrite KdI. exact HdI.
Qed.

Lemma place_of_S (k : nat) :
  place_of a global_bucket_idx (S k) = S (place_of a global_bucket_idx k).
Proof. unfold place_of. lia. Qed.

(** The registers that reach lane [k] for a pixel whose contributors reach
    the place of the lane match the forward state at that place. *)
Lemma chain_matches (idx k : nat) :
  let px := pixel_of a tile (Z.of_nat idx) in
  k < 32 -> (Z.of_nat idx < BLOCK_SIZE)%Z -> valid_pixel px = true ->
  (Z.of_nat (place_of a global_bucket_idx k) < r_n_contrib a (pix_id px))%Z ->
  regs_match a tile px (chain_regs a global_bucket_idx garbage idx k)
             (place_of a global_bucket_idx k).
Proof.
  intros px Hk Hidx Hp. induction k as [|k IH]; intros Hlt.
  - cbn [chain_regs]. apply load_matches; try assumption.
    fold px. destruct Hwf as (Hlo & _). fold l0 in Hlo. fold b0 in Hlo.
    unfold place_of in Hlt. fold l0 in Hlt. fold b0 in Hlt. lia.
  - cbn [chain_regs]. rewrite lane_tile. fold px. rewrite place_of_S in Hlt |- *.
    apply step_matches; [lia | assumption | assumption | fold px; lia | apply IH; lia].
Qed.

Lemma acc_eq_refl (x : Acc F) : acc_eq x x.
Proof. unfold acc_eq. repeat split. Qed.

Lemma acc_eq_add_zero (x y : Acc F) : acc_eq x y -> acc_eq x (acc_add y Acc_zero).
Proof.
  intros (E1 & E2 & E3 & E4 & E5 & E6 & E7 & E8).
  unfold acc_eq, acc_add, Acc_zero.
  cbn [Register_dL_dmean2D_x Register_dL_dmean2D_y Register_dL_dconic2D_x
       Register_dL_dconic2D_y Register_dL_dconic2D_w Register_dL_dopacity
       Register_dL_dcolors Register_dL_dinvdepths].
  rewrite E1, E2, E3, E4, E5, E6, E8, of_Z_0.
  repeat split; try ring.
  intros ch Hch. rewrite E7 by exact Hch. ring.
Qed.

(** The alpha gradient of [composite] on registers that match the forward
    state is the alpha gradient of the reference. *)
Lemma dL_dalpha_matches (k : nat) (px : Pixel) (r : Regs F) :
  let m := place_of a global_bucket_idx k in
  let l := lane_of a global_bucket_idx k in
  let s := splat_at a tile m in
  let final := forward_upto a tile px (Z.to_nat (r_n_contrib a (pix_id px))) in
  let next := forward_upto a tile px (S m) in
  k < 32 -> valid_splat l = true -> contributes s px = true ->
  regs_match a tile px r m ->
  composite_dL_dalpha a l (blend s px) r =
  sample_dL_dalpha a s px (f_T (forward_upto a tile px m))
                   (fun ch => f_C final ch - f_C next ch)
                   (f_D final - f_D next) (f_T final).
Proof.
  intros m l s final next Hk Hs Hcontrib Hr.
  destruct (lane_is_splat k Hk Hs) as (Hxy & Hcon & Hinvd & Hc & _).
  fold m in Hxy, Hcon, Hinvd, Hc. fold l in Hxy, Hcon, Hinvd, Hc.
  fold s in Hxy, Hcon, Hinvd, Hc.
  destruct Hr as (HT & HC & HD & HTf & HL & HdL & HdI).
  fold final in HC, HD, HTf.
  assert (Hnext : next = mkComposited
                           (f_T (forward_upto a tile px m) * (fone - b_alpha (blend s px)))
                           (fun ch => f_C (forward_upto a tile px m) ch
                                      + b_alpha (blend s px) * f_T (forward_upto a tile px m)
                                        * c s ch)
                           (f_D (forward_upto a tile px m)
                            + b_alpha (blend s px) * f_T (forward_upto a tile px m) * invd s)).
  { unfold next. rewrite forward_upto_S. fold s. unfold forward_step.
    now rewrite Hcontrib. }
  unfold composite_dL_dalpha, sample_dL_dalpha. cbv beta zeta.
  rewrite (fold_sum_ext
    (fun ch => (c l ch * T r
                - fone / (fone - b_alpha (blend s px))
                  * - (ar r ch + b_alpha (blend s px) * T r * c l ch))
               * dL_dpixel r ch)
    (fun ch => (c s ch * f_T (forward_upto a tile px m)
                - (f_C final ch - f_C next ch) / (fone - b_alpha (blend s px)))
               * r_dL_dpixels a (u32 (Z.of_nat ch * r_H a * r_W a + pix_id px)))).
  2:{ intros ch Hin. apply in_seq in Hin.
      rewrite HdL, HC, HT, Hc, Hnext by lia. cbn [f_C].
      rewrite (exact_div (_ - _) _). ring. }
  rewrite (fold_sum_ext
    (fun ch => r_bg_color a (Z.of_nat ch) * dL_dpixel r ch)
    (fun ch => r_bg_color a (Z.of_nat ch)
               * r_dL_dpixels a (u32 (Z.of_nat ch * r_H a * r_W a + pix_id px)))).
  2:{ intros ch Hin. apply in_seq in Hin. rewrite HdL by lia. reflexivity. }
  rewrite HT, HD, HTf, HdI, Hinvd, Hnext. cbn [f_D].
  rewrite (exact_div (- f_T final) _), (exact_div (f_T final) _), (exact_div (_ - _) _).
  ring.
Qed.

Lemma div_two (x : F) : x / of_Z 2 = x * lit 1 2.
Proof.
  unfold lit. rewrite (exact_div x), (exact_div (of_Z 1)), of_Z_1. ring.
Qed.

(** The work of a valid lane on one pixel adds the reference gradient of
    its place for that pixel. *)
Lemma acc_step_matches (k idx : nat) (acc acc' : Acc F) :
  k < 32 -> valid_splat (lane_of a global_bucket_idx k) = true ->
  (Z.of_nat idx < BLOCK_SIZE)%Z -> acc_eq acc acc' ->
  acc_eq (acc_step a global_bucket_idx garbage k acc idx)
         (acc_add acc' (reference_gradient a tile idx (place_of a global_bucket_idx k))).
Proof.
  intros Hk Hs Hidx Hacc.
  set (px := pixel_of a tile (Z.of_nat idx)).
  set (m := place_of a global_bucket_idx k).
  destruct (valid_pixel px) eqn:Hp.
  2:{ unfold acc_step. rewrite lane_tile. fold px.
      rewrite do_work_invalid_pixel by exact Hp. cbn [snd].
      unfold reference_gradient. fold px. rewrite Hp.
      now apply acc_eq_add_zero. }
  destruct (Hfc idx Hidx Hp) as (Hn0 & _).
  destruct (Z_lt_le_dec (Z.of_nat m) (r_n_contrib a (pix_id px))) as [Hlt|Hge].
  2:{ destruct Hwf as (Hlo & Hhi & _).
      rewrite (beyond_last_contributor a global_bucket_idx garbage
                 (fun x y Hxy => eq_trans (of_Z_le x y) (proj2 (Z.leb_le x y) Hxy))
                 k idx acc); try assumption; try lia.
      - rewrite reference_gradient_beyond by (fold px; fold m; lia).
        now apply acc_eq_add_zero.
      - rewrite lane_tile, lane_place by exact Hk. fold px. fold m. exact Hge. }
  pose proof (chain_matches idx k Hk Hidx Hp Hlt) as Hr. fold px in Hr. fold m in Hr.
  pose proof (last_contributor_test k px _ m Hk Hr) as Hlast. fold m in Hlast.
  replace (r_n_contrib a (pix_id px) <=? Z.of_nat m)%Z with false in Hlast
    by (symmetry; apply Z.leb_gt; exact Hlt).
  unfold acc_step. rewrite lane_tile. fold px.
  pose proof (do_work_sample (lane_of a global_bucket_idx k) (Z.of_nat idx)
                (chain_regs a global_bucket_idx garbage idx k) acc) as Hdo.
  cbv zeta in Hdo. rewrite lane_tile in Hdo. fold px in Hdo.
  rewrite Hdo by (try assumption; lia). clear Hdo.
  rewrite (reference_gradient_at a tile idx m) by (try assumption; fold px; lia).
  fold px.
  destruct (lane_is_splat k Hk Hs) as (Hxy & Hcon & Hinvd & Hc & _).
  fold m in Hxy, Hcon, Hinvd, Hc.
  rewrite (blend_ext _ _ px Hxy Hcon).
  set (s := splat_at a tile m) in *.
  set (r := chain_regs a global_bucket_idx garbage idx k) in *.
  destruct (contributes s px) eqn:Hcontrib.
  2:{ unfold contributes in Hcontrib.
      destruct (b_power (blend s px) >? of_Z 0); [now apply acc_eq_add_zero|].
      destruct (b_alpha (blend s px) <? lit 1 255); [now apply acc_eq_add_zero|].
      discriminate Hcontrib. }
  pose proof Hcontrib as Hcontrib'. unfold contributes in Hcontrib'.
  apply andb_true_iff in Hcontrib'. destruct Hcontrib' as [Hpow Halpha].
  apply negb_true_iff in Hpow, Halpha. rewrite Hpow, Halpha.
  pose proof (dL_dalpha_matches k px r Hk Hs Hcontrib Hr) as Hda.
  cbv zeta in Hda. fold m in Hda. fold s in Hda.
  destruct (composite_scalars (lane_of a global_bucket_idx k) (blend s px) r acc)
    as (S1 & S2 & S3 & S4 & S5 & S6).
  destruct Hacc as (E1 & E2 & E3 & E4 & E5 & E6 & E7 & E8).
  destruct Hr as (HT & _ & _ & _ & _ & HdL & HdI).
  unfold acc_eq. rewrite S1, S2, S3, S4, S5, S6, composite_invdepths.
  rewrite Hda, Hcon, E1, E2, E3, E4, E5, E6, E8, HT, HdI.
  unfold acc_add, sample_gradient, gradient_through_alpha.
  cbn [Register_dL_dmean2D_x Register_dL_dmean2D_y Register_dL_dconic2D_x
       Register_dL_dconic2D_y Register_dL_dconic2D_w Register_dL_dopacity
       Register_dL_dcolors Register_dL_dinvdepths].
  rewrite !div_two.
  repeat match goal with |- _ /\ _ => split end.
  7:{ intros ch Hch. rewrite composite_colors. pose proof Hch as Hch'.
      apply Nat.ltb_lt in Hch'. rewrite Hch', E7, HT, HdL by exact Hch. reflexivity. }
  all: try match goal with
           | |- context [sample_dL_dalpha ?a1 ?a2 ?a3 ?a4 ?a5 ?a6 ?a7] =>
               generalize (sample_dL_dalpha a1 a2 a3 a4 a5 a6 a7); intros da
           end.
  all: generalize (f_T (forward_upto a tile px m)); intros Tm.
  all: generalize (b_G (blend s px)) (b_alpha (blend s px))
                  (x2 (b_d (blend s px))) (y2 (b_d (blend s px))); intros G al dx dy.
  all: generalize (x4 (con_o s)) (y4 (con_o s)) (z4 (con_o s)) (w4 (con_o s));
       intros cx cy cz cw.
  all: generalize (lit 1 2) (of_Z (r_W a)) (of_Z (r_H a)) (r_dL_invdepths a (pix_id px));
       intros half Wf Hf dI.
  all: ring.
Qed.

(** What a valid lane has accumulated when the loop ends is the reference
    gradient of its place, summed over the pixels of the tile. *)
Lemma lane_total_matches (k : nat) :
  k < 32 -> valid_splat (lane_of a global_bucket_idx k) = true ->
  acc_eq (lane_total a global_bucket_idx garbage k)
         (reference_total a tile (place_of a global_bucket_idx k)).
Proof.
  intros Hk Hs. unfold lane_total, reference_total.
  apply (fold_left_related acc_eq); [|apply acc_eq_refl].
  intros idx Hin x y Hxy. apply in_seq in Hin.
  apply acc_step_matches; [exact Hk|exact Hs|lia|exact Hxy].
Qed.

Lemma flush_ext (l : Lane F) (x y : Acc F) : acc_eq x y -> flush l x = flush l y.
Proof.
  clear Hfc Hwf b0 tile l0.
  intros (E1 & E2 & E3 & E4 & E5 & E6 & E7 & E8). unfold flush.
  destruct (valid_splat l); [|reflexivity].
  rewrite E1, E2, E3, E4, E5, E6, E8.
  rewrite (map_ext_in
             (fun ch => mkAdd Colors (u32 (gaussian_idx l * Z.of_nat C + Z.of_nat ch))
                              (Register_dL_dcolors x ch))
             (fun ch => mkAdd Colors (u32 (gaussian_idx l * Z.of_nat C + Z.of_nat ch))
                              (Register_dL_dcolors y ch))).
  - reflexivity.
  - intros ch Hin. apply in_seq in Hin. rewrite E7 by lia. reflexivity.
Qed.

(** In a bucket that the kernel skips, no place has a gradient. *)
Lemma useless_bucket_reference (k : nat) :
  bucket_useless a l0 = true ->
  acc_eq (reference_total a tile (place_of a global_bucket_idx k)) Acc_zero.
Proof.
  intros Hu. unfold bucket_useless in Hu. fold tile in Hu. fold b0 in Hu.
  rewrite Z.geb_leb in Hu. apply Z.leb_le in Hu.
  destruct Hwf as (Hlo & Hhi & _). fold l0 in Hlo, Hhi. fold b0 in Hlo, Hhi.
  rewrite u32_small in Hu by lia.
  unfold reference_total.
  assert (Hgen : forall (idxs : list nat) (acc : Acc F),
            (forall idx, In idx idxs -> (Z.of_nat idx < BLOCK_SIZE)%Z) ->
            acc_eq acc Acc_zero ->
            acc_eq (fold_left
                      (fun acc idx =>
                         acc_add acc (reference_gradient a tile idx
                                        (place_of a global_bucket_idx k)))
                      idxs acc) Acc_zero).
  { induction idxs as [|idx idxs IH]; intros acc Hin Hacc; [exact Hacc|].
    cbn [fold_left]. apply IH; [intros idx' Hin'; apply Hin; now right|].
    assert (Hz : reference_gradient a tile idx (place_of a global_bucket_idx k) = Acc_zero).
    { destruct (valid_pixel (pixel_of a tile (Z.of_nat idx))) eqn:Hp.
      - apply reference_gradient_beyond.
        destruct (Hfc idx (Hin idx (or_introl eq_refl)) Hp) as (_ & Hmax & _).
        fold l0 in Hmax. fold tile in Hmax. unfold place_of. fold l0. fold b0. lia.
      - unfold reference_gradient. now rewrite Hp. }
    rewrite Hz. clear - Hacc H0.
    destruct Hacc as (E1 & E2 & E3 & E4 & E5 & E6 & E7 & E8).
    unfold acc_eq, acc_add.
    cbn [Register_dL_dmean2D_x Register_dL_dmean2D_y Register_dL_dconic2D_x
         Register_dL_dconic2D_y Register_dL_dconic2D_w Register_dL_dopacity
         Register_dL_dcolors Register_dL_dinvdepths].
    rewrite E1, E2, E3, E4, E5, E6, E8.
    repeat match goal with |- _ /\ _ => split end;
      intros; rewrite ?E7 by assumption; cbn; rewrite of_Z_0; ring. }
  apply Hgen; [|apply acc_eq_refl].
  intros idx Hin. apply in_seq in Hin. lia.
Qed.

(** In exact arithmetic, for a bucket whose index arithmetic stays within
    [int] and whose buffers come from a front-to-back forward pass, the
    accumulation registers that the lanes flush hold the gradients of the
    sequential reference for the primitives at their places.  A bucket
    that the kernel skips performs no addition, and the reference
    gradients of its places are zero. *)
Lemma lanes_flush_reference_totals :
  (global_bucket_idx <? u32 (r_B a))%Z = true ->
  PerGaussianRenderCUDA a global_bucket_idx garbage =
    (if bucket_useless a (lane_setup a global_bucket_idx 0) then []
     else flat_map
            (fun k => flush (lane_of a global_bucket_idx k)
                        (reference_total a (tile_id (lane_setup a global_bucket_idx 0))
                                         (place_of a global_bucket_idx k)))
            (seq 0 32)) /\
  (bucket_useless a (lane_setup a global_bucket_idx 0) = true ->
   forall k : nat,
     acc_eq (reference_total a (tile_id (lane_setup a global_bucket_idx 0))
                             (place_of a global_bucket_idx k))
            Acc_zero).
Proof.
  intros Hvalid. fold l0. fold tile. split.
  - rewrite kernel_by_lanes, Hvalid. cbn [negb].
    change (lane_of a global_bucket_idx 0) with l0.
    destruct (bucket_useless a l0); [reflexivity|].
    apply flat_map_ext_in. intros k Hin. apply in_seq in Hin.
    destruct (valid_splat (lane_of a global_bucket_idx k)) eqn:Hs.
    + apply flush_ext. apply lane_total_matches; [lia|exact Hs].
    + unfold flush. rewrite Hs. reflexivity.
  - intros Hu k. now apply useless_bucket_reference.
Qed.
End Refinement.

Section ConsistencyCheck.
Context {F : Type} `{FloatArith F} `{FloatExp F} `{Config}.
Variable feq_eq : forall x y : F, feq x y = true -> x = y.

Lemma forward_consistentb_sound (a : RenderIn F) (global_bucket_idx : Z) :
  forward_consistentb a global_bucket_idx = true ->
  forward_consistent a global_bucket_idx.
Proof.
  intros Hb idx Hidx px Hp n final start.
  unfold forward_consistentb in Hb. rewrite forallb_forall in Hb.
  specialize (Hb idx). cbv zeta in Hb.
  fold px in Hb. rewrite Hp in Hb.
  fold n in Hb. fold final in Hb. fold start in Hb.
  assert (Hin : In idx (seq 0 (Z.to_nat BLOCK_SIZE))) by (apply in_seq; lia).
  specialize (Hb Hin).
  apply andb_true_iff in Hb. destruct Hb as [Hb Hstart].
  apply andb_true_iff in Hb. destruct Hb as [Hb HD].
  apply andb_true_iff in Hb. destruct Hb as [Hb HC].
  apply andb_true_iff in Hb. destruct Hb as [Hb HT].
  apply andb_true_iff in Hb. destruct Hb as [Hb Hnum].
  apply andb_true_iff in Hb. destruct Hb as [Hn0 Hmax].
  apply Z.leb_le in Hn0, Hmax, Hnum. apply feq_eq in HT, HD.
  rewrite forallb_forall in HC.
  split; [exact Hn0|]. split; [exact Hmax|]. split; [exact Hnum|].
  split; [exact HT|].
  split; [intros ch Hch; apply feq_eq, HC, in_seq; lia|].
  split; [exact HD|].
  intros Hlt. apply Z.ltb_lt in Hlt. rewrite Hlt in Hstart.
  apply andb_true_iff in Hstart. destruct Hstart as [Hstart HsD].
  apply andb_true_iff in Hstart. destruct Hstart as [HsT HsC].
  apply feq_eq in HsT, HsD. rewrite forallb_forall in HsC.
  split; [exact HsT|]. split; [|exact HsD].
  intros ch Hch. apply feq_eq, HsC, in_seq. lia.
Qed.
End ConsistencyCheck.

Lemma Qc_feq_eq (x y : Qc) : feq x y = true -> x = y.
Proof.
  cbn. unfold Qc_eqb. intros E. apply Qceq_alt.
  destruct (Qccompare x y); [reflexivity|discriminate|discriminate].
Qed.

(** ** The kernel against the reference, buffer entry by buffer entry *)

Section AddedTo.
Context {F : Type} `{ExactArith F} `{FloatExp F} `{Config}.
Local Open Scope float_scope.

Add Ring added_to_ring : exact_ring.

(** One atomic addition changes the float it addresses, and no other. *)
Lemma entry_atomicAdd (o : RenderOut F) (e : AtomicAdd F) (b : GradBuf) (i : Z) :
  entry (atomicAdd o e) b i
  = entry o b i + (if hits e b i then add_value e else of_Z 0).
Proof.
  destruct e as [eb ei ev]. unfold hits, atomicAdd.
  cbn [add_buf add_index add_value].
  rewrite (Z.eqb_sym ei i).
  destruct eb, b; cbn [GradBuf_eqb andb entry o_dL_dmean2D o_dL_dconic2D
                       o_dL_dopacity o_dL_dcolors o_dL_dinvdepths];
    unfold upd; destruct (i =? ei)%Z eqn:E;
    try (apply Z.eqb_eq in E; subst ei);
    cbn [x4 y4 z4 w4]; rewrite ?of_Z_0; ring.
Qed.

Lemma added_from (adds : list (AtomicAdd F)) (b : GradBuf) (i : Z) (s : F) :
  fold_left (fun s e => s + (if hits e b i then add_value e else of_Z 0)) adds s
  = s + added_to adds b i.
Proof.
  unfold added_to. revert s.
  induction adds as [|e adds IH]; intros s; cbn [fold_left].
  - rewrite of_Z_0. ring.
  - rewrite IH, (IH (of_Z 0 + _)). rewrite of_Z_0. ring.
Qed.

(** A list of atomic additions changes each float by what it adds to it. *)
Lemma entry_after_adds (adds : list (AtomicAdd F)) (o : RenderOut F)
    (b : GradBuf) (i : Z) :
  entry (fold_left atomicAdd adds o) b i = entry o b i + added_to adds b i.
Proof.
  revert o. induction adds as [|e adds IH]; intros o; cbn [fold_left].
  - unfold added_to. cbn [fold_left]. rewrite of_Z_0. ring.
  - rewrite IH, entry_atomicAdd. unfold added_to at 2. cbn [fold_left].
    rewrite added_from. rewrite of_Z_0. ring.
Qed.

Lemma added_to_app (l1 l2 : list (AtomicAdd F)) (b : GradBuf) (i : Z) :
  added_to (l1 ++ l2) b i = added_to l1 b i + added_to l2 b i.
Proof.
  unfold added_to at 1. rewrite fold_left_app. fold (added_to l1 b i).
  apply added_from.
Qed.

Lemma added_to_nil (b : GradBuf) (i : Z) : added_to (@nil (AtomicAdd F)) b i = of_Z 0.
Proof. reflexivity. Qed.

Lemma added_to_cons (e : AtomicAdd F) (adds : list (AtomicAdd F)) (b : GradBuf) (i : Z) :
  added_to (e :: adds) b i
  = (if hits e b i then add_value e else of_Z 0) + added_to adds b i.
Proof.
  unfold added_to at 1. cbn [fold_left]. rewrite added_from. rewrite of_Z_0. ring.
Qed.

Lemma sum_from {A} (f : A -> F) (l : list A) (s : F) :
  fold_left (fun s k => s + f k) l s = s + fold_left (fun s k => s + f k) l (of_Z 0).
Proof.
  revert s. induction l as [|k l IH]; intros s; cbn [fold_left].
  - rewrite of_Z_0. ring.
  - rewrite IH, (IH (of_Z 0 + _)). rewrite of_Z_0. ring.
Qed.

Lemma added_to_flat_map {A} (f : A -> list (AtomicAdd F)) (ks : list A)
    (b : GradBuf) (i : Z) :
  added_to (flat_map f ks) b i
  = fold_left (fun s k => s + added_to (f k) b i) ks (of_Z 0).
Proof.
  induction ks as [|k ks IH]; cbn [flat_map fold_left]; [reflexivity|].
  rewrite added_to_app, IH, (sum_from (fun k => added_to (f k) b i) ks (of_Z 0 + _)).
  rewrite of_Z_0. ring.
Qed.

Lemma sum_ext_in {A} (f g : A -> F) (l : list A) (s : F) :
  (forall k, In k l -> f k = g k) ->
  fold_left (fun s k => s + f k) l s = fold_left (fun s k => s + g k) l s.
Proof.
  revert s. induction l as [|k l IH]; intros s Hfg; cbn [fold_left]; [reflexivity|].
  rewrite (Hfg k (or_introl eq_refl)). apply IH. intros k' Hin. apply Hfg. now right.
Qed.

Lemma sum_zero {A} (l : list A) :
  fold_left (fun s (_ : A) => s + of_Z 0) l (of_Z 0) = of_Z 0 :> F.
Proof.
  induction l as [|k l IH]; cbn [fold_left]; [reflexivity|].
  replace (of_Z 0 + of_Z 0) with (of_Z 0 : F) by (rewrite of_Z_0; ring). exact IH.
Qed.

(** The colour additions of a lane, on a component other than the colours
    and on the colours. *)
Lemma added_to_colors_other (g : Z) (acc : Acc F) (chs : list nat) (b : GradBuf) (i : Z) :
  GradBuf_eqb Colors b = false ->
  added_to (map (fun ch => mkAdd Colors (u32 (g * Z.of_nat C + Z.of_nat ch))
                             (Register_dL_dcolors acc ch)) chs) b i = of_Z 0.
Proof.
  intros Hb. induction chs as [|ch chs IH]; cbn [map]; [reflexivity|].
  rewrite added_to_cons, IH. unfold hits. cbn [add_buf]. rewrite Hb. cbn [andb].
  rewrite of_Z_0. ring.
Qed.

Lemma added_to_colors (g : Z) (acc : Acc F) (chs : list nat) (i : Z) :
  added_to (map (fun ch => mkAdd Colors (u32 (g * Z.of_nat C + Z.of_nat ch))
                             (Register_dL_dcolors acc ch)) chs) Colors i
  = fold_left (fun s ch => s + (if (i =? u32 (g * Z.of_nat C + Z.of_nat ch))%Z
                                then Register_dL_dcolors acc ch else of_Z 0))
              chs (of_Z 0).
Proof.
  induction chs as [|ch chs IH]; cbn [map fold_left]; [reflexivity|].
  rewrite added_to_cons, IH.
  rewrite (sum_from _ chs (of_Z 0 + _)).
  unfold hits. cbn [add_buf add_index add_value GradBuf_eqb andb].
  rewrite (Z.eqb_sym _ i). rewrite of_Z_0. ring.
Qed.

(** What the atomic additions of one lane add to a float: the share of
    that float in the gradient of the lane's primitive. *)
Lemma added_to_flush (l : Lane F) (acc : Acc F) (b : GradBuf) (i : Z) :
  added_to (flush l acc) b i
  = if valid_splat l then gradient_entry (gaussian_idx l) acc b i else of_Z 0.
Proof.
  unfold flush. destruct (valid_splat l); [|reflexivity].
  rewrite !added_to_app.
  destruct b.
  all: try (rewrite added_to_colors_other by reflexivity).
  all: try rewrite added_to_colors.
  all: rewrite ?added_to_cons, ?added_to_nil; unfold hits;
    cbn [add_buf add_index add_value GradBuf_eqb andb gradient_entry];
    rewrite ?(Z.eqb_sym (gaussian_idx l) i);
    try (destruct (i =? gaussian_idx l)%Z); rewrite ?of_Z_0; ring.
Qed.

Lemma gradient_entry_ext (g : Z) (x y : Acc F) (b : GradBuf) (i : Z) :
  acc_eq x y -> gradient_entry g x b i = gradient_entry g y b i.
Proof.
  intros (E1 & E2 & E3 & E4 & E5 & E6 & E7 & E8). unfold gradient_entry.
  destruct b; rewrite ?E1, ?E2, ?E3, ?E4, ?E5, ?E6, ?E8; try reflexivity.
  apply sum_ext_in. intros ch Hin. apply in_seq in Hin. rewrite E7 by lia. reflexivity.
Qed.

Lemma gradient_entry_zero (g : Z) (b : GradBuf) (i : Z) :
  fabs (of_Z 0) = of_Z 0 :> F -> gradient_entry g Acc_zero b i = of_Z 0.
Proof.
  intros Habs. unfold gradient_entry, Acc_zero.
  destruct b;
    cbn [Register_dL_dmean2D_x Register_dL_dmean2D_y Register_dL_dconic2D_x
         Register_dL_dconic2D_y Register_dL_dconic2D_w Register_dL_dopacity
         Register_dL_dcolors Register_dL_dinvdepths];
    rewrite ?Habs; try (destruct (i =? g)%Z; reflexivity).
  rewrite (sum_ext_in _ (fun _ => of_Z 0)).
  - apply sum_zero.
  - intros ch _. now destruct (i =? _)%Z.
Qed.
End AddedTo.

Section BucketGradient.
Context {F : Type} `{ExactArith F} `{FloatExp F} `{Config}.
Local Open Scope float_scope.
Variable a : RenderIn F.
Variable global_bucket_idx : Z.
Variable garbage : nat -> Regs F.

Add Ring bucket_gradient_ring : exact_ring.

Hypothesis Hwf : bucket_well_formed a global_bucket_idx.
Hypothesis Hidx : bucket_index_exact a global_bucket_idx.

(** The kernel's index arithmetic arrives at the tile of the bucket and at
    the first place of the bucket. *)
Lemma kernel_bucket_tile :
  tile_id (lane_setup a global_bucket_idx 0) = bucket_tile a global_bucket_idx.
Proof. reflexivity. Qed.

Lemma kernel_first_place :
  (bucket_idx_in_tile (lane_setup a global_bucket_idx 0) * 32)%Z
  = bucket_first_place a global_bucket_idx.
Proof.
  destruct Hidx as (Ht & Hlo & Hhi).
  unfold bucket_first_place in *. unfold bucket_tile in *.
  unfold lane_setup. cbn [bucket_idx_in_tile].
  set (tile := r_bucket_to_tile a global_bucket_idx) in *.
  assert (Hoff :
    (if (tile =? 0)%Z then 0%Z else r_per_tile_bucket_offset a (u32 (tile - 1)))
    = (if (tile =? 0)%Z then 0%Z else r_per_tile_bucket_offset a (tile - 1)%Z)).
  { destruct (Z.eqb_spec tile 0); [reflexivity|].
    rewrite u32_small by lia. reflexivity. }
  rewrite Hoff.
  set (before := if (tile =? 0)%Z then 0%Z else r_per_tile_bucket_offset a (tile - 1)%Z)
    in *.
  rewrite u32_small by lia. rewrite i32_small by lia. reflexivity.
Qed.

Lemma kernel_place (k : nat) :
  place_of a global_bucket_idx k
  = (Z.to_nat (bucket_first_place a global_bucket_idx) + k)%nat.
Proof. unfold place_of. now rewrite kernel_first_place. Qed.

(** A lane is valid when its place lies within the range of the tile, and
    its primitive is then the one at that place. *)
Lemma lane_valid_place (k : nat) :
  k < 32 ->
  valid_splat (lane_of a global_bucket_idx k)
  = (Z.of_nat (place_of a global_bucket_idx k)
     <? snd (r_ranges a (bucket_tile a global_bucket_idx))
        - fst (r_ranges a (bucket_tile a global_bucket_idx)))%Z.
Proof.
  intros Hk. unfold lane_of at 1. rewrite lane_valid_splat.
  fold (lane_of a global_bucket_idx k).
  rewrite (lane_place a global_bucket_idx Hwf k) by exact Hk.
  rewrite (num_splats_in_range a global_bucket_idx Hwf). reflexivity.
Qed.

Lemma lane_primitive (k : nat) :
  k < 32 -> valid_splat (lane_of a global_bucket_idx k) = true ->
  gaussian_idx (lane_of a global_bucket_idx k)
  = gaussian_idx (splat_at a (bucket_tile a global_bucket_idx)
                           (place_of a global_bucket_idx k)).
Proof.
  intros Hk Hv.
  pose proof (lane_place a global_bucket_idx Hwf k Hk) as Hplace.
  pose proof (lane_valid_place k Hk) as Hlt. rewrite Hv in Hlt.
  symmetry in Hlt. apply Z.ltb_lt in Hlt.
  destruct Hwf as (_ & _ & Hr & Hs). rewrite kernel_bucket_tile in Hr, Hs.
  set (l := lane_of a global_bucket_idx k) in *.
  assert (Hgi : gaussian_idx l =
                if valid_splat l
                then i32 (r_point_list a
                            (i32 (u32 (fst (r_ranges a (bucket_tile a global_bucket_idx))
                                       + splat_idx_in_tile l))))
                else 0%Z) by reflexivity.
  rewrite Hgi, Hv, Hplace. unfold splat_at. cbn [gaussian_idx]. f_equal. f_equal.
  rewrite u32_small by lia. apply i32_small. lia.
Qed.

Hypothesis Hfc : forward_consistent a global_bucket_idx.
Hypothesis Habs : fabs (of_Z 0) = of_Z 0 :> F.

(** C1, as the code has it.  In exact arithmetic, for a bucket whose index
    arithmetic stays within [int] and whose buffers come from a
    front-to-back forward pass ([forward_consistent]), the atomic additions
    of the warp change every float of the screen-space mean, conic,
    opacity, colour and inverse-depth gradient buffers by what the
    sequential reference gives it: the gradients that reverse compositing,
    pixel after pixel of the tile, gives to the primitives at the places of
    the bucket, each added at the entry of its primitive.  The reference
    has the boundary term in the alpha gradient of every composited sample
    ([sample_dL_dalpha]), not of the last contributing sample only. *)
Theorem bucketed_backward_matches_reference (o : RenderOut F) (b : GradBuf) (i : Z) :
  (global_bucket_idx <? u32 (r_B a))%Z = true ->
  entry (fold_left atomicAdd (PerGaussianRenderCUDA a global_bucket_idx garbage) o) b i
  = entry o b i + reference_bucket a global_bucket_idx b i.
Proof.
  intros Hvalid. rewrite entry_after_adds. f_equal.
  destruct (lanes_flush_reference_totals a global_bucket_idx garbage Hwf Hfc Hvalid)
    as [Hadds Hzero].
  rewrite Hadds. clear Hadds.
  unfold reference_bucket, bucket_gradient. cbv zeta.
  destruct (bucket_useless a (lane_setup a global_bucket_idx 0)) eqn:Hu.
  - rewrite added_to_nil.
    rewrite (sum_ext_in _ (fun _ => of_Z 0)); [symmetry; apply sum_zero|].
    intros k _. rewrite <- kernel_place.
    match goal with |- context [if ?t then _ else _] => destruct t end; [|reflexivity].
    erewrite gradient_entry_ext by exact (Hzero eq_refl k).
    now apply gradient_entry_zero.
  - rewrite added_to_flat_map. apply sum_ext_in. intros k Hin. apply in_seq in Hin.
    rewrite added_to_flush, <- kernel_place.
    rewrite <- (lane_valid_place k) by lia.
    destruct (valid_splat (lane_of a global_bucket_idx k)) eqn:Hv; [|reflexivity].
    rewrite (lane_primitive k) by (try exact Hv; lia). reflexivity.
Qed.
End BucketGradient.

(** The theorem on the second bucket of the worked scene, for the opacity
    gradient of primitive 1, at place 32. *)
Lemma bucketed_backward_matches_reference_witness :
  let a := Scene.scene in
  bucket_well_formed a 1 /\
  bucket_index_exact a 1 /\
  forward_consistent a 1 /\
  fabs (of_Z 0) = of_Z 0 :> Qc /\
  (1 <? u32 (r_B a))%Z = true /\
  entry (fold_left atomicAdd (PerGaussianRenderCUDA a 1 Scene.garbage)
                   Scene.no_gradients)
        Opacity 1
  = (entry Scene.no_gradients Opacity 1 + reference_bucket a 1 Opacity 1)%F.
Proof.
  cbv zeta.
  assert (Hwf : bucket_well_formed Scene.scene 1).
  { vm_compute. repeat split; try reflexivity; intros E; discriminate E. }
  assert (Hidx : bucket_index_exact Scene.scene 1).
  { vm_compute. repeat split; try reflexivity; intros E; discriminate E. }
  assert (Hfc : forward_consistent Scene.scene 1).
  { apply (forward_consistentb_sound Qc_feq_eq). vm_compute. reflexivity. }
  split; [exact Hwf|]. split; [exact Hidx|]. split; [exact Hfc|].
  split; [reflexivity|]. split; [reflexivity|].
  exact (@bucketed_backward_matches_reference Qc _ Qc_exact _ _
           Scene.scene 1 Scene.garbage Hwf Hidx Hfc eq_refl
           Scene.no_gradients Opacity 1 eq_refl).
Defined.

Section BoundarySlope.
Local Open Scope Qc_scope.

(** The colour of a pixel that composites two samples, of alphas [a1] and
    [a2] and colours [c1] and [c2], front to back over the background
    [bg]; and the alpha gradient of the first sample as the kernel forms it
    (lines 608 and 619), from the transmittance 1 before the sample, what
    is composited behind it and the final transmittance. *)
Definition two_samples (a1 a2 c1 c2 bg : Qc) : Qc :=
  a1 * c1 + (1 - a1) * a2 * c2 + (1 - a1) * (1 - a2) * bg.

Definition two_samples_dalpha1 (a1 a2 c1 c2 bg : Qc) : Qc :=
  let behind := (1 - a1) * a2 * c2 in
  let T_final := (1 - a1) * (1 - a2) in
  c1 * 1 - behind / (1 - a1) - T_final / (1 - a1) * bg.

(** The alpha gradient of the first of two samples, boundary term included,
    is the slope of the pixel's colour in that alpha: the background
    reaches the pixel through the final transmittance, which every sample
    lowers. *)
Lemma two_samples_slope (a1 a2 c1 c2 bg e : Qc) :
  1 - a1 <> 0 ->
  two_samples (a1 + e) a2 c1 c2 bg - two_samples a1 a2 c1 c2 bg
  = e * two_samples_dalpha1 a1 a2 c1 c2 bg.
Proof. intros Ha. unfold two_samples, two_samples_dalpha1. field. exact Ha. Qed.
End BoundarySlope.

(** C1 as the specification states it fails.  On the second bucket of the
    worked scene, whose buffers come from a front-to-back forward pass,
    the opacity gradient that the warp adds for primitive 1 is not the one
    of the reference of section 4.5 of the specification, in which only
    the last contributing sample of a pixel has the boundary term:
    primitive 1, at place 32, is followed at several pixels by primitive 2,
    at place 33, and the kernel gives it the boundary term there too
    (line 619). *)
Lemma boundary_term_only_at_last_sample_fails :
  let a := Scene.scene in
  bucket_well_formed a 1 /\
  bucket_index_exact a 1 /\
  forward_consistent a 1 /\
  (1 <? u32 (r_B a))%Z = true /\
  feq (entry (fold_left atomicAdd (PerGaussianRenderCUDA a 1 Scene.garbage)
                        Scene.no_gradients)
             Opacity 1)
      (spec_reference_bucket a 1 Opacity 1) = false.
Proof.
  cbv zeta.
  split; [vm_compute; repeat split; try reflexivity; intros E; discriminate E|].
  split; [vm_compute; repeat split; try reflexivity; intros E; discriminate E|].
  split; [apply (forward_consistentb_sound Qc_feq_eq);
          vm_cast_no_check (@eq_refl bool true)|].
  split; [reflexivity|].
  vm_cast_no_check (@eq_refl bool false).
Qed.

(** ** CovarianceBackward on worked inputs *)

(** C6 as the specification states it fails.  In single precision, for a
    positive semi-definite covariance of rank one with entries [2^27] the
    regularized 2D covariance has determinant zero, the guarded reciprocal
    is [1 / 1e-7], and the first 3D covariance gradient entry is not
    zero. *)
Lemma singular_covariance_gradient_not_zero :
  let x := B32.of_Z (2 ^ 27) in
  let aa := on_axis_regularized x x x false in
  let out := on_axis_cov2D x x x false in
  feq (cov2D_regularized_det aa) (of_Z 0) = true /\
  cov2D_denom2inv (cov2D_regularized_det aa) = B32.of_Z 10000000 /\
  feq (c2_dL_dcov out 0%Z) (of_Z 0) = false.
Proof. vm_compute. repeat split. Qed.

(** In single precision, a covariance with entries [2^70]: the square of
    the determinant overflows, the reciprocal is zero and the six entries
    are written as zero. *)
Lemma cov2D_zero_when_reciprocal_is_zero_witness :
  let x := B32.of_Z (2 ^ 70) in
  let aa := on_axis_regularized x (B32.of_Z 0) x false in
  let out := on_axis_cov2D x (B32.of_Z 0) x false in
  feq (cov2D_denom2inv (cov2D_regularized_det aa)) (of_Z 0) = true /\
  forall k : Z, (0 <= k < 6)%Z -> c2_dL_dcov out (6 * 0 + k)%Z = of_Z 0.
Proof.
  split; [vm_compute; reflexivity|].
  refine (proj2 (cov2D_zero_when_reciprocal_is_zero 0 1 _ _ _ _ _ _ _ _ _ _ _ _ _ _ _
                   _ _) _).
  - lia.
  - lia.
  - vm_compute. reflexivity.
Defined.

Section AntialiasingSlope.
Local Open Scope Qc_scope.

(** The ratio of determinants under the square root of the scaling factor,
    as a function of the covariance entries, and its partial derivative in
    the first entry by the quotient rule. *)
Definition aa_ratio (h x y z : Qc) : Qc :=
  (x * y - z * z) / ((x + h) * (y + h) - z * z).

Definition aa_ratio_dx (h x y z : Qc) : Qc :=
  h * (h * y + y * y + z * z)
  / (((x + h) * (y + h) - z * z) * ((x + h) * (y + h) - z * z)).

(** [aa_ratio_dx] is the slope of [aa_ratio]: the difference quotient
    between [x] and [x + e] is the same numerator over the product of the
    denominators at [x] and at [x + e]. *)
Lemma aa_ratio_slope (h x y z e : Qc) :
  (x + h) * (y + h) - z * z <> 0 ->
  (x + e + h) * (y + h) - z * z <> 0 ->
  aa_ratio h (x + e) y z - aa_ratio h x y z =
  e * (h * (h * y + y * y + z * z))
  / (((x + h) * (y + h) - z * z) * ((x + e + h) * (y + h) - z * z)).
Proof. intros H1 H2. unfold aa_ratio. field. split; assumption. Qed.
End AntialiasingSlope.

(** C5 on a worked input, in exact arithmetic: 2D covariance with entries
    [1, 0, 1], opacity 1 and opacity gradient 1, anti-aliasing on.  The
    gradient the kernel gives to the entry [c_xx] is [507/8192]: the
    derivative of the ratio taken at the covariance [1.3, 0, 1.3], to
    which [h_var] has already been added.  The derivative of the scaling
    factor at the covariance of the primitive gives [15/169]. *)
Lemma antialiasing_gradient_at_shifted_covariance :
  let one := Qc_of_Z 1 in
  let zero := Qc_of_Z 0 in
  let aa := cov2D_antialiasing (F:=Qc) 0 true one zero one (fun _ => one) (fun _ => one) in
  let h := h_var (F:=Qc) in
  aa_dL_dopacity aa 0%Z = fsqrt (aa_ratio h one one zero) /\
  aa_d_inside_root aa = Qcdiv one (Qcmult (Qc_of_Z 2) (fsqrt (aa_ratio h one one zero))) /\
  aa_dL_dc_xx aa = Q2Qc (507 # 8192) /\
  Qcmult (aa_d_inside_root aa) (aa_ratio_dx h (Qcplus one h) (Qcplus one h) zero)
    = Q2Qc (507 # 8192) /\
  Qcmult (aa_d_inside_root aa) (aa_ratio_dx h one one zero) = Q2Qc (15 # 169).
Proof. repeat split; apply Qc_is_canon; vm_compute; reflexivity. Qed.

(** ** The statements on worked inputs *)

(** C2 as the specification states it fails.  A valid primitive at a
    valid pixel, before the last contributor, with a conic that is not
    positive definite: the exponent is 1/2, alpha is 0.99 and not below
    1/255, and yet the sample is skipped, where compositing it would have
    changed the transmittance. *)
Lemma positive_power_sample_skipped :
  let a := SceneVariants.indefinite in
  let l := lane_setup a 0 0 in
  let px := pixel_of a (tile_id l) 0 in
  let b := blend l px in
  let r := SceneVariants.fresh in
  valid_splat l = true /\ valid_pixel px = true /\
  (of_Z (splat_idx_in_tile l) >=? last_contributor r)%F = false /\
  b_power b = Scene.q 1 2 /\ b_alpha b = Scene.q 99 100 /\
  (b_alpha b <? lit 1 255)%F = false /\
  do_work a l 0 px r Acc_zero = (r, Acc_zero) /\
  T (fst (composite a l b r Acc_zero)) = Scene.q 1 100.
Proof.
  cbv zeta. repeat split; try (vm_compute; reflexivity);
    apply Qc_is_canon; vm_compute; reflexivity.
Qed.

Lemma sample_rule_witness :
  let a := Scene.scene in
  let l := lane_setup a 0 0 in
  let px := pixel_of a (tile_id l) 0 in
  let b := blend l px in
  let r := SceneVariants.fresh in
  valid_splat l = true /\ valid_pixel px = true /\
  (of_Z (splat_idx_in_tile l) >=? last_contributor r)%F = false /\
  ((b_power b >? of_Z 0)%F = true \/ (b_alpha b <? lit 1 255)%F = true ->
   do_work a l 0 px r Acc_zero = (r, Acc_zero)) /\
  ((b_power b >? of_Z 0)%F = false -> (b_alpha b <? lit 1 255)%F = false ->
   do_work a l 0 px r Acc_zero = composite a l b r Acc_zero).
Proof.
  cbv zeta.
  assert (Hs : valid_splat (lane_setup Scene.scene 0 0) = true) by (vm_compute; reflexivity).
  assert (Hp : valid_pixel (pixel_of Scene.scene (tile_id (lane_setup Scene.scene 0 0)) 0)
               = true) by (vm_compute; reflexivity).
  assert (Hl : (of_Z (splat_idx_in_tile (lane_setup Scene.scene 0 0))
                >=? last_contributor SceneVariants.fresh)%F = false)
    by (vm_compute; reflexivity).
  split; [exact Hs|]. split; [exact Hp|]. split; [exact Hl|].
  pose proof (sample_rule Scene.scene (lane_setup Scene.scene 0 0) 0 SceneVariants.fresh
                Acc_zero Hs Hp ltac:(vm_compute; split; [discriminate|reflexivity]) Hl)
    as (_ & Hskip & Hdo).
  split; [exact Hskip|].
  intros Hpow Halpha. exact (proj1 (Hdo Hpow Halpha)).
Defined.

Lemma useless_bucket_adds_nothing_witness :
  let a := SceneVariants.few_contributors in
  let l := lane_setup a 1 0 in
  (0 <= bucket_idx_in_tile l * 32 < 2 ^ 31)%Z /\
  (r_max_contrib a (tile_id l) < bucket_idx_in_tile l * 32)%Z /\
  PerGaussianRenderCUDA a 1 Scene.garbage = [].
Proof.
  cbv zeta.
  assert (Hr : (0 <= bucket_idx_in_tile (lane_setup SceneVariants.few_contributors 1 0) * 32
                < 2 ^ 31)%Z) by (vm_compute; split; [discriminate|reflexivity]).
  assert (Hm : (r_max_contrib SceneVariants.few_contributors
                  (tile_id (lane_setup SceneVariants.few_contributors 1 0))
                < bucket_idx_in_tile (lane_setup SceneVariants.few_contributors 1 0) * 32)%Z)
    by (vm_compute; reflexivity).
  split; [exact Hr|]. split; [exact Hm|].
  exact (proj1 (useless_bucket_adds_nothing SceneVariants.few_contributors 1
                  Scene.garbage Hr Hm)).
Defined.

Lemma Qc_leb_le (x y : Qc) : Qcle x y -> Qc_leb x y = true.
Proof.
  intros Hle. unfold Qc_leb. destruct (Qccompare x y) eqn:E; try reflexivity.
  exfalso. now apply Qcle_alt in Hle.
Qed.

Lemma Qc_fabs_nonneg (x : Qc) : fle (of_Z 0) (fabs x) = true.
Proof.
  cbn. apply Qc_leb_le. unfold Qc_ltb.
  destruct (Qccompare x (Q2Qc 0)) eqn:E.
  - apply Qceq_alt in E. subst x. apply Qcle_refl.
  - apply Qclt_alt in E. apply Qclt_le_weak in E.
    apply Qcopp_le_compat in E. exact E.
  - apply Qcgt_alt in E. apply Qclt_le_weak. exact E.
Qed.

Lemma aux_channels_add_magnitudes_witness :
  let adds := PerGaussianRenderCUDA Scene.scene 1 Scene.garbage in
  let e := nth 2 adds (mkAdd Colors 0 (of_Z 0)) in
  nth_error adds 2 = Some e /\
  (add_buf e = Mean2D_z ->
   exists k e', k < 32 /\ 2 <= 2 /\ nth_error adds (2 - 2) = Some e' /\
     add_buf e' = Mean2D_x /\ add_index e' = add_index e /\
     add_value e' = Register_dL_dmean2D_x (lane_total Scene.scene 1 Scene.garbage k) /\
     add_value e = fabs (add_value e') /\
     fle (of_Z 0) (add_value e) = true).
Proof.
  assert (Hn : let adds := PerGaussianRenderCUDA Scene.scene 1 Scene.garbage in
               nth_error adds 2 = Some (nth 2 adds (mkAdd Colors 0 (of_Z 0))))
    by (vm_compute; reflexivity).
  cbv zeta in Hn |- *. split; [exact Hn|].
  exact (proj1 (aux_channels_add_magnitudes Scene.scene 1 Scene.garbage Qc_fabs_nonneg
                  2 _ Hn)).
Defined.

Lemma computeCov3D_rot_is_jacobian_witness :
  let scale := mk3 (Scene.q 1 2) (Scene.q 2 1) (Scene.q 3 1) in
  let mod_ := Scene.q 3 2 in
  let rot := mk4 (Scene.q 1 2) (Scene.q 1 3) (Scene.q (-1) 4) (Scene.q 1 5) in
  let dL_dcov3Ds : buf Qc := fun i => Scene.q (1 + i) 7 in
  let G := scale_weighted (Glm.smulv mod_ scale)
                          (cov3D_dL_dM 0 scale mod_ rot dL_dcov3Ds) in
  snd (computeCov3D 0 scale mod_ rot dL_dcov3Ds
         (fun _ => mk3 (Scene.q 0 1) (Scene.q 0 1) (Scene.q 0 1))
         (fun _ => mk4 (Scene.q 0 1) (Scene.q 0 1) (Scene.q 0 1) (Scene.q 0 1))) 0%Z =
  mk4 (frobenius (dR_dr (x4 rot) (y4 rot) (z4 rot) (w4 rot)) G)
      (frobenius (dR_dx (x4 rot) (y4 rot) (z4 rot) (w4 rot)) G)
      (frobenius (dR_dy (x4 rot) (y4 rot) (z4 rot) (w4 rot)) G)
      (frobenius (dR_dz (x4 rot) (y4 rot) (z4 rot) (w4 rot)) G).
Proof.
  exact (@computeCov3D_rot_is_jacobian Qc _ Qc_exact 0
           (mk3 (Scene.q 1 2) (Scene.q 2 1) (Scene.q 3 1)) (Scene.q 3 2)
           (mk4 (Scene.q 1 2) (Scene.q 1 3) (Scene.q (-1) 4) (Scene.q 1 5))
           (fun i => Scene.q (1 + i) 7)
           (fun _ => mk3 (Scene.q 0 1) (Scene.q 0 1) (Scene.q 0 1))
           (fun _ => mk4 (Scene.q 0 1) (Scene.q 0 1) (Scene.q 0 1) (Scene.q 0 1))).
Defined.

Lemma mean_gradient_overwritten_then_accumulated_witness :
  let a := PreScene.input in
  let g := PreScene.grads (Scene.q 5 1) in
  let g' := PreScene.grads (Scene.q 9 1) in
  (0 <= 0 < p_P a)%Z /\ (p_radii a 0 > 0)%Z /\
  g_dL_dopacity g' 0%Z = g_dL_dopacity g 0%Z /\
  g_dL_dmean3D (preprocess a g') 0%Z = g_dL_dmean3D (preprocess a g) 0%Z.
Proof.
  cbv zeta.
  assert (Hidx : (0 <= 0 < p_P PreScene.input)%Z)
    by (vm_compute; split; [discriminate|reflexivity]).
  assert (Hr : (p_radii PreScene.input 0 > 0)%Z) by (vm_compute; reflexivity).
  split; [exact Hidx|]. split; [exact Hr|]. split; [reflexivity|].
  exact (proj2 (mean_gradient_overwritten_then_accumulated PreScene.input
                  (PreScene.grads (Scene.q 5 1)) (PreScene.grads (Scene.q 9 1)) 0 Hidx Hr)
               eq_refl).
Defined.

(** ** TileRenderBackward: the last contributor of each pixel *)

Section PastLastContributor.
Context {F : Type} `{FloatArith F} `{FloatExp F} `{Config}.
Local Open Scope float_scope.
Variable of_Z_order : forall x y : Z, fle (of_Z x) (of_Z y) = (x <=? y)%Z.

(** C4.  In an arithmetic that orders the integers as they are, and
    without overflow of the index arithmetic: the lane whose primitive has
    a place in the tile at or beyond the recorded contributor count of the
    pixel [idx] leaves its accumulation registers as they are at that
    pixel.  The test is on the count of each pixel: at a valid pixel [idx']
    whose count is beyond the place of the same primitive, and where the
    sample passes the tests on [power] and [alpha], the registers become
    those that [composite] computes. *)
Theorem past_last_contributor_adds_nothing
    (a : RenderIn F) (global_bucket_idx : Z) (garbage : nat -> Regs F)
    (k idx idx' : nat) (acc : Acc F) :
  let b := bucket_idx_in_tile (lane_setup a global_bucket_idx 0) in
  let l := lane_of a global_bucket_idx k in
  let px := pixel_of a (tile_id l) (Z.of_nat idx) in
  let px' := pixel_of a (tile_id l) (Z.of_nat idx') in
  (- 2 ^ 31 <= b * 32)%Z -> (b * 32 + 31 < 2 ^ 31)%Z -> k < 32 ->
  ((r_n_contrib a (pix_id px) <= splat_idx_in_tile l)%Z ->
   acc_step a global_bucket_idx garbage k acc idx = acc) /\
  (valid_splat l = true -> valid_pixel px' = true -> (Z.of_nat idx' < BLOCK_SIZE)%Z ->
   (splat_idx_in_tile l < r_n_contrib a (pix_id px'))%Z ->
   (b_power (blend l px') >? of_Z 0) = false ->
   (b_alpha (blend l px') <? lit 1 255) = false ->
   acc_step a global_bucket_idx garbage k acc idx' =
   snd (composite a l (blend l px') (chain_regs a global_bucket_idx garbage idx' k) acc)).
Proof.
  intros b l px px' Hlo Hhi Hk. split.
  - intros Hn.
    apply (beyond_last_contributor a global_bucket_idx garbage
             (fun x y Hxy => eq_trans (of_Z_order x y) (proj2 (Z.leb_le x y) Hxy)));
      assumption.
  - intros Hs Hp Hidx Hlt Hpow Halpha.
    assert (Hlast : (of_Z (splat_idx_in_tile l)
                     >=? last_contributor (chain_regs a global_bucket_idx garbage idx' k))
                    = false).
    { destruct (chain_regs_kept a global_bucket_idx garbage idx' k) as (_ & -> & _).
      rewrite regs_in_loaded.
      - cbn [load_state last_contributor].
        change (tile_id (lane_of a global_bucket_idx 0)) with (tile_id l). fold px'.
        rewrite of_Z_order. apply Z.leb_gt. exact Hlt.
      - now apply (lane_valid_below a global_bucket_idx k).
      - exact Hp.
      - exact Hidx. }
    unfold acc_step. rewrite do_work_sample by (try assumption; lia).
    fold l. fold px'. rewrite Hpow, Halpha. reflexivity.
Qed.
End PastLastContributor.

Lemma Qc_of_Z_order (x y : Z) : fle (of_Z x : Qc) (of_Z y) = (x <=? y)%Z.
Proof. apply (@of_Z_le Qc _ Qc_exact). Qed.

(** On the worked scene, for the first primitive of the second bucket,
    at place 32: the pixel of index 0 has one contributor and gives it
    nothing, the pixel of index 1 has 34 and gives it an opacity gradient
    that is not zero. *)
Lemma past_last_contributor_adds_nothing_witness :
  let a := Scene.scene in
  let l := lane_of a 1 0 in
  (r_n_contrib a (pix_id (pixel_of a (tile_id l) 0)) <= splat_idx_in_tile l)%Z /\
  (splat_idx_in_tile l < r_n_contrib a (pix_id (pixel_of a (tile_id l) 1)))%Z /\
  acc_step a 1 Scene.garbage 0 Acc_zero 0 = Acc_zero /\
  feq (Register_dL_dopacity (acc_step a 1 Scene.garbage 0 Acc_zero 1)) (of_Z 0) = false.
Proof.
  cbv zeta.
  assert (Hn : (r_n_contrib Scene.scene
                  (pix_id (pixel_of Scene.scene (tile_id (lane_of Scene.scene 1 0)) 0))
                <= splat_idx_in_tile (lane_of Scene.scene 1 0))%Z)
    by (vm_compute; discriminate).
  split; [exact Hn|]. split; [vm_compute; reflexivity|].
  split; [|vm_compute; reflexivity].
  exact (proj1 (past_last_contributor_adds_nothing Qc_of_Z_order Scene.scene 1
                  Scene.garbage 0 0 1 Acc_zero
                  ltac:(vm_compute; discriminate) ltac:(vm_compute; reflexivity)
                  ltac:(lia)) Hn).
Defined.

(** ** Denominators *)

(** C8 as the specification states it fails.  The inverse depth of a
    lane is [1.f / depths[gaussian_idx]] (line 519), with nothing added to
    the denominator: on an input whose depths are zero, the division is by
    zero. *)
Lemma inverse_depth_division_unguarded :
  let a := SceneVariants.zero_depth in
  let l := lane_setup a 0 0 in
  valid_splat l = true /\
  feq (r_depths a (gaussian_idx l)) (of_Z 0) = true /\
  div_by_zero (invd l) = true.
Proof. vm_compute. repeat split. Qed.

Lemma Qc_square_plus_positive (x c : Qc) : Qclt (Q2Qc 0) c -> Qclt (Q2Qc 0) (Qcplus (Qcmult x x) c).
Proof.
  intros Hc. unfold Qclt in *. cbn [this Qcplus Qcmult Q2Qc] in *.
  rewrite !Qred_correct in *.
  apply Qlt_le_trans with (this c); [exact Hc|].
  rewrite <- (Qplus_0_l (this c)) at 1.
  apply Qplus_le_compat; [|apply Qle_refl].
  unfold Qle, Qmult. cbn. nia.
Qed.

Lemma Qc_positive_not_zero (v : Qc) : Qclt (Q2Qc 0) v -> feq v (of_Z 0) = false.
Proof.
  intros Hv. cbn. unfold Qc_eqb.
  destruct (Qccompare v (Qc_of_Z 0)) eqn:E; try reflexivity.
  apply Qceq_alt in E. rewrite E in Hv. vm_compute in Hv. discriminate Hv.
Qed.

Set Implicit Arguments.

Section Safe.
Context {F : Type} `{FloatArith F}.
Local Open Scope float_scope.

(** No division by zero took part in computing a value. *)
Definition safe (x : Watched F) : Prop := div_by_zero x = false.

Lemma safe_clean (x : F) : safe (clean x).
Proof. reflexivity. Qed.

Lemma safe_of_Z (z : Z) : safe (of_Z z).
Proof. reflexivity. Qed.

Lemma safe_fone : safe fone.
Proof. reflexivity. Qed.

Lemma safe_fzero : safe fzero.
Proof. reflexivity. Qed.

Lemma safe2 (f : F -> F -> F) (x y : Watched F) :
  safe x -> safe y -> safe (watch2 f x y).
Proof. unfold safe. cbn. now intros -> ->. Qed.

Lemma safe_add (x y : Watched F) : safe x -> safe y -> safe (x + y).
Proof. apply safe2. Qed.

Lemma safe_sub (x y : Watched F) : safe x -> safe y -> safe (x - y).
Proof. apply safe2. Qed.

Lemma safe_mul (x y : Watched F) : safe x -> safe y -> safe (x * y).
Proof. apply safe2. Qed.

Lemma safe_min (x y : Watched F) : safe x -> safe y -> safe (fmin x y).
Proof. apply safe2. Qed.

Lemma safe_max (x y : Watched F) : safe x -> safe y -> safe (fmax x y).
Proof. apply safe2. Qed.

Lemma safe_neg (x : Watched F) : safe x -> safe (- x).
Proof. exact (fun H => H). Qed.

Lemma safe_sqrt (x : Watched F) : safe x -> safe (fsqrt x).
Proof. exact (fun H => H). Qed.

Lemma safe_abs (x : Watched F) : safe x -> safe (fabs x).
Proof. exact (fun H => H). Qed.

Lemma safe_exp `{FloatExp F} (x : Watched F) : safe x -> safe (fexp x).
Proof. exact (fun H => H). Qed.

Lemma safe_div (x y : Watched F) :
  safe x -> safe y -> feq (value y) (of_Z 0) = false -> safe (x / y).
Proof. unfold safe. cbn. now intros -> -> ->. Qed.

Lemma safe_if (b : bool) (x y : Watched F) : safe x -> safe y -> safe (if b then x else y).
Proof. now destruct b. Qed.
End Safe.

Ltac safe_step :=
  match goal with
  | H : safe ?x |- safe ?x => exact H
  | H : forall ch, safe (?f ch) |- safe (?f _) => apply H
  | |- safe (clean _) => apply safe_clean
  | |- safe (of_Z _) => apply safe_of_Z
  | |- safe fone => apply safe_fone
  | |- safe fzero => apply safe_fzero
  | |- safe (_ + _)%F => apply safe_add
  | |- safe (_ - _)%F => apply safe_sub
  | |- safe (_ * _)%F => apply safe_mul
  | |- safe (fmin _ _) => apply safe_min
  | |- safe (fmax _ _) => apply safe_max
  | |- safe (- _)%F => apply safe_neg
  | |- safe (fsqrt _) => apply safe_sqrt
  | |- safe (fabs _) => apply safe_abs
  | |- safe (fexp _) => apply safe_exp
  | |- safe (if _ then _ else _) => apply safe_if
  | |- safe (set_reg ?f ?i ?v ?j) => unfold set_reg; destruct (Nat.eqb j i)
  | |- safe (upd ?b ?i ?v ?j) => unfold upd at 1; destruct (Z.eqb j i)
  | |- forall _, safe _ => intro
  | |- safe (_ (watched_with_depths _ _) _) => exact (eq_refl false)
  | |- safe (_ (watched _) _) => exact (eq_refl false)
  | |- safe (clean_buf _ _) => exact (eq_refl false)
  | |- safe (_ (clean3_buf _ _)) => exact (eq_refl false)
  | |- safe (_ (watched3 false _)) => exact (eq_refl false)
  | |- safe (_ (watched4 false _)) => exact (eq_refl false)
  | |- safe (_ (clean3 _)) => exact (eq_refl false)
  | |- safe (_ (clean4 _)) => exact (eq_refl false)
  | |- safe (_ (clean2 _)) => exact (eq_refl false)
  end.

Ltac safe_arith := repeat safe_step.

Section SafeRender.
Context {F : Type} `{FloatArith F} `{FloatExp F} `{Config}.
Local Open Scope float_scope.

(** Integer literals other than zero are not zero, and [1 - alpha] is not
    zero for an alpha that is at most 0.99. *)
Variable literal_not_zero : forall z : Z, z <> 0%Z -> feq (of_Z z : F) (of_Z 0) = false.
Variable alpha_below_one :
  forall g : F, feq (fone - fmin (lit 99 100) g) (of_Z 0) = false.

Lemma safe_lit (n d : Z) : d <> 0%Z -> safe (lit n d : Watched F).
Proof.
  intros Hd. unfold lit. apply safe_div; [apply safe_of_Z|apply safe_of_Z|].
  now apply literal_not_zero.
Qed.

Definition safe_regs (r : Regs (Watched F)) : Prop :=
  safe (T r) /\ safe (T_final r) /\ safe (last_contributor r) /\
  (forall ch, safe (ar r ch)) /\ safe (ard r) /\
  (forall ch, safe (dL_dpixel r ch)) /\ safe (dL_invdepth r).

Definition safe_acc (acc : Acc (Watched F)) : Prop :=
  safe (Register_dL_dmean2D_x acc) /\ safe (Register_dL_dmean2D_y acc) /\
  safe (Register_dL_dconic2D_x acc) /\ safe (Register_dL_dconic2D_y acc) /\
  safe (Register_dL_dconic2D_w acc) /\ safe (Register_dL_dopacity acc) /\
  (forall ch, safe (Register_dL_dcolors acc ch)) /\
  safe (Register_dL_dinvdepths acc).

Definition safe_lane (l : Lane (Watched F)) : Prop :=
  safe (x2 (xy l)) /\ safe (y2 (xy l)) /\
  safe (x4 (con_o l)) /\ safe (y4 (con_o l)) /\ safe (z4 (con_o l)) /\
  safe (w4 (con_o l)) /\
  (forall ch, safe (c l ch)) /\ safe (invd l).

Lemma safe_clean_regs (r : Regs F) : safe_regs (clean_regs r).
Proof. repeat split. Qed.

Lemma safe_Acc_zero : safe_acc Acc_zero.
Proof. repeat split. Qed.

Lemma safe_set_reg (f : nat -> Watched F) (i : nat) (v : Watched F) :
  (forall ch, safe (f ch)) -> safe v -> forall ch, safe (set_reg f i v ch).
Proof. intros Hf Hv ch. unfold set_reg. now destruct (Nat.eqb ch i). Qed.

Lemma safe_fold_set_reg (g : nat -> Watched F) (chs : list nat) (f : nat -> Watched F) :
  (forall ch, safe (f ch)) -> (forall ch, safe (g ch)) ->
  forall ch, safe (fold_left (fun c ch => set_reg c ch (g ch)) chs f ch).
Proof.
  revert f. induction chs as [|x chs IH]; intros f Hf Hg; [exact Hf|].
  cbn [fold_left]. apply IH; [|exact Hg]. now apply safe_set_reg.
Qed.

Variable a : RenderIn F.
Variable global_bucket_idx : Z.

(** The index arithmetic of a lane does not depend on the arithmetic. *)
Lemma watched_lane_indices (k : Z) :
  let l := lane_setup a global_bucket_idx k in
  let l' := lane_setup (watched a) global_bucket_idx k in
  valid_splat l' = valid_splat l /\ gaussian_idx l' = gaussian_idx l /\
  tile_id l' = tile_id l /\ splat_idx_in_tile l' = splat_idx_in_tile l.
Proof. repeat split. Qed.

(** A lane whose primitive has a depth other than zero. *)
Lemma safe_lane_setup (k : Z) :
  let l := lane_setup a global_bucket_idx k in
  (valid_splat l = true -> feq (r_depths a (gaussian_idx l)) (of_Z 0) = false) ->
  safe_lane (lane_setup (watched a) global_bucket_idx k).
Proof.
  intros l Hd.
  set (l' := lane_setup (watched a) global_bucket_idx k).
  assert (Hv : valid_splat l' = valid_splat l) by reflexivity.
  assert (Hg : gaussian_idx l' = gaussian_idx l) by reflexivity.
  assert (Hxy : xy l' = if valid_splat l' then r_points_xy_image (watched a) (gaussian_idx l')
                        else mk2 (of_Z 0) (of_Z 0)) by reflexivity.
  assert (Hco : con_o l' = if valid_splat l' then r_conic_opacity (watched a) (gaussian_idx l')
                           else mk4 (of_Z 0) (of_Z 0) (of_Z 0) (of_Z 0)) by reflexivity.
  assert (Hc : c l' =
    if valid_splat l' then
      fold_left
        (fun c ch =>
           set_reg c ch (r_colors (watched a)
                           (u32 (gaussian_idx l' * Z.of_nat C + Z.of_nat ch))))
        (seq 0 C) (fun _ : nat => of_Z 0)
    else fun _ : nat => of_Z 0) by reflexivity.
  assert (Hi : invd l' = if valid_splat l' then fone / r_depths (watched a) (gaussian_idx l')
                         else of_Z 0) by reflexivity.
  unfold safe_lane. rewrite Hxy, Hco, Hc, Hi, Hv, Hg. clear Hxy Hco Hc Hi.
  destruct (valid_splat l) eqn:E.
  - repeat match goal with |- _ /\ _ => split end; try reflexivity.
    + apply (safe_fold_set_reg
               (fun ch => r_colors (watched a)
                            (u32 (gaussian_idx l * Z.of_nat C + Z.of_nat ch)))).
      * intros ch. reflexivity.
      * intros ch. reflexivity.
    + apply safe_div; [reflexivity|reflexivity|]. exact (Hd eq_refl).
  - repeat split.
Qed.

Lemma safe_load_state (idx : Z) (px : Pixel) (r : Regs (Watched F)) :
  safe_regs r -> safe_regs (load_state (watched a) global_bucket_idx idx px r).
Proof.
  intros (HT & HTf & Hl & Har & Hard & Hdp & Hdi).
  unfold load_state, safe_regs.
  cbn [T T_final last_contributor ar ard dL_dpixel dL_invdepth].
  repeat match goal with |- _ /\ _ => split end; try reflexivity.
  - apply (safe_fold_set_reg
             (fun ch => - r_pixel_colors (watched a)
                            (u32 (Z.of_nat ch * r_H (watched a) * r_W (watched a)
                                  + pix_id px))
                        + r_sampled_ar (watched a)
                            (u32 (global_bucket_idx * BLOCK_SIZE * Z.of_nat C
                                  + Z.of_nat ch * BLOCK_SIZE + idx)))).
    + exact Har.
    + intros ch. reflexivity.
  - apply (safe_fold_set_reg
             (fun ch => r_dL_dpixels (watched a)
                          (u32 (Z.of_nat ch * r_H (watched a) * r_W (watched a)
                                + pix_id px)))).
    + exact Hdp.
    + intros ch. reflexivity.
Qed.

Lemma safe_blend (l : Lane (Watched F)) (px : Pixel) :
  safe_lane l ->
  let b := blend l px in
  safe (x2 (b_d b)) /\ safe (y2 (b_d b)) /\ safe (b_G b) /\ safe (b_alpha b).
Proof.
  intros (L1 & L2 & L3 & L4 & L5 & L6 & L7 & L8). cbv zeta. unfold blend.
  cbn [b_d b_G b_alpha x2 y2].
  assert (Hhalf : safe (lit 1 2 : Watched F)) by (apply safe_lit; lia).
  assert (H99 : safe (lit 99 100 : Watched F)) by (apply safe_lit; lia).
  repeat match goal with |- _ /\ _ => split end; safe_arith.
Qed.

(** The denominator [1 - alpha] of lines 608 to 619. *)
Lemma composite_denominator (l : Lane (Watched F)) (px : Pixel) :
  feq (value (fone - b_alpha (blend l px))) (of_Z 0) = false.
Proof. unfold blend. cbn [b_alpha]. apply alpha_below_one. Qed.

Lemma safe_channel_fold (l : Lane (Watched F)) (r : Regs (Watched F))
    (alpha weight : Watched F) (chs : list nat)
    (st : (nat -> Watched F) * (nat -> Watched F) * Watched F * Watched F) :
  safe_lane l -> safe_regs r -> safe alpha -> safe weight ->
  feq (value (fone - alpha)) (of_Z 0) = false ->
  (forall ch, safe (fst (fst (fst st)) ch)) -> (forall ch, safe (snd (fst (fst st)) ch)) ->
  safe (snd (fst st)) -> safe (snd st) ->
  let st' := fold_left (channel_step (watched a) l r alpha weight) chs st in
  (forall ch, safe (fst (fst (fst st')) ch)) /\ (forall ch, safe (snd (fst (fst st')) ch)) /\
  safe (snd (fst st')) /\ safe (snd st').
Proof.
  intros (L1 & L2 & L3 & L4 & L5 & L6 & L7 & L8)
         (HT & HTf & Hl & Har & Hard & Hdp & Hdi) Ha Hw Hden.
  revert st. induction chs as [|ch chs IH]; intros st Hs1 Hs2 Hs3 Hs4.
  - cbn [fold_left]. repeat split; assumption.
  - cbn [fold_left]. apply IH; destruct st as [[[ar0 dc] da] bg];
      cbn [fst snd] in *; unfold channel_step; cbn [fst snd].
    + apply safe_set_reg; [exact Hs1|]. safe_arith.
    + apply safe_set_reg; [exact Hs2|]. safe_arith.
    + assert (Hinv : safe (fone / (fone - alpha))).
      { apply safe_div; [reflexivity| |exact Hden]. safe_arith. }
      safe_arith.
    + safe_arith.
Qed.

Lemma safe_composite (l : Lane (Watched F)) (px : Pixel) (r : Regs (Watched F))
    (acc : Acc (Watched F)) :
  safe_lane l -> safe_regs r -> safe_acc acc ->
  let out := composite (watched a) l (blend l px) r acc in
  safe_regs (fst out) /\ safe_acc (snd out).
Proof.
  intros Hl Hr Hacc.
  destruct (@safe_blend l px Hl) as (Hdx & Hdy & HG & Halpha).
  pose proof (composite_denominator l px) as Hden.
  set (b := blend l px) in *.
  assert (Hw : safe (b_alpha b * T r)).
  { apply safe_mul; [exact Halpha|]. apply Hr. }
  pose proof (@safe_channel_fold l r (b_alpha b) (b_alpha b * T r) (seq 0 C)
                (ar r, Register_dL_dcolors acc, of_Z 0, of_Z 0)
                Hl Hr Halpha Hw Hden) as Hfold.
  cbn [fst snd] in Hfold.
  destruct Hl as (L1 & L2 & L3 & L4 & L5 & L6 & L7 & L8).
  destruct Hr as (HT & HTf & Hlc & Har & Hard & Hdp & Hdi).
  destruct Hacc as (A1 & A2 & A3 & A4 & A5 & A6 & A7 & A8).
  specialize (Hfold Har A7 eq_refl eq_refl).
  cbv zeta. unfold composite.
  destruct (fold_left _ _ _) as [[[ar' dc'] da'] bg'].
  cbn [fst snd] in Hfold. destruct Hfold as (F1 & F2 & F3 & F4).
  assert (Hhalf : safe (lit 1 2 : Watched F)) by (apply safe_lit; lia).
  assert (Hinv : safe (fone / (fone - b_alpha b))).
  { apply safe_div; [reflexivity| |exact Hden]. safe_arith. }
  assert (Hquot : safe (- T_final r / (fone - b_alpha b))).
  { apply safe_div; [safe_arith| |exact Hden]. safe_arith. }
  cbn [fst snd]. unfold safe_regs, safe_acc.
  cbn [T T_final last_contributor ar ard dL_dpixel dL_invdepth
       Register_dL_dmean2D_x Register_dL_dmean2D_y Register_dL_dconic2D_x
       Register_dL_dconic2D_y Register_dL_dconic2D_w Register_dL_dopacity
       Register_dL_dcolors Register_dL_dinvdepths].
  repeat match goal with |- _ /\ _ => split end; try assumption; safe_arith;
    reflexivity.
Qed.

Lemma safe_do_work (l : Lane (Watched F)) (idx : Z) (px : Pixel)
    (r : Regs (Watched F)) (acc : Acc (Watched F)) :
  safe_lane l -> safe_regs r -> safe_acc acc ->
  let out := do_work (watched a) l idx px r acc in
  safe_regs (fst out) /\ safe_acc (snd out).
Proof.
  intros Hl Hr Hacc. cbv zeta. unfold do_work.
  repeat match goal with
         | |- context [if ?t then _ else _] => destruct t
         end; cbn [fst snd]; try (split; assumption).
  now apply safe_composite.
Qed.

Lemma safe_lane_step (i thread_rank : Z) (l : Lane (Watched F))
    (r : Regs (Watched F)) (acc : Acc (Watched F)) :
  safe_lane l -> safe_regs r -> safe_acc acc ->
  let out := lane_step (watched a) global_bucket_idx i thread_rank l r acc in
  safe_regs (fst out) /\ safe_acc (snd out).
Proof.
  intros Hl Hr Hacc. cbv zeta. unfold lane_step.
  apply safe_do_work; [exact Hl| |exact Hacc].
  destruct (_ && _); [|exact Hr]. now apply safe_load_state.
Qed.

Definition safe_warp (w : Warp (Watched F)) : Prop :=
  Forall (fun s => safe_regs (fst s) /\ safe_acc (snd s)) w.

Lemma Forall_removelast {A} (P : A -> Prop) (w : list A) :
  Forall P w -> Forall P (removelast w).
Proof.
  induction 1 as [|x w Hx Hw IH]; [constructor|].
  cbn [removelast]. destruct w; [constructor|]. constructor; assumption.
Qed.

Lemma Forall_shfl_up {A} (P : A -> Prop) (w : list A) :
  Forall P w -> Forall P (shfl_up w).
Proof.
  intros Hw. destruct w as [|v w]; [constructor|].
  unfold shfl_up. constructor; [now inversion Hw|]. now apply Forall_removelast.
Qed.

(** Every valid lane of the warp has a primitive whose depth is not zero. *)
Hypothesis depths_not_zero :
  forall k : nat, k < 32 ->
  valid_splat (lane_of a global_bucket_idx k) = true ->
  feq (r_depths a (gaussian_idx (lane_of a global_bucket_idx k))) (of_Z 0) = false.

Lemma safe_warp_step (w : Warp (Watched F)) (i : nat) :
  safe_warp w -> safe_warp (warp_step (watched a) global_bucket_idx w i).
Proof.
  intros Hw. unfold safe_warp, warp_step. apply Forall_forall.
  intros s Hin. apply in_map_iff in Hin. destruct Hin as ([k [r acc]] & <- & Hin).
  apply in_combine_l in Hin as Hk. apply in_combine_r in Hin.
  apply in_combine_l in Hin as Hr. apply in_combine_r in Hin as Hacc.
  apply in_seq in Hk.
  apply safe_lane_step.
  - apply safe_lane_setup. apply depths_not_zero. lia.
  - assert (Hall : Forall safe_regs (shfl_up (map fst w))).
    { apply Forall_shfl_up. apply Forall_forall. intros r' Hr'.
      apply in_map_iff in Hr'. destruct Hr' as (s' & <- & Hs').
      unfold safe_warp in Hw. rewrite Forall_forall in Hw. now apply Hw. }
    rewrite Forall_forall in Hall. now apply Hall.
  - apply in_map_iff in Hacc. destruct Hacc as (s' & <- & Hs').
    unfold safe_warp in Hw. rewrite Forall_forall in Hw. now apply Hw.
Qed.

Lemma safe_warp_steps (steps : list nat) (w : Warp (Watched F)) :
  safe_warp w -> safe_warp (fold_left (warp_step (watched a) global_bucket_idx) steps w).
Proof.
  revert w. induction steps as [|i steps IH]; intros w Hw; [exact Hw|].
  cbn [fold_left]. apply IH. now apply safe_warp_step.
Qed.

Lemma safe_warp_loop (garbage : nat -> Regs F) :
  safe_warp (warp_loop (watched a) global_bucket_idx (fun k => clean_regs (garbage k))).
Proof.
  unfold warp_loop. apply safe_warp_steps.
  apply Forall_forall. intros s Hin. apply in_map_iff in Hin.
  destruct Hin as (k & <- & _). split; [apply safe_clean_regs|apply safe_Acc_zero].
Qed.

Lemma safe_flush (l : Lane (Watched F)) (acc : Acc (Watched F)) (e : AtomicAdd (Watched F)) :
  safe_acc acc -> In e (flush l acc) -> safe (add_value e).
Proof.
  intros (A1 & A2 & A3 & A4 & A5 & A6 & A7 & A8) Hin. unfold flush in Hin.
  destruct (valid_splat l); [|contradiction].
  apply in_app_or in Hin. destruct Hin as [Hin|Hin].
  - cbn [In] in Hin.
    repeat match type of Hin with
           | _ \/ _ => destruct Hin as [<-|Hin]
           | False => contradiction
           end; cbn [add_value]; safe_arith.
  - apply in_app_or in Hin. destruct Hin as [Hin|Hin].
    + apply in_map_iff in Hin. destruct Hin as (ch & <- & _). apply A7.
    + destruct Hin as [<-|[]]. exact A8.
Qed.

(** No atomic addition of the warp adds a value that a division by zero
    took part in computing. *)
Lemma safe_PerGaussianRenderCUDA (garbage : nat -> Regs F) (e : AtomicAdd (Watched F)) :
  In e (PerGaussianRenderCUDA (watched a) global_bucket_idx
          (fun k => clean_regs (garbage k))) ->
  safe (add_value e).
Proof.
  unfold PerGaussianRenderCUDA.
  destruct (negb _); [contradiction|].
  destruct (bucket_useless _ _); [contradiction|].
  intros Hin. apply in_flat_map in Hin. destruct Hin as ([k [r acc]] & Hin & He).
  apply in_combine_r in Hin.
  pose proof (safe_warp_loop garbage) as Hw. unfold safe_warp in Hw.
  rewrite Forall_forall in Hw. specialize (Hw _ Hin).
  eapply safe_flush; [|exact He]. apply Hw.
Qed.
End SafeRender.

Section SafeVectors.
Context {F : Type} `{FloatArith F} `{Auxiliary F}.
Local Open Scope float_scope.
Import Glm.

Definition safe3 (v : vec3 (Watched F)) : Prop :=
  safe (x3 v) /\ safe (y3 v) /\ safe (z3 v).

Definition safe4 (v : vec4 (Watched F)) : Prop :=
  safe (x4 v) /\ safe (y4 v) /\ safe (z4 v) /\ safe (w4 v).

Definition safe_mat3 (m : mat3 (Watched F)) : Prop :=
  safe3 (col0 m) /\ safe3 (col1 m) /\ safe3 (col2 m).

Lemma safe3_clean3 (v : vec3 F) : safe3 (clean3 v).
Proof. repeat split. Qed.

Lemma value3_clean3 (v : vec3 F) : value3 (clean3 v) = v.
Proof. now destruct v. Qed.

Lemma div_by_zero3_false (v : vec3 (Watched F)) : safe3 v -> div_by_zero3 v = false.
Proof. intros (Hx & Hy & Hz). unfold div_by_zero3. now rewrite Hx, Hy, Hz. Qed.

Lemma div_by_zero_matrix_clean (m : buf F) : div_by_zero_matrix (clean_buf m) = false.
Proof. reflexivity. Qed.

Lemma value_clean_buf (m : buf F) : value_buf (clean_buf m) = m.
Proof. reflexivity. Qed.

Lemma safe3_watched3 (v : vec3 F) : safe3 (watched3 false v).
Proof. repeat split. Qed.

Lemma safe4_watched4 (v : vec4 F) : safe4 (watched4 false v).
Proof. repeat split. Qed.

(** A helper applied to a vector and a matrix that no division by zero
    took part in. *)
Lemma watched_transformPoint4x3 (p : vec3 (Watched F)) (m : buf F) :
  safe3 p ->
  transformPoint4x3 p (clean_buf m) = watched3 false (transformPoint4x3 (value3 p) m).
Proof.
  intros Hp. cbn [transformPoint4x3 Watched_auxiliary].
  rewrite (div_by_zero3_false Hp). reflexivity.
Qed.

Lemma watched_transformPoint4x4 (p : vec3 (Watched F)) (m : buf F) :
  safe3 p ->
  transformPoint4x4 p (clean_buf m) = watched4 false (transformPoint4x4 (value3 p) m).
Proof.
  intros Hp. cbn [transformPoint4x4 Watched_auxiliary].
  rewrite (div_by_zero3_false Hp). reflexivity.
Qed.

Lemma watched_transformVec4x3Transpose (p : vec3 (Watched F)) (m : buf F) :
  safe3 p ->
  transformVec4x3Transpose p (clean_buf m)
  = watched3 false (transformVec4x3Transpose (value3 p) m).
Proof.
  intros Hp. cbn [transformVec4x3Transpose Watched_auxiliary].
  rewrite (div_by_zero3_false Hp). reflexivity.
Qed.

Lemma watched_dnormvdv (v dv : vec3 (Watched F)) :
  safe3 v -> safe3 dv -> dnormvdv v dv = watched3 false (dnormvdv (value3 v) (value3 dv)).
Proof.
  intros Hv Hdv. cbn [dnormvdv Watched_auxiliary].
  rewrite (div_by_zero3_false Hv), (div_by_zero3_false Hdv). reflexivity.
Qed.

Lemma safe_mat3_of (a b c d e f g h i : Watched F) :
  safe a -> safe b -> safe c -> safe d -> safe e -> safe f -> safe g -> safe h -> safe i ->
  safe_mat3 (mat3_of a b c d e f g h i).
Proof. repeat split; assumption. Qed.

Lemma safe_at (m : mat3 (Watched F)) (c r : nat) : safe_mat3 m -> safe (at_ m c r).
Proof.
  intros ((A1 & A2 & A3) & (B1 & B2 & B3) & (C1 & C2 & C3)).
  unfold at_, col, comp.
  destruct c as [|[|c]]; destruct r as [|[|r]]; assumption.
Qed.

Lemma safe_transpose (m : mat3 (Watched F)) : safe_mat3 m -> safe_mat3 (transpose m).
Proof. intros Hm. unfold transpose. apply safe_mat3_of; now apply safe_at. Qed.

Lemma safe_mmul (m1 m2 : mat3 (Watched F)) :
  safe_mat3 m1 -> safe_mat3 m2 -> safe_mat3 (mmul m1 m2).
Proof.
  intros H1 H2. unfold mmul.
  apply safe_mat3_of;
    repeat first [apply safe_add | apply safe_mul | now apply safe_at].
Qed.
End SafeVectors.

Section SafeCov2D.
Context {F : Type} `{FloatArith F} `{Auxiliary F}.
Local Open Scope float_scope.
Import Glm.

Variable literal_not_zero : forall z : Z, z <> 0%Z -> feq (of_Z z : F) (of_Z 0) = false.
Variable square_not_zero :
  forall z : F, feq z (of_Z 0) = false -> feq (z * z) (of_Z 0) = false.

Variable idx : Z.
Variable means : buf (vec3 F).
Variable cov3Ds : buf F.
Variables h_x h_y tan_fovx tan_fovy : F.
Variable view_matrix : buf F.

Let fw := cov2D_forward idx means cov3Ds h_x h_y tan_fovx tan_fovy view_matrix.
Let fw' := cov2D_forward idx (clean3_buf means) (clean_buf cov3Ds)
             (clean h_x) (clean h_y) (clean tan_fovx) (clean tan_fovy)
             (clean_buf view_matrix).

Hypothesis depth_not_zero :
  feq (z3 (transformPoint4x3 (means idx) view_matrix)) (of_Z 0) = false.

Lemma cov2D_forward_t :
  safe3 (fw_t fw') /\ value (z3 (fw_t fw')) = z3 (transformPoint4x3 (means idx) view_matrix).
Proof.
  unfold fw', cov2D_forward. cbv zeta. cbn [fw_t].
  change (clean3_buf means idx) with (clean3 (means idx)).
  rewrite !watched_transformPoint4x3 by apply safe3_clean3.
  rewrite !value3_clean3.
  set (t := transformPoint4x3 (means idx) view_matrix) in *.
  assert (H13 : safe (lit 13 10 : Watched F)) by (apply safe_lit; [assumption|lia]).
  assert (Hq : forall x : Watched F, safe x -> safe (x / z3 (watched3 false t))).
  { intros x Hx. apply safe_div; [exact Hx|reflexivity|exact depth_not_zero]. }
  split; [|reflexivity].
  unfold safe3. cbn [x3 y3 z3].
  repeat match goal with |- _ /\ _ => split end; safe_arith;
    apply Hq; reflexivity.
Qed.

Lemma cov2D_forward_safe :
  safe (fw_x_grad_mul fw') /\ safe (fw_y_grad_mul fw') /\
  safe_mat3 (fw_W fw') /\ safe_mat3 (fw_Vrk fw') /\ safe_mat3 (fw_T fw') /\
  safe_mat3 (fw_cov2D fw').
Proof.
  destruct cov2D_forward_t as [(Htx & Hty & Htz) Hv].
  unfold fw', cov2D_forward in *. cbv zeta in *.
  cbn [fw_t fw_x_grad_mul fw_y_grad_mul fw_W fw_Vrk fw_T fw_cov2D] in *.
  cbn [x3 y3 z3] in Htx, Hty, Htz, Hv.
  match type of Htx with safe ?e => set (tx := e) in * end.
  match type of Hty with safe ?e => set (ty := e) in * end.
  match type of Htz with safe ?e => set (tz := e) in * end.
  cbn [x3 y3 z3].
  assert (Hz : feq (value tz) (of_Z 0) = false) by (rewrite Hv; exact depth_not_zero).
  assert (Hzz : feq (value (tz * tz)) (of_Z 0) = false).
  { apply square_not_zero in Hz. exact Hz. }
  assert (HW : safe_mat3 (mat3_of
    (clean_buf view_matrix 0%Z) (clean_buf view_matrix 4%Z) (clean_buf view_matrix 8%Z)
    (clean_buf view_matrix 1%Z) (clean_buf view_matrix 5%Z) (clean_buf view_matrix 9%Z)
    (clean_buf view_matrix 2%Z) (clean_buf view_matrix 6%Z) (clean_buf view_matrix 10%Z)))
    by (apply safe_mat3_of; reflexivity).
  assert (HJ : safe_mat3 (mat3_of
    (clean h_x / tz) (of_Z 0) (- (clean h_x * tx) / (tz * tz))
    (of_Z 0) (clean h_y / tz) (- (clean h_y * ty) / (tz * tz))
    (of_Z 0) (of_Z 0) (of_Z 0))).
  { apply safe_mat3_of; try reflexivity;
      (apply safe_div; [safe_arith|safe_arith|assumption]). }
  assert (HV : safe_mat3 (mat3_of
    (clean_buf cov3Ds (6 * idx + 0)%Z) (clean_buf cov3Ds (6 * idx + 1)%Z)
    (clean_buf cov3Ds (6 * idx + 2)%Z) (clean_buf cov3Ds (6 * idx + 1)%Z)
    (clean_buf cov3Ds (6 * idx + 3)%Z) (clean_buf cov3Ds (6 * idx + 4)%Z)
    (clean_buf cov3Ds (6 * idx + 2)%Z) (clean_buf cov3Ds (6 * idx + 4)%Z)
    (clean_buf cov3Ds (6 * idx + 5)%Z)))
    by (apply safe_mat3_of; reflexivity).
  assert (HT := safe_mmul HW HJ).
  repeat match goal with |- _ /\ _ => split end.
  - safe_arith.
  - safe_arith.
  - exact HW.
  - exact HV.
  - exact HT.
  - apply safe_mmul; [|exact HT].
    apply safe_mmul; apply safe_transpose; assumption.
Qed.

(** The 2D covariance has the same value in both arithmetics. *)
Lemma cov2D_forward_value (c r : nat) :
  value (at_ (fw_cov2D fw') c r) = at_ (fw_cov2D fw) c r.
Proof.
  unfold fw', fw, cov2D_forward. cbv zeta. cbn [fw_cov2D].
  change (clean3_buf means idx) with (clean3 (means idx)).
  rewrite !watched_transformPoint4x3 by apply safe3_clean3.
  rewrite !value3_clean3.
  set (t := transformPoint4x3 (means idx) view_matrix).
  destruct c as [|[|c]]; destruct r as [|[|r]]; reflexivity.
Qed.
End SafeCov2D.

Section SafeAntialiasing.
Context {F : Type} `{FloatArith F} `{Auxiliary F}.
Local Open Scope float_scope.
Import Glm.

Variable literal_not_zero : forall z : Z, z <> 0%Z -> feq (of_Z z : F) (of_Z 0) = false.
Variable scaling_clamped :
  forall r : F, feq (of_Z 2 * fsqrt (fmax (lit 25 1000000) r)) (of_Z 0) = false.

Lemma safe_upd (b : buf (Watched F)) (i : Z) (v : Watched F) :
  (forall j, safe (b j)) -> safe v -> forall j, safe (upd b i v j).
Proof. intros Hb Hv j. unfold upd. now destruct (j =? i)%Z. Qed.

Lemma cov2D_antialiasing_safe (idx : Z) (antialiasing : bool)
    (c_xx c_xy c_yy : Watched F) (opacities dL_dopacity : buf F) :
  let aa := cov2D_antialiasing idx antialiasing (value c_xx) (value c_xy) (value c_yy)
              opacities dL_dopacity in
  let aa' := cov2D_antialiasing idx antialiasing c_xx c_xy c_yy
               (clean_buf opacities) (clean_buf dL_dopacity) in
  safe c_xx -> safe c_xy -> safe c_yy ->
  (antialiasing = true ->
   feq (cov2D_denom (aa_c_xx aa) (aa_c_xy aa) (aa_c_yy aa)) (of_Z 0) = false /\
   feq (cov2D_scaling_denominator aa) (of_Z 0) = false) ->
  safe (aa_c_xx aa') /\ safe (aa_c_xy aa') /\ safe (aa_c_yy aa') /\
  (forall j, safe (aa_dL_dopacity aa' j)) /\
  safe (aa_dL_dc_xx aa') /\ safe (aa_dL_dc_xy aa') /\ safe (aa_dL_dc_yy aa').
Proof.
  intros aa aa' Hxx Hxy Hyy Hcond.
  assert (Hh : safe (h_var : Watched F)) by (apply safe_lit; [assumption|lia]).
  subst aa aa'. unfold cov2D_antialiasing in *.
  destruct antialiasing.
  - destruct (Hcond eq_refl) as [Hdet Hsc]. clear Hcond.
    unfold cov2D_scaling_denominator, cov2D_denom in Hsc, Hdet.
    cbn [aa_c_xx aa_c_xy aa_c_yy] in Hsc, Hdet.
    cbv zeta.
    cbn [aa_c_xx aa_c_xy aa_c_yy aa_dL_dopacity aa_dL_dc_xx aa_dL_dc_xy aa_dL_dc_yy].
    assert (H25 : safe (lit 25 1000000 : Watched F)) by (apply safe_lit; [assumption|lia]).
    assert (Hratio : safe ((c_xx * c_yy - c_xy * c_xy)
                           / ((c_xx + h_var) * (c_yy + h_var) - c_xy * c_xy))).
    { apply safe_div; [safe_arith|safe_arith|exact Hdet]. }
    set (ratio := (c_xx * c_yy - c_xy * c_xy)
                  / ((c_xx + h_var) * (c_yy + h_var) - c_xy * c_xy)) in *.
    assert (Hroot : safe (if ratio <=? lit 25 1000000 then of_Z 0
                          else clean_buf dL_dopacity idx * clean_buf opacities idx
                               / (of_Z 2 * fsqrt (fmax (lit 25 1000000) ratio)))).
    { apply safe_if; [reflexivity|].
      apply safe_div; [safe_arith|safe_arith|]. apply scaling_clamped. }
    set (root := if ratio <=? lit 25 1000000 then of_Z 0 else _) in *.
    assert (Hf : safe (root / sq (h_var * h_var + h_var * ((c_xx + h_var) + (c_yy + h_var))
                                  + (c_xx + h_var) * (c_yy + h_var) - c_xy * c_xy))).
    { apply safe_div; [exact Hroot|unfold sq; safe_arith|exact Hsc]. }
    set (denom_f := root / sq _) in *.
    repeat match goal with |- _ /\ _ => split end; safe_arith.
  - cbv zeta.
    cbn [aa_c_xx aa_c_xy aa_c_yy aa_dL_dopacity aa_dL_dc_xx aa_dL_dc_xy aa_dL_dc_yy].
    repeat match goal with |- _ /\ _ => split end; safe_arith.
Qed.
End SafeAntialiasing.

Ltac safe_entry :=
  match goal with
  | H : safe_mat3 ?m |- safe (Glm.at_ ?m _ _) => apply (safe_at _ _ H)
  end.

Section SafeCov2DThread.
Context {F : Type} `{FloatArith F} `{Auxiliary F}.
Local Open Scope float_scope.
Import Glm.

Variable literal_not_zero : forall z : Z, z <> 0%Z -> feq (of_Z z : F) (of_Z 0) = false.
Variable square_not_zero :
  forall z : F, feq z (of_Z 0) = false -> feq (z * z) (of_Z 0) = false.
Variable scaling_clamped :
  forall r : F, feq (of_Z 2 * fsqrt (fmax (lit 25 1000000) r)) (of_Z 0) = false.
Variable denominator_guarded :
  forall d : F, feq (d * d + lit 1 10000000) (of_Z 0) = false.

Lemma cov2D_dL_dmean_safe (fw : Cov2DFwd (Watched F)) (h_x h_y : F)
    (dL_dc_xx dL_dc_xy dL_dc_yy : Watched F) (dL_dinvdepth : buf F) (idx : Z)
    (view_matrix : buf F) :
  safe3 (fw_t fw) -> feq (value (z3 (fw_t fw))) (of_Z 0) = false ->
  safe (fw_x_grad_mul fw) -> safe (fw_y_grad_mul fw) ->
  safe_mat3 (fw_W fw) -> safe_mat3 (fw_Vrk fw) -> safe_mat3 (fw_T fw) ->
  safe dL_dc_xx -> safe dL_dc_xy -> safe dL_dc_yy ->
  safe3 (cov2D_dL_dmean fw (clean h_x) (clean h_y) dL_dc_xx dL_dc_xy dL_dc_yy
                        (clean_buf dL_dinvdepth) idx (clean_buf view_matrix)).
Proof.
  intros (Htx & Hty & Htz) Hz Hgx Hgy HW HV HT Hxx Hxy Hyy.
  unfold cov2D_dL_dmean. cbv zeta.
  assert (Hinv : safe (fone / z3 (fw_t fw))).
  { apply safe_div; [reflexivity|exact Htz|exact Hz]. }
  set (tz := fone / z3 (fw_t fw)) in *.
  assert (Hat : forall (m : mat3 (Watched F)) c r, safe_mat3 m -> safe (at_ m c r)).
  { intros m c r Hm. now apply safe_at. }
  rewrite watched_transformVec4x3Transpose; [apply safe3_watched3|].
  unfold safe3. cbn [x3 y3 z3].
  repeat match goal with |- _ /\ _ => split end;
    repeat first [safe_step | safe_entry].
Qed.

Lemma safe_fold_upd_zero (b : buf (Watched F)) (base : Z) (ks : list nat) :
  (forall j, safe (b j)) ->
  forall j, safe (fold_left (fun b i => upd b (base + Z.of_nat i)%Z (of_Z 0)) ks b j).
Proof.
  revert b. induction ks as [|k ks IH]; intros b Hb; [exact Hb|].
  cbn [fold_left]. apply IH. apply safe_upd; [exact Hb|reflexivity].
Qed.

(** One thread of [computeCov2DCUDA] divides by zero only if the depth of
    the mean in view space is zero or, with anti-aliasing, if the
    determinant of the regularized covariance or the denominator of line
    241 is zero. *)
Lemma safe_computeCov2DCUDA (idx P : Z) (means : buf (vec3 F)) (radii : buf Z)
    (cov3Ds : buf F) (h_x h_y tan_fovx tan_fovy : F) (view_matrix : buf F)
    (opacities dL_dconics dL_dopacity dL_dinvdepth : buf F)
    (dL_dmeans : buf (vec3 F)) (dL_dcov : buf F) (antialiasing : bool) :
  let aa := cov2D_regularized idx means cov3Ds h_x h_y tan_fovx tan_fovy view_matrix
              opacities dL_dopacity antialiasing in
  let out := computeCov2DCUDA idx P (clean3_buf means) radii (clean_buf cov3Ds)
               (clean h_x) (clean h_y) (clean tan_fovx) (clean tan_fovy)
               (clean_buf view_matrix) (clean_buf opacities) (clean_buf dL_dconics)
               (clean_buf dL_dopacity) (clean_buf dL_dinvdepth)
               (clean3_buf dL_dmeans) (clean_buf dL_dcov) antialiasing in
  feq (z3 (transformPoint4x3 (means idx) view_matrix)) (of_Z 0) = false ->
  (antialiasing = true ->
   feq (cov2D_regularized_det aa) (of_Z 0) = false /\
   feq (cov2D_scaling_denominator aa) (of_Z 0) = false) ->
  forall j : Z,
    safe (c2_dL_dopacity out j) /\ safe3 (c2_dL_dmeans out j) /\ safe (c2_dL_dcov out j).
Proof.
  intros aa out Hz Haa j. subst out aa. unfold computeCov2DCUDA.
  destruct (_ || _).
  { cbn [c2_dL_dopacity c2_dL_dmeans c2_dL_dcov]. repeat split. }
  destruct (cov2D_forward_t literal_not_zero idx means cov3Ds h_x h_y tan_fovx tan_fovy
              view_matrix Hz) as [Ht Hv].
  destruct (cov2D_forward_safe literal_not_zero square_not_zero idx means cov3Ds
              h_x h_y tan_fovx tan_fovy view_matrix Hz)
    as (Hgx & Hgy & HW & HV & HT & Hcov).
  pose proof (cov2D_forward_value idx means cov3Ds h_x h_y tan_fovx tan_fovy view_matrix)
    as Hval.
  set (fw' := cov2D_forward idx (clean3_buf means) (clean_buf cov3Ds) (clean h_x)
                (clean h_y) (clean tan_fovx) (clean tan_fovy) (clean_buf view_matrix))
    in *.
  cbv zeta.
  unfold cov2D_regularized, cov2D_regularized_det in Haa. cbv zeta in Haa.
  rewrite <- !Hval in Haa. fold fw' in Haa.
  destruct (@cov2D_antialiasing_safe F _ literal_not_zero scaling_clamped idx antialiasing
              (at_ (fw_cov2D fw') 0 0) (at_ (fw_cov2D fw') 0 1) (at_ (fw_cov2D fw') 1 1)
              opacities dL_dopacity
              (safe_at 0 0 Hcov) (safe_at 0 1 Hcov) (safe_at 1 1 Hcov) Haa)
    as (Hxx & Hxy & Hyy & Hop & Hdxx & Hdxy & Hdyy).
  set (aa' := cov2D_antialiasing idx antialiasing (at_ (fw_cov2D fw') 0 0)
                (at_ (fw_cov2D fw') 0 1) (at_ (fw_cov2D fw') 1 1)
                (clean_buf opacities) (clean_buf dL_dopacity)) in *.
  assert (Hxy' : safe (at_ (fw_cov2D fw') 0 1)) by now apply safe_at.
  assert (Hinv : safe (cov2D_denom2inv
                         (cov2D_denom (aa_c_xx aa') (at_ (fw_cov2D fw') 0 1) (aa_c_yy aa')))).
  { unfold cov2D_denom2inv, cov2D_denom.
    apply safe_div; [reflexivity| |apply denominator_guarded].
    assert (safe (lit 1 10000000 : Watched F)) by (apply safe_lit; [assumption|lia]).
    safe_arith. }
  set (denom := cov2D_denom (aa_c_xx aa') (at_ (fw_cov2D fw') 0 1) (aa_c_yy aa')) in *.
  assert (Hden : safe denom) by (unfold denom, cov2D_denom; safe_arith).
  set (denom2inv := cov2D_denom2inv denom) in *.
  assert (Hat : forall (m : mat3 (Watched F)) c r, safe_mat3 m -> safe (at_ m c r)).
  { intros m c r Hm. now apply safe_at. }
  assert (Hmean : forall x y z : Watched F, safe x -> safe y -> safe z ->
            safe3 (cov2D_dL_dmean fw' (clean h_x) (clean h_y) x y z
                     (clean_buf dL_dinvdepth) idx (clean_buf view_matrix))).
  { intros x y z Hx Hy Hz'. apply cov2D_dL_dmean_safe; try assumption.
    rewrite Hv. exact Hz. }
  assert (Hleaf : forall (b : buf F) i, safe (clean_buf b i)) by reflexivity.
  assert (Hleaf3 : forall (b : buf (vec3 F)) i, safe3 (clean3_buf b i))
    by (intros; apply safe3_clean3).
  clearbody denom2inv denom aa' fw'.
  destruct (negb (feq denom2inv (of_Z 0))); cbv beta iota;
    cbn [c2_dL_dopacity c2_dL_dmeans c2_dL_dcov x3 y3 z3].
  - split; [apply Hop|]. split.
    + unfold upd. destruct (j =? idx)%Z; [|apply Hleaf3].
      apply Hmean; repeat first [safe_step | safe_entry].
    + repeat first [safe_step | safe_entry].
  - split; [apply Hop|]. split.
    + unfold upd. destruct (j =? idx)%Z; [|apply Hleaf3].
      apply Hmean; assumption.
    + apply safe_fold_upd_zero. apply Hleaf.
Qed.
End SafeCov2DThread.

Section SafePreprocess.
Context {F : Type} `{FloatArith F} `{Auxiliary F}.
Local Open Scope float_scope.
Import Glm.

Variable literal_not_zero : forall z : Z, z <> 0%Z -> feq (of_Z z : F) (of_Z 0) = false.

Lemma safe3_vadd (u v : vec3 (Watched F)) : safe3 u -> safe3 v -> safe3 (vadd u v).
Proof. intros (U1 & U2 & U3) (V1 & V2 & V3). repeat split; cbn [vadd x3 y3 z3]; safe_arith. Qed.

Lemma safe3_vsub (u v : vec3 (Watched F)) : safe3 u -> safe3 v -> safe3 (vsub u v).
Proof. intros (U1 & U2 & U3) (V1 & V2 & V3). repeat split; cbn [vsub x3 y3 z3]; safe_arith. Qed.

Lemma safe3_smulv (s : Watched F) (v : vec3 (Watched F)) :
  safe s -> safe3 v -> safe3 (smulv s v).
Proof. intros Hs (V1 & V2 & V3). repeat split; cbn [smulv x3 y3 z3]; safe_arith. Qed.

Lemma safe3_vmuls (v : vec3 (Watched F)) (s : Watched F) :
  safe3 v -> safe s -> safe3 (vmuls v s).
Proof. intros (V1 & V2 & V3) Hs. repeat split; cbn [vmuls x3 y3 z3]; safe_arith. Qed.

Lemma safe_dot (u v : vec3 (Watched F)) : safe3 u -> safe3 v -> safe (dot u v).
Proof. intros (U1 & U2 & U3) (V1 & V2 & V3). unfold dot. safe_arith. Qed.

Lemma safe3_mk3 (x y z : Watched F) : safe x -> safe y -> safe z -> safe3 (mk3 x y z).
Proof. repeat split; assumption. Qed.

Lemma safe3_x (v : vec3 (Watched F)) : safe3 v -> safe (x3 v).
Proof. now intros (V1 & V2 & V3). Qed.
Lemma safe3_y (v : vec3 (Watched F)) : safe3 v -> safe (y3 v).
Proof. now intros (V1 & V2 & V3). Qed.
Lemma safe3_z (v : vec3 (Watched F)) : safe3 v -> safe (z3 v).
Proof. now intros (V1 & V2 & V3). Qed.

Lemma safe3_upd (b : buf (vec3 (Watched F))) (i : Z) (v : vec3 (Watched F)) :
  (forall j, safe3 (b j)) -> safe3 v -> forall j, safe3 (upd b i v j).
Proof. intros Hb Hv j. unfold upd. now destruct (j =? i)%Z. Qed.

(** The mean gradient of [preprocessCUDA], when [m_hom.w + 0.0000001] is
    not zero. *)
Lemma preprocess_dL_dmean_safe (idx : Z) (means : buf (vec3 F)) (proj : buf F)
    (dL_dmean2D : buf (vec4 F)) :
  feq (w4 (transformPoint4x4 (means idx) proj) + lit 1 10000000) (of_Z 0) = false ->
  safe3 (preprocess_dL_dmean idx (clean3_buf means) (clean_buf proj)
           (clean4_buf dL_dmean2D)).
Proof.
  intros Hw. unfold preprocess_dL_dmean. cbv zeta.
  change (clean3_buf means idx) with (clean3 (means idx)).
  change (clean4_buf dL_dmean2D idx) with (clean4 (dL_dmean2D idx)).
  rewrite !watched_transformPoint4x4 by apply safe3_clean3.
  rewrite !value3_clean3.
  assert (Heps : safe (lit 1 10000000 : Watched F)) by (apply safe_lit; [assumption|lia]).
  assert (Hm : safe (fone / (w4 (watched4 false (transformPoint4x4 (means idx) proj))
                             + lit 1 10000000))).
  { apply safe_div; [reflexivity|safe_arith|exact Hw]. }
  set (m_w := fone / _) in *.
  apply safe3_mk3; safe_arith.
Qed.

End SafePreprocess.

Ltac safe_vec_step :=
  match goal with
  | H : safe3 ?v |- safe3 ?v => exact H
  | H : forall j, safe3 (?b j) |- safe3 (?b _) => apply H
  | |- safe3 (clean3 _) => apply safe3_clean3
  | |- safe3 (clean3_buf _ _) => apply safe3_clean3
  | |- safe3 (watched3 false _) => apply safe3_watched3
  | |- safe3 (mk3 _ _ _) => apply safe3_mk3
  | |- safe3 (Glm.vadd _ _) => apply safe3_vadd
  | |- safe3 (Glm.vsub _ _) => apply safe3_vsub
  | |- safe3 (Glm.smulv _ _) => apply safe3_smulv
  | |- safe3 (Glm.vmuls _ _) => apply safe3_vmuls
  | |- safe3 (upd ?b ?i ?v ?j) => unfold upd at 1; destruct (Z.eqb j i)
  | |- safe3 (dnormvdv _ _) => rewrite watched_dnormvdv; [apply safe3_watched3| |]
  | |- safe (Glm.dot _ _) => apply safe_dot
  | H : safe3 ?v |- safe (x3 ?v) => exact (safe3_x H)
  | H : safe3 ?v |- safe (y3 ?v) => exact (safe3_y H)
  | H : safe3 ?v |- safe (z3 ?v) => exact (safe3_z H)
  | |- safe SH_C0 => exact (eq_refl false)
  | |- safe SH_C1 => exact (eq_refl false)
  | |- safe (SH_C2 _) => exact (eq_refl false)
  | |- safe (SH_C3 _) => exact (eq_refl false)
  | |- forall _, safe3 _ => intro
  end.

Ltac safe_vec := repeat first [safe_step | safe_vec_step].

Section SafeColorFromSH.
Context {F : Type} `{FloatArith F} `{Auxiliary F}.
Local Open Scope float_scope.
Import Glm.

(** [computeColorFromSH], when the primitive is not at the camera
    position. *)
Lemma computeColorFromSH_safe (idx deg max_coeffs : Z) (means : buf (vec3 F))
    (campos : vec3 F) (dc shs : buf (vec3 F)) (clamped : buf bool)
    (dL_dcolor : buf (vec3 F)) (dL_dmeans dL_ddc dL_dshs : buf (vec3 (Watched F))) :
  feq (length (vsub (means idx) campos)) (of_Z 0) = false ->
  (forall j, safe3 (dL_dmeans j)) -> (forall j, safe3 (dL_ddc j)) ->
  (forall j, safe3 (dL_dshs j)) ->
  let out := computeColorFromSH idx deg max_coeffs (clean3_buf means) (clean3 campos)
               (clean3_buf dc) (clean3_buf shs) clamped (clean3_buf dL_dcolor)
               dL_dmeans dL_ddc dL_dshs in
  (forall j, safe3 (fst (fst out) j)) /\ (forall j, safe3 (snd (fst out) j)) /\
  (forall j, safe3 (snd out j)).
Proof.
  intros Hlen Hm Hd Hs. cbv zeta.
  unfold computeColorFromSH, computeColorFromSH_body. cbv zeta.
  change (clean3_buf means idx) with (clean3 (means idx)).
  assert (Hdir : safe3 (vdivs (vsub (clean3 (means idx)) (clean3 campos))
                              (length (vsub (clean3 (means idx)) (clean3 campos))))).
  { unfold vdivs. apply safe3_mk3;
      (apply safe_div; [cbn [vsub x3 y3 z3]; safe_arith|unfold length; safe_vec|exact Hlen]). }
  set (dir := vdivs (vsub (clean3 (means idx)) (clean3 campos)) _) in *.
  clearbody dir. destruct Hdir as (Hx & Hy & Hz).
  assert (Horig : safe3 (vsub (clean3 (means idx)) (clean3 campos))) by safe_vec.
  set (dir_orig := vsub (clean3 (means idx)) (clean3 campos)) in *. clearbody dir_orig.
  assert (HRGB : safe3 (mk3
    (x3 (clean3_buf dL_dcolor idx) * (if clamped (3 * idx + 0)%Z then of_Z 0 else of_Z 1))
    (y3 (clean3_buf dL_dcolor idx) * (if clamped (3 * idx + 1)%Z then of_Z 0 else of_Z 1))
    (z3 (clean3_buf dL_dcolor idx) * (if clamped (3 * idx + 2)%Z then of_Z 0 else of_Z 1))))
    by safe_vec.
  set (dL_dRGB := mk3 _ _ _) in *. clearbody dL_dRGB.
  destruct (deg >? 0)%Z; [destruct (deg >? 1)%Z; [destruct (deg >? 2)%Z|]|];
    cbn [fst snd]; (split; [|split]); safe_vec.
Qed.
End SafeColorFromSH.

Section SafeCov3D.
Context {F : Type} `{FloatArith F} `{Auxiliary F}.
Local Open Scope float_scope.
Import Glm.

Variable literal_not_zero : forall z : Z, z <> 0%Z -> feq (of_Z z : F) (of_Z 0) = false.

Definition safe_grads (g : Grads (Watched F)) : Prop :=
  forall j : Z,
    safe (g_dL_dopacity g j) /\ safe3 (g_dL_dmean3D g j) /\ safe (g_dL_dcov3D g j) /\
    safe3 (g_dL_ddc g j) /\ safe3 (g_dL_dsh g j) /\ safe3 (g_dL_dscale g j) /\
    safe4 (g_dL_drot g j).

Lemma safe_watched_grads (g : Grads F) : safe_grads (watched_grads g).
Proof. intros j. repeat split. Qed.

Lemma safe_col (m : mat3 (Watched F)) (c : nat) : safe_mat3 m -> safe3 (col m c).
Proof. intros (A & B & C). unfold col. destruct c as [|[|c]]; assumption. Qed.

Lemma safe_smulm (s : Watched F) (m : mat3 (Watched F)) :
  safe s -> safe_mat3 m -> safe_mat3 (smulm s m).
Proof.
  intros Hs (A & B & C). unfold smulm. repeat split; cbn [col0 col1 col2];
    apply safe3_vmuls; assumption.
Qed.

Lemma safe4_upd (b : buf (vec4 (Watched F))) (i : Z) (v : vec4 (Watched F)) :
  (forall j, safe4 (b j)) -> safe4 v -> forall j, safe4 (upd b i v j).
Proof. intros Hb Hv j. unfold upd. now destruct (j =? i)%Z. Qed.

(** [computeCov3D] has no division but that of the literal 0.5. *)
Lemma computeCov3D_safe (idx : Z) (scale : vec3 F) (mod_ : F) (rot : vec4 F)
    (dL_dcov3Ds : buf (Watched F)) (dL_dscales : buf (vec3 (Watched F)))
    (dL_drots : buf (vec4 (Watched F))) :
  (forall j, safe (dL_dcov3Ds j)) -> (forall j, safe3 (dL_dscales j)) ->
  (forall j, safe4 (dL_drots j)) ->
  let out := computeCov3D idx (clean3 scale) (clean mod_) (clean4 rot)
               dL_dcov3Ds dL_dscales dL_drots in
  (forall j, safe3 (fst out j)) /\ (forall j, safe4 (snd out j)).
Proof.
  intros Hc Hs Hr. cbv zeta. unfold computeCov3D. cbv zeta. cbn [fst snd].
  assert (Hhalf : safe (lit 1 2 : Watched F)) by (apply safe_lit; [assumption|lia]).
  assert (HR : safe_mat3 (quat_to_R (x4 (clean4 rot)) (y4 (clean4 rot)) (z4 (clean4 rot))
                                    (w4 (clean4 rot)))).
  { unfold quat_to_R. apply safe_mat3_of; safe_arith. }
  set (R := quat_to_R _ _ _ _) in *. clearbody R.
  assert (Hsv : safe3 (smulv (clean mod_) (clean3 scale))) by safe_vec.
  set (s := smulv (clean mod_) (clean3 scale)) in *. clearbody s.
  assert (HS : safe_mat3 (mat3_of (x3 s) fzero fzero fzero (y3 s) fzero fzero fzero (z3 s))).
  { apply safe_mat3_of; safe_vec. }
  assert (HSig : safe_mat3 (mat3_of
      (dL_dcov3Ds (6 * idx + 0)%Z) (lit 1 2 * dL_dcov3Ds (6 * idx + 1)%Z)
      (lit 1 2 * dL_dcov3Ds (6 * idx + 2)%Z)
      (lit 1 2 * dL_dcov3Ds (6 * idx + 1)%Z) (dL_dcov3Ds (6 * idx + 3)%Z)
      (lit 1 2 * dL_dcov3Ds (6 * idx + 4)%Z)
      (lit 1 2 * dL_dcov3Ds (6 * idx + 2)%Z) (lit 1 2 * dL_dcov3Ds (6 * idx + 4)%Z)
      (dL_dcov3Ds (6 * idx + 5)%Z))).
  { apply safe_mat3_of; safe_arith. }
  assert (HM : safe_mat3 (transpose (mmul (smulm (of_Z 2)
      (mmul (mat3_of (x3 s) fzero fzero fzero (y3 s) fzero fzero fzero (z3 s)) R))
      (mat3_of
      (dL_dcov3Ds (6 * idx + 0)%Z) (lit 1 2 * dL_dcov3Ds (6 * idx + 1)%Z)
      (lit 1 2 * dL_dcov3Ds (6 * idx + 2)%Z)
      (lit 1 2 * dL_dcov3Ds (6 * idx + 1)%Z) (dL_dcov3Ds (6 * idx + 3)%Z)
      (lit 1 2 * dL_dcov3Ds (6 * idx + 4)%Z)
      (lit 1 2 * dL_dcov3Ds (6 * idx + 2)%Z) (lit 1 2 * dL_dcov3Ds (6 * idx + 4)%Z)
      (dL_dcov3Ds (6 * idx + 5)%Z))))).
  { apply safe_transpose. apply safe_mmul; [|exact HSig].
    apply safe_smulm; [reflexivity|]. now apply safe_mmul. }
  set (dL_dMt := transpose _) in *. clearbody dL_dMt.
  assert (HRt := safe_transpose HR). set (Rt := transpose R) in *. clearbody Rt.
  assert (Hcol : forall (m : mat3 (Watched F)) c, safe_mat3 m -> safe3 (col m c)).
  { intros m c Hm. now apply safe_col. }
  assert (HMs : safe_mat3 (mkm (vmuls (col dL_dMt 0) (x3 s)) (vmuls (col dL_dMt 1) (y3 s))
                               (vmuls (col dL_dMt 2) (z3 s)))).
  { repeat split; cbn [col0 col1 col2 vmuls x3 y3 z3];
      repeat first [safe_step | safe_vec_step
                   | apply safe3_x | apply safe3_y | apply safe3_z | apply Hcol; assumption]. }
  set (Ms := mkm _ _ _) in *. clearbody Ms.
  split.
  - apply safe3_upd; [exact Hs|].
    apply safe3_mk3; apply safe_dot; apply Hcol; assumption.
  - apply safe4_upd; [exact Hr|].
    repeat split; cbn [x4 y4 z4 w4];
      repeat first [safe_step | safe_entry].
Qed.

(** One thread of [preprocessCUDA] divides by zero only if
    [m_hom.w + 0.0000001] is zero or, with spherical harmonics, if the
    primitive is at the camera position. *)
Lemma safe_preprocessCUDA (idx : Z) (a : PreIn F) (g : Grads F) :
  feq (w4 (transformPoint4x4 (p_means3D a idx) (p_projmatrix a)) + lit 1 10000000)
      (of_Z 0) = false ->
  (p_shs a <> None ->
   feq (length (vsub (p_means3D a idx) (p_campos a))) (of_Z 0) = false) ->
  safe_grads (preprocessCUDA idx (watched_pre a) (watched_grads g)).
Proof.
  intros Hw Hlen. unfold preprocessCUDA.
  cbn [watched_pre p_P p_D p_M p_means3D p_radii p_dc p_shs p_clamped p_opacities
       p_scales p_rotations p_scale_modifier p_cov3Ds p_viewmatrix p_projmatrix
       p_focal_x p_focal_y p_tan_fovx p_tan_fovy p_campos p_dL_dmean2D p_dL_dconic
       p_dL_dinvdepth p_dL_dcolor p_antialiasing].
  destruct (_ || _); [apply safe_watched_grads|].
  pose proof (preprocess_dL_dmean_safe literal_not_zero idx (p_means3D a) (p_projmatrix a)
                (p_dL_dmean2D a) Hw) as Hmean.
  set (dL_dmean := preprocess_dL_dmean idx _ _ _) in *. clearbody dL_dmean.
  cbn [watched_grads g_dL_dopacity g_dL_dmean3D g_dL_dcov3D g_dL_ddc g_dL_dsh
       g_dL_dscale g_dL_drot].
  assert (Hm0 : forall j, safe3 (upd (clean3_buf (g_dL_dmean3D g)) idx
                                     (vadd (clean3_buf (g_dL_dmean3D g) idx) dL_dmean) j)).
  { intros j. safe_vec. }
  set (dL_dmeans0 := upd _ idx _) in *. clearbody dL_dmeans0.
  assert (Hsh : forall (b : buf (vec3 F)) j, safe3 (clean3_buf b j))
    by (intros; apply safe3_clean3).
  assert (Hrot : forall j, safe4 (clean4_buf (g_dL_drot g) j)) by (intros j; repeat split).
  assert (Hcov : forall j, safe (clean_buf (g_dL_dcov3D g) j)) by reflexivity.
  assert (Hop : forall j, safe (clean_buf (g_dL_dopacity g) j)) by reflexivity.
  assert (Hcolor :
    let out := match option_map clean3_buf (p_shs a) with
               | Some shs =>
                   computeColorFromSH idx (p_D a) (p_M a) (clean3_buf (p_means3D a))
                     (clean3 (p_campos a)) (clean3_buf (p_dc a)) shs (p_clamped a)
                     (clean3_buf (p_dL_dcolor a)) dL_dmeans0
                     (clean3_buf (g_dL_ddc g)) (clean3_buf (g_dL_dsh g))
               | None => (dL_dmeans0, clean3_buf (g_dL_ddc g), clean3_buf (g_dL_dsh g))
               end in
    (forall j, safe3 (fst (fst out) j)) /\ (forall j, safe3 (snd (fst out) j)) /\
    (forall j, safe3 (snd out j))).
  { destruct (p_shs a) as [shs|]; cbn [option_map].
    - apply computeColorFromSH_safe; try assumption; try (intros; apply Hsh).
      apply Hlen. discriminate.
    - cbn [fst snd]. repeat split; try apply Hm0; apply Hsh. }
  cbv zeta in Hcolor.
  destruct (match option_map clean3_buf (p_shs a) with Some _ => _ | None => _ end)
    as [[dL_dmeans dL_ddc] dL_dsh].
  cbn [fst snd] in Hcolor. destruct Hcolor as (Hc1 & Hc2 & Hc3).
  assert (Hcov3D :
    let out := match option_map clean3_buf (p_scales a) with
               | Some scales =>
                   computeCov3D idx (scales idx) (clean (p_scale_modifier a))
                     (clean4_buf (p_rotations a) idx) (clean_buf (g_dL_dcov3D g))
                     (clean3_buf (g_dL_dscale g)) (clean4_buf (g_dL_drot g))
               | None => (clean3_buf (g_dL_dscale g), clean4_buf (g_dL_drot g))
               end in
    (forall j, safe3 (fst out j)) /\ (forall j, safe4 (snd out j))).
  { destruct (p_scales a) as [scales|]; cbn [option_map].
    - apply (computeCov3D_safe idx (scales idx) (p_scale_modifier a) (p_rotations a idx));
        assumption || (intros; apply Hsh).
    - cbn [fst snd]. split; [intros; apply Hsh|exact Hrot]. }
  cbv zeta in Hcov3D.
  destruct (match option_map clean3_buf (p_scales a) with Some _ => _ | None => _ end)
    as [dL_dscale dL_drot].
  cbn [fst snd] in Hcov3D. destruct Hcov3D as (Hs1 & Hs2).
  intros j.
  cbn [g_dL_dopacity g_dL_dmean3D g_dL_dcov3D g_dL_ddc g_dL_dsh g_dL_dscale g_dL_drot].
  repeat match goal with |- _ /\ _ => split end;
    first [apply Hop | apply Hcov | apply Hc1 | apply Hc2 | apply Hc3 | apply Hs1
          | apply Hs2].
Qed.
End SafeCov3D.

(** *** The denominators that cannot be zero, in exact arithmetic *)

Lemma Qc_not_zero (v : Qc) : v <> Q2Qc 0 -> feq v (of_Z 0) = false.
Proof.
  intros Hv. cbn. unfold Qc_eqb.
  destruct (Qccompare v (Qc_of_Z 0)) eqn:E; try reflexivity.
  apply Qceq_alt in E. contradiction.
Qed.

Lemma Qc_feq_false (v : Qc) : feq v (of_Z 0) = false -> v <> Q2Qc 0.
Proof. intros Hv E. subst v. vm_compute in Hv. discriminate Hv. Qed.

Lemma Qc_literal_not_zero (z : Z) : z <> 0%Z -> feq (of_Z z : Qc) (of_Z 0) = false.
Proof.
  intros Hz. cbn. unfold Qc_eqb. rewrite Qc_of_Z_compare.
  destruct (Z.compare_spec z 0); [contradiction|reflexivity|reflexivity].
Qed.

Lemma Qc_square_not_zero (z : Qc) :
  feq z (of_Z 0) = false -> feq (z * z)%F (of_Z 0) = false.
Proof.
  intros Hz. apply Qc_not_zero. apply Qc_feq_false in Hz.
  intros E. apply Qcmult_integral in E. tauto.
Qed.

Lemma Qc_denominator_guarded (d : Qc) :
  feq (d * d + lit 1 10000000)%F (of_Z 0) = false.
Proof.
  apply Qc_positive_not_zero. apply Qc_square_plus_positive. vm_compute. reflexivity.
Qed.

Lemma Qc_alpha_below_one (g : Qc) :
  feq (fone - fmin (lit 99 100) g)%F (of_Z 0) = false.
Proof.
  change (fmin (lit 99 100) g) with (if Qc_ltb g (lit 99 100) then g else lit 99 100).
  destruct (Qc_ltb g (lit 99 100)) eqn:E; [|vm_compute; reflexivity].
  unfold Qc_ltb in E.
  destruct (Qccompare g (lit 99 100)) eqn:Ec; try discriminate E.
  apply Qclt_alt in Ec.
  apply Qc_not_zero. intros Ez.
  assert (Hg : g = Q2Qc 1).
  { change (Qcminus (Q2Qc 1) g = Q2Qc 0) in Ez.
    transitivity (Qcminus (Q2Qc 1) (Qcminus (Q2Qc 1) g)); [ring|].
    rewrite Ez. apply Qc_is_canon. reflexivity. }
  rewrite Hg in Ec. vm_compute in Ec. discriminate Ec.
Qed.

Lemma Qc_sqrt_positive (q : Qc) : Qclt (Q2Qc 0) q -> Qclt (Q2Qc 0) (Qc_sqrt q).
Proof.
  intros Hq. unfold Qc_sqrt, Qclt in *. cbn [this Q2Qc] in *.
  rewrite !Qred_correct in *.
  destruct q as [[n d] Hc]. cbn [this Qnum Qden] in *.
  unfold Qlt in *. cbn [Qnum Qden] in *.
  assert (Hn : (0 < n)%Z) by lia.
  assert (Hs : (1 <= Z.sqrt (n * Z.pos d * 10 ^ 12))%Z).
  { change 1%Z with (Z.sqrt 1). apply Z.sqrt_le_mono. nia. }
  lia.
Qed.

Lemma Qc_scaling_clamped (r : Qc) :
  feq (of_Z 2 * fsqrt (fmax (lit 25 1000000) r))%F (of_Z 0) = false.
Proof.
  assert (Hm : Qclt (Q2Qc 0) (fmax (lit 25 1000000) r)).
  { change (fmax (lit 25 1000000) r)
      with (if Qc_ltb (lit 25 1000000) r then r else lit 25 1000000).
    destruct (Qc_ltb (lit 25 1000000) r) eqn:E; [|vm_compute; reflexivity].
    unfold Qc_ltb in E. destruct (Qccompare (lit 25 1000000) r) eqn:Ec; try discriminate E.
    apply Qclt_alt in Ec. eapply Qclt_trans; [|exact Ec]. vm_compute. reflexivity. }
  apply Qc_sqrt_positive in Hm.
  apply Qc_not_zero. intros E.
  change (Qcmult (Qc_of_Z 2) (Qc_sqrt (fmax (lit 25 1000000) r)) = Q2Qc 0) in E.
  apply Qcmult_integral in E. destruct E as [E|E]; [vm_compute in E; discriminate E|].
  rewrite E in Hm. vm_compute in Hm. discriminate Hm.
Qed.

Section Inventory.
Context `{Config} {aux : Auxiliary Qc}.
Local Open Scope float_scope.

(** C8, as the code has it.  In exact arithmetic, with the helpers of
    auxiliary.h left aside, no floating-point division by zero takes part
    in a value that a backward kernel adds or writes, unless one of these
    is zero: for a warp of [PerGaussianRenderCUDA], the depth of the
    primitive of a valid lane; for a thread of [computeCov2DCUDA], the
    depth [t.z] of the mean in view space or, with anti-aliasing, the
    determinant of the regularized covariance or the denominator of line
    241; for a thread of [preprocessCUDA], [m_hom.w + 0.0000001] or, with
    spherical harmonics, the distance between the primitive and the camera.
    The inverse depth of a valid lane is a division by zero when the depth
    of its primitive is zero.  The denominator [denom * denom + 0.0000001]
    of line 251 and the denominator [1 - alpha] of the compositing kernel,
    alpha being at most 0.99, are never zero.  The divisor of the integer
    divisions of line 534, the number of tile columns, is not zero for an
    image of positive width. *)
Theorem division_by_zero_needs_zero_input :
  (forall (a : RenderIn Qc) (global_bucket_idx : Z) (garbage : nat -> Regs Qc),
     (forall k : nat, k < 32 ->
        valid_splat (lane_of a global_bucket_idx k) = true ->
        feq (r_depths a (gaussian_idx (lane_of a global_bucket_idx k))) (of_Z 0) = false) ->
     forall e : AtomicAdd (Watched Qc),
       In e (PerGaussianRenderCUDA (watched a) global_bucket_idx
               (fun k => clean_regs (garbage k))) ->
       safe (add_value e)) /\
  (forall (idx P : Z) (means : buf (vec3 Qc)) (radii : buf Z) (cov3Ds : buf Qc)
          (h_x h_y tan_fovx tan_fovy : Qc) (view_matrix : buf Qc)
          (opacities dL_dconics dL_dopacity dL_dinvdepth : buf Qc)
          (dL_dmeans : buf (vec3 Qc)) (dL_dcov : buf Qc) (antialiasing : bool),
     let aa := cov2D_regularized idx means cov3Ds h_x h_y tan_fovx tan_fovy view_matrix
                 opacities dL_dopacity antialiasing in
     let out := computeCov2DCUDA idx P (clean3_buf means) radii (clean_buf cov3Ds)
                  (clean h_x) (clean h_y) (clean tan_fovx) (clean tan_fovy)
                  (clean_buf view_matrix) (clean_buf opacities) (clean_buf dL_dconics)
                  (clean_buf dL_dopacity) (clean_buf dL_dinvdepth)
                  (clean3_buf dL_dmeans) (clean_buf dL_dcov) antialiasing in
     feq (z3 (transformPoint4x3 (means idx) view_matrix)) (of_Z 0) = false ->
     (antialiasing = true ->
      feq (cov2D_regularized_det aa) (of_Z 0) = false /\
      feq (cov2D_scaling_denominator aa) (of_Z 0) = false) ->
     forall j : Z,
       safe (c2_dL_dopacity out j) /\ safe3 (c2_dL_dmeans out j) /\
       safe (c2_dL_dcov out j)) /\
  (forall (idx : Z) (a : PreIn Qc) (g : Grads Qc),
     feq (w4 (transformPoint4x4 (p_means3D a idx) (p_projmatrix a)) + lit 1 10000000)
         (of_Z 0) = false ->
     (p_shs a <> None ->
      feq (Glm.length (Glm.vsub (p_means3D a idx) (p_campos a))) (of_Z 0) = false) ->
     safe_grads (preprocessCUDA idx (watched_pre a) (watched_grads g))) /\
  (forall (a : RenderIn Qc) (depths : buf Qc) (global_bucket_idx k : Z),
     let l := lane_setup (watched_with_depths a depths) global_bucket_idx k in
     valid_splat l = true ->
     feq (depths (gaussian_idx l)) (of_Z 0) = true ->
     div_by_zero (invd l) = true) /\
  (forall denom : Qc, div_by_zero (cov2D_denom2inv (clean denom)) = false) /\
  (forall (l : Lane Qc) (px : Pixel),
     feq (fone - b_alpha (blend l px)) (of_Z 0) = false) /\
  (forall a : RenderIn Qc,
     (0 < BLOCK_X)%Z -> (0 < r_W a)%Z -> (r_W a + BLOCK_X - 1 < 2 ^ 31)%Z ->
     horizontal_blocks a <> 0%Z).
Proof.
  split; [|split; [|split; [|split; [|split; [|split]]]]].
  - intros a gb garbage Hd e He.
    exact (safe_PerGaussianRenderCUDA Qc_literal_not_zero Qc_alpha_below_one
             a gb Hd garbage e He).
  - intros idx P means radii cov3Ds h_x h_y tan_fovx tan_fovy view_matrix
           opacities dL_dconics dL_dopacity dL_dinvdepth dL_dmeans dL_dcov antialiasing.
    apply (safe_computeCov2DCUDA Qc_literal_not_zero Qc_square_not_zero
             Qc_scaling_clamped Qc_denominator_guarded).
  - intros idx a g. apply (safe_preprocessCUDA Qc_literal_not_zero).
  - intros a depths gb k l Hv Hz.
    assert (Hi : invd l = if valid_splat l
                          then fone / r_depths (watched_with_depths a depths) (gaussian_idx l)
                          else of_Z 0) by reflexivity.
    rewrite Hi, Hv.
    cbn [watched_with_depths r_depths fdiv Watched_arith watch_div div_by_zero value
         clean fone].
    rewrite Hz. reflexivity.
  - intros denom. unfold cov2D_denom2inv.
    cbn [fdiv fadd fmul fone Watched_arith watch_div watch2 clean value div_by_zero lit of_Z].
    cbn [orb].
    replace (feq (of_Z 10000000 : Qc) (of_Z 0)) with false by (vm_compute; reflexivity).
    cbn [orb]. apply Qc_positive_not_zero. apply Qc_square_plus_positive.
    vm_compute. reflexivity.
  - intros l px. unfold blend. cbn [b_alpha]. apply Qc_alpha_below_one.
  - intros a HB HW Hmax. unfold horizontal_blocks, u32.
    rewrite Z.quot_div_nonneg by lia.
    assert (H1 : (1 <= (r_W a + BLOCK_X - 1) / BLOCK_X)%Z)
      by (apply Z.div_le_lower_bound; lia).
    assert (H2 : ((r_W a + BLOCK_X - 1) / BLOCK_X <= r_W a + BLOCK_X - 1)%Z)
      by (apply Z.div_le_upper_bound; nia).
    rewrite Z.mod_small by lia. lia.
Qed.
End Inventory.

(** On the worked scene, second bucket: the depths of the primitives of the
    valid lanes are not zero, and no value that the warp adds saw a division
    by zero.  On the worked inputs of the two other kernels, with
    anti-aliasing on in [computeCov2DCUDA]: the denominators named are not
    zero, and no value written saw a division by zero.  On the scene with
    every depth zero: the inverse depth of lane 0 of the first bucket is a
    division by zero.  The worked scene, 4 pixels wide, has a tile column. *)
Lemma division_by_zero_needs_zero_input_witness :
  forallb (fun k => negb (valid_splat (lane_of Scene.scene 1 k))
                    || negb (feq (r_depths Scene.scene
                                    (gaussian_idx (lane_of Scene.scene 1 k)))
                                 (of_Z 0)))
          (seq 0 32) = true /\
  forallb (fun e => negb (div_by_zero (add_value e)))
          (PerGaussianRenderCUDA (watched Scene.scene) 1
             (fun k => clean_regs (Scene.garbage k))) = true /\
  (let means : buf (vec3 Qc) := fun _ => mk3 (Scene.q 0 1) (Scene.q 0 1) (Scene.q 1 1) in
   let cov3Ds := on_axis_cov3D (Scene.q 2 1) (Scene.q 1 2) (Scene.q 1 1) in
   let one : buf Qc := fun _ => Scene.q 1 1 in
   let aa := cov2D_regularized 0 means cov3Ds (Scene.q 1 1) (Scene.q 1 1) (Scene.q 1 1)
               (Scene.q 1 1) identity4 one one true in
   let out := computeCov2DCUDA 0 1 (clean3_buf means) (fun _ => 1%Z) (clean_buf cov3Ds)
                (clean (Scene.q 1 1)) (clean (Scene.q 1 1)) (clean (Scene.q 1 1))
                (clean (Scene.q 1 1)) (clean_buf identity4) (clean_buf one)
                (clean_buf one) (clean_buf one) (clean_buf one)
                (clean3_buf means) (clean_buf one) true in
   feq (z3 (transformPoint4x3 (means 0%Z) identity4)) (of_Z 0) = false /\
   feq (cov2D_regularized_det aa) (of_Z 0) = false /\
   feq (cov2D_scaling_denominator aa) (of_Z 0) = false /\
   safe (c2_dL_dopacity out 0%Z) /\ safe3 (c2_dL_dmeans out 0%Z) /\
   safe (c2_dL_dcov out 0%Z)) /\
  (let a := PreScene.input in
   feq (w4 (transformPoint4x4 (p_means3D a 0%Z) (p_projmatrix a)) + lit 1 10000000)%F
       (of_Z 0) = false /\
   feq (Glm.length (Glm.vsub (p_means3D a 0%Z) (p_campos a))) (of_Z 0) = false /\
   safe_grads (preprocessCUDA 0 (watched_pre a) (watched_grads (PreScene.grads (Scene.q 0 1))))) /\
  (let l := lane_setup (watched_with_depths Scene.geometry (fun _ => Scene.q 0 1)) 0 0 in
   valid_splat l = true /\
   feq (Scene.q 0 1) (of_Z 0) = true /\
   div_by_zero (invd l) = true) /\
  ((0 < BLOCK_X)%Z /\ (0 < r_W Scene.scene)%Z /\
   (r_W Scene.scene + BLOCK_X - 1 < 2 ^ 31)%Z /\
   horizontal_blocks Scene.scene <> 0%Z).
Proof.
  cbv zeta.
  assert (Hd : forallb (fun k => negb (valid_splat (lane_of Scene.scene 1 k))
                    || negb (feq (r_depths Scene.scene
                                    (gaussian_idx (lane_of Scene.scene 1 k)))
                                 (of_Z 0)))
          (seq 0 32) = true) by (vm_compute; reflexivity).
  destruct division_by_zero_needs_zero_input
    as (Hrender & Hcov & Hpre & Hdepth & _ & _ & Hgrid).
  split; [exact Hd|]. split; [|split; [|split; [|split]]].
  - apply forallb_forall. intros e He. apply negb_true_iff.
    refine (Hrender Scene.scene 1%Z Scene.garbage _ e He).
    intros k Hk Hv.
    rewrite forallb_forall in Hd.
    specialize (Hd k ltac:(apply in_seq; lia)).
    rewrite Hv in Hd. cbn [negb orb] in Hd. apply negb_true_iff in Hd. exact Hd.
  - assert (Hz : feq (z3 (transformPoint4x3
                            (mk3 (Scene.q 0 1) (Scene.q 0 1) (Scene.q 1 1)) identity4))
                     (of_Z 0 : Qc) = false) by (vm_compute; reflexivity).
    split; [exact Hz|].
    assert (Hdet : feq (cov2D_regularized_det
                     (cov2D_regularized 0
                        (fun _ => mk3 (Scene.q 0 1) (Scene.q 0 1) (Scene.q 1 1))
                        (on_axis_cov3D (Scene.q 2 1) (Scene.q 1 2) (Scene.q 1 1))
                        (Scene.q 1 1) (Scene.q 1 1) (Scene.q 1 1) (Scene.q 1 1)
                        identity4 (fun _ => Scene.q 1 1) (fun _ => Scene.q 1 1) true))
                     (of_Z 0) = false) by (vm_compute; reflexivity).
    split; [exact Hdet|].
    assert (Hsc : feq (cov2D_scaling_denominator
                     (cov2D_regularized 0
                        (fun _ => mk3 (Scene.q 0 1) (Scene.q 0 1) (Scene.q 1 1))
                        (on_axis_cov3D (Scene.q 2 1) (Scene.q 1 2) (Scene.q 1 1))
                        (Scene.q 1 1) (Scene.q 1 1) (Scene.q 1 1) (Scene.q 1 1)
                        identity4 (fun _ => Scene.q 1 1) (fun _ => Scene.q 1 1) true))
                     (of_Z 0) = false) by (vm_compute; reflexivity).
    split; [exact Hsc|].
    exact (Hcov 0%Z 1%Z (fun _ => mk3 (Scene.q 0 1) (Scene.q 0 1) (Scene.q 1 1))
             (fun _ => 1%Z) (on_axis_cov3D (Scene.q 2 1) (Scene.q 1 2) (Scene.q 1 1))
             (Scene.q 1 1) (Scene.q 1 1) (Scene.q 1 1) (Scene.q 1 1) identity4
             (fun _ => Scene.q 1 1) (fun _ => Scene.q 1 1) (fun _ => Scene.q 1 1)
             (fun _ => Scene.q 1 1)
             (fun _ => mk3 (Scene.q 0 1) (Scene.q 0 1) (Scene.q 1 1))
             (fun _ => Scene.q 1 1) true Hz (fun _ => conj Hdet Hsc) 0%Z).
  - assert (Hw : feq (w4 (transformPoint4x4 (p_means3D PreScene.input 0%Z)
                            (p_projmatrix PreScene.input)) + lit 1 10000000)%F
                     (of_Z 0 : Qc) = false) by (vm_compute; reflexivity).
    split; [exact Hw|].
    assert (Hl : feq (Glm.length (Glm.vsub (p_means3D PreScene.input 0%Z)
                                           (p_campos PreScene.input)))
                     (of_Z 0 : Qc) = false) by (vm_compute; reflexivity).
    split; [exact Hl|].
    exact (Hpre 0%Z PreScene.input (PreScene.grads (Scene.q 0 1)) Hw (fun _ => Hl)).
  - assert (Hv : valid_splat (lane_setup (watched_with_depths Scene.geometry
                                            (fun _ => Scene.q 0 1)) 0 0) = true)
      by (vm_compute; reflexivity).
    split; [exact Hv|].
    assert (Hz : feq (Scene.q 0 1) (of_Z 0 : Qc) = true) by (vm_compute; reflexivity).
    split; [exact Hz|].
    exact (Hdepth Scene.geometry (fun _ => Scene.q 0 1) 0%Z 0%Z Hv Hz).
  - assert (HB : (0 < BLOCK_X)%Z) by reflexivity.
    assert (HW : (0 < r_W Scene.scene)%Z) by reflexivity.
    assert (Hmax : (r_W Scene.scene + BLOCK_X - 1 < 2 ^ 31)%Z) by reflexivity.
    exact (conj HB (conj HW (conj Hmax (Hgrid Scene.scene HB HW Hmax)))).
Defined.

Unset Implicit Arguments.

(** * Further properties of the kernels *)

(** ** PerGaussianRenderCUDA: what a warp adds, and where *)

Section WarpAdditions.
Context {F : Type} `{FloatArith F} `{FloatExp F} `{Config}.
Variable a : RenderIn F.
Variable global_bucket_idx : Z.
Variable garbage : nat -> Regs F.

Lemma flush_length (l : Lane F) (acc : Acc F) :
  length (flush l acc) = if valid_splat l then 9 + C else 0.
Proof.
  unfold flush. destruct (valid_splat l); [|reflexivity].
  cbn [length app]. rewrite length_app, length_map, length_seq. cbn [length]. lia.
Qed.

Lemma flat_map_length_filter {A B} (f : A -> list B) (p : A -> bool) (n : nat) (ls : list A) :
  (forall x, length (f x) = if p x then n else 0) ->
  length (flat_map f ls) = n * length (filter p ls).
Proof.
  intros Hf. induction ls as [|x ls IH]; [cbn; lia|].
  cbn [flat_map filter]. rewrite length_app, Hf, IH.
  destruct (p x); cbn [length]; lia.
Qed.

(** The shuffle loop of a warp that is neither out of range nor skipped
    comes to this: every lane goes through the pixels of the tile in the
    order of their indices, working on the pixel of index [idx] at step
    [idx + k] with the registers that the lanes [0] to [k - 1] have left
    for that pixel, and flushes what it has accumulated when the loop
    ends. *)
Theorem warp_runs_lanes_in_sequence :
  (global_bucket_idx <? u32 (r_B a))%Z = true ->
  bucket_useless a (lane_setup a global_bucket_idx 0) = false ->
  PerGaussianRenderCUDA a global_bucket_idx garbage =
    flat_map (fun k => flush (lane_of a global_bucket_idx k)
                         (lane_total a global_bucket_idx garbage k))
             (seq 0 32) /\
  forall k idx : nat, k < 32 ->
    regs_in a global_bucket_idx garbage (idx + k) k
    = chain_regs a global_bucket_idx garbage idx k.
Proof.
  intros Hvalid Huseful. split.
  - rewrite kernel_by_lanes, Hvalid. cbn [negb].
    change (lane_of a global_bucket_idx 0) with (lane_setup a global_bucket_idx 0).
    rewrite Huseful. reflexivity.
  - intros k idx Hk. now apply regs_in_chain.
Qed.

(** A warp performs [9 + C] atomic additions for each of its lanes that
    holds a valid primitive, and none for the others. *)
Theorem warp_adds_per_valid_lane :
  (global_bucket_idx <? u32 (r_B a))%Z = true ->
  bucket_useless a (lane_setup a global_bucket_idx 0) = false ->
  length (PerGaussianRenderCUDA a global_bucket_idx garbage) =
  (9 + C) * length (filter (fun k => valid_splat (lane_of a global_bucket_idx k))
                           (seq 0 32)).
Proof.
  intros Hvalid Huseful. rewrite kernel_by_lanes, Hvalid. cbn [negb].
  change (lane_of a global_bucket_idx 0) with (lane_setup a global_bucket_idx 0).
  rewrite Huseful. apply flat_map_length_filter. intros k. apply flush_length.
Qed.

Lemma flush_targets (l : Lane F) (acc : Acc F) (e : AtomicAdd F) :
  In e (flush l acc) ->
  valid_splat l = true /\
  if GradBuf_eqb (add_buf e) Colors
  then exists ch : nat, ch < C /\
         add_index e = u32 (gaussian_idx l * Z.of_nat C + Z.of_nat ch)
  else add_index e = gaussian_idx l.
Proof.
  unfold flush. destruct (valid_splat l); [|intros []].
  intros Hin. split; [reflexivity|].
  apply in_app_or in Hin. destruct Hin as [Hin|Hin].
  - do 8 (destruct Hin as [<-|Hin]; [reflexivity|]). destruct Hin.
  - apply in_app_or in Hin. destruct Hin as [Hin|[<-|[]]]; [|reflexivity].
    apply in_map_iff in Hin. destruct Hin as (ch & <- & Hch). apply in_seq in Hch.
    cbn [add_buf add_index GradBuf_eqb]. exists ch. split; [lia|reflexivity].
Qed.

(** Every atomic addition of a warp goes to the entry of the primitive of
    one of its valid lanes: to the entry [gaussian_idx] of the mean, conic,
    opacity and inverse-depth buffers, and to one of the [C] channel
    entries of the primitive in the colour buffer. *)
Theorem warp_adds_to_own_primitives (e : AtomicAdd F) :
  In e (PerGaussianRenderCUDA a global_bucket_idx garbage) ->
  exists k : nat, k < 32 /\
    valid_splat (lane_of a global_bucket_idx k) = true /\
    if GradBuf_eqb (add_buf e) Colors
    then exists ch : nat, ch < C /\
           add_index e = u32 (gaussian_idx (lane_of a global_bucket_idx k) * Z.of_nat C
                              + Z.of_nat ch)
    else add_index e = gaussian_idx (lane_of a global_bucket_idx k).
Proof.
  rewrite kernel_by_lanes.
  destruct (negb _); [intros []|]. destruct (bucket_useless _ _); [intros []|].
  intros Hin. apply in_flat_map in Hin. destruct Hin as (k & Hk & Hin).
  apply in_seq in Hk. exists k. split; [lia|].
  exact (flush_targets _ _ _ Hin).
Qed.
End WarpAdditions.

(** ** PerGaussianRenderCUDA: the registers that the source does not
    initialize *)

Section Uninitialized.
Context {F : Type} `{FloatArith F} `{FloatExp F} `{Config}.
Local Open Scope float_scope.
Variable a : RenderIn F.
Variable global_bucket_idx : Z.

Lemma composite_dL_dalpha_equiv (l : Lane F) (b : Blend F) (r r' : Regs F) :
  regs_equiv r r' -> composite_dL_dalpha a l b r = composite_dL_dalpha a l b r'.
Proof.
  intros (ET & ETf & EL & Ear & Eard & EdL & EdI).
  unfold composite_dL_dalpha. cbv zeta.
  rewrite (fold_sum_ext
    (fun ch => (c l ch * T r - fone / (fone - b_alpha b)
                               * - (ar r ch + b_alpha b * T r * c l ch)) * dL_dpixel r ch)
    (fun ch => (c l ch * T r' - fone / (fone - b_alpha b)
                                * - (ar r' ch + b_alpha b * T r' * c l ch)) * dL_dpixel r' ch)).
  2:{ intros ch Hin. apply in_seq in Hin. rewrite ET, Ear, EdL by lia. reflexivity. }
  rewrite (fold_sum_ext
    (fun ch => r_bg_color a (Z.of_nat ch) * dL_dpixel r ch)
    (fun ch => r_bg_color a (Z.of_nat ch) * dL_dpixel r' ch)).
  2:{ intros ch Hin. apply in_seq in Hin. rewrite EdL by lia. reflexivity. }
  now rewrite ET, ETf, Eard, EdI.
Qed.

Lemma composite_equiv (l : Lane F) (b : Blend F) (r r' : Regs F) (acc acc' : Acc F) :
  regs_equiv r r' -> acc_eq acc acc' ->
  regs_equiv (fst (composite a l b r acc)) (fst (composite a l b r' acc')) /\
  acc_eq (snd (composite a l b r acc)) (snd (composite a l b r' acc')).
Proof.
  intros Hr Hacc.
  pose proof (composite_dL_dalpha_equiv l b r r' Hr) as Hda.
  destruct Hr as (ET & ETf & EL & Ear & Eard & EdL & EdI).
  destruct Hacc as (E1 & E2 & E3 & E4 & E5 & E6 & E7 & E8).
  destruct (composite_kept a l b r acc) as (K1 & K2 & K3 & K4).
  destruct (composite_kept a l b r' acc') as (K1' & K2' & K3' & K4').
  destruct (composite_scalars a l b r acc) as (S1 & S2 & S3 & S4 & S5 & S6).
  destruct (composite_scalars a l b r' acc') as (S1' & S2' & S3' & S4' & S5' & S6').
  split.
  - unfold regs_equiv.
    rewrite !composite_T, !composite_ard, K1, K2, K3, K4, K1', K2', K3', K4'.
    rewrite ET, ETf, EL, Eard, EdI.
    repeat match goal with |- _ /\ _ => split end; try reflexivity.
    + intros ch Hch. rewrite !composite_ar, Ear, ET by exact Hch. reflexivity.
    + exact EdL.
  - unfold acc_eq.
    rewrite S1, S2, S3, S4, S5, S6, S1', S2', S3', S4', S5', S6', !composite_invdepths.
    rewrite Hda, E1, E2, E3, E4, E5, E6, E8, ET, EdI.
    repeat match goal with |- _ /\ _ => split end; try reflexivity.
    intros ch Hch. rewrite !composite_colors, E7, ET, EdL by exact Hch. reflexivity.
Qed.

Lemma do_work_equiv (l : Lane F) (idx : Z) (px : Pixel) (r r' : Regs F)
    (acc acc' : Acc F) :
  regs_equiv r r' -> acc_eq acc acc' ->
  regs_equiv (fst (do_work a l idx px r acc)) (fst (do_work a l idx px r' acc')) /\
  acc_eq (snd (do_work a l idx px r acc)) (snd (do_work a l idx px r' acc')).
Proof.
  intros Hr Hacc. unfold do_work.
  assert (EL : last_contributor r = last_contributor r') by apply Hr.
  rewrite EL.
  destruct (valid_splat l && valid_pixel px && (0 <=? idx)%Z && (idx <? BLOCK_SIZE)%Z);
    [|now split].
  destruct ((u32 (r_W a) <=? pix_x px)%Z || (u32 (r_H a) <=? pix_y px)%Z); [now split|].
  destruct (of_Z (splat_idx_in_tile l) >=? last_contributor r'); [now split|].
  destruct (b_power (blend l px) >? of_Z 0); [now split|].
  destruct (b_alpha (blend l px) <? lit 1 255); [now split|].
  now apply composite_equiv.
Qed.

Lemma load_state_equiv (idx : Z) (px : Pixel) (r r' : Regs F) :
  regs_equiv (load_state a global_bucket_idx idx px r)
             (load_state a global_bucket_idx idx px r').
Proof.
  unfold regs_equiv, load_state.
  cbn [T T_final last_contributor ar ard dL_dpixel dL_invdepth].
  repeat match goal with |- _ /\ _ => split end; try reflexivity.
  - intros ch Hch.
    rewrite !(fold_set_reg
                (fun ch => - r_pixel_colors a (u32 (Z.of_nat ch * r_H a * r_W a + pix_id px))
                           + r_sampled_ar a
                               (u32 (global_bucket_idx * BLOCK_SIZE * Z.of_nat C
                                     + Z.of_nat ch * BLOCK_SIZE + idx)))).
    apply Nat.ltb_lt in Hch. now rewrite Hch.
  - intros ch Hch.
    rewrite !(fold_set_reg
                (fun ch => r_dL_dpixels a (u32 (Z.of_nat ch * r_H a * r_W a + pix_id px)))).
    apply Nat.ltb_lt in Hch. now rewrite Hch.
Qed.

Variables garbage garbage' : nat -> Regs F.
Hypothesis Hlo : (- 2 ^ 31 <= bucket_idx_in_tile (lane_setup a global_bucket_idx 0) * 32)%Z.
Hypothesis Hhi : (bucket_idx_in_tile (lane_setup a global_bucket_idx 0) * 32 + 31 < 2 ^ 31)%Z.

Lemma chain_regs_equiv (idx k : nat) :
  valid_splat (lane_of a global_bucket_idx 0) = true ->
  valid_pixel (pixel_of a (tile_id (lane_of a global_bucket_idx 0)) (Z.of_nat idx)) = true ->
  (Z.of_nat idx < BLOCK_SIZE)%Z ->
  regs_equiv (chain_regs a global_bucket_idx garbage idx k)
             (chain_regs a global_bucket_idx garbage' idx k).
Proof.
  intros Hs Hp Hidx. induction k as [|k IH].
  - cbn [chain_regs]. rewrite !regs_in_loaded by assumption. apply load_state_equiv.
  - cbn [chain_regs]. apply do_work_equiv; [exact IH|].
    unfold acc_eq. repeat split.
Qed.

Lemma acc_step_equiv (k idx : nat) (acc acc' : Acc F) :
  k < 32 -> valid_splat (lane_of a global_bucket_idx k) = true ->
  (Z.of_nat idx < BLOCK_SIZE)%Z -> acc_eq acc acc' ->
  acc_eq (acc_step a global_bucket_idx garbage k acc idx)
         (acc_step a global_bucket_idx garbage' k acc' idx).
Proof.
  intros Hk Hs Hidx Hacc. unfold acc_step.
  destruct (valid_pixel (pixel_of a (tile_id (lane_of a global_bucket_idx k)) (Z.of_nat idx)))
    eqn:Hp.
  - apply do_work_equiv; [|exact Hacc].
    apply chain_regs_equiv; try assumption.
    now apply (lane_valid_below a global_bucket_idx k).
  - rewrite !do_work_invalid_pixel by exact Hp. exact Hacc.
Qed.

Lemma acc_fold_equiv (k : nat) (idxs : list nat) (acc acc' : Acc F) :
  k < 32 -> valid_splat (lane_of a global_bucket_idx k) = true ->
  (forall idx, In idx idxs -> (Z.of_nat idx < BLOCK_SIZE)%Z) ->
  acc_eq acc acc' ->
  acc_eq (fold_left (acc_step a global_bucket_idx garbage k) idxs acc)
         (fold_left (acc_step a global_bucket_idx garbage' k) idxs acc').
Proof.
  intros Hk Hs Hidx Hacc. apply fold_left_related; [|exact Hacc].
  intros idx Hin x y Hxy. apply acc_step_equiv; [exact Hk|exact Hs| |exact Hxy].
  now apply Hidx.
Qed.

Lemma lane_total_equiv (k : nat) :
  k < 32 -> valid_splat (lane_of a global_bucket_idx k) = true ->
  acc_eq (lane_total a global_bucket_idx garbage k)
         (lane_total a global_bucket_idx garbage' k).
Proof.
  intros Hk Hs. unfold lane_total.
  apply acc_fold_equiv; [exact Hk|exact Hs| |].
  - intros idx Hidx. apply in_seq in Hidx. lia.
  - unfold acc_eq. repeat split.
Qed.

Lemma lane_flush_equiv (k : nat) :
  k < 32 ->
  flush (lane_of a global_bucket_idx k) (lane_total a global_bucket_idx garbage k)
  = flush (lane_of a global_bucket_idx k) (lane_total a global_bucket_idx garbage' k).
Proof.
  intros Hk. destruct (valid_splat (lane_of a global_bucket_idx k)) eqn:Hs.
  - apply flush_ext. now apply lane_total_equiv.
  - unfold flush. rewrite Hs. reflexivity.
Qed.

(** The outcome of a warp does not depend on what its lanes find in the
    registers that the kernel declares without initializing them ([T],
    [T_final], [last_contributor], [ar], [ard], [dL_dpixel],
    [dL_invdepth]): without overflow of the index arithmetic, a lane that
    works on a pixel works on registers that lane 0 has loaded for it. *)
Theorem uninitialized_registers_do_not_matter :
  PerGaussianRenderCUDA a global_bucket_idx garbage
  = PerGaussianRenderCUDA a global_bucket_idx garbage'.
Proof.
  rewrite !kernel_by_lanes.
  destruct (negb _); [reflexivity|]. destruct (bucket_useless _ _); [reflexivity|].
  apply flat_map_ext_in. intros k Hin. apply in_seq in Hin.
  apply lane_flush_equiv. lia.
Qed.
End Uninitialized.

(** The three statements above on the second bucket of the worked scene. *)
Lemma warp_runs_lanes_in_sequence_witness :
  (1 <? u32 (r_B Scene.scene))%Z = true /\
  bucket_useless Scene.scene (lane_setup Scene.scene 1 0) = false /\
  PerGaussianRenderCUDA Scene.scene 1 Scene.garbage =
    flat_map (fun k => flush (lane_of Scene.scene 1 k)
                         (lane_total Scene.scene 1 Scene.garbage k))
             (seq 0 32).
Proof.
  assert (Hv : (1 <? u32 (r_B Scene.scene))%Z = true) by (vm_compute; reflexivity).
  assert (Hu : bucket_useless Scene.scene (lane_setup Scene.scene 1 0) = false)
    by (vm_compute; reflexivity).
  split; [exact Hv|]. split; [exact Hu|].
  exact (proj1 (warp_runs_lanes_in_sequence Scene.scene 1 Scene.garbage Hv Hu)).
Defined.

Lemma warp_adds_per_valid_lane_witness :
  (1 <? u32 (r_B Scene.scene))%Z = true /\
  bucket_useless Scene.scene (lane_setup Scene.scene 1 0) = false /\
  length (PerGaussianRenderCUDA Scene.scene 1 Scene.garbage) = (9 + C) * 2.
Proof.
  assert (Hv : (1 <? u32 (r_B Scene.scene))%Z = true) by (vm_compute; reflexivity).
  assert (Hu : bucket_useless Scene.scene (lane_setup Scene.scene 1 0) = false)
    by (vm_compute; reflexivity).
  split; [exact Hv|]. split; [exact Hu|].
  rewrite (warp_adds_per_valid_lane Scene.scene 1 Scene.garbage Hv Hu).
  vm_compute. reflexivity.
Defined.

Lemma uninitialized_registers_do_not_matter_witness :
  (- 2 ^ 31 <= bucket_idx_in_tile (lane_setup Scene.scene 1 0) * 32)%Z /\
  (bucket_idx_in_tile (lane_setup Scene.scene 1 0) * 32 + 31 < 2 ^ 31)%Z /\
  PerGaussianRenderCUDA Scene.scene 1 Scene.garbage
  = PerGaussianRenderCUDA Scene.scene 1
      (fun _ => mkRegs (of_Z 0) (of_Z 0) (of_Z 0) (fun _ => of_Z 0) (of_Z 0)
                       (fun _ => of_Z 0) (of_Z 0)).
Proof.
  assert (Hlo : (- 2 ^ 31 <= bucket_idx_in_tile (lane_setup Scene.scene 1 0) * 32)%Z)
    by (vm_compute; discriminate).
  assert (Hhi : (bucket_idx_in_tile (lane_setup Scene.scene 1 0) * 32 + 31 < 2 ^ 31)%Z)
    by (vm_compute; reflexivity).
  split; [exact Hlo|]. split; [exact Hhi|].
  exact (uninitialized_registers_do_not_matter Scene.scene 1 Scene.garbage _ Hlo Hhi).
Defined.

Lemma warp_adds_to_own_primitives_witness :
  let adds := PerGaussianRenderCUDA Scene.scene 1 Scene.garbage in
  let e := nth 0 adds (mkAdd Colors 0 (of_Z 0)) in
  In e adds /\
  exists k : nat, k < 32 /\
    valid_splat (lane_of Scene.scene 1 k) = true /\
    if GradBuf_eqb (add_buf e) Colors
    then exists ch : nat, ch < C /\
           add_index e = u32 (gaussian_idx (lane_of Scene.scene 1 k) * Z.of_nat C
                              + Z.of_nat ch)
    else add_index e = gaussian_idx (lane_of Scene.scene 1 k).
Proof.
  cbv zeta.
  assert (Hin : In (nth 0 (PerGaussianRenderCUDA Scene.scene 1 Scene.garbage)
                        (mkAdd Colors 0 (of_Z 0)))
                   (PerGaussianRenderCUDA Scene.scene 1 Scene.garbage)).
  { apply nth_In. apply Nat.ltb_lt. vm_compute. reflexivity. }
  split; [exact Hin|].
  exact (warp_adds_to_own_primitives Scene.scene 1 Scene.garbage _ Hin).
Defined.

(** ** computeCov2DCUDA: what a thread writes *)

Section Cov2DFrame.
Context {F : Type} `{FloatArith F} `{Auxiliary F}.
Local Open Scope float_scope.

(** A thread of [computeCov2DCUDA] writes only entries of its own
    primitive: the mean gradient and the opacity gradient at [idx], the six
    covariance gradients from [6 * idx] on.  Without anti-aliasing it
    leaves the opacity gradients as they are.  It writes nothing when its
    rank is at or beyond [P] as the test of line 165 compares them, that
    is with [P] converted to the unsigned type of the rank, or when the
    primitive has no positive radius; a negative [P] therefore stops no
    thread whose rank is below [2^64 - 2^31]. *)
Theorem computeCov2DCUDA_writes_own_entries
    (idx P : Z) (means : buf (vec3 F)) (radii : buf Z) (cov3Ds : buf F)
    (h_x h_y tan_fovx tan_fovy : F) (view_matrix : buf F)
    (opacities dL_dconics dL_dopacity dL_dinvdepth : buf F)
    (dL_dmeans : buf (vec3 F)) (dL_dcov : buf F) (antialiasing : bool) :
  let out := computeCov2DCUDA idx P means radii cov3Ds h_x h_y tan_fovx tan_fovy
               view_matrix opacities dL_dconics dL_dopacity dL_dinvdepth
               dL_dmeans dL_dcov antialiasing in
  (forall j : Z, j <> idx ->
     c2_dL_dmeans out j = dL_dmeans j /\ c2_dL_dopacity out j = dL_dopacity j) /\
  (forall i : Z, (i < 6 * idx \/ 6 * idx + 6 <= i)%Z -> c2_dL_dcov out i = dL_dcov i) /\
  (antialiasing = false -> c2_dL_dopacity out = dL_dopacity) /\
  ((int_to_rank P <= idx \/ radii idx <= 0)%Z ->
   out = mkCov2DOut dL_dopacity dL_dmeans dL_dcov) /\
  ((- 2 ^ 31 <= P < 0)%Z -> (0 <= idx < 2 ^ 64 - 2 ^ 31)%Z ->
   out = computeCov2DCUDA idx (idx + 1) means radii cov3Ds h_x h_y tan_fovx tan_fovy
           view_matrix opacities dL_dconics dL_dopacity dL_dinvdepth
           dL_dmeans dL_dcov antialiasing).
Proof.
  intros out. subst out.
  assert (Hneg : (- 2 ^ 31 <= P < 0)%Z -> (0 <= idx < 2 ^ 64 - 2 ^ 31)%Z ->
    computeCov2DCUDA idx P means radii cov3Ds h_x h_y tan_fovx tan_fovy
      view_matrix opacities dL_dconics dL_dopacity dL_dinvdepth
      dL_dmeans dL_dcov antialiasing
    = computeCov2DCUDA idx (idx + 1) means radii cov3Ds h_x h_y tan_fovx tan_fovy
        view_matrix opacities dL_dconics dL_dopacity dL_dinvdepth
        dL_dmeans dL_dcov antialiasing).
  { intros HP Hi. unfold computeCov2DCUDA.
    replace (idx >=? int_to_rank P)%Z with false.
    2: { symmetry. rewrite Z.geb_leb. apply Z.leb_gt. unfold int_to_rank.
         destruct (Z.ltb_spec P 0); lia. }
    replace (idx >=? int_to_rank (idx + 1))%Z with false; [reflexivity|].
    symmetry. rewrite Z.geb_leb. apply Z.leb_gt. apply int_to_rank_above. lia. }
  split; [|split; [|split; [|split; [|exact Hneg]]]]; clear Hneg;
    unfold computeCov2DCUDA;
    destruct ((idx >=? int_to_rank P)%Z || negb (radii idx >? 0)%Z) eqn:Hcull.
  1,3,5,7: cbn [c2_dL_dmeans c2_dL_dopacity c2_dL_dcov]; repeat split; reflexivity.
  all: apply orb_false_iff in Hcull; destruct Hcull as [HP Hr];
    rewrite Z.geb_leb in HP; apply Z.leb_gt in HP;
    apply negb_false_iff in Hr; rewrite Z.gtb_ltb in Hr; apply Z.ltb_lt in Hr;
    cbv zeta.
  - intros j Hj.
    destruct (negb (feq _ _)); cbn [c2_dL_dmeans c2_dL_dopacity];
      (split; [apply upd_other; exact Hj|]);
      unfold cov2D_antialiasing; destruct antialiasing;
      cbn [aa_dL_dopacity]; try reflexivity; apply upd_other; exact Hj.
  - intros i Hi.
    destruct (negb (feq _ _)); cbn [c2_dL_dcov].
    + rewrite !upd_other by lia. reflexivity.
    + rewrite fold_upd_zero.
      replace ((6 * idx <=? i) && (i <? 6 * idx + Z.of_nat 6))%Z with false;
        [reflexivity|].
      symmetry. apply andb_false_iff.
      destruct Hi as [Hi|Hi]; [left; apply Z.leb_gt; lia|right; apply Z.ltb_ge; lia].
  - intros ->. destruct (negb (feq _ _)); reflexivity.
  - intros [Hc|Hc]; lia.
Qed.
End Cov2DFrame.


(** ** computeColorFromSH: what the routine writes *)

Section ColorFromSHFrame.
Context {F : Type} `{FA : FloatArith F} `{AX : Auxiliary F}.
Local Open Scope float_scope.

End ColorFromSHFrame.

(** ** computeCov2DCUDA: the conic gradients it reads *)

Section Cov2DReads.
Context {F : Type} `{FloatArith F} `{Auxiliary F}.
Local Open Scope float_scope.

(** Of the four floats per primitive of the conic gradient buffer, a
    thread reads the first, the second and the fourth of its own primitive
    and nothing else: two buffers that agree on these three entries give
    the same result. *)
Theorem computeCov2DCUDA_reads_three_conic_entries
    (idx P : Z) (means : buf (vec3 F)) (radii : buf Z) (cov3Ds : buf F)
    (h_x h_y tan_fovx tan_fovy : F) (view_matrix : buf F)
    (opacities dL_dconics dL_dconics' dL_dopacity dL_dinvdepth : buf F)
    (dL_dmeans : buf (vec3 F)) (dL_dcov : buf F) (antialiasing : bool) :
  dL_dconics (4 * idx)%Z = dL_dconics' (4 * idx)%Z ->
  dL_dconics (4 * idx + 1)%Z = dL_dconics' (4 * idx + 1)%Z ->
  dL_dconics (4 * idx + 3)%Z = dL_dconics' (4 * idx + 3)%Z ->
  computeCov2DCUDA idx P means radii cov3Ds h_x h_y tan_fovx tan_fovy
    view_matrix opacities dL_dconics dL_dopacity dL_dinvdepth dL_dmeans dL_dcov
    antialiasing
  = computeCov2DCUDA idx P means radii cov3Ds h_x h_y tan_fovx tan_fovy
      view_matrix opacities dL_dconics' dL_dopacity dL_dinvdepth dL_dmeans dL_dcov
      antialiasing.
Proof.
  intros E0 E1 E3. unfold computeCov2DCUDA. now rewrite E0, E1, E3.
Qed.
End Cov2DReads.

Lemma computeCov2DCUDA_reads_three_conic_entries_witness :
  let conics : buf Qc := fun i => Scene.q (1 + i) 3 in
  let conics' : buf Qc := fun i => if (i =? 2)%Z then Scene.q 7 1 else Scene.q (1 + i) 3 in
  conics (4 * 0)%Z = conics' (4 * 0)%Z /\
  c2_dL_dcov
    (computeCov2DCUDA 0 1 (p_means3D PreScene.input) (p_radii PreScene.input)
       (p_cov3Ds PreScene.input) (Scene.q 1 1) (Scene.q 1 1) (Scene.q 1 1) (Scene.q 1 1)
       identity4 (p_opacities PreScene.input) conics (fun _ => Scene.q 1 1)
       (fun _ => Scene.q 1 5) (fun _ => mk3 (Scene.q 0 1) (Scene.q 0 1) (Scene.q 0 1))
       (fun _ => Scene.q 0 1) false)
  = c2_dL_dcov
      (computeCov2DCUDA 0 1 (p_means3D PreScene.input) (p_radii PreScene.input)
         (p_cov3Ds PreScene.input) (Scene.q 1 1) (Scene.q 1 1) (Scene.q 1 1) (Scene.q 1 1)
         identity4 (p_opacities PreScene.input) conics' (fun _ => Scene.q 1 1)
         (fun _ => Scene.q 1 5) (fun _ => mk3 (Scene.q 0 1) (Scene.q 0 1) (Scene.q 0 1))
         (fun _ => Scene.q 0 1) false).
Proof.
  cbv zeta. split; [reflexivity|].
  rewrite (computeCov2DCUDA_reads_three_conic_entries 0 1 (p_means3D PreScene.input)
             (p_radii PreScene.input) (p_cov3Ds PreScene.input)
             (Scene.q 1 1) (Scene.q 1 1) (Scene.q 1 1) (Scene.q 1 1) identity4
             (p_opacities PreScene.input)
             (fun i => Scene.q (1 + i) 3)
             (fun i => if (i =? 2)%Z then Scene.q 7 1 else Scene.q (1 + i) 3)
             (fun _ => Scene.q 1 1) (fun _ => Scene.q 1 5)
             (fun _ => mk3 (Scene.q 0 1) (Scene.q 0 1) (Scene.q 0 1))
             (fun _ => Scene.q 0 1) false eq_refl eq_refl eq_refl).
  reflexivity.
Defined.

(** ** computeCov3D: linearity, and what the routine writes *)

Section Cov3DLinear.
Context {F : Type} `{ExactArith F}.
Local Open Scope float_scope.
Import Glm.

Add Ring cov3D_linear_ring : exact_ring.

Lemma computeCov3D_from_dL_dM (idx : Z) (scale : vec3 F) (mod_ : F) (rot : vec4 F)
    (dL_dcov3Ds : buf F) (dL_dscales : buf (vec3 F)) (dL_drots : buf (vec4 F)) :
  computeCov3D idx scale mod_ rot dL_dcov3Ds dL_dscales dL_drots
  = cov3D_gradients idx scale mod_ rot (cov3D_dL_dM idx scale mod_ rot dL_dcov3Ds)
                    dL_dscales dL_drots.
Proof. reflexivity. Qed.

Lemma cov3D_dL_dM_scaled (idx : Z) (scale : vec3 F) (mod_ : F) (rot : vec4 F)
    (factor : F) (dL_dcov3Ds : buf F) :
  cov3D_dL_dM idx scale mod_ rot (fun i => factor * dL_dcov3Ds i)
  = smulm factor (cov3D_dL_dM idx scale mod_ rot dL_dcov3Ds).
Proof.
  unfold cov3D_dL_dM. cbv beta zeta.
  set (M := mmul _ (quat_to_R _ _ _ _)). clearbody M.
  destruct M as [[a0 a1 a2] [b0 b1 b2] [c0 c1 c2]].
  unfold lit. rewrite !(exact_div (of_Z 1) (of_Z 2)).
  generalize (fone / of_Z 2). intros half.
  generalize (dL_dcov3Ds (6 * idx + 0)%Z) (dL_dcov3Ds (6 * idx + 1)%Z)
             (dL_dcov3Ds (6 * idx + 2)%Z) (dL_dcov3Ds (6 * idx + 3)%Z)
             (dL_dcov3Ds (6 * idx + 4)%Z) (dL_dcov3Ds (6 * idx + 5)%Z).
  intros d0 d1 d2 d3 d4 d5.
  unfold mmul, smulm, mat3_of, at_, col, comp, vmuls; cbn.
  f_equal; f_equal; ring.
Qed.

Lemma cov3D_gradients_scaled (idx : Z) (scale : vec3 F) (mod_ : F) (rot : vec4 F)
    (factor : F) (dL_dM : mat3 F) (dL_dscales : buf (vec3 F)) (dL_drots : buf (vec4 F)) :
  let out := cov3D_gradients idx scale mod_ rot dL_dM dL_dscales dL_drots in
  let scaled := cov3D_gradients idx scale mod_ rot (smulm factor dL_dM)
                                dL_dscales dL_drots in
  fst scaled idx = smulv factor (fst out idx) /\
  snd scaled idx = mk4 (factor * x4 (snd out idx)) (factor * y4 (snd out idx))
                       (factor * z4 (snd out idx)) (factor * w4 (snd out idx)).
Proof.
  intros out scaled. subst out scaled. unfold cov3D_gradients. cbn [fst snd].
  rewrite !upd_same.
  destruct dL_dM as [[a0 a1 a2] [b0 b1 b2] [c0 c1 c2]].
  destruct rot as [r x y z]. destruct scale as [sx sy sz].
  unfold quat_to_R, smulm, transpose, mat3_of, at_, col, comp, dot, vmuls, smulv; cbn.
  split; f_equal; ring.
Qed.

(** The routine writes the entry [idx] of the scale and rotation gradient
    buffers and no other.  In exact arithmetic both gradients are linear in
    the incoming covariance gradient: scaling the six entries of the
    primitive by a factor scales the two gradients by that factor, so that
    a zero incoming gradient gives zero gradients. *)
Theorem computeCov3D_is_linear
    (idx : Z) (scale : vec3 F) (mod_ : F) (rot : vec4 F) (factor : F)
    (dL_dcov3Ds : buf F) (dL_dscales : buf (vec3 F)) (dL_drots : buf (vec4 F)) :
  let out := computeCov3D idx scale mod_ rot dL_dcov3Ds dL_dscales dL_drots in
  let scaled := computeCov3D idx scale mod_ rot (fun i => factor * dL_dcov3Ds i)
                             dL_dscales dL_drots in
  (forall j : Z, j <> idx -> fst out j = dL_dscales j /\ snd out j = dL_drots j) /\
  fst scaled idx = smulv factor (fst out idx) /\
  snd scaled idx = mk4 (factor * x4 (snd out idx)) (factor * y4 (snd out idx))
                       (factor * z4 (snd out idx)) (factor * w4 (snd out idx)).
Proof.
  intros out scaled. subst out scaled. split.
  - intros j Hj. unfold computeCov3D. cbn [fst snd]. split; apply upd_other; exact Hj.
  - rewrite !computeCov3D_from_dL_dM, cov3D_dL_dM_scaled.
    apply cov3D_gradients_scaled.
Qed.
End Cov3DLinear.

Lemma computeCov3D_is_linear_witness :
  let scale := mk3 (Scene.q 1 2) (Scene.q 2 1) (Scene.q 3 1) in
  let rot := mk4 (Scene.q 1 2) (Scene.q 1 3) (Scene.q (-1) 4) (Scene.q 1 5) in
  let dL_dcov3Ds : buf Qc := fun i => Scene.q (1 + i) 7 in
  let zero3 : buf (vec3 Qc) := fun _ => mk3 (Scene.q 0 1) (Scene.q 0 1) (Scene.q 0 1) in
  let zero4 : buf (vec4 Qc) :=
    fun _ => mk4 (Scene.q 0 1) (Scene.q 0 1) (Scene.q 0 1) (Scene.q 0 1) in
  fst (computeCov3D 0 scale (Scene.q 3 2) rot (fun i => Scene.q 0 1 * dL_dcov3Ds i)%F
         zero3 zero4) 0%Z
  = Glm.smulv (Scene.q 0 1)
      (fst (computeCov3D 0 scale (Scene.q 3 2) rot dL_dcov3Ds zero3 zero4) 0%Z).
Proof.
  exact (proj1 (proj2
    (@computeCov3D_is_linear Qc _ Qc_exact 0
       (mk3 (Scene.q 1 2) (Scene.q 2 1) (Scene.q 3 1)) (Scene.q 3 2)
       (mk4 (Scene.q 1 2) (Scene.q 1 3) (Scene.q (-1) 4) (Scene.q 1 5))
       (Scene.q 0 1) (fun i => Scene.q (1 + i) 7)
       (fun _ => mk3 (Scene.q 0 1) (Scene.q 0 1) (Scene.q 0 1))
       (fun _ => mk4 (Scene.q 0 1) (Scene.q 0 1) (Scene.q 0 1) (Scene.q 0 1))))).
Defined.

(** ** preprocessCUDA and the two launches of BACKWARD::preprocess *)

Section PreprocessFrame.
Context {F : Type} `{FloatArith F} `{Auxiliary F}.
Local Open Scope float_scope.

(** A thread of [preprocessCUDA] never writes the opacity gradients nor the
    3D covariance gradients.  In the mean, DC, scale and rotation gradient
    buffers it writes the entry of its own primitive only; without
    spherical harmonics ([shs] null) it leaves the DC and SH gradients as
    they are, and without scales ([scales] null) the scale and rotation
    gradients. *)
Theorem preprocessCUDA_writes_own_entries (idx : Z) (a : PreIn F) (g : Grads F) :
  let g' := preprocessCUDA idx a g in
  g_dL_dopacity g' = g_dL_dopacity g /\ g_dL_dcov3D g' = g_dL_dcov3D g /\
  (forall j : Z, j <> idx ->
     g_dL_dmean3D g' j = g_dL_dmean3D g j /\ g_dL_ddc g' j = g_dL_ddc g j /\
     g_dL_dscale g' j = g_dL_dscale g j /\ g_dL_drot g' j = g_dL_drot g j) /\
  (p_shs a = None -> g_dL_ddc g' = g_dL_ddc g /\ g_dL_dsh g' = g_dL_dsh g) /\
  (p_scales a = None -> g_dL_dscale g' = g_dL_dscale g /\ g_dL_drot g' = g_dL_drot g).
Proof.
  intros g'. subst g'. unfold preprocessCUDA.
  destruct (_ || _).
  - repeat split; reflexivity.
  - destruct (p_shs a) as [shs|]; destruct (p_scales a) as [scales|];
      unfold computeColorFromSH, computeCov3D;
      try destruct (computeColorFromSH_body _ _ _ _ _ _ _ _ _ _ _) as [[dm ddc] dsh] eqn:Ebody;
      cbn [g_dL_dopacity g_dL_dcov3D g_dL_dmean3D g_dL_ddc g_dL_dsh g_dL_dscale g_dL_drot];
      (split; [reflexivity|]); (split; [reflexivity|]);
      (split; [|split; try discriminate; intros _; split; reflexivity]);
      intros j Hj; rewrite ?upd_other by congruence;
      repeat split; try reflexivity;
      unfold computeColorFromSH_body in Ebody; cbv zeta in Ebody;
      repeat match type of Ebody with
             | context [if ?b then _ else _] => destruct b
             end;
      injection Ebody as _ <- _; apply upd_other; exact Hj.
Qed.





End PreprocessFrame.


(** ** BACKWARD::render: the grid *)

Section RenderGrid.
Context {F : Type} `{FloatArith F} `{FloatExp F} `{Config}.

(** [BACKWARD::render] launches [((B * 32) + 31) / 32] warps: for a bucket
    count that is not negative and whose product by 32 fits an [int], that
    is one warp per bucket, none of which is out of range, their atomic
    additions being applied to the gradient buffers; with no bucket the
    buffers are left as they are. *)
Theorem render_runs_one_warp_per_bucket
    (a : RenderIn F) (garbage : Z -> nat -> Regs F) (o : RenderOut F) :
  (0 <= r_B a)%Z -> (r_B a * 32 + 31 < 2 ^ 31)%Z ->
  render a garbage o
  = fold_left
      (fun o gb =>
         fold_left atomicAdd
           (PerGaussianRenderCUDA a (Z.of_nat gb) (garbage (Z.of_nat gb))) o)
      (seq 0 (Z.to_nat (r_B a))) o /\
  (forall gb : nat, In gb (seq 0 (Z.to_nat (r_B a))) ->
     (Z.of_nat gb <? u32 (r_B a))%Z = true) /\
  (r_B a = 0%Z -> render a garbage o = o).
Proof.
  intros HB Hfit.
  assert (Hq : Z.quot (r_B a * 32 + 31) 32 = r_B a).
  { rewrite Z.quot_div_nonneg by lia.
    symmetry. apply (Z.div_unique _ _ _ 31); lia. }
  assert (Heq : render a garbage o
    = fold_left
        (fun o gb =>
           fold_left atomicAdd
             (PerGaussianRenderCUDA a (Z.of_nat gb) (garbage (Z.of_nat gb))) o)
        (seq 0 (Z.to_nat (r_B a))) o).
  { unfold render. rewrite Hq. reflexivity. }
  split; [exact Heq|]. split.
  - intros gb Hin. apply in_seq in Hin. apply Z.ltb_lt.
    rewrite u32_small by lia. lia.
  - intros H0'. rewrite Heq, H0'. reflexivity.
Qed.
End RenderGrid.

Lemma render_runs_one_warp_per_bucket_witness :
  (0 <= r_B Scene.scene)%Z /\ (r_B Scene.scene * 32 + 31 < 2 ^ 31)%Z /\
  forall gb : nat, In gb (seq 0 (Z.to_nat (r_B Scene.scene))) ->
    (Z.of_nat gb <? u32 (r_B Scene.scene))%Z = true.
Proof.
  assert (HB : (0 <= r_B Scene.scene)%Z) by (vm_compute; discriminate).
  assert (Hfit : (r_B Scene.scene * 32 + 31 < 2 ^ 31)%Z) by (vm_compute; reflexivity).
  split; [exact HB|]. split; [exact Hfit|].
  exact (proj1 (proj2 (render_runs_one_warp_per_bucket Scene.scene
                         (fun _ => Scene.garbage)
                         (mkRenderOut (fun _ => mk4 (of_Z 0) (of_Z 0) (of_Z 0) (of_Z 0))
                                      (fun _ => mk4 (of_Z 0) (of_Z 0) (of_Z 0) (of_Z 0))
                                      (fun _ => of_Z 0) (fun _ => of_Z 0) (fun _ => of_Z 0))
                         HB Hfit))).
Defined.

(** ** Gradients that the masks of the source switch off *)

Section Masks.
Context {F : Type} `{ExactArith F} `{Auxiliary F}.
Local Open Scope float_scope.
Import Glm.

Add Ring masks_ring : exact_ring.

(** In exact arithmetic, a colour channel that the forward pass has
    clamped passes no gradient to the DC coefficient of the primitive: the
    component of [dL_ddc[idx]] for that channel is written as zero. *)
Theorem clamped_channel_gets_no_DC_gradient
    (idx deg max_coeffs : Z) (means : buf (vec3 F)) (campos : vec3 F)
    (dc shs : buf (vec3 F)) (clamped : buf bool) (dL_dcolor : buf (vec3 F))
    (dL_dmeans dL_ddc dL_dshs : buf (vec3 F)) :
  let out := computeColorFromSH idx deg max_coeffs means campos dc shs clamped
               dL_dcolor dL_dmeans dL_ddc dL_dshs in
  (clamped (3 * idx + 0)%Z = true -> x3 (snd (fst out) idx) = of_Z 0) /\
  (clamped (3 * idx + 1)%Z = true -> y3 (snd (fst out) idx) = of_Z 0) /\
  (clamped (3 * idx + 2)%Z = true -> z3 (snd (fst out) idx) = of_Z 0).
Proof.
  intros out. subst out. unfold computeColorFromSH, computeColorFromSH_body. cbv zeta.
  destruct (deg >? 0)%Z; [destruct (deg >? 1)%Z; [destruct (deg >? 2)%Z|]|];
    cbn [fst snd]; rewrite upd_same; unfold smulv; cbn [x3 y3 z3];
    (repeat split; intros ->; rewrite of_Z_0; ring).
Qed.

(** In exact arithmetic, a primitive whose camera-space [x / z] lies
    outside the guard band of 1.3 times the tangent of the field of view,
    and is therefore clamped, receives no gradient through the clamped
    coordinate: the camera-space gradient that the routine transforms back
    to the mean has a zero first component. *)
Theorem clamped_coordinate_gets_no_gradient
    (idx : Z) (means : buf (vec3 F)) (cov3Ds : buf F)
    (h_x h_y tan_fovx tan_fovy : F) (view_matrix : buf F)
    (dL_dc_xx dL_dc_xy dL_dc_yy : F) (dL_dinvdepth : buf F) :
  let t := transformPoint4x3 (means idx) view_matrix in
  let limx := lit 13 10 * tan_fovx in
  let fw := cov2D_forward idx means cov3Ds h_x h_y tan_fovx tan_fovy view_matrix in
  ((x3 t / z3 t <? - limx) || (x3 t / z3 t >? limx)) = true ->
  fw_x_grad_mul fw = of_Z 0 /\
  exists dL_dty dL_dtz : F,
    cov2D_dL_dmean fw h_x h_y dL_dc_xx dL_dc_xy dL_dc_yy dL_dinvdepth idx view_matrix
    = transformVec4x3Transpose (mk3 (of_Z 0) dL_dty dL_dtz) view_matrix.
Proof.
  intros t limx fw Hout.
  assert (Hmul : fw_x_grad_mul fw = of_Z 0).
  { subst fw. unfold cov2D_forward. cbn [fw_x_grad_mul]. fold t. fold limx.
    now rewrite Hout. }
  split; [exact Hmul|].
  unfold cov2D_dL_dmean. cbv zeta. rewrite Hmul.
  eexists. eexists. f_equal. f_equal. rewrite of_Z_0. ring.
Qed.
End Masks.

Lemma clamped_channel_gets_no_DC_gradient_witness :
  let zero3 : buf (vec3 Qc) := fun _ => mk3 (Scene.q 0 1) (Scene.q 0 1) (Scene.q 0 1) in
  let out := computeColorFromSH 0 3 16 (fun _ => mk3 (Scene.q 1 1) (Scene.q 2 1) (Scene.q 2 1))
               (mk3 (Scene.q 0 1) (Scene.q 0 1) (Scene.q 0 1))
               zero3 (fun i => mk3 (Scene.q i 3) (Scene.q 1 2) (Scene.q 1 1))
               (fun i => (i =? 0)%Z) (fun _ => mk3 (Scene.q 1 1) (Scene.q 1 1) (Scene.q 1 1))
               zero3 zero3 zero3 in
  x3 (snd (fst out) 0%Z) = of_Z 0.
Proof.
  exact (proj1 (@clamped_channel_gets_no_DC_gradient Qc _ Qc_exact _ 0 3 16
                  (fun _ => mk3 (Scene.q 1 1) (Scene.q 2 1) (Scene.q 2 1))
                  (mk3 (Scene.q 0 1) (Scene.q 0 1) (Scene.q 0 1))
                  (fun _ => mk3 (Scene.q 0 1) (Scene.q 0 1) (Scene.q 0 1))
                  (fun i => mk3 (Scene.q i 3) (Scene.q 1 2) (Scene.q 1 1))
                  (fun i => (i =? 0)%Z)
                  (fun _ => mk3 (Scene.q 1 1) (Scene.q 1 1) (Scene.q 1 1))
                  (fun _ => mk3 (Scene.q 0 1) (Scene.q 0 1) (Scene.q 0 1))
                  (fun _ => mk3 (Scene.q 0 1) (Scene.q 0 1) (Scene.q 0 1))
                  (fun _ => mk3 (Scene.q 0 1) (Scene.q 0 1) (Scene.q 0 1)))
               eq_refl).
Defined.

(** A primitive at [(2, 0, 1)] in front of a camera with identity view
    matrix and unit tangents: [x / z = 2] is beyond 1.3. *)
Lemma clamped_coordinate_gets_no_gradient_witness :
  let means : buf (vec3 Qc) := fun _ => mk3 (Scene.q 2 1) (Scene.q 0 1) (Scene.q 1 1) in
  let cov3Ds := on_axis_cov3D (Scene.q 2 1) (Scene.q 1 2) (Scene.q 1 1) in
  let one := Scene.q 1 1 in
  let t := transformPoint4x3 (means 0%Z) identity4 in
  ((x3 t / z3 t <? - (lit 13 10 * one)) || (x3 t / z3 t >? lit 13 10 * one))%F = true /\
  fw_x_grad_mul (cov2D_forward 0 means cov3Ds one one one one identity4) = of_Z 0.
Proof.
  cbv zeta.
  assert (Hout :
    (let t := transformPoint4x3 (mk3 (Scene.q 2 1) (Scene.q 0 1) (Scene.q 1 1)) identity4 in
     ((x3 t / z3 t <? - (lit 13 10 * Scene.q 1 1))
      || (x3 t / z3 t >? lit 13 10 * Scene.q 1 1))%F = true))
    by (vm_compute; reflexivity).
  split; [exact Hout|].
  exact (proj1 (@clamped_coordinate_gets_no_gradient Qc _ Qc_exact _ 0
                  (fun _ => mk3 (Scene.q 2 1) (Scene.q 0 1) (Scene.q 1 1))
                  (on_axis_cov3D (Scene.q 2 1) (Scene.q 1 2) (Scene.q 1 1))
                  (Scene.q 1 1) (Scene.q 1 1) (Scene.q 1 1) (Scene.q 1 1) identity4
                  (Scene.q 1 1) (Scene.q 1 1) (Scene.q 1 1) (fun _ => Scene.q 1 1) Hout)).
Defined.

(** ** PerGaussianRenderCUDA: the transmittance register *)

Section Transmittance.
Context `{Config}.
Local Open Scope float_scope.

Lemma Qc_ltb_false (x y : Qc) : Qc_ltb x y = false -> (this y <= this x)%Q.
Proof.
  unfold Qc_ltb. destruct (Qccompare x y) eqn:Ec; try discriminate; intros _.
  - apply Qceq_alt in Ec. subst. apply Qle_refl.
  - apply Qcgt_alt in Ec. apply Qlt_le_weak. exact Ec.
Qed.

Lemma Qc_ltb_true (x y : Qc) : Qc_ltb x y = true -> (this x < this y)%Q.
Proof.
  unfold Qc_ltb. destruct (Qccompare x y) eqn:Ec; try discriminate; intros _.
  apply Qclt_alt in Ec. exact Ec.
Qed.

(** Alpha is at most 0.99. *)
Lemma alpha_at_most_099 (l : Lane Qc) (px : Pixel) :
  (this (b_alpha (blend l px)) <= 99 # 100)%Q.
Proof.
  unfold blend. cbn [b_alpha].
  set (g := (w4 (con_o l) * fexp _)%F). clearbody g.
  change (fmin (lit 99 100) g) with (if Qc_ltb g (lit 99 100) then g else lit 99 100).
  destruct (Qc_ltb g (lit 99 100)) eqn:E.
  - apply Qc_ltb_true in E. apply Qlt_le_weak.
    replace (this (lit 99 100)) with (99 # 100)%Q in E by (vm_compute; reflexivity).
    exact E.
  - vm_compute. discriminate.
Qed.

(** In exact arithmetic, a sample that the kernel composites leaves the
    running transmittance positive and strictly smaller: the register [T]
    that the lane hands on is [T * (1 - alpha)] with alpha between 1/255
    and 0.99, hence at least a hundredth of [T] and less than [T]. *)
Theorem composited_sample_lowers_transmittance
    (a : RenderIn Qc) (l : Lane Qc) (idx : Z) (r : Regs Qc) (acc : Acc Qc) :
  let px := pixel_of a (tile_id l) idx in
  let b := blend l px in
  let T' := T (fst (do_work a l idx px r acc)) in
  valid_splat l = true -> valid_pixel px = true -> (0 <= idx < BLOCK_SIZE)%Z ->
  (of_Z (splat_idx_in_tile l) >=? last_contributor r) = false ->
  (b_power b >? of_Z 0) = false -> (b_alpha b <? lit 1 255) = false ->
  Qclt (Q2Qc 0) (T r) ->
  T' = T r * (fone - b_alpha b) /\
  Qclt (Q2Qc 0) T' /\ Qclt T' (T r) /\ Qcle (T r * lit 1 100) T'.
Proof.
  intros px b T' Hs Hp Hidx Hlast Hpow Halpha HT.
  assert (HT' : T' = T r * (fone - b_alpha b)).
  { subst T'. unfold px. rewrite do_work_sample by assumption.
    fold px. fold b. rewrite Hpow, Halpha. apply composite_T. }
  split; [exact HT'|]. rewrite HT'.
  pose proof (alpha_at_most_099 l px) as Hhi. fold b in Hhi.
  apply Qc_ltb_false in Halpha.
  replace (this (lit 1 255)) with (1 # 255)%Q in Halpha by (vm_compute; reflexivity).
  unfold Qclt, Qcle in *.
  change (this (Q2Qc 0)) with 0%Q in *.
  replace (this (T r * lit 1 100)) with (Qred (this (T r) * (1 # 100)))
    by (cbn [fmul Qc_arith Qcmult Q2Qc this]; f_equal; f_equal; vm_compute; reflexivity).
  cbn [fmul fsub fone Qc_arith Qcmult Qcminus Qcplus Qcopp Q2Qc this].
  rewrite !Qred_correct.
  set (A := this (b_alpha b)) in *. set (Tq := this (T r)) in *.
  clearbody A Tq.
  change (this (Q2Qc 1)) with 1%Q.
  repeat split; nra.
Qed.
End Transmittance.

Lemma composited_sample_lowers_transmittance_witness :
  let a := Scene.scene in
  let l := lane_setup a 0 0 in
  let px := pixel_of a (tile_id l) 0 in
  let b := blend l px in
  let r := SceneVariants.fresh in
  valid_splat l = true /\ valid_pixel px = true /\
  (of_Z (splat_idx_in_tile l) >=? last_contributor r)%F = false /\
  (b_power b >? of_Z 0)%F = false /\ (b_alpha b <? lit 1 255)%F = false /\
  Qclt (Q2Qc 0) (T r) /\
  Qclt (T (fst (do_work a l 0 px r Acc_zero))) (T r).
Proof.
  cbv zeta.
  assert (Hs : valid_splat (lane_setup Scene.scene 0 0) = true) by (vm_compute; reflexivity).
  assert (Hp : valid_pixel (pixel_of Scene.scene (tile_id (lane_setup Scene.scene 0 0)) 0)
               = true) by (vm_compute; reflexivity).
  assert (Hl : (of_Z (splat_idx_in_tile (lane_setup Scene.scene 0 0))
                >=? last_contributor SceneVariants.fresh)%F = false)
    by (vm_compute; reflexivity).
  assert (Hpow : (b_power (blend (lane_setup Scene.scene 0 0)
                     (pixel_of Scene.scene (tile_id (lane_setup Scene.scene 0 0)) 0))
                  >? of_Z 0)%F = false) by (vm_compute; reflexivity).
  assert (Halpha : (b_alpha (blend (lane_setup Scene.scene 0 0)
                     (pixel_of Scene.scene (tile_id (lane_setup Scene.scene 0 0)) 0))
                    <? lit 1 255)%F = false) by (vm_compute; reflexivity).
  assert (HT : Qclt (Q2Qc 0) (T SceneVariants.fresh)) by (vm_compute; reflexivity).
  repeat (split; [assumption|]).
  exact (proj1 (proj2 (proj2
    (composited_sample_lowers_transmittance Scene.scene (lane_setup Scene.scene 0 0) 0
       SceneVariants.fresh Acc_zero Hs Hp
       ltac:(vm_compute; split; [discriminate|reflexivity]) Hl Hpow Halpha HT)))).
Defined.

(** ** PerGaussianRenderCUDA: the state a lane works on *)

Section Reconstruction.
Context {F : Type} `{ExactArith F} `{FloatExp F} `{Config}.
Local Open Scope float_scope.

(** In exact arithmetic, for a bucket whose buffers come from a
    front-to-back forward pass: the registers that reach lane [k] for a
    pixel whose contributors go beyond the place [m] of the lane's
    primitive hold the state of the forward pass at that place.  [T] is
    the transmittance before the primitive; [ar] and [ard] are the colour
    and inverse depth composited before it less the final ones of the
    pixel, which lane 0 has subtracted from the checkpoint of the bucket;
    [T_final], [last_contributor] and the pixel's gradients are those of
    the pixel. *)
Theorem checkpoint_replay_reconstructs_state
    (a : RenderIn F) (global_bucket_idx : Z) (garbage : nat -> Regs F) (idx k : nat) :
  let tile := tile_id (lane_setup a global_bucket_idx 0) in
  let px := pixel_of a tile (Z.of_nat idx) in
  let m := place_of a global_bucket_idx k in
  let r := chain_regs a global_bucket_idx garbage idx k in
  let before := forward_upto a tile px m in
  let final := forward_upto a tile px (Z.to_nat (r_n_contrib a (pix_id px))) in
  bucket_well_formed a global_bucket_idx -> forward_consistent a global_bucket_idx ->
  k < 32 -> (Z.of_nat idx < BLOCK_SIZE)%Z -> valid_pixel px = true ->
  (Z.of_nat m < r_n_contrib a (pix_id px))%Z ->
  T r = f_T before /\
  (forall ch, (ch < C)%nat -> ar r ch = f_C before ch - f_C final ch) /\
  ard r = f_D before - f_D final /\
  T_final r = f_T final /\
  last_contributor r = of_Z (r_n_contrib a (pix_id px)) /\
  (forall ch, (ch < C)%nat ->
     dL_dpixel r ch = r_dL_dpixels a (u32 (Z.of_nat ch * r_H a * r_W a + pix_id px)%Z)) /\
  dL_invdepth r = r_dL_invdepths a (pix_id px).
Proof.
  intros tile px m r before final Hwf Hfc Hk Hidx Hp Hlt.
  exact (chain_matches a global_bucket_idx garbage Hwf Hfc idx k Hk Hidx Hp Hlt).
Qed.
End Reconstruction.

Lemma checkpoint_replay_reconstructs_state_witness :
  let a := Scene.scene in
  let px := pixel_of a (tile_id (lane_setup a 1 0)) 1 in
  let r := chain_regs a 1 Scene.garbage 1 1 in
  bucket_well_formed a 1 /\ forward_consistent a 1 /\ valid_pixel px = true /\
  (Z.of_nat (place_of a 1 1) < r_n_contrib a (pix_id px))%Z /\
  T r = f_T (forward_upto a (tile_id (lane_setup a 1 0)) px (place_of a 1 1)).
Proof.
  cbv zeta.
  assert (Hwf : bucket_well_formed Scene.scene 1).
  { vm_compute. repeat split; try reflexivity; intros E; discriminate E. }
  assert (Hfc : forward_consistent Scene.scene 1).
  { apply (forward_consistentb_sound Qc_feq_eq). vm_compute. reflexivity. }
  assert (Hp : valid_pixel (pixel_of Scene.scene (tile_id (lane_setup Scene.scene 1 0)) 1)
               = true) by (vm_compute; reflexivity).
  assert (Hlt : (Z.of_nat (place_of Scene.scene 1 1)
                 < r_n_contrib Scene.scene
                     (pix_id (pixel_of Scene.scene
                                (tile_id (lane_setup Scene.scene 1 0)) 1)))%Z)
    by (vm_compute; reflexivity).
  split; [exact Hwf|]. split; [exact Hfc|]. split; [exact Hp|]. split; [exact Hlt|].
  exact (proj1 (@checkpoint_replay_reconstructs_state Qc _ Qc_exact _ _
                  Scene.scene 1 Scene.garbage 1 1 Hwf Hfc
                  ltac:(lia) ltac:(vm_compute; reflexivity) Hp Hlt)).
Defined.

(** ** BACKWARD::preprocess: the screen-space mean gradients it reads *)

Section MeanGradientReads.
Context {F : Type} `{FloatArith F} `{Auxiliary F}.
Local Open Scope float_scope.

Lemma fold_left_ext_all {S A : Type} (f g : S -> A -> S) (l : list A) (s : S) :
  (forall s x, f s x = g s x) -> fold_left f l s = fold_left g l s.
Proof.
  intros Hfg. revert s. induction l as [|x l IH]; intros s; [reflexivity|].
  cbn [fold_left]. rewrite Hfg. apply IH.
Qed.

(** Of the four floats of a [dL_dmean2D] entry, [BACKWARD::preprocess]
    reads the first two only: the third and fourth, in which the
    compositing kernel accumulates magnitudes, have no influence on any of
    the gradients it writes. *)
Theorem preprocess_ignores_magnitude_channels
    (a : PreIn F) (dL_dmean2D : buf (vec4 F)) (g : Grads F) :
  (forall i : Z, x4 (dL_dmean2D i) = x4 (p_dL_dmean2D a i) /\
                 y4 (dL_dmean2D i) = y4 (p_dL_dmean2D a i)) ->
  preprocess (with_dL_dmean2D a dL_dmean2D) g = preprocess a g.
Proof.
  intros Hxy. unfold preprocess, launch_1d.
  change (p_P (with_dL_dmean2D a dL_dmean2D)) with (p_P a).
  rewrite (fold_left_ext_all
             (fun s i => cov2D_thread (Z.of_nat i) (with_dL_dmean2D a dL_dmean2D) s)
             (fun s i => cov2D_thread (Z.of_nat i) a s)) by reflexivity.
  apply fold_left_ext_all. intros s i.
  unfold preprocessCUDA.
  change (p_P (with_dL_dmean2D a dL_dmean2D)) with (p_P a).
  change (p_radii (with_dL_dmean2D a dL_dmean2D)) with (p_radii a).
  destruct (_ || _); [reflexivity|].
  assert (Hmean : preprocess_dL_dmean (Z.of_nat i) (p_means3D (with_dL_dmean2D a dL_dmean2D))
                    (p_projmatrix (with_dL_dmean2D a dL_dmean2D))
                    (p_dL_dmean2D (with_dL_dmean2D a dL_dmean2D))
                  = preprocess_dL_dmean (Z.of_nat i) (p_means3D a) (p_projmatrix a)
                      (p_dL_dmean2D a)).
  { unfold preprocess_dL_dmean. cbn [p_means3D p_projmatrix p_dL_dmean2D with_dL_dmean2D].
    destruct (Hxy (Z.of_nat i)) as [-> ->]. reflexivity. }
  rewrite Hmean. reflexivity.
Qed.
End MeanGradientReads.

Lemma preprocess_ignores_magnitude_channels_witness :
  let d : buf (vec4 Qc) := fun _ => mk4 (Scene.q 1 1) (Scene.q 2 1) (Scene.q 9 1) (Scene.q 9 1) in
  (forall i : Z, x4 (d i) = x4 (p_dL_dmean2D PreScene.input i) /\
                 y4 (d i) = y4 (p_dL_dmean2D PreScene.input i)) /\
  preprocess (with_dL_dmean2D PreScene.input d) (PreScene.grads (Scene.q 5 1))
  = preprocess PreScene.input (PreScene.grads (Scene.q 5 1)).
Proof.
  cbv zeta.
  assert (Hxy : forall i : Z,
            x4 (mk4 (Scene.q 1 1) (Scene.q 2 1) (Scene.q 9 1) (Scene.q 9 1))
            = x4 (p_dL_dmean2D PreScene.input i) /\
            y4 (mk4 (Scene.q 1 1) (Scene.q 2 1) (Scene.q 9 1) (Scene.q 9 1))
            = y4 (p_dL_dmean2D PreScene.input i)) by (intros i; split; reflexivity).
  split; [exact Hxy|].
  exact (preprocess_ignores_magnitude_channels PreScene.input
           (fun _ => mk4 (Scene.q 1 1) (Scene.q 2 1) (Scene.q 9 1) (Scene.q 9 1))
           (PreScene.grads (Scene.q 5 1)) Hxy).
Defined.

(** ** PerGaussianRenderCUDA: the registers of the pixel *)

Section PixelRegisters.
Context {F : Type} `{FloatArith F} `{FloatExp F} `{Config}.

(** The work of a lane changes [T], [ar] and [ard] only: the final
    transmittance, the contributor count and the gradients of the pixel go
    through it unchanged.  Every lane therefore finds, for a pixel, the
    values of these four registers that lane 0 held for that pixel. *)
Theorem pixel_registers_pass_unchanged
    (a : RenderIn F) (global_bucket_idx : Z) (garbage : nat -> Regs F) :
  (forall (l : Lane F) (idx : Z) (px : Pixel) (r : Regs F) (acc : Acc F),
     let r' := fst (do_work a l idx px r acc) in
     T_final r' = T_final r /\ last_contributor r' = last_contributor r /\
     dL_dpixel r' = dL_dpixel r /\ dL_invdepth r' = dL_invdepth r) /\
  (forall idx k : nat,
     let r := chain_regs a global_bucket_idx garbage idx k in
     let r0 := regs_in a global_bucket_idx garbage idx 0 in
     T_final r = T_final r0 /\ last_contributor r = last_contributor r0 /\
     dL_dpixel r = dL_dpixel r0 /\ dL_invdepth r = dL_invdepth r0).
Proof.
  split.
  - intros l idx px r acc. apply do_work_kept.
  - intros idx k. apply chain_regs_kept.
Qed.
End PixelRegisters.

(** ** computeColorFromSH: degree 0 *)

Section DegreeZero.
Context {F : Type} `{ExactArith F} `{Auxiliary F}.
Local Open Scope float_scope.
Import Glm.

Add Ring degree_zero_ring : exact_ring.

(** With a degree of 0 (or less) the colour does not depend on the view
    direction: nothing is written to [dL_dshs], and in exact arithmetic
    the gradient that the routine pushes through the normalization of the
    direction is the zero vector. *)
Theorem degree_zero_has_no_view_dependence
    (idx deg max_coeffs : Z) (means : buf (vec3 F)) (campos : vec3 F)
    (dc shs : buf (vec3 F)) (clamped : buf bool) (dL_dcolor : buf (vec3 F))
    (dL_ddc dL_dshs : buf (vec3 F)) :
  (deg <= 0)%Z ->
  let out := computeColorFromSH_body idx deg max_coeffs means campos dc shs clamped
               dL_dcolor dL_ddc dL_dshs in
  snd out = dL_dshs /\
  fst (fst out) = dnormvdv (vsub (means idx) campos) (mk3 (of_Z 0) (of_Z 0) (of_Z 0)).
Proof.
  intros Hdeg out. subst out. unfold computeColorFromSH_body. cbv zeta.
  replace (deg >? 0)%Z with false by (symmetry; rewrite Z.gtb_ltb; apply Z.ltb_ge; lia).
  cbn [fst snd]. split; [reflexivity|].
  f_equal. unfold dot. cbn [x3 y3 z3]. rewrite of_Z_0. f_equal; ring.
Qed.
End DegreeZero.

Lemma degree_zero_has_no_view_dependence_witness :
  let zero3 : buf (vec3 Qc) := fun _ => mk3 (Scene.q 0 1) (Scene.q 0 1) (Scene.q 0 1) in
  (0 <= 0)%Z /\
  snd (computeColorFromSH_body 0 0 16 (fun _ => mk3 (Scene.q 1 1) (Scene.q 2 1) (Scene.q 2 1))
         (mk3 (Scene.q 0 1) (Scene.q 0 1) (Scene.q 0 1)) zero3
         (fun i => mk3 (Scene.q i 3) (Scene.q 1 2) (Scene.q 1 1)) (fun _ => false)
         (fun _ => mk3 (Scene.q 1 1) (Scene.q 1 1) (Scene.q 1 1)) zero3 zero3)
  = zero3.
Proof.
  cbv zeta. split; [lia|].
  exact (proj1 (@degree_zero_has_no_view_dependence Qc _ Qc_exact _ 0 0 16
                  (fun _ => mk3 (Scene.q 1 1) (Scene.q 2 1) (Scene.q 2 1))
                  (mk3 (Scene.q 0 1) (Scene.q 0 1) (Scene.q 0 1))
                  (fun _ => mk3 (Scene.q 0 1) (Scene.q 0 1) (Scene.q 0 1))
                  (fun i => mk3 (Scene.q i 3) (Scene.q 1 2) (Scene.q 1 1)) (fun _ => false)
                  (fun _ => mk3 (Scene.q 1 1) (Scene.q 1 1) (Scene.q 1 1))
                  (fun _ => mk3 (Scene.q 0 1) (Scene.q 0 1) (Scene.q 0 1))
                  (fun _ => mk3 (Scene.q 0 1) (Scene.q 0 1) (Scene.q 0 1))
                  ltac:(lia))).
Defined.
